(** * Pura: persistent maps, order index and draft engine

    A shallow embedding of [packages/core/src/internal/hamt.ts],
    [order.ts], the proxy handlers ([createArrayProxy], [createMapProxy],
    [createSetProxy]), [nested-proxy.ts] and [produce] of the [index.ts]
    module, with the properties the specification states about them.

    32-bit integers are [Z] with the wrap-around written out ([toInt32],
    [toUint32]); JavaScript values are an inductive type; objects are named
    by a reference. *)

From Stdlib Require Import ZArith NArith PArith QArith List Bool Lia Decimal DecimalNat.
From Stdlib Require Ascii String.
Import String.StringSyntax.
Delimit Scope string_scope with string.
Import ListNotations.

#[local] Set Warnings "-register-all".

Local Open Scope Z_scope.
Local Open Scope list_scope.

(** ** 32-bit arithmetic of the host language *)

Module Int32.

Definition toInt32 (x : Z) : Z := (x + 2 ^ 31) mod 2 ^ 32 - 2 ^ 31.
Definition toUint32 (x : Z) : Z := x mod 2 ^ 32.

(** [a | b], [a & b], [a ^ b]: operands and result are int32. *)
Definition or (a b : Z) : Z := toInt32 (Z.lor (toInt32 a) (toInt32 b)).
Definition and (a b : Z) : Z := toInt32 (Z.land (toInt32 a) (toInt32 b)).
Definition xor (a b : Z) : Z := toInt32 (Z.lxor (toInt32 a) (toInt32 b)).

(** [a << n] and [a >>> n]: the shift count is taken modulo 32. *)
Definition shl (a n : Z) : Z := toInt32 (Z.shiftl (toInt32 a) (Z.land n 31)).
Definition ushr (a n : Z) : Z := Z.shiftr (toUint32 a) (Z.land n 31).

(** [Math.imul(a, b)]. *)
Definition imul (a b : Z) : Z := toInt32 (toInt32 a * toInt32 b).

End Int32.

Import Int32.

Arguments toInt32 : simpl never.
Arguments toUint32 : simpl never.
Arguments Int32.or : simpl never.
Arguments Int32.and : simpl never.
Arguments Int32.xor : simpl never.
Arguments shl : simpl never.
Arguments ushr : simpl never.
Arguments imul : simpl never.

(** ** Values of the host language *)

(** A number is NaN, an infinity, a signed zero, or a non-zero finite
    value [±(2h+1)·2^e]: every non-zero double has exactly one such form, so
    two numbers are the same value exactly when they are the same term. *)
Inductive jsnum : Type :=
| NaN
| Inf (neg : bool)
| Zero (neg : bool)
| Fin (neg : bool) (h : N) (e : Z).

(** Strings are sequences of UTF-16 code units.  A symbol, an object or a
    function is named by a unique identifier; for symbols and objects it is
    the sequence number that [SYM_HASH] / [OBJ_HASH] hold for the reference
    from its first hashing on. *)
Inductive jsval : Type :=
| VUndefined
| VNull
| VBool (b : bool)
| VNumber (n : jsnum)
| VString (s : list Z)
| VBigInt (z : Z)
| VSymbol (id : positive)
| VObject (id : positive)
| VFunction (id : positive).

Definition jsnum_eqb (a b : jsnum) : bool :=
  match a, b with
  | NaN, NaN => true
  | Inf s, Inf t => Bool.eqb s t
  | Zero s, Zero t => Bool.eqb s t
  | Fin s h e, Fin t g f => Bool.eqb s t && N.eqb h g && Z.eqb e f
  | _, _ => false
  end.

Fixpoint codes_eqb (s t : list Z) : bool :=
  match s, t with
  | [], [] => true
  | a :: s', b :: t' => Z.eqb a b && codes_eqb s' t'
  | _, _ => false
  end.

(** [Object.is(a, b)]. *)
Definition Object_is (a b : jsval) : bool :=
  match a, b with
  | VUndefined, VUndefined => true
  | VNull, VNull => true
  | VBool x, VBool y => Bool.eqb x y
  | VNumber x, VNumber y => jsnum_eqb x y
  | VString x, VString y => codes_eqb x y
  | VBigInt x, VBigInt y => Z.eqb x y
  | VSymbol x, VSymbol y => Pos.eqb x y
  | VObject x, VObject y => Pos.eqb x y
  | VFunction x, VFunction y => Pos.eqb x y
  | _, _ => false
  end.

(** [a === 0] for a number. *)
Definition num_is_zero (n : jsnum) : bool :=
  match n with Zero _ => true | _ => false end.

(** [a === b]: as [Object.is], but NaN differs from itself and the two zeros
    are equal. *)
Definition strictEquals (a b : jsval) : bool :=
  match a, b with
  | VNumber NaN, VNumber NaN => false
  | VNumber (Zero _), VNumber (Zero _) => true
  | _, _ => Object_is a b
  end.

(** from [hamt.ts]:
    if both are numbers and [a === 0 && b === 0] return true;
    return [Object.is(a, b)]. *)
Definition keyEquals (a b : jsval) : bool :=
  match a, b with
  | VNumber x, VNumber y =>
      if num_is_zero x && num_is_zero y then true else Object_is a b
  | _, _ => Object_is a b
  end.

(** A number key that is one of the two zeros. *)
Definition is_zero (a : jsval) : Prop :=
  match a with VNumber (Zero _) => True | _ => False end.

(** ** Hashing *)

(** [n | 0] for a number [n]. *)
Definition num_toInt32 (n : jsnum) : Z :=
  match n with
  | NaN | Inf _ | Zero _ => 0
  | Fin neg h e =>
      let t := Z.shiftl (2 * Z.of_N h + 1) e in
      toInt32 (if neg then - t else t)
  end.

(** [n * 4294967296]: scaling by [2^32] is exact on doubles; where the
    product overflows to an infinity, [| 0] reads 0 from it as it does from
    the exact product, a multiple of [2^32]. *)
Definition num_scale32 (n : jsnum) : jsnum :=
  match n with
  | Fin neg h e => Fin neg h (e + 32)
  | _ => n
  end.

(** Splitmix32 finalizer. *)
Definition mix32 (z : Z) : Z :=
  let z := toInt32 (z + 0x9e3779b9) in
  let z := xor z (ushr z 16) in
  let z := imul z 0x85ebca6b in
  let z := xor z (ushr z 13) in
  let z := imul z 0xc2b2ae35 in
  let z := xor z (ushr z 16) in
  toUint32 z.

Definition rotl (k n : Z) : Z := or (shl k n) (ushr k (32 - n)).

Definition murmur_k (k : Z) : Z :=
  let k := imul k 0xcc9e2d51 in
  let k := rotl k 15 in
  imul k 0x1b873593.

(** The [while (i + 4 <= key.length)] loop of [murmur3] followed by its
    [switch (key.length & 3)] tail; [h] is the running hash. *)
Fixpoint murmur3_body (s : list Z) (h : Z) : Z :=
  match s with
  | c0 :: c1 :: c2 :: c3 :: rest =>
      let k := or (or (or (Z.land c0 0xff) (shl (Z.land c1 0xff) 8))
                      (shl (Z.land c2 0xff) 16))
                  (shl (Z.land c3 0xff) 24) in
      let h := xor h (murmur_k k) in
      let h := rotl h 13 in
      let h := toInt32 (imul h 5 + 0xe6546b64) in
      murmur3_body rest h
  | [c0; c1; c2] =>
      let k := xor 0 (shl (Z.land c2 0xff) 16) in
      let k := xor k (shl (Z.land c1 0xff) 8) in
      let k := xor k (Z.land c0 0xff) in
      xor h (murmur_k k)
  | [c0; c1] =>
      let k := xor 0 (shl (Z.land c1 0xff) 8) in
      let k := xor k (Z.land c0 0xff) in
      xor h (murmur_k k)
  | [c0] =>
      let k := xor 0 (Z.land c0 0xff) in
      xor h (murmur_k k)
  | [] => h
  end.

(** Murmur3 32-bit hash for strings. *)
Definition murmur3 (key : list Z) (seed : Z) : Z :=
  let len := Z.of_nat (length key) in
  let h := xor seed len in
  let h := murmur3_body key h in
  let h := xor h len in
  let h := xor h (ushr h 16) in
  let h := imul h 0x85ebca6b in
  let h := xor h (ushr h 13) in
  let h := imul h 0xc2b2ae35 in
  let h := xor h (ushr h 16) in
  toUint32 h.

(** [key.toString()] of a bigint, as code units. *)
Fixpoint uint_codes (u : Decimal.uint) : list Z :=
  match u with
  | Nil => []
  | D0 u => 48 :: uint_codes u
  | D1 u => 49 :: uint_codes u
  | D2 u => 50 :: uint_codes u
  | D3 u => 51 :: uint_codes u
  | D4 u => 52 :: uint_codes u
  | D5 u => 53 :: uint_codes u
  | D6 u => 54 :: uint_codes u
  | D7 u => 55 :: uint_codes u
  | D8 u => 56 :: uint_codes u
  | D9 u => 57 :: uint_codes u
  end.

Definition bigint_toString (z : Z) : list Z :=
  match Z.to_int z with
  | Decimal.Pos u => uint_codes u
  | Decimal.Neg u => 45 :: uint_codes u
  end.

(** The inner loop [v = (v << 8) | chunk.charCodeAt(j)] over one chunk. *)
Definition chunk_value (chunk : list Z) : Z :=
  fold_left (fun v c => or (shl v 8) c) chunk 0.

(** [s.slice(i, i + 4)] for [i = 0, 4, 8, ...] *)
Fixpoint chunks4 (s : list Z) : list (list Z) :=
  match s with
  | [] => []
  | c0 :: c1 :: c2 :: c3 :: rest => [c0; c1; c2; c3] :: chunks4 rest
  | chunk => [chunk]
  end.

(** The outer loop of the bigint case: [h = mix32(h ^ v)] per chunk. *)
Definition bigint_hash (s : list Z) : Z :=
  fold_left (fun h chunk => mix32 (xor h (chunk_value chunk))) (chunks4 s) 0.

Arguments mix32 : simpl never.
Arguments murmur3 : simpl never.
Arguments bigint_hash : simpl never.

(** The double nearest to the integer [n >= 0], ties to the even
    significand: what a product of two integers is in the language once it
    passes [2^53]. *)
Definition nearest_double (n : Z) : Z :=
  if n <? 2 ^ 53 then n
  else
    let e := Z.log2 n - 52 in
    let q := Z.shiftr n e in
    let r := Z.land n (Z.ones e) in
    let half := 2 ^ (e - 1) in
    (if (r <? half) || ((r =? half) && Z.even q) then q else q + 1) * 2 ^ e.

(** [hashKey]; a symbol or an object is hashed by the number that [SYM_SEQ]
    or [OBJ_SEQ] gave it, here the identity the value carries. *)
Definition hashKey (key : jsval) : Z :=
  match key with
  | VString s => murmur3 s 0
  | VNumber x =>
      let n := if Object_is key (VNumber (Zero true)) then Zero false else x in
      mix32 (xor (num_toInt32 n) (imul (num_toInt32 (num_scale32 n)) 0x9e3779b1))
  | VBool b => if b then 0x27d4eb2d else 0x165667b1
  | VBigInt z => bigint_hash (bigint_toString z)
  | VSymbol id => toUint32 (nearest_double (Z.pos id * 0x9e3779b1))
  | VNull => 0x811c9dc5
  | VObject id => toUint32 (nearest_double (Z.pos id * 0x85ebca77))
  | VUndefined | VFunction _ => 0x9747b28c
  end.

(** ** Bit utilities and owner tokens *)

Definition BITS : Z := 5.
Definition BRANCH_FACTOR : Z := 32.
Definition MASK : Z := 31.

(** Modelled from the spec: [popcount] of [utils.ts] is not among the
    sources; the specification names it the population count of a 32-bit
    word. *)
Definition count_below (x : Z) (n : nat) : nat :=
  length (filter (fun i => Z.testbit x (Z.of_nat i)) (seq 0 n)).

Definition popcount (x : Z) : Z := Z.of_nat (count_below x 32).

(** [Owner = object | undefined]: an owner token is an object, named by its
    identity. *)
Definition Owner : Type := option positive.

(** [owner && node.owner === owner] *)
Definition owner_is (node_owner owner : Owner) : bool :=
  match owner, node_owner with
  | Some o, Some o' => Pos.eqb o' o
  | _, _ => false
  end.

(** What a function that may hand back its own argument returns: the
    argument itself (same reference) or a newly allocated object. *)
Inductive ret (A : Type) : Type :=
| Itself
| Fresh (a : A).

Arguments Itself {A}.
Arguments Fresh {A} a.

Definition ret_val {A : Type} (old : A) (r : ret A) : A :=
  match r with Itself => old | Fresh a => a end.

Definition is_itself {A : Type} (r : ret A) : bool :=
  match r with Itself => true | Fresh _ => false end.

(** ** Array primitives used by the tries *)

(** [arr[i] = x] on a dense array, for [i] within the array. *)
Fixpoint set_nth {A : Type} (l : list A) (i : nat) (x : A) : list A :=
  match l, i with
  | [], _ => []
  | _ :: l', O => x :: l'
  | a :: l', S i' => a :: set_nth l' i' x
  end.

(** [arr.splice(i, 0, x)] *)
Definition splice_in {A : Type} (l : list A) (i : nat) (x : A) : list A :=
  firstn i l ++ x :: skipn i l.

(** [arr.splice(i, 1)] *)
Definition splice_out {A : Type} (l : list A) (i : nat) : list A :=
  firstn i l ++ skipn (S i) l.

(** ** HAMT: hash array mapped trie ([hamt.ts]) *)

Section HAMT.

Context {V : Type}.

(** [a === b] on stored values. *)
Variable strictEq : V -> V -> bool.

Record HLeaf : Type := mkLeaf { key : jsval; hash : Z; value : V }.

Inductive HChild : Type :=
| Leaf (l : HLeaf)
| Collision (entries : list HLeaf)
| Node (owner : Owner) (bitmap : Z) (children : list HChild).

Record HMap : Type := mkMap { root : option HChild; size : Z }.

Definition hamtEmpty : HMap := {| root := None; size := 0 |}.

(** [ensureEditableHNode]: the node itself when it carries [owner], a copy
    stamped with [owner] otherwise.  Nodes are values here, so the edit of
    the node that comes back makes a new node.  In the source the edit of a
    node that carries [owner] is done in place, and a handle obtained
    earlier with the same owner, which shares that node, shows the edit
    while its [size] stays: such a handle is out of date, and what is stated
    below of a map built with an owner is stated of the handle that the last
    call returned.  Without an owner every call copies, and every handle
    keeps its contents. *)
Definition ensureEditableHNode (node_owner : Owner) (bitmap : Z)
    (children : list HChild) (owner : Owner) : HChild :=
  if owner_is node_owner owner then Node node_owner bitmap children
  else Node owner bitmap children.

(** The recursion of [mergeLeaves] has no bound of its own in the source;
    [fuel] counts the levels still allowed and [None] stands for a call
    that does not return. *)
Fixpoint mergeLeaves (fuel : nat) (leaf1 leaf2 : HLeaf) (owner : Owner)
    (shift : Z) : option HChild :=
  match fuel with
  | O => None
  | S fuel' =>
      let idx1 := Int32.and (ushr (hash leaf1) shift) MASK in
      let idx2 := Int32.and (ushr (hash leaf2) shift) MASK in
      if idx1 =? idx2 then
        let bit := shl 1 idx1 in
        match mergeLeaves fuel' leaf1 leaf2 owner (shift + BITS) with
        | Some child => Some (Node owner bit [child])
        | None => None
        end
      else
        let bit1 := shl 1 idx1 in
        let bit2 := shl 1 idx2 in
        let bitmap := Int32.or bit1 bit2 in
        let children :=
          if idx1 <? idx2 then [Leaf leaf1; Leaf leaf2]
          else [Leaf leaf2; Leaf leaf1] in
        Some (Node owner bitmap children)
  end.

Arguments mergeLeaves : simpl never.

(** Levels granted to [mergeLeaves]: two distinct 32-bit hashes part
    within 32 levels from any shift. *)
Definition MERGE_FUEL : nat := 33.

(** The [for] loop over a collision bucket: index of the first entry whose
    key equals [k]. *)
Fixpoint findEntry (entries : list HLeaf) (k : jsval) : option nat :=
  match entries with
  | [] => None
  | e :: rest =>
      if keyEquals (key e) k then Some O
      else option_map S (findEntry rest k)
  end.

Record InsertResult : Type :=
  mkIns { ins_node : HChild; added : bool; changed : bool }.

Record RemoveResult : Type :=
  mkRem { rem_node : option HChild; removed : bool }.

(** [hamtInsert] on a non-null node.  [None] stands for a call outside the
    model: a merge that does not return, or a branch whose [children] array
    is shorter than its bitmap says. *)
Fixpoint hamtInsertNode (node : HChild) (owner : Owner) (h : Z) (k : jsval)
    (v : V) (shift : Z) : option InsertResult :=
  match node with
  | Leaf leaf =>
      if (hash leaf =? h) && keyEquals (key leaf) k then
        if strictEq (value leaf) v then
          Some (mkIns (Leaf leaf) false false)
        else
          Some (mkIns (Leaf (mkLeaf k h v)) false true)
      else if (hash leaf =? h) && negb (keyEquals (key leaf) k) then
        Some (mkIns (Collision [leaf; mkLeaf k h v]) true true)
      else
        match mergeLeaves MERGE_FUEL leaf (mkLeaf k h v) owner shift with
        | Some merged => Some (mkIns merged true true)
        | None => None
        end
  | Collision entries =>
      match findEntry entries k with
      | Some idx =>
          match nth_error entries idx with
          | Some existing =>
              if strictEq (value existing) v then
                Some (mkIns node false false)
              else
                Some (mkIns (Collision (set_nth entries idx (mkLeaf k h v)))
                            false true)
          | None => None
          end
      | None =>
          Some (mkIns (Collision (entries ++ [mkLeaf k h v])) true true)
      end
  | Node n_owner n_bitmap n_children =>
      let idx := Int32.and (ushr h shift) MASK in
      let bit := shl 1 idx in
      let hasSlot := negb (Int32.and n_bitmap bit =? 0) in
      let packedIdx := Z.to_nat (popcount (Int32.and n_bitmap (bit - 1))) in
      if negb hasSlot then
        let newChildren := splice_in n_children packedIdx (Leaf (mkLeaf k h v)) in
        Some (mkIns (Node owner (Int32.or n_bitmap bit) newChildren) true true)
      else
        let res :=
          (fix at_child (cs : list HChild) (i : nat) : option InsertResult :=
             match cs, i with
             | [], _ => None
             | child :: _, O => hamtInsertNode child owner h k v (shift + BITS)
             | _ :: cs', S i' => at_child cs' i'
             end) n_children packedIdx in
        match res with
        | None => None
        | Some res =>
            if negb (changed res) && negb (added res) then
              Some (mkIns node false false)
            else
              match ensureEditableHNode n_owner n_bitmap n_children owner with
              | Node e_owner e_bitmap e_children =>
                  Some (mkIns (Node e_owner e_bitmap
                                 (set_nth e_children packedIdx (ins_node res)))
                              (added res) true)
              | _ => None
              end
        end
  end.

Definition hamtInsert (node : option HChild) (owner : Owner) (h : Z)
    (k : jsval) (v : V) (shift : Z) : option InsertResult :=
  match node with
  | None => Some (mkIns (Leaf (mkLeaf k h v)) true true)
  | Some n => hamtInsertNode n owner h k v shift
  end.

(** [children.length === 1 && children[0].kind !== 'node']: the only
    child, when it is a leaf or a collision bucket. *)
Definition soleNonBranch (children : list HChild) : option HChild :=
  match children with
  | [Leaf l] => Some (Leaf l)
  | [Collision es] => Some (Collision es)
  | _ => None
  end.

(** [hamtRemove] on a non-null node. *)
Fixpoint hamtRemoveNode (node : HChild) (owner : Owner) (h : Z) (k : jsval)
    (shift : Z) : option RemoveResult :=
  match node with
  | Leaf leaf =>
      if (hash leaf =? h) && keyEquals (key leaf) k then
        Some (mkRem None true)
      else Some (mkRem (Some node) false)
  | Collision entries =>
      match findEntry entries k with
      | None => Some (mkRem (Some node) false)
      | Some idx =>
          if Nat.eqb (length entries) 1 then Some (mkRem None true)
          else
            let newEntries := splice_out entries idx in
            match newEntries with
            | [only] => Some (mkRem (Some (Leaf only)) true)
            | _ => Some (mkRem (Some (Collision newEntries)) true)
            end
      end
  | Node n_owner n_bitmap n_children =>
      let idx := Int32.and (ushr h shift) MASK in
      let bit := shl 1 idx in
      if Int32.and n_bitmap bit =? 0 then Some (mkRem (Some node) false)
      else
        let packedIdx := Z.to_nat (popcount (Int32.and n_bitmap (bit - 1))) in
        let res :=
          (fix at_child (cs : list HChild) (i : nat) : option RemoveResult :=
             match cs, i with
             | [], _ => None
             | child :: _, O => hamtRemoveNode child owner h k (shift + BITS)
             | _ :: cs', S i' => at_child cs' i'
             end) n_children packedIdx in
        match res with
        | None => None
        | Some res =>
            if negb (removed res) then Some (mkRem (Some node) false)
            else
              match rem_node res with
              | None =>
                  let newBitmap := Int32.xor n_bitmap bit in
                  if newBitmap =? 0 then Some (mkRem None true)
                  else
                    let newChildren := splice_out n_children packedIdx in
                    match soleNonBranch newChildren with
                    | Some only => Some (mkRem (Some only) true)
                    | None =>
                        Some (mkRem (Some (Node owner newBitmap newChildren)) true)
                    end
              | Some child' =>
                  match ensureEditableHNode n_owner n_bitmap n_children owner with
                  | Node e_owner e_bitmap e_children =>
                      Some (mkRem (Some (Node e_owner e_bitmap
                                           (set_nth e_children packedIdx child')))
                                  true)
                  | _ => None
                  end
              end
        end
  end.

Definition hamtRemove (node : option HChild) (owner : Owner) (h : Z)
    (k : jsval) (shift : Z) : option RemoveResult :=
  match node with
  | None => Some (mkRem None false)
  | Some n => hamtRemoveNode n owner h k shift
  end.

(** The scan of a collision bucket in [hamtGet]. *)
Fixpoint scanEntries (entries : list HLeaf) (k : jsval) : option V :=
  match entries with
  | [] => None
  | e :: rest => if keyEquals (key e) k then Some (value e) else scanEntries rest k
  end.

(** The [while (node)] loop of [hamtGet]; [None] is [undefined]. *)
Fixpoint hamtGetLoop (node : HChild) (h : Z) (k : jsval) (shift : Z)
    : option V :=
  match node with
  | Leaf leaf =>
      if (hash leaf =? h) && keyEquals (key leaf) k then Some (value leaf)
      else None
  | Collision entries => scanEntries entries k
  | Node _ n_bitmap n_children =>
      let idx := Int32.and (ushr h shift) MASK in
      let bit := shl 1 idx in
      if Int32.and n_bitmap bit =? 0 then None
      else
        let packedIdx := Z.to_nat (popcount (Int32.and n_bitmap (bit - 1))) in
        (fix at_child (cs : list HChild) (i : nat) : option V :=
           match cs, i with
           | [], _ => None
           | child :: _, O => hamtGetLoop child h k (shift + BITS)
           | _ :: cs', S i' => at_child cs' i'
           end) n_children packedIdx
  end.

Definition hamtGet (map : HMap) (k : jsval) : option V :=
  match root map with
  | None => None
  | Some (Leaf leaf) => if keyEquals (key leaf) k then Some (value leaf) else None
  | Some node => hamtGetLoop node (hashKey k) k 0
  end.

Fixpoint hamtHasLoop (node : HChild) (h : Z) (k : jsval) (shift : Z) : bool :=
  match node with
  | Leaf leaf => (hash leaf =? h) && keyEquals (key leaf) k
  | Collision entries => existsb (fun e => keyEquals (key e) k) entries
  | Node _ n_bitmap n_children =>
      let idx := Int32.and (ushr h shift) MASK in
      let bit := shl 1 idx in
      if Int32.and n_bitmap bit =? 0 then false
      else
        let packedIdx := Z.to_nat (popcount (Int32.and n_bitmap (bit - 1))) in
        (fix at_child (cs : list HChild) (i : nat) : bool :=
           match cs, i with
           | [], _ => false
           | child :: _, O => hamtHasLoop child h k (shift + BITS)
           | _ :: cs', S i' => at_child cs' i'
           end) n_children packedIdx
  end.

Definition hamtHas (map : HMap) (k : jsval) : bool :=
  match root map with
  | None => false
  | Some (Leaf leaf) => keyEquals (key leaf) k
  | Some node => hamtHasLoop node (hashKey k) k 0
  end.

(** [hamtSet] hands back [map] itself when nothing changed. *)
Definition hamtSet (map : HMap) (owner : Owner) (k : jsval) (v : V)
    : option (ret HMap) :=
  let h := hashKey k in
  match hamtInsert (root map) owner h k v 0 with
  | None => None
  | Some res =>
      if negb (changed res) then Some Itself
      else Some (Fresh {| root := Some (ins_node res);
                          size := size map + (if added res then 1 else 0) |})
  end.

Definition hamtDelete (map : HMap) (owner : Owner) (k : jsval)
    : option (ret HMap) :=
  match root map with
  | None => Some Itself
  | Some _ =>
      let h := hashKey k in
      match hamtRemove (root map) owner h k 0 with
      | None => None
      | Some res =>
          if negb (removed res) then Some Itself
          else Some (Fresh {| root := rem_node res; size := size map - 1 |})
      end
  end.

(** [hamtIter]: depth-first, children left to right. *)
Fixpoint hamtIterNode (node : HChild) : list (jsval * V) :=
  match node with
  | Leaf leaf => [(key leaf, value leaf)]
  | Collision entries => map (fun e => (key e, value e)) entries
  | Node _ _ n_children =>
      (fix all (cs : list HChild) : list (jsval * V) :=
         match cs with
         | [] => []
         | c :: cs' => hamtIterNode c ++ all cs'
         end) n_children
  end.

Definition hamtToEntries (map : HMap) : list (jsval * V) :=
  match root map with
  | None => []
  | Some node => hamtIterNode node
  end.

End HAMT.

Arguments HLeaf V : clear implicits.
Arguments HChild V : clear implicits.
Arguments HMap V : clear implicits.
Arguments InsertResult V : clear implicits.
Arguments RemoveResult V : clear implicits.

(** [(h >>> shift) & MASK] *)
Definition chunk (h shift : Z) : Z := Int32.and (ushr h shift) MASK.

Arguments chunk : simpl never.

(** ** Reading a branch, and the shape every reachable trie has *)

Section Shape.

Context {V : Type}.
Variable strictEq : V -> V -> bool.

(** The child a branch holds for index [idx]:
    [children[popcount(bitmap & (bit - 1))]] when the bit is set. *)
Definition child_at (bm : Z) (cs : list (HChild V)) (idx : Z)
    : option (HChild V) :=
  if Z.testbit bm idx then nth_error cs (count_below bm (Z.to_nat idx))
  else None.

Definition leaf_ok (l : HLeaf V) : Prop := hash l = hashKey (key l).

(** No two entries of a bucket hold equal keys. *)
Fixpoint distinct_keys (es : list (HLeaf V)) : Prop :=
  match es with
  | [] => True
  | e :: rest =>
      Forall (fun e' => keyEquals (key e) (key e') = false) rest /\
      distinct_keys rest
  end.

(** The entries below a node, left to right. *)
Fixpoint leaves_of (node : HChild V) : list (HLeaf V) :=
  match node with
  | Leaf l => [l]
  | Collision es => es
  | Node _ _ cs =>
      (fix all (cs : list (HChild V)) : list (HLeaf V) :=
         match cs with
         | [] => []
         | c :: cs' => leaves_of c ++ all cs'
         end) cs
  end.

(** Every entry below [c] takes index [idx] at shift [s]. *)
Definition routed (s idx : Z) (c : HChild V) : Prop :=
  Forall (fun e => chunk (hash e) s = idx) (leaves_of c).

(** The data-model invariant of section 3 for a node at shift [s]: every
    leaf stores the hash of its key, a bucket holds a key once,
    [children.length == popcount(bitmap)], and the index bit of a child is
    [(hash >> s) & 31] for every entry below it. *)
Inductive wf : Z -> HChild V -> Prop :=
| wf_leaf s l : leaf_ok l -> wf s (Leaf l)
| wf_collision s es :
    Forall leaf_ok es -> distinct_keys es -> wf s (Collision es)
| wf_node s o bm cs :
    length cs = count_below bm 32 ->
    Forall (wf (s + BITS)) cs ->
    (forall idx c, 0 <= idx < 32 -> child_at bm cs idx = Some c ->
                   routed s idx c) ->
    wf s (Node o bm cs).

Definition wf_map (m : HMap V) : Prop :=
  match root m with
  | None => True
  | Some n => wf 0 n
  end.

(** Whether the walk of [hamtGet] from [node] finds [k], and whether it
    finds it with a value [=== v]. *)
Definition stored (node : HChild V) (h : Z) (k : jsval) (s : Z) : bool :=
  match hamtGetLoop node h k s with Some _ => true | None => false end.

Definition stored_same (node : HChild V) (h : Z) (k : jsval) (v : V) (s : Z)
    : bool :=
  match hamtGetLoop node h k s with
  | Some w => strictEq w v
  | None => false
  end.

(** The walk of [hamtGet] from a root that may be null. *)
Definition getOpt (node : option (HChild V)) (h : Z) (k : jsval) (s : Z)
    : option V :=
  match node with
  | Some n => hamtGetLoop n h k s
  | None => None
  end.

(** The runs of [hamtInsert] on a non-null node, one rule per path through
    its body: [Ins node owner h k v s res] reads "the call returns [res]". *)
Inductive Ins (owner : Owner) (h : Z) (k : jsval) (v : V)
    : HChild V -> Z -> InsertResult V -> Prop :=
| Ins_leaf_same l s :
    hash l = h -> keyEquals (key l) k = true ->
    strictEq (value l) v = true ->
    Ins owner h k v (Leaf l) s (mkIns (Leaf l) false false)
| Ins_leaf_update l s :
    hash l = h -> keyEquals (key l) k = true ->
    strictEq (value l) v = false ->
    Ins owner h k v (Leaf l) s (mkIns (Leaf (mkLeaf k h v)) false true)
| Ins_leaf_collide l s :
    hash l = h -> keyEquals (key l) k = false ->
    Ins owner h k v (Leaf l) s (mkIns (Collision [l; mkLeaf k h v]) true true)
| Ins_leaf_merge l s merged :
    hash l <> h ->
    mergeLeaves MERGE_FUEL l (mkLeaf k h v) owner s = Some merged ->
    Ins owner h k v (Leaf l) s (mkIns merged true true)
| Ins_collision_same es s idx existing :
    findEntry es k = Some idx -> nth_error es idx = Some existing ->
    strictEq (value existing) v = true ->
    Ins owner h k v (Collision es) s (mkIns (Collision es) false false)
| Ins_collision_update es s idx existing :
    findEntry es k = Some idx -> nth_error es idx = Some existing ->
    strictEq (value existing) v = false ->
    Ins owner h k v (Collision es) s
      (mkIns (Collision (set_nth es idx (mkLeaf k h v))) false true)
| Ins_collision_append es s :
    findEntry es k = None ->
    Ins owner h k v (Collision es) s
      (mkIns (Collision (es ++ [mkLeaf k h v])) true true)
| Ins_node_vacant o bm cs s :
    Z.testbit bm (chunk h s) = false ->
    Ins owner h k v (Node o bm cs) s
      (mkIns (Node owner (Int32.or bm (shl 1 (chunk h s)))
                (splice_in cs (count_below bm (Z.to_nat (chunk h s)))
                   (Leaf (mkLeaf k h v)))) true true)
| Ins_node_same o bm cs s c res :
    Z.testbit bm (chunk h s) = true ->
    nth_error cs (count_below bm (Z.to_nat (chunk h s))) = Some c ->
    Ins owner h k v c (s + BITS) res ->
    changed res = false -> added res = false ->
    Ins owner h k v (Node o bm cs) s (mkIns (Node o bm cs) false false)
| Ins_node_edit o bm cs s c res :
    Z.testbit bm (chunk h s) = true ->
    nth_error cs (count_below bm (Z.to_nat (chunk h s))) = Some c ->
    Ins owner h k v c (s + BITS) res ->
    negb (changed res) && negb (added res) = false ->
    Ins owner h k v (Node o bm cs) s
      (mkIns (Node (if owner_is o owner then o else owner) bm
                (set_nth cs (count_below bm (Z.to_nat (chunk h s)))
                   (ins_node res)))
             (added res) true).

(** The runs of [hamtRemove] on a non-null node. *)
Inductive Rem (owner : Owner) (h : Z) (k : jsval)
    : HChild V -> Z -> RemoveResult V -> Prop :=
| Rem_leaf_hit l s :
    hash l = h -> keyEquals (key l) k = true ->
    Rem owner h k (Leaf l) s (mkRem None true)
| Rem_leaf_miss l s :
    (hash l =? h) && keyEquals (key l) k = false ->
    Rem owner h k (Leaf l) s (mkRem (Some (Leaf l)) false)
| Rem_collision_miss es s :
    findEntry es k = None ->
    Rem owner h k (Collision es) s (mkRem (Some (Collision es)) false)
| Rem_collision_last es s idx :
    findEntry es k = Some idx -> length es = 1%nat ->
    Rem owner h k (Collision es) s (mkRem None true)
| Rem_collision_pair es s idx only :
    findEntry es k = Some idx -> length es <> 1%nat ->
    splice_out es idx = [only] ->
    Rem owner h k (Collision es) s (mkRem (Some (Leaf only)) true)
| Rem_collision_more es s idx :
    findEntry es k = Some idx -> length es <> 1%nat ->
    length (splice_out es idx) <> 1%nat ->
    Rem owner h k (Collision es) s
      (mkRem (Some (Collision (splice_out es idx))) true)
| Rem_node_vacant o bm cs s :
    Z.testbit bm (chunk h s) = false ->
    Rem owner h k (Node o bm cs) s (mkRem (Some (Node o bm cs)) false)
| Rem_node_miss o bm cs s c res :
    Z.testbit bm (chunk h s) = true ->
    nth_error cs (count_below bm (Z.to_nat (chunk h s))) = Some c ->
    Rem owner h k c (s + BITS) res -> removed res = false ->
    Rem owner h k (Node o bm cs) s (mkRem (Some (Node o bm cs)) false)
| Rem_node_empty o bm cs s c res :
    Z.testbit bm (chunk h s) = true ->
    nth_error cs (count_below bm (Z.to_nat (chunk h s))) = Some c ->
    Rem owner h k c (s + BITS) res -> removed res = true ->
    rem_node res = None ->
    Int32.xor bm (shl 1 (chunk h s)) = 0 ->
    Rem owner h k (Node o bm cs) s (mkRem None true)
| Rem_node_collapse o bm cs s c res only :
    Z.testbit bm (chunk h s) = true ->
    nth_error cs (count_below bm (Z.to_nat (chunk h s))) = Some c ->
    Rem owner h k c (s + BITS) res -> removed res = true ->
    rem_node res = None ->
    Int32.xor bm (shl 1 (chunk h s)) <> 0 ->
    soleNonBranch (splice_out cs (count_below bm (Z.to_nat (chunk h s))))
      = Some only ->
    Rem owner h k (Node o bm cs) s (mkRem (Some only) true)
| Rem_node_shrink o bm cs s c res :
    Z.testbit bm (chunk h s) = true ->
    nth_error cs (count_below bm (Z.to_nat (chunk h s))) = Some c ->
    Rem owner h k c (s + BITS) res -> removed res = true ->
    rem_node res = None ->
    Int32.xor bm (shl 1 (chunk h s)) <> 0 ->
    soleNonBranch (splice_out cs (count_below bm (Z.to_nat (chunk h s))))
      = None ->
    Rem owner h k (Node o bm cs) s
      (mkRem (Some (Node owner (Int32.xor bm (shl 1 (chunk h s)))
                      (splice_out cs (count_below bm (Z.to_nat (chunk h s))))))
             true)
| Rem_node_edit o bm cs s c res child' :
    Z.testbit bm (chunk h s) = true ->
    nth_error cs (count_below bm (Z.to_nat (chunk h s))) = Some c ->
    Rem owner h k c (s + BITS) res -> removed res = true ->
    rem_node res = Some child' ->
    Rem owner h k (Node o bm cs) s
      (mkRem (Some (Node (if owner_is o owner then o else owner) bm
                      (set_nth cs (count_below bm (Z.to_nat (chunk h s)))
                         child')))
             true).

(** Maps built from [hamtEmpty] by [hamtSet] and [hamtDelete]. *)
Inductive reachable : HMap V -> Prop :=
| reach_empty : reachable hamtEmpty
| reach_set m owner k v r :
    reachable m -> hamtSet strictEq m owner k v = Some r ->
    reachable (ret_val m r)
| reach_delete m owner k r :
    reachable m -> hamtDelete m owner k = Some r ->
    reachable (ret_val m r).

(** Maps built from [hamtEmpty] by [hamtSet] and [hamtDelete] called
    without an owner: no node of such a map is edited after the call that
    made it. *)
Inductive persistent : HMap V -> Prop :=
| persist_empty : persistent hamtEmpty
| persist_set m k v r :
    persistent m -> hamtSet strictEq m None k v = Some r ->
    persistent (ret_val m r)
| persist_delete m k r :
    persistent m -> hamtDelete m None k = Some r ->
    persistent (ret_val m r).

End Shape.


(** ** Values used in the examples *)

(** The odd part and the exponent of a positive integer. *)
Fixpoint odd_part (p : positive) : N * Z :=
  match p with
  | xO p' => let (h, e) := odd_part p' in (h, e + 1)
  | xI p' => (Npos p', 0)
  | xH => (0%N, 0)
  end.

(** The number whose value is the integer [z]. *)
Definition jsnum_of_Z (z : Z) : jsnum :=
  match z with
  | Z0 => Zero false
  | Zpos p => let (h, e) := odd_part p in Fin false h e
  | Zneg p => let (h, e) := odd_part p in Fin true h e
  end.

Definition num (z : Z) : jsval := VNumber (jsnum_of_Z z).

(** The string with the code units of [s]. *)
Definition str (s : String.string) : jsval :=
  VString (List.map (fun c => Z.of_nat (Ascii.nat_of_ascii c))
             (String.list_ascii_of_string s)).

Definition posZero : jsval := VNumber (Zero false).
Definition negZero : jsval := VNumber (Zero true).

(** User maps hold values of the host language, compared with [===]. *)
Definition JMap : Type := HMap jsval.

(** [{ "a" -> +0 }] *)
Definition map_a_zero : JMap :=
  {| root := Some (Leaf {| key := str "a"%string; hash := hashKey (str "a"%string);
                           value := posZero |});
     size := 1 |}.

(** [{ +0 -> +0 }] *)
Definition map_zero_zero : JMap :=
  {| root := Some (Leaf {| key := posZero; hash := hashKey posZero;
                           value := posZero |});
     size := 1 |}.

(** [{ "a" -> NaN }] *)
Definition map_a_nan : JMap :=
  {| root := Some (Leaf {| key := str "a"%string; hash := hashKey (str "a"%string);
                           value := VNumber NaN |});
     size := 1 |}.

(** [{ 0 -> "x", 6 -> "y" }]: the hashes of 0 and 6 agree on their low five
    bits and part on the next five. *)
Definition map_0_6 : JMap :=
  {| root :=
       Some (Node None 16384
               [Node None 20971520
                  [Leaf {| key := num 6; hash := hashKey (num 6);
                           value := str "y"%string |};
                   Leaf {| key := num 0; hash := hashKey (num 0);
                           value := str "x"%string |}]]);
     size := 2 |}.

(** No branch below [node] has exactly one child that is a leaf or a
    collision bucket. *)
Fixpoint no_lone_entry {V : Type} (node : HChild V) : bool :=
  match node with
  | Leaf _ | Collision _ => true
  | Node _ _ cs =>
      match soleNonBranch cs with
      | Some _ => false
      | None =>
          (fix all (cs : list (HChild V)) : bool :=
             match cs with
             | [] => true
             | c :: cs' => no_lone_entry c && all cs'
             end) cs
      end
  end.

(** ** Outcomes of calls *)

(** What a call may raise: the [IndexError] of the vector, or whatever value
    user code throws. *)
Inductive exn : Type :=
| IndexError
| Thrown (e : jsval).

(** A call returns, raises, or leaves the model (a trie that the functions
    above give no result for). *)
Inductive result (A : Type) : Type :=
| Ok (a : A)
| Throw (e : exn)
| Stuck.

Arguments Ok {A} a.
Arguments Throw {A} e.
Arguments Stuck {A}.

Definition bind {A B : Type} (r : result A) (f : A -> result B) : result B :=
  match r with
  | Ok a => f a
  | Throw e => Throw e
  | Stuck => Stuck
  end.

Declare Scope result_scope.
Delimit Scope result_scope with result.
Notation "x <- r ;; k" := (bind r (fun x => k))
  (at level 61, r at next level, right associativity) : result_scope.
Notation "' p <- r ;; k" := (bind r (fun x => let p := x in k))
  (at level 61, p pattern, r at next level, right associativity) : result_scope.
Open Scope result_scope.

(** The value of a call that hands back its argument or a new object. *)
Definition returned {A : Type} (old : A) (r : option (ret A)) : result A :=
  match r with
  | Some r' => Ok (ret_val old r')
  | None => Stuck
  end.

(** ** Vec *)

Section Vec.

Context {T : Type}.

(** Modelled from the spec: a Vec is an indexed sequence of [T] with a
    [count]; the trie and the tail that hold it are not modelled. *)
Definition Vec : Type := list T.

(** Modelled from the spec: the empty Vec has [count = 0]. *)
Definition emptyVec : Vec := [].

(** Modelled from the spec: the number of elements. *)
Definition count (v : Vec) : nat := length v.

(** Modelled from the spec: [get(i)] returns the i-th element or
    [undefined] ([None]) out of range. *)
Definition vecGet (v : Vec) (i : nat) : option T := nth_error v i.

(** Modelled from the spec: [assoc(owner, i, v)] returns a Vec equal to
    this one except that position [i] holds [v], and fails with
    [IndexError] if [i] is not in [[0, count)]. *)
Definition vecAssoc (v : Vec) (owner : Owner) (i : nat) (x : T)
    : result Vec :=
  if (i <? count v)%nat then Ok (set_nth v i x) else Throw IndexError.

(** Modelled from the spec: [push(owner, v)] appends [v]. *)
Definition vecPush (v : Vec) (owner : Owner) (x : T) : Vec := v ++ [x].

(** Modelled from the spec: [pop(owner)] drops the last element and returns
    [(vec, popped)]; the empty Vec returns [(vec, undefined)]. *)
Definition vecPop (v : Vec) (owner : Owner) : Vec * option T :=
  match List.rev v with
  | [] => (v, None)
  | x :: front => (List.rev front, Some x)
  end.

(** Modelled from the spec: [fromArray] and [toArray] keep the elements in
    order, and iteration yields them in order. *)
Definition vecFromArray (xs : list T) : Vec := xs.
Definition vecToArray (v : Vec) : list T := v.
Definition vecIter (v : Vec) : list T := v.

End Vec.

Arguments Vec T : clear implicits.

(** ** The order index ([order.ts]) *)

(** A slot of [idxToKey] or [idxToVal]: a key or value, or the sentinel
    [DELETED] (a symbol of the library's own, which is no user value). *)
Inductive slot (A : Type) : Type :=
| Live (a : A)
| DELETED.

Arguments Live {A} a.
Arguments DELETED {A}.

Definition is_live {A : Type} (s : slot A) : bool :=
  match s with Live _ => true | DELETED => false end.

(** [ORDER_COMPACT_RATIO = 0.5] *)
Definition ORDER_COMPACT_RATIO : Q := 1 # 2.

Definition Q_of_nat (n : nat) : Q := inject_Z (Z.of_nat n).

(** [a > b] on numbers. *)
Definition Qgt_bool (a b : Q) : bool := negb (Qle_bool a b).

(** Slot numbers are non-negative integers; [===] on them is equality. *)
Record OrderIndex : Type := mkOrder {
  next : nat;
  keyToIdx : HMap nat;
  idxToKey : Vec (slot jsval);
  idxToVal : option (Vec (slot jsval));
  holes : nat
}.

Definition orderEmpty : OrderIndex :=
  {| next := 0; keyToIdx := hamtEmpty; idxToKey := emptyVec;
     idxToVal := None; holes := 0 |}.

(** [keyToIdx = hamtSet(keyToIdx, owner, k, i)] *)
Definition setIdx (m : HMap nat) (owner : Owner) (k : jsval) (i : nat)
    : result (HMap nat) :=
  returned m (hamtSet Nat.eqb m owner k i).

(** The loop of [orderFromBase]; [acc] is [(keyToIdx, keys, vals, i)]. *)
Fixpoint orderFromBase_loop (owner : Owner) (base : list (jsval * jsval))
    (acc : HMap nat * list (slot jsval) * list (slot jsval) * nat)
    : result (HMap nat * list (slot jsval) * list (slot jsval) * nat) :=
  match base with
  | [] => Ok acc
  | (k, v) :: rest =>
      let '(keyToIdx, keys, vals, i) := acc in
      keyToIdx' <- setIdx keyToIdx owner k i ;;
      orderFromBase_loop owner rest
        (keyToIdx', keys ++ [Live k], vals ++ [Live v], S i)
  end.

(** [orderFromBase(base)]; [base] is the entries of the native Map in its
    iteration order and [owner] the object that [const owner: Owner = {}]
    allocates. *)
Definition orderFromBase (owner : positive) (base : list (jsval * jsval))
    : result OrderIndex :=
  '(keyToIdx, keys, vals, i) <-
     orderFromBase_loop (Some owner) base (hamtEmpty, [], [], 0%nat) ;;
  Ok {| next := i; keyToIdx := keyToIdx; idxToKey := vecFromArray keys;
        idxToVal := Some (vecFromArray vals); holes := 0 |}.

Fixpoint orderFromSetBase_loop (owner : Owner) (base : list jsval)
    (acc : HMap nat * list (slot jsval) * nat)
    : result (HMap nat * list (slot jsval) * nat) :=
  match base with
  | [] => Ok acc
  | v :: rest =>
      let '(keyToIdx, keys, i) := acc in
      keyToIdx' <- setIdx keyToIdx owner v i ;;
      orderFromSetBase_loop owner rest (keyToIdx', keys ++ [Live v], S i)
  end.

Definition orderFromSetBase (owner : positive) (base : list jsval)
    : result OrderIndex :=
  '(keyToIdx, keys, i) <-
     orderFromSetBase_loop (Some owner) base (hamtEmpty, [], 0%nat) ;;
  Ok {| next := i; keyToIdx := keyToIdx; idxToKey := vecFromArray keys;
        idxToVal := None; holes := 0 |}.

Definition orderAppend (ord : OrderIndex) (owner : Owner) (key : jsval)
    : result OrderIndex :=
  let idx := next ord in
  keyToIdx' <- setIdx (keyToIdx ord) owner key idx ;;
  Ok {| next := idx + 1; keyToIdx := keyToIdx';
        idxToKey := vecPush (idxToKey ord) owner (Live key);
        idxToVal := None; holes := holes ord |}.

Definition orderAppendWithValue (ord : OrderIndex) (owner : Owner)
    (key value : jsval) : result OrderIndex :=
  let idx := next ord in
  keyToIdx' <- setIdx (keyToIdx ord) owner key idx ;;
  Ok {| next := idx + 1; keyToIdx := keyToIdx';
        idxToKey := vecPush (idxToKey ord) owner (Live key);
        idxToVal := match idxToVal ord with
                    | Some vals => Some (vecPush vals owner (Live value))
                    | None => None
                    end;
        holes := holes ord |}.

Definition orderUpdateValue (ord : OrderIndex) (owner : Owner)
    (key value : jsval) : result OrderIndex :=
  match idxToVal ord with
  | None => Ok ord
  | Some vals =>
      match hamtGet (keyToIdx ord) key with
      | None => Ok ord
      | Some idx =>
          vals' <- vecAssoc vals owner idx (Live value) ;;
          Ok {| next := next ord; keyToIdx := keyToIdx ord;
                idxToKey := idxToKey ord; idxToVal := Some vals';
                holes := holes ord |}
      end
  end.

(** [vecGet(ord.idxToVal, i) as V]: out of range it is [undefined]. *)
Definition valueAt (vals : Vec (slot jsval)) (i : nat) : slot jsval :=
  match vecGet vals i with
  | Some s => s
  | None => Live VUndefined
  end.

(** The loop of [orderCompact] from index [i] on, [keys] being the slots of
    [idxToKey] from [i]; [acc] is [(newKeyToIdx, newKeys, newVals, newIdx)]. *)
Fixpoint orderCompact_loop (owner : Owner) (vals : option (Vec (slot jsval)))
    (keys : list (slot jsval)) (i : nat)
    (acc : HMap nat * list (slot jsval) * option (list (slot jsval)) * nat)
    : result (HMap nat * list (slot jsval) * option (list (slot jsval)) * nat) :=
  match keys with
  | [] => Ok acc
  | DELETED :: rest => orderCompact_loop owner vals rest (S i) acc
  | Live k :: rest =>
      let '(newKeyToIdx, newKeys, newVals, newIdx) := acc in
      newKeyToIdx' <- setIdx newKeyToIdx owner k newIdx ;;
      let newVals' :=
        match newVals, vals with
        | Some nv, Some vs => Some (nv ++ [valueAt vs i])
        | _, _ => newVals
        end in
      orderCompact_loop owner vals rest (S i)
        (newKeyToIdx', newKeys ++ [Live k], newVals', S newIdx)
  end.

Definition orderCompact (ord : OrderIndex) (owner : Owner)
    : result OrderIndex :=
  if (holes ord =? 0)%nat then Ok ord
  else
    '(newKeyToIdx, newKeys, newVals, newIdx) <-
       orderCompact_loop owner (idxToVal ord) (vecIter (idxToKey ord)) 0
         (hamtEmpty, [],
          match idxToVal ord with Some _ => Some [] | None => None end,
          0%nat) ;;
    Ok {| next := newIdx; keyToIdx := newKeyToIdx;
          idxToKey := vecFromArray newKeys;
          idxToVal := match newVals with
                      | Some nv => Some (vecFromArray nv)
                      | None => None
                      end;
          holes := 0 |}.

Definition orderDelete (ord : OrderIndex) (owner : Owner) (key : jsval)
    : result OrderIndex :=
  match hamtGet (keyToIdx ord) key with
  | None => Ok ord
  | Some idx =>
      let newHoles := (holes ord + 1)%nat in
      keyToIdx' <- returned (keyToIdx ord)
                     (hamtDelete (keyToIdx ord) owner key) ;;
      idxToKey' <- vecAssoc (idxToKey ord) owner idx DELETED ;;
      idxToVal' <- match idxToVal ord with
                   | Some vals =>
                       vals' <- vecAssoc vals owner idx DELETED ;;
                       Ok (Some vals')
                   | None => Ok None
                   end ;;
      let result := {| next := next ord; keyToIdx := keyToIdx';
                       idxToKey := idxToKey'; idxToVal := idxToVal';
                       holes := newHoles |} in
      if Qgt_bool (Q_of_nat newHoles)
                  (Q_of_nat (next ord) * ORDER_COMPACT_RATIO)
         && (32 <? next ord)%nat
      then orderCompact result owner
      else Ok result
  end.

(** [orderIter]: the keys of the live slots, in slot order. *)
Fixpoint orderIter_slots (keys : list (slot jsval)) : list jsval :=
  match keys with
  | [] => []
  | Live k :: rest => k :: orderIter_slots rest
  | DELETED :: rest => orderIter_slots rest
  end.

Definition orderIter (ord : OrderIndex) : list jsval :=
  orderIter_slots (vecIter (idxToKey ord)).

(** [orderEntryIter]: both iterators advance together until one is done;
    the value slot is yielded as it is. *)
Fixpoint orderEntryIter_slots (keys vals : list (slot jsval))
    : list (jsval * slot jsval) :=
  match keys, vals with
  | k :: keys', v :: vals' =>
      match k with
      | Live k' => (k', v) :: orderEntryIter_slots keys' vals'
      | DELETED => orderEntryIter_slots keys' vals'
      end
  | _, _ => []
  end.

Definition orderEntryIter (ord : OrderIndex) : list (jsval * slot jsval) :=
  match idxToVal ord with
  | None => []
  | Some vals => orderEntryIter_slots (vecIter (idxToKey ord)) (vecIter vals)
  end.

(** The keys of a list are pairwise distinct under [keyEquals]. *)
Fixpoint distinct (ks : list jsval) : Prop :=
  match ks with
  | [] => True
  | k :: rest => (forall k', In k' rest -> keyEquals k k' = false) /\ distinct rest
  end.

(** An order index as its operations keep it: [next] is the number of
    slots, [keyToIdx] sends a key to a slot exactly when that slot is live
    and holds the key, and the value slots, when kept, are as many as the
    key slots. *)
Definition order_wf (ord : OrderIndex) : Prop :=
  wf_map (keyToIdx ord) /\
  next ord = count (idxToKey ord) /\
  (forall k i, hamtGet (keyToIdx ord) k = Some i <->
     exists k0, vecGet (idxToKey ord) i = Some (Live k0) /\
                keyEquals k0 k = true) /\
  match idxToVal ord with
  | Some vals => count vals = count (idxToKey ord)
  | None => True
  end.

(** The index right after the first half of [orderDelete]: the slot of
    [key] marked, one more hole, the key dropped from [keyToIdx]. *)
Definition marked (ord : OrderIndex) (idx : nat) (r : OrderIndex) : Prop :=
  next r = next ord /\
  holes r = (holes ord + 1)%nat /\
  idxToKey r = set_nth (idxToKey ord) idx DELETED /\
  idxToVal r = match idxToVal ord with
               | Some vals => Some (set_nth vals idx DELETED)
               | None => None
               end.

(** [m] sends a key to [j] exactly when the [j]-th key of [d] equals it. *)
Definition indexes (m : HMap nat) (d : list jsval) : Prop :=
  wf_map m /\
  forall k j, hamtGet m k = Some j <->
    exists k0, nth_error d j = Some k0 /\ keyEquals k0 k = true.

(** The value slots at the live key slots, [i] being the slot number of the
    first of [keys]. *)
Fixpoint liveValues (vals : Vec (slot jsval)) (keys : list (slot jsval))
    (i : nat) : list (slot jsval) :=
  match keys with
  | [] => []
  | Live _ :: rest => valueAt vals i :: liveValues vals rest (S i)
  | DELETED :: rest => liveValues vals rest (S i)
  end.

(** The index a call returned, for the examples. *)
Definition order_of (r : result OrderIndex) : OrderIndex :=
  match r with Ok ord => ord | _ => orderEmpty end.

(** [orderDelete] of each key in turn. *)
Fixpoint orderDeleteAll (ord : OrderIndex) (owner : Owner) (keys : list jsval)
    : result OrderIndex :=
  match keys with
  | [] => Ok ord
  | k :: rest => ord' <- orderDelete ord owner k ;; orderDeleteAll ord' owner rest
  end.

(** The index of the map [{ "a" -> 1, "b" -> 2 }]. *)
Definition order_a_b : OrderIndex :=
  order_of (orderFromBase 1 [(str "a"%string, num 1); (str "b"%string, num 2)]).

(** The numbers [from, from + 1, ..., from + n - 1] as keys. *)
Definition numbers (from : nat) (n : nat) : list jsval :=
  List.map (fun i => num (Z.of_nat i)) (seq from n).

(** The index of a map with the 33 keys [0 .. 32], each mapped to itself,
    after the keys [0 .. 15] were deleted. *)
Definition order_33_16 : OrderIndex :=
  order_of (ord <- orderFromBase 1 (List.map (fun k => (k, k)) (numbers 0 33)) ;;
            orderDeleteAll ord None (numbers 0 16)).

(** [distinct], decided. *)
Fixpoint distinctb (ks : list jsval) : bool :=
  match ks with
  | [] => true
  | k :: rest => forallb (fun k' => negb (keyEquals k k')) rest && distinctb rest
  end.

(** ** Objects and the heap *)

(** The native [Map] of the host language, as its entries in insertion
    order; [eq] is the key equality (SameValueZero on values, which is what
    [keyEquals] computes). *)
Section JSMap.

Context {K V : Type}.
Variable eq : K -> K -> bool.

Fixpoint jsmap_get (es : list (K * V)) (k : K) : option V :=
  match es with
  | [] => None
  | (k', v) :: rest => if eq k' k then Some v else jsmap_get rest k
  end.

Definition jsmap_has (es : list (K * V)) (k : K) : bool :=
  match jsmap_get es k with Some _ => true | None => false end.

(** [m.set(k, v)]: an existing key keeps its place. *)
Fixpoint jsmap_set (es : list (K * V)) (k : K) (v : V) : list (K * V) :=
  match es with
  | [] => [(k, v)]
  | (k', v') :: rest =>
      if eq k' k then (k', v) :: rest else (k', v') :: jsmap_set rest k v
  end.

Fixpoint jsmap_delete (es : list (K * V)) (k : K) : list (K * V) :=
  match es with
  | [] => []
  | (k', v') :: rest =>
      if eq k' k then rest else (k', v') :: jsmap_delete rest k
  end.

End JSMap.

(** An object is named by its reference, the [id] of [VObject]. *)
Definition ref : Type := positive.

(** The [onMutate] closures that the proxies are created with:
    [() => { state.modified = true }] of a root draft,
    [() => { getCopy() }] of a nested proxy, and a closure without effect
    ([() => {}] of [pura]; the closure of [produceObject], which sets a
    local variable that is never read). *)
Inductive callback : Type :=
| MarkModified (draft : ref)
| CopyParent (parent : ref)
| NoEffect.

(** [PuraArrayState]; the leaf cache and the method cache, which hold
    nothing but what [vec] holds, are left out. *)
Module ArrayState.
Record t : Type := make {
  vec : Vec jsval;
  isDraft : bool;
  owner : Owner;
  modified : bool;
  proxies : option (list (nat * jsval))
}.
End ArrayState.

(** [HMapState] *)
Module MapState.
Record t : Type := make {
  map : HMap jsval;
  isDraft : bool;
  owner : Owner;
  modified : bool;
  valueProxies : option (list (jsval * jsval));
  ordered : option OrderIndex
}.
End MapState.

(** [HSetState] *)
Module SetState.
Record t : Type := make {
  map : HMap jsval;
  isDraft : bool;
  owner : Owner;
  modified : bool;
  ordered : option OrderIndex
}.
End SetState.

(** The variables that the closures of [createNestedProxy] share. *)
Module NestedState.
Record t : Type := make {
  base : ref;
  copy : option ref;
  childProxies : list (jsval * jsval);
  onMutate : callback
}.
End NestedState.

(** The variables that the closures of [createNestedMapProxy] and
    [createNestedSetProxy] share. *)
Module NestedCollState.
Record t : Type := make {
  base : ref;
  copy : option ref;
  modified : bool;
  onMutate : callback
}.
End NestedCollState.

(** What a reference holds: a plain object with its own properties, a
    native array, Map or Set, an object the engine does not look into (an
    owner token, a Date, a RegExp, ...), or one of the proxies with the
    state its handlers close over. *)
Inductive cell : Type :=
| Plain (props : list (jsval * jsval))
| NativeArray (elems : list jsval)
| NativeMap (entries : list (jsval * jsval))
| NativeSet (elems : list jsval)
| Opaque
| ArrayProxy (st : ArrayState.t)
| MapProxy (st : MapState.t)
| SetProxy (st : SetState.t)
| NestedProxy (st : NestedState.t)
| NestedMapProxy (st : NestedCollState.t)
| NestedSetProxy (st : NestedCollState.t).

(** The heap, and [PROXY_CACHE] of [pura]. *)
Record World : Type := mkWorld {
  heap : list cell;
  PROXY_CACHE : list (ref * ref)
}.

Definition slot_of (r : ref) : nat := (Pos.to_nat r - 1)%nat.

Definition lookup (w : World) (r : ref) : option cell :=
  nth_error (heap w) (slot_of r).

(** The reference that the next allocation returns. *)
Definition next_ref (w : World) : ref := Pos.of_succ_nat (length (heap w)).

Definition alloc (w : World) (c : cell) : World * ref :=
  ({| heap := heap w ++ [c]; PROXY_CACHE := PROXY_CACHE w |}, next_ref w).

Definition update (w : World) (r : ref) (c : cell) : World :=
  {| heap := set_nth (heap w) (slot_of r) c; PROXY_CACHE := PROXY_CACHE w |}.

(** A call on the heap returns with a new heap, raises with the heap as it
    left it, or does something that is not modelled. *)
Inductive outcome (A : Type) : Type :=
| Returns (w : World) (a : A)
| Raises (w : World) (e : exn)
| NotModelled.

Arguments Returns {A} w a.
Arguments Raises {A} w e.
Arguments NotModelled {A}.

Definition M (A : Type) : Type := World -> outcome A.

Definition ret_ {A : Type} (a : A) : M A := fun w => Returns w a.

Definition bindM {A B : Type} (m : M A) (f : A -> M B) : M B :=
  fun w =>
    match m w with
    | Returns w' a => f a w'
    | Raises w' e => Raises w' e
    | NotModelled => NotModelled
    end.

Declare Scope heap_scope.
Delimit Scope heap_scope with heap.
Notation "x <~ m ;; k" := (bindM m (fun x => k))
  (at level 61, m at next level, right associativity) : heap_scope.
Notation "m ;;; k" := (bindM m (fun _ => k))
  (at level 61, right associativity) : heap_scope.
Open Scope heap_scope.

Definition lift {A : Type} (r : result A) : M A :=
  fun w =>
    match r with
    | Ok a => Returns w a
    | Throw e => Raises w e
    | Stuck => NotModelled
    end.

Definition not_modelled {A : Type} : M A := fun _ => NotModelled.

Definition new (c : cell) : M ref :=
  fun w => let (w', r) := alloc w c in Returns w' r.

Definition read (r : ref) : M cell :=
  fun w => match lookup w r with Some c => Returns w c | None => NotModelled end.

Definition write (r : ref) (c : cell) : M unit :=
  fun w => Returns (update w r c) tt.

(** ** Property keys and native objects *)

(** [String(i)] of an index: its decimal digits. *)
Definition indexKey (i : nat) : jsval :=
  VString (uint_codes (Nat.to_uint i)).

(** The digit loop of the array traps, from the second code unit on:
    [idx = idx * 10 + (c - 48)], and [-1] at the first code unit that is no
    digit.  (The traps compute [idx] in floating point, which is exact below
    [2^53]; every index that large is beyond any [count].) *)
Fixpoint parseDigits (cs : list Z) (idx : Z) : Z :=
  match cs with
  | [] => idx
  | c :: rest =>
      if (c <? 48) || (57 <? c) then -1
      else parseDigits rest (idx * 10 + (c - 48))
  end.

(** [Some idx] when the first code unit is a digit ([None] otherwise, also
    for the empty string, whose [charCodeAt(0)] is NaN). *)
Definition parseIndex (prop : jsval) : option Z :=
  match prop with
  | VString (c0 :: rest) =>
      if (48 <=? c0) && (c0 <=? 57) then Some (parseDigits rest (c0 - 48))
      else None
  | _ => None
  end.

(** An array index in the sense of the language: the key of some [i]. *)
Definition arrayIndex (prop : jsval) : option nat :=
  match parseIndex prop with
  | Some idx =>
      if (0 <=? idx) && Object_is (indexKey (Z.to_nat idx)) prop
      then Some (Z.to_nat idx) else None
  | None => None
  end.

Definition undefined_or (o : option jsval) : jsval :=
  match o with Some v => v | None => VUndefined end.

(** [Reflect.get(source, prop)] where [prop] is an own data property of
    [source]: a property of a plain object, the length of a native array or
    one of its elements.  A property that [source] does not own is looked up
    in the prototype chain, which the model does not have: [None], as on the
    other objects. *)
Definition get_prop (source : cell) (prop : jsval) : option jsval :=
  match source with
  | Plain props => jsmap_get keyEquals props prop
  | NativeArray elems =>
      if Object_is prop (str "length"%string)
      then Some (num (Z.of_nat (length elems)))
      else match arrayIndex prop with
           | Some i => nth_error elems i
           | None => None
           end
  | _ => None
  end.

(** [c[prop] = value] on a plain object, whose prototype is
    [Object.prototype], and on a native array within its length or at its
    end.  On a plain object the assignment updates the own property [prop],
    or adds it; [__proto__] that the object does not own is the accessor of
    [Object.prototype], whose setter adds no property: [None]. *)
Definition set_prop (c : cell) (prop value : jsval) : option cell :=
  match c with
  | Plain props =>
      match jsmap_get keyEquals props prop with
      | None =>
          if Object_is prop (str "__proto__"%string) then None
          else Some (Plain (jsmap_set keyEquals props prop value))
      | Some _ => Some (Plain (jsmap_set keyEquals props prop value))
      end
  | NativeArray elems =>
      match arrayIndex prop with
      | Some i =>
          if (i <? length elems)%nat then Some (NativeArray (set_nth elems i value))
          else if (i =? length elems)%nat then Some (NativeArray (elems ++ [value]))
          else None
      | None => None
      end
  | _ => None
  end.

(** [Reflect.deleteProperty(c, prop)] on a plain object. *)
Definition delete_prop (c : cell) (prop : jsval) : option cell :=
  match c with
  | Plain props => Some (Plain (jsmap_delete keyEquals props prop))
  | _ => None
  end.

(** [Array.isArray(base) ? [...base] : { ...base }] of a plain object or a
    native array. *)
Definition shallow_copy (base : cell) : option cell :=
  match base with
  | Plain props => Some (Plain props)
  | NativeArray elems => Some (NativeArray elems)
  | _ => None
  end.

(** [new Map(base)] and [new Set(base)] *)
Definition collection_copy (base : cell) : option cell :=
  match base with
  | NativeMap entries => Some (NativeMap entries)
  | NativeSet elems => Some (NativeSet elems)
  | _ => None
  end.

(** ** Nested proxies ([nested-proxy.ts]) *)

(** [state.modified = true] of the root draft [draft]. *)
Definition markModified (draft : ref) : M unit :=
  c <~ read draft ;;
  match c with
  | ArrayProxy st =>
      write draft (ArrayProxy
        (ArrayState.make (ArrayState.vec st) (ArrayState.isDraft st)
           (ArrayState.owner st) true (ArrayState.proxies st)))
  | MapProxy st =>
      write draft (MapProxy
        (MapState.make (MapState.map st) (MapState.isDraft st)
           (MapState.owner st) true (MapState.valueProxies st)
           (MapState.ordered st)))
  | SetProxy st =>
      write draft (SetProxy
        (SetState.make (SetState.map st) (SetState.isDraft st)
           (SetState.owner st) true (SetState.ordered st)))
  | _ => not_modelled
  end.

(** [getCopy()] of the nested proxy [r], with [onMutate()] after the first
    copy; [fuel] bounds the chain of parents, each created before its
    child. *)
Fixpoint getCopy_fuel (fuel : nat) (r : ref) : M ref :=
  match fuel with
  | O => not_modelled
  | S fuel' =>
      let onMutate (cb : callback) : M unit :=
        match cb with
        | MarkModified draft => markModified draft
        | CopyParent parent => getCopy_fuel fuel' parent ;;; ret_ tt
        | NoEffect => ret_ tt
        end in
      c <~ read r ;;
      match c with
      | NestedProxy st =>
          match NestedState.copy st with
          | Some cp => ret_ cp
          | None =>
              b <~ read (NestedState.base st) ;;
              match shallow_copy b with
              | None => not_modelled
              | Some cc =>
                  cp <~ new cc ;;
                  write r (NestedProxy
                    (NestedState.make (NestedState.base st) (Some cp)
                       (NestedState.childProxies st)
                       (NestedState.onMutate st))) ;;;
                  onMutate (NestedState.onMutate st) ;;;
                  ret_ cp
              end
          end
      | NestedMapProxy st =>
          match NestedCollState.copy st with
          | Some cp => ret_ cp
          | None =>
              b <~ read (NestedCollState.base st) ;;
              match collection_copy b with
              | None => not_modelled
              | Some cc =>
                  cp <~ new cc ;;
                  write r (NestedMapProxy
                    (NestedCollState.make (NestedCollState.base st) (Some cp)
                       (NestedCollState.modified st)
                       (NestedCollState.onMutate st))) ;;;
                  onMutate (NestedCollState.onMutate st) ;;;
                  ret_ cp
              end
          end
      | NestedSetProxy st =>
          match NestedCollState.copy st with
          | Some cp => ret_ cp
          | None =>
              b <~ read (NestedCollState.base st) ;;
              match collection_copy b with
              | None => not_modelled
              | Some cc =>
                  cp <~ new cc ;;
                  write r (NestedSetProxy
                    (NestedCollState.make (NestedCollState.base st) (Some cp)
                       (NestedCollState.modified st)
                       (NestedCollState.onMutate st))) ;;;
                  onMutate (NestedCollState.onMutate st) ;;;
                  ret_ cp
              end
          end
      | _ => not_modelled
      end
  end.

Definition getCopy (r : ref) : M ref := getCopy_fuel (Pos.to_nat r) r.

(** The proxy that a draft hands out for the object [v] it read:
    [createNestedMapProxy], [createNestedSetProxy] or [createNestedProxy]
    by the kind of [v], with [onMutate] as its callback. *)
Definition createNested (v : ref) (onMutate : callback) : M jsval :=
  vc <~ read v ;;
  p <~ new (match vc with
            | NativeMap _ =>
                NestedMapProxy (NestedCollState.make v None false onMutate)
            | NativeSet _ =>
                NestedSetProxy (NestedCollState.make v None false onMutate)
            | _ => NestedProxy (NestedState.make v None [] onMutate)
            end) ;;
  ret_ (VObject p).

(** The [get] trap of [createNestedProxy].  A property that holds a
    function is read as a wrapper around it or as the function bound to the
    source, neither of which has a model. *)
Definition nestedGet (r : ref) (prop : jsval) : M jsval :=
  c <~ read r ;;
  match c with
  | NestedProxy st =>
      let source := match NestedState.copy st with
                    | Some cp => cp
                    | None => NestedState.base st
                    end in
      sc <~ read source ;;
      match get_prop sc prop with
      | None => not_modelled
      | Some (VObject v) =>
          vc <~ read v ;;
          match vc with
          | Opaque => ret_ (VObject v)
          | _ =>
              match jsmap_get keyEquals (NestedState.childProxies st) prop with
              | Some child => ret_ child
              | None =>
                  child <~ createNested v (CopyParent r) ;;
                  write r (NestedProxy
                    (NestedState.make (NestedState.base st)
                       (NestedState.copy st)
                       (jsmap_set keyEquals (NestedState.childProxies st)
                          prop child)
                       (NestedState.onMutate st))) ;;;
                  ret_ child
              end
          end
      | Some (VFunction _) => not_modelled
      | Some value => ret_ value
      end
  | _ => not_modelled
  end.

(** [childProxies.delete(prop)] *)
Definition dropChild (r : ref) (prop : jsval) : M unit :=
  c <~ read r ;;
  match c with
  | NestedProxy st =>
      write r (NestedProxy
        (NestedState.make (NestedState.base st) (NestedState.copy st)
           (jsmap_delete keyEquals (NestedState.childProxies st) prop)
           (NestedState.onMutate st)))
  | _ => not_modelled
  end.

(** The [set] trap of [createNestedProxy]. *)
Definition nestedSet (r : ref) (prop value : jsval) : M jsval :=
  c <~ getCopy r ;;
  dropChild r prop ;;;
  cc <~ read c ;;
  match set_prop cc prop value with
  | Some cc' => write c cc' ;;; ret_ (VBool true)
  | None => not_modelled
  end.

(** The [deleteProperty] trap of [createNestedProxy]. *)
Definition nestedDelete (r : ref) (prop : jsval) : M jsval :=
  c <~ getCopy r ;;
  dropChild r prop ;;;
  cc <~ read c ;;
  match delete_prop cc prop with
  | Some cc' => write c cc' ;;; ret_ (VBool true)
  | None => not_modelled
  end.

(** The methods of the proxies, and what a call or a property access gives
    back to the recipe: a value, or what an iterator yields. *)
Inductive method : Type :=
| m_push | m_pop | m_get | m_has | m_set | m_add | m_delete | m_clear
| m_keys | m_values | m_entries.

Inductive reply : Type :=
| Value (v : jsval)
| Values (vs : list jsval)
| Entries (es : list (jsval * jsval)).

(** [(copy || base)] of a nested Map or Set proxy, read. *)
Definition collSource (st : NestedCollState.t) : M cell :=
  read (match NestedCollState.copy st with
        | Some cp => cp
        | None => NestedCollState.base st
        end).

(** [modified = true] of a nested Map or Set proxy. *)
Definition collMark (r : ref) : M unit :=
  c <~ read r ;;
  match c with
  | NestedMapProxy st =>
      write r (NestedMapProxy
        (NestedCollState.make (NestedCollState.base st)
           (NestedCollState.copy st) true (NestedCollState.onMutate st)))
  | NestedSetProxy st =>
      write r (NestedSetProxy
        (NestedCollState.make (NestedCollState.base st)
           (NestedCollState.copy st) true (NestedCollState.onMutate st)))
  | _ => not_modelled
  end.

(** The methods of [createNestedMapProxy].  ([set] returns the Map that the
    proxy was built around, an object of no use to the recipe: the model
    gives [undefined].) *)
Definition nestedMapCall (r : ref) (st : NestedCollState.t) (m : method)
    (args : list jsval) : M reply :=
  match m, args with
  | m_get, [key] =>
      s <~ collSource st ;;
      match s with
      | NativeMap es => ret_ (Value (undefined_or (jsmap_get keyEquals es key)))
      | _ => not_modelled
      end
  | m_has, [key] =>
      s <~ collSource st ;;
      match s with
      | NativeMap es => ret_ (Value (VBool (jsmap_has keyEquals es key)))
      | _ => not_modelled
      end
  | m_set, [key; value] =>
      c <~ getCopy r ;;
      cc <~ read c ;;
      match cc with
      | NativeMap es =>
          write c (NativeMap (jsmap_set keyEquals es key value)) ;;;
          collMark r ;;; ret_ (Value VUndefined)
      | _ => not_modelled
      end
  | m_delete, [key] =>
      c <~ getCopy r ;;
      cc <~ read c ;;
      match cc with
      | NativeMap es =>
          let result := jsmap_has keyEquals es key in
          write c (NativeMap (jsmap_delete keyEquals es key)) ;;;
          (if result then collMark r else ret_ tt) ;;;
          ret_ (Value (VBool result))
      | _ => not_modelled
      end
  | m_clear, [] =>
      c <~ getCopy r ;;
      write c (NativeMap []) ;;; collMark r ;;; ret_ (Value VUndefined)
  | m_entries, [] =>
      s <~ collSource st ;;
      match s with
      | NativeMap es => ret_ (Entries es)
      | _ => not_modelled
      end
  | m_keys, [] =>
      s <~ collSource st ;;
      match s with
      | NativeMap es => ret_ (Values (List.map fst es))
      | _ => not_modelled
      end
  | m_values, [] =>
      s <~ collSource st ;;
      match s with
      | NativeMap es => ret_ (Values (List.map snd es))
      | _ => not_modelled
      end
  | _, _ => not_modelled
  end.

(** The native [Set]: [s.has(v)], [s.add(v)], [s.delete(v)]. *)
Definition jsset_has (elems : list jsval) (v : jsval) : bool :=
  existsb (fun x => keyEquals x v) elems.

Definition jsset_add (elems : list jsval) (v : jsval) : list jsval :=
  if jsset_has elems v then elems else elems ++ [v].

Definition jsset_delete (elems : list jsval) (v : jsval) : list jsval :=
  filter (fun x => negb (keyEquals x v)) elems.

(** The methods of [createNestedSetProxy]. *)
Definition nestedSetCall (r : ref) (st : NestedCollState.t) (m : method)
    (args : list jsval) : M reply :=
  match m, args with
  | m_has, [value] =>
      s <~ collSource st ;;
      match s with
      | NativeSet es => ret_ (Value (VBool (jsset_has es value)))
      | _ => not_modelled
      end
  | m_add, [value] =>
      c <~ getCopy r ;;
      cc <~ read c ;;
      match cc with
      | NativeSet es =>
          write c (NativeSet (jsset_add es value)) ;;;
          (if jsset_has es value then ret_ tt else collMark r) ;;;
          ret_ (Value VUndefined)
      | _ => not_modelled
      end
  | m_delete, [value] =>
      c <~ getCopy r ;;
      cc <~ read c ;;
      match cc with
      | NativeSet es =>
          let result := jsset_has es value in
          write c (NativeSet (jsset_delete es value)) ;;;
          (if result then collMark r else ret_ tt) ;;;
          ret_ (Value (VBool result))
      | _ => not_modelled
      end
  | m_clear, [] =>
      c <~ getCopy r ;;
      write c (NativeSet []) ;;; collMark r ;;; ret_ (Value VUndefined)
  | m_values, [] | m_keys, [] =>
      s <~ collSource st ;;
      match s with
      | NativeSet es => ret_ (Values es)
      | _ => not_modelled
      end
  | m_entries, [] =>
      s <~ collSource st ;;
      match s with
      | NativeSet es => ret_ (Entries (List.map (fun v => (v, v)) es))
      | _ => not_modelled
      end
  | _, _ => not_modelled
  end.

Definition is_some {A : Type} (o : option A) : bool :=
  match o with Some _ => true | None => false end.

(** [isProxyModified(proxy)]; [fuel] bounds the descent through the child
    proxies, and [None] is a reference that holds nothing. *)
Fixpoint isProxyModified (fuel : nat) (w : World) (proxy : jsval)
    : option bool :=
  match fuel with
  | O => None
  | S fuel' =>
      match proxy with
      | VObject r =>
          match lookup w r with
          | Some (NestedMapProxy st) | Some (NestedSetProxy st) =>
              Some (is_some (NestedCollState.copy st))
          | Some (NestedProxy st) =>
              if is_some (NestedState.copy st) then Some true
              else
                (fix any (children : list (jsval * jsval)) : option bool :=
                   match children with
                   | [] => Some false
                   | (_, childProxy) :: rest =>
                       match isProxyModified fuel' w childProxy with
                       | Some true => Some true
                       | Some false => any rest
                       | None => None
                       end
                   end) (NestedState.childProxies st)
          | Some _ => Some false
          | None => None
          end
      | _ => Some false
      end
  end.

(** [result[key] = finalChild] *)
Definition assign (result : ref) (key finalChild : jsval) : M unit :=
  c <~ read result ;;
  match set_prop c key finalChild with
  | Some c' => write result c'
  | None => not_modelled
  end.

(** [extractNestedValue(proxy)] *)
Fixpoint extractNestedValue (fuel : nat) (proxy : jsval) : M jsval :=
  match fuel with
  | O => not_modelled
  | S fuel' =>
      match proxy with
      | VObject r =>
          c <~ read r ;;
          match c with
          | NestedMapProxy st | NestedSetProxy st =>
              ret_ (VObject (match NestedCollState.copy st with
                             | Some cp => cp
                             | None => NestedCollState.base st
                             end))
          | NestedProxy st =>
              modifiedChildren <~
                (fix walk (children : list (jsval * jsval))
                     : M (list (jsval * jsval)) :=
                   match children with
                   | [] => ret_ []
                   | (key, childProxy) :: rest =>
                       fun w =>
                         match isProxyModified fuel' w childProxy with
                         | None => NotModelled
                         | Some true =>
                             (v <~ extractNestedValue fuel' childProxy ;;
                              more <~ walk rest ;;
                              ret_ ((key, v) :: more)) w
                         | Some false => walk rest w
                         end
                   end) (NestedState.childProxies st) ;;
              let hasModifiedChild :=
                match modifiedChildren with [] => false | _ => true end in
              match NestedState.copy st, hasModifiedChild with
              | None, false => ret_ (VObject (NestedState.base st))
              | copy, _ =>
                  result <~
                    match copy with
                    | Some cp => ret_ cp
                    | None =>
                        b <~ read (NestedState.base st) ;;
                        match shallow_copy b with
                        | Some cc => new cc
                        | None => not_modelled
                        end
                    end ;;
                  (fix splice (cs : list (jsval * jsval)) : M unit :=
                     match cs with
                     | [] => ret_ tt
                     | (key, finalChild) :: rest =>
                         assign result key finalChild ;;; splice rest
                     end) modifiedChildren ;;;
                  ret_ (VObject result)
              end
          | _ => ret_ proxy
          end
      | _ => ret_ proxy
      end
  end.

(** ** The array proxy ([createArrayProxy]) *)

(** [value !== null && typeof value === 'object'] *)
Definition object_ref (value : jsval) : option ref :=
  match value with VObject v => Some v | _ => None end.

(** The integer that a number is, if it is one ([Number.isInteger]). *)
Definition integer_of (n : jsnum) : option Z :=
  match n with
  | Zero _ => Some 0
  | Fin neg h e =>
      if 0 <=? e
      then Some ((if neg then -1 else 1) * ((2 * Z.of_N h + 1) * 2 ^ e))
      else None
  | _ => None
  end.

(** The [get] trap for [length] and for the keys that start with a digit;
    a key that names no element is looked up in the empty array that the
    proxy is built around. *)
Definition arrayGet (r : ref) (st : ArrayState.t) (prop : jsval) : M jsval :=
  if Object_is prop (str "length"%string)
  then ret_ (num (Z.of_nat (count (ArrayState.vec st))))
  else
    match parseIndex prop with
    | Some idx =>
        if (0 <=? idx) && (idx <? Z.of_nat (count (ArrayState.vec st)))
        then
          let i := Z.to_nat idx in
          match match ArrayState.proxies st with
                | Some ps => jsmap_get Nat.eqb ps i
                | None => None
                end with
          | Some cachedProxy => ret_ cachedProxy
          | None =>
              let value := undefined_or (vecGet (ArrayState.vec st) i) in
              match ArrayState.isDraft st, object_ref value,
                    ArrayState.proxies st with
              | true, Some v, Some ps =>
                  nestedProxy <~ createNested v (MarkModified r) ;;
                  write r (ArrayProxy
                    (ArrayState.make (ArrayState.vec st) (ArrayState.isDraft st)
                       (ArrayState.owner st) (ArrayState.modified st)
                       (Some (jsmap_set Nat.eqb ps i nestedProxy)))) ;;;
                  ret_ nestedProxy
              | true, Some v, None => not_modelled
              | _, _, _ => ret_ value
              end
          end
        else ret_ VUndefined
    | None => not_modelled
    end.

(** [while (state.vec.count > newLen) state.vec = vecPop(...).vec] *)
Fixpoint truncate (v : Vec jsval) (owner : Owner) (times : nat) : Vec jsval :=
  match times with
  | O => v
  | S times' => truncate (fst (vecPop v owner)) owner times'
  end.

(** [while (state.vec.count < newLen) state.vec = vecPush(..., undefined)] *)
Fixpoint expand (v : Vec jsval) (owner : Owner) (times : nat) : Vec jsval :=
  match times with
  | O => v
  | S times' => expand (vecPush v owner VUndefined) owner times'
  end.

(** The [set] trap: the new state and what the trap returns.  ([Number(value)]
    of the [length] case is modelled for numbers.) *)
Definition arraySet (st : ArrayState.t) (prop value : jsval)
    : result (ArrayState.t * bool) :=
  let n := count (ArrayState.vec st) in
  if Object_is prop (str "length"%string)
  then
    match value with
    | VNumber x =>
        match integer_of x with
        | None => Ok (st, false)
        | Some newLen =>
            if newLen <? 0 then Ok (st, false)
            else if newLen =? Z.of_nat n then Ok (st, true)
            else if newLen <? Z.of_nat n then
              Ok (ArrayState.make
                    (truncate (ArrayState.vec st) (ArrayState.owner st)
                       (n - Z.to_nat newLen))
                    (ArrayState.isDraft st) (ArrayState.owner st) true
                    (match ArrayState.proxies st with
                     | Some _ => Some []
                     | None => None
                     end), true)
            else
              Ok (ArrayState.make
                    (expand (ArrayState.vec st) (ArrayState.owner st)
                       (Z.to_nat newLen - n))
                    (ArrayState.isDraft st) (ArrayState.owner st) true
                    (ArrayState.proxies st), true)
        end
    | _ => Stuck
    end
  else
    match parseIndex prop with
    | Some idx =>
        if 0 <=? idx then
          if idx <? Z.of_nat n then
            vec' <- vecAssoc (ArrayState.vec st) (ArrayState.owner st)
                      (Z.to_nat idx) value ;;
            Ok (ArrayState.make vec' (ArrayState.isDraft st)
                  (ArrayState.owner st) true
                  (match ArrayState.proxies st with
                   | Some ps => Some (jsmap_delete Nat.eqb ps (Z.to_nat idx))
                   | None => None
                   end), true)
          else if idx =? Z.of_nat n then
            Ok (ArrayState.make
                  (vecPush (ArrayState.vec st) (ArrayState.owner st) value)
                  (ArrayState.isDraft st) (ArrayState.owner st) true
                  (ArrayState.proxies st), true)
          else Ok (st, false)
        else Ok (st, false)
    | None => Ok (st, false)
    end.

(** [push(...items)] *)
Definition arrayPush (st : ArrayState.t) (items : list jsval)
    : ArrayState.t * jsval :=
  let vec' := fold_left (fun v item => vecPush v (ArrayState.owner st) item)
                items (ArrayState.vec st) in
  (ArrayState.make vec' (ArrayState.isDraft st) (ArrayState.owner st) true
     (ArrayState.proxies st),
   num (Z.of_nat (count vec'))).

(** [pop()] *)
Definition arrayPop (st : ArrayState.t) : ArrayState.t * jsval :=
  let res := vecPop (ArrayState.vec st) (ArrayState.owner st) in
  let val := undefined_or (snd res) in
  (ArrayState.make (fst res) (ArrayState.isDraft st) (ArrayState.owner st)
     (if Object_is val VUndefined then ArrayState.modified st else true)
     (ArrayState.proxies st),
   val).

(** ** The Map proxy ([createMapProxy]) *)

Definition setMapState (r : ref) (st : MapState.t) : M unit :=
  write r (MapProxy st).

Definition readMapState (r : ref) : M MapState.t :=
  c <~ read r ;;
  match c with MapProxy st => ret_ st | _ => not_modelled end.

(** [wrapValue(key, raw)] *)
Definition wrapValue (r : ref) (key raw : jsval) : M jsval :=
  st <~ readMapState r ;;
  if negb (MapState.isDraft st) then ret_ raw
  else
    match MapState.valueProxies st with
    | None => not_modelled
    | Some vp =>
        match jsmap_get keyEquals vp key with
        | Some nestedProxy => ret_ nestedProxy
        | None =>
            match object_ref raw with
            | Some v =>
                nestedProxy <~ createNested v (MarkModified r) ;;
                setMapState r
                  (MapState.make (MapState.map st) (MapState.isDraft st)
                     (MapState.owner st) (MapState.modified st)
                     (Some (jsmap_set keyEquals vp key nestedProxy))
                     (MapState.ordered st)) ;;;
                ret_ nestedProxy
            | None => ret_ raw
            end
        end
    end.

(** [get(key)] *)
Definition mapGet (r : ref) (key : jsval) : M jsval :=
  st <~ readMapState r ;;
  match (if MapState.isDraft st
         then match MapState.valueProxies st with
              | Some vp => jsmap_get keyEquals vp key
              | None => None
              end
         else None) with
  | Some nestedProxy => ret_ nestedProxy
  | None =>
      let raw := undefined_or (hamtGet (MapState.map st) key) in
      match MapState.isDraft st, object_ref raw, MapState.valueProxies st with
      | true, Some v, Some vp =>
          nestedProxy <~ createNested v (MarkModified r) ;;
          setMapState r
            (MapState.make (MapState.map st) (MapState.isDraft st)
               (MapState.owner st) (MapState.modified st)
               (Some (jsmap_set keyEquals vp key nestedProxy))
               (MapState.ordered st)) ;;;
          ret_ nestedProxy
      | true, Some v, None => not_modelled
      | _, _, _ => ret_ raw
      end
  end.

(** [valueProxies?.delete(key)] *)
Definition dropProxy (vp : option (list (jsval * jsval))) (key : jsval)
    : option (list (jsval * jsval)) :=
  match vp with
  | Some ps => Some (jsmap_delete keyEquals ps key)
  | None => None
  end.

(** [set(key, value)]: the assignments to [state] in their order. *)
Definition mapSet (r : ref) (key value : jsval) : M jsval :=
  st <~ readMapState r ;;
  let had := hamtHas (MapState.map st) key in
  map' <~ lift (returned (MapState.map st)
                  (hamtSet strictEquals (MapState.map st) (MapState.owner st)
                     key value)) ;;
  setMapState r
    (MapState.make map' (MapState.isDraft st) (MapState.owner st)
       (MapState.modified st) (MapState.valueProxies st)
       (MapState.ordered st)) ;;;
  ordered' <~
    match MapState.ordered st with
    | Some ord =>
        ord' <~ lift (if had
                      then orderUpdateValue ord (MapState.owner st) key value
                      else orderAppendWithValue ord (MapState.owner st)
                             key value) ;;
        ret_ (Some ord')
    | None => ret_ None
    end ;;
  setMapState r
    (MapState.make map' (MapState.isDraft st) (MapState.owner st) true
       (dropProxy (MapState.valueProxies st) key) ordered') ;;;
  ret_ (VObject r).

(** [delete(key)] *)
Definition mapDelete (r : ref) (key : jsval) : M jsval :=
  st <~ readMapState r ;;
  let before := size (MapState.map st) in
  map' <~ lift (returned (MapState.map st)
                  (hamtDelete (MapState.map st) (MapState.owner st) key)) ;;
  setMapState r
    (MapState.make map' (MapState.isDraft st) (MapState.owner st)
       (MapState.modified st) (MapState.valueProxies st)
       (MapState.ordered st)) ;;;
  let removed := negb (size map' =? before) in
  (if removed then
     ordered' <~
       match MapState.ordered st with
       | Some ord =>
           ord' <~ lift (orderDelete ord (MapState.owner st) key) ;;
           ret_ (Some ord')
       | None => ret_ None
       end ;;
     setMapState r
       (MapState.make map' (MapState.isDraft st) (MapState.owner st) true
          (dropProxy (MapState.valueProxies st) key) ordered')
   else ret_ tt) ;;;
  ret_ (VBool removed).

(** [clear()] *)
Definition mapClear (r : ref) : M jsval :=
  st <~ readMapState r ;;
  if size (MapState.map st) =? 0 then ret_ VUndefined
  else
    setMapState r
      (MapState.make hamtEmpty (MapState.isDraft st) (MapState.owner st) true
         (match MapState.valueProxies st with
          | Some _ => Some []
          | None => None
          end)
         (match MapState.ordered st with
          | Some _ => Some orderEmpty
          | None => None
          end)) ;;;
    ret_ VUndefined.

(** [iterKeys()] *)
Definition iterKeys (st : MapState.t) : list jsval :=
  match MapState.ordered st with
  | Some ord => orderIter ord
  | None => List.map fst (hamtToEntries (MapState.map st))
  end.

(** The entries that [entries], [values] and [forEach] walk before the
    values are wrapped: those of [orderEntryIter] when the index keeps
    values, and otherwise each key of [iterKeys] with what [hamtGet] reads.
    A value slot that is [DELETED] under a live key is not modelled. *)
Fixpoint liveEntries (es : list (jsval * slot jsval))
    : option (list (jsval * jsval)) :=
  match es with
  | [] => Some []
  | (k, Live v) :: rest =>
      match liveEntries rest with
      | Some more => Some ((k, v) :: more)
      | None => None
      end
  | (_, DELETED) :: _ => None
  end.

Definition rawEntries (st : MapState.t) : option (list (jsval * jsval)) :=
  match MapState.ordered st with
  | Some ord =>
      match idxToVal ord with
      | Some _ => liveEntries (orderEntryIter ord)
      | None =>
          Some (List.map (fun k => (k, undefined_or (hamtGet (MapState.map st) k)))
                  (iterKeys st))
      end
  | None =>
      Some (List.map (fun k => (k, undefined_or (hamtGet (MapState.map st) k)))
              (iterKeys st))
  end.

(** [yield [k, wrapValue(k, rawV)]] for each entry.  The iterators are run
    to their end at once. *)
Fixpoint wrapEntries (r : ref) (es : list (jsval * jsval))
    : M (list (jsval * jsval)) :=
  match es with
  | [] => ret_ []
  | (k, rawV) :: rest =>
      v <~ wrapValue r k rawV ;;
      more <~ wrapEntries r rest ;;
      ret_ ((k, v) :: more)
  end.

Definition mapEntries (r : ref) : M (list (jsval * jsval)) :=
  st <~ readMapState r ;;
  match rawEntries st with
  | Some es => wrapEntries r es
  | None => not_modelled
  end.

(** The methods of the Map proxy. *)
Definition mapCall (r : ref) (m : method) (args : list jsval) : M reply :=
  match m, args with
  | m_get, [key] => v <~ mapGet r key ;; ret_ (Value v)
  | m_has, [key] =>
      st <~ readMapState r ;;
      ret_ (Value (VBool (hamtHas (MapState.map st) key)))
  | m_set, [key; value] => v <~ mapSet r key value ;; ret_ (Value v)
  | m_delete, [key] => v <~ mapDelete r key ;; ret_ (Value v)
  | m_clear, [] => v <~ mapClear r ;; ret_ (Value v)
  | m_keys, [] => st <~ readMapState r ;; ret_ (Values (iterKeys st))
  | m_values, [] => es <~ mapEntries r ;; ret_ (Values (List.map snd es))
  | m_entries, [] => es <~ mapEntries r ;; ret_ (Entries es)
  | _, _ => not_modelled
  end.

(** ** The Set proxy ([createSetProxy]) *)

Definition setSetState (r : ref) (st : SetState.t) : M unit :=
  write r (SetProxy st).

Definition readSetState (r : ref) : M SetState.t :=
  c <~ read r ;;
  match c with SetProxy st => ret_ st | _ => not_modelled end.

(** [add(value)]: [newMap !== state.map] holds when [hamtSet] did not hand
    back its argument. *)
Definition setAdd (r : ref) (value : jsval) : M jsval :=
  st <~ readSetState r ;;
  let had := hamtHas (SetState.map st) value in
  match hamtSet strictEquals (SetState.map st) (SetState.owner st) value
          (VBool true) with
  | None => not_modelled
  | Some Itself => ret_ (VObject r)
  | Some (Fresh newMap) =>
      setSetState r
        (SetState.make newMap (SetState.isDraft st) (SetState.owner st)
           (SetState.modified st) (SetState.ordered st)) ;;;
      (if negb had then
         ordered' <~
           match SetState.ordered st with
           | Some ord =>
               ord' <~ lift (orderAppend ord (SetState.owner st) value) ;;
               ret_ (Some ord')
           | None => ret_ None
           end ;;
         setSetState r
           (SetState.make newMap (SetState.isDraft st) (SetState.owner st)
              true ordered')
       else ret_ tt) ;;;
      ret_ (VObject r)
  end.

(** [delete(value)] *)
Definition setDelete (r : ref) (value : jsval) : M jsval :=
  st <~ readSetState r ;;
  let before := size (SetState.map st) in
  map' <~ lift (returned (SetState.map st)
                  (hamtDelete (SetState.map st) (SetState.owner st) value)) ;;
  setSetState r
    (SetState.make map' (SetState.isDraft st) (SetState.owner st)
       (SetState.modified st) (SetState.ordered st)) ;;;
  let removed := negb (size map' =? before) in
  (if removed then
     ordered' <~
       match SetState.ordered st with
       | Some ord =>
           ord' <~ lift (orderDelete ord (SetState.owner st) value) ;;
           ret_ (Some ord')
       | None => ret_ None
       end ;;
     setSetState r
       (SetState.make map' (SetState.isDraft st) (SetState.owner st) true
          ordered')
   else ret_ tt) ;;;
  ret_ (VBool removed).

(** [clear()] *)
Definition setClear (r : ref) : M jsval :=
  st <~ readSetState r ;;
  if size (SetState.map st) =? 0 then ret_ VUndefined
  else
    setSetState r
      (SetState.make hamtEmpty (SetState.isDraft st) (SetState.owner st) true
         (match SetState.ordered st with
          | Some _ => Some orderEmpty
          | None => None
          end)) ;;;
    ret_ VUndefined.

(** [iterValues()] *)
Definition iterValues (st : SetState.t) : list jsval :=
  match SetState.ordered st with
  | Some ord => orderIter ord
  | None => List.map fst (hamtToEntries (SetState.map st))
  end.

(** The methods of the Set proxy. *)
Definition setCall (r : ref) (m : method) (args : list jsval) : M reply :=
  match m, args with
  | m_has, [value] =>
      st <~ readSetState r ;;
      ret_ (Value (VBool (hamtHas (SetState.map st) value)))
  | m_add, [value] => v <~ setAdd r value ;; ret_ (Value v)
  | m_delete, [value] => v <~ setDelete r value ;; ret_ (Value v)
  | m_clear, [] => v <~ setClear r ;; ret_ (Value v)
  | m_values, [] | m_keys, [] =>
      st <~ readSetState r ;; ret_ (Values (iterValues st))
  | m_entries, [] =>
      st <~ readSetState r ;;
      ret_ (Entries (List.map (fun v => (v, v)) (iterValues st)))
  | _, _ => not_modelled
  end.

(** ** What a recipe does *)

(** The operations on a proxy: reading, assigning and deleting a property,
    and calling a method. *)
Inductive op : Type :=
| Get (target prop : jsval)
| Assign (target prop value : jsval)
| DeleteProp (target prop : jsval)
| Call (target : jsval) (m : method) (args : list jsval).

(** The methods of the array proxy that the model covers.  [values()]
    yields the elements of the tree as they are stored, in a draft as well:
    an object among them is the stored object itself, not a nested proxy. *)
Definition arrayCall (r : ref) (st : ArrayState.t) (m : method)
    (args : list jsval) : M reply :=
  match m, args with
  | m_push, items =>
      let (st', n) := arrayPush st items in
      write r (ArrayProxy st') ;;; ret_ (Value n)
  | m_pop, [] =>
      let (st', val) := arrayPop st in
      write r (ArrayProxy st') ;;; ret_ (Value val)
  | m_values, [] => ret_ (Values (vecIter (ArrayState.vec st)))
  | _, _ => not_modelled
  end.

(** [(copy || base).size] of a nested Map or Set proxy. *)
Definition collSize (st : NestedCollState.t) : M jsval :=
  s <~ collSource st ;;
  match s with
  | NativeMap es => ret_ (num (Z.of_nat (length es)))
  | NativeSet es => ret_ (num (Z.of_nat (length es)))
  | _ => not_modelled
  end.

(** One operation, by the kind of proxy that [target] is.  An assignment
    gives back what the [set] trap returns. *)
Definition perform (o : op) : M reply :=
  match o with
  | Get (VObject r) prop =>
      c <~ read r ;;
      match c with
      | ArrayProxy st => v <~ arrayGet r st prop ;; ret_ (Value v)
      | MapProxy st =>
          if Object_is prop (str "size"%string)
          then ret_ (Value (num (size (MapState.map st))))
          else not_modelled
      | SetProxy st =>
          if Object_is prop (str "size"%string)
          then ret_ (Value (num (size (SetState.map st))))
          else not_modelled
      | NestedProxy _ => v <~ nestedGet r prop ;; ret_ (Value v)
      | NestedMapProxy st | NestedSetProxy st =>
          if Object_is prop (str "size"%string)
          then v <~ collSize st ;; ret_ (Value v)
          else not_modelled
      | _ => not_modelled
      end
  | Assign (VObject r) prop value =>
      c <~ read r ;;
      match c with
      | ArrayProxy st =>
          res <~ lift (arraySet st prop value) ;;
          write r (ArrayProxy (fst res)) ;;; ret_ (Value (VBool (snd res)))
      | NestedProxy _ => v <~ nestedSet r prop value ;; ret_ (Value v)
      | _ => not_modelled
      end
  | DeleteProp (VObject r) prop =>
      c <~ read r ;;
      match c with
      | NestedProxy _ => v <~ nestedDelete r prop ;; ret_ (Value v)
      | _ => not_modelled
      end
  | Call (VObject r) m args =>
      c <~ read r ;;
      match c with
      | ArrayProxy st => arrayCall r st m args
      | MapProxy _ => mapCall r m args
      | SetProxy _ => setCall r m args
      | NestedMapProxy st => nestedMapCall r st m args
      | NestedSetProxy st => nestedSetCall r st m args
      | _ => not_modelled
      end
  | _ => not_modelled
  end.


Definition target_of (o : op) : jsval :=
  match o with
  | Get t _ | Assign t _ _ | DeleteProp t _ | Call t _ _ => t
  end.

(** A recipe acts on the draft it is given and on the proxies the draft
    hands out, all of them created from [draft] on: an object that was
    there before the call is out of its reach. *)
Definition in_reach (draft : ref) (o : op) : bool :=
  match target_of o with
  | VObject t => (draft <=? t)%positive
  | _ => false
  end.

(** What a recipe does with its draft: it returns, throws [e], or performs
    an operation and goes on with what the operation gave back. *)
Inductive prog : Type :=
| Done
| Raise (e : jsval)
| Do (o : op) (k : reply -> prog).

Fixpoint run (draft : ref) (p : prog) : M unit :=
  match p with
  | Done => ret_ tt
  | Raise e => fun w => Raises w (Thrown e)
  | Do o k =>
      if in_reach draft o then x <~ perform o ;; run draft (k x)
      else not_modelled
  end.


(** ** [produce] *)

(** [const owner: Owner = {}] *)
Definition newOwner : M ref := new (Plain []).

Fixpoint hamtFromMap_loop (owner : Owner) (entries : list (jsval * jsval))
    (m : HMap jsval) : result (HMap jsval) :=
  match entries with
  | [] => Ok m
  | (k, v) :: rest =>
      m' <- returned m (hamtSet strictEquals m owner k v) ;;
      hamtFromMap_loop owner rest m'
  end.

(** [hamtFromMap(m)], [m] being the entries of the native Map. *)
Definition hamtFromMap (entries : list (jsval * jsval)) : M (HMap jsval) :=
  owner <~ newOwner ;;
  lift (hamtFromMap_loop (Some owner) entries hamtEmpty).

(** [hamtFromSet(s)] *)
Definition hamtFromSet (elems : list jsval) : M (HMap jsval) :=
  owner <~ newOwner ;;
  lift (hamtFromMap_loop (Some owner)
          (List.map (fun v => (v, VBool true)) elems) hamtEmpty).

(** [extractNestedValue] and [isProxyModified] on the heap as it is; no
    chain of child proxies is longer than the heap. *)
Definition extract (proxy : jsval) : M jsval :=
  fun w => extractNestedValue (S (length (heap w))) proxy w.

Definition observablyModified (proxy : jsval) : M bool :=
  fun w =>
    match isProxyModified (S (length (heap w))) w proxy with
    | Some b => Returns w b
    | None => NotModelled
    end.

(** [produceArray], first part: the draft state and its proxy. *)
Definition openArrayDraft (base : cell) : M ref :=
  match match base with
        | ArrayProxy baseState => Some (ArrayState.vec baseState)
        | NativeArray elems => Some (vecFromArray elems)
        | _ => None
        end with
  | None => not_modelled
  | Some baseVec =>
      draftOwner <~ newOwner ;;
      new (ArrayProxy
             (ArrayState.make baseVec true (Some draftOwner) false (Some [])))
  end.

(** The loop over [draftState.proxies] after the recipe. *)
Fixpoint finalizeArray (draft : ref) (proxies : list (nat * jsval)) : M unit :=
  match proxies with
  | [] => ret_ tt
  | (idx, nestedProxy) :: rest =>
      finalValue <~ extract nestedProxy ;;
      c <~ read draft ;;
      match c with
      | ArrayProxy st =>
          (if negb (strictEquals finalValue
                      (undefined_or (vecGet (ArrayState.vec st) idx)))
           then
             vec' <~ lift (vecAssoc (ArrayState.vec st) (ArrayState.owner st)
                             idx finalValue) ;;
             write draft (ArrayProxy
               (ArrayState.make vec' (ArrayState.isDraft st)
                  (ArrayState.owner st) true (ArrayState.proxies st)))
           else ret_ tt) ;;;
          finalizeArray draft rest
      | _ => not_modelled
      end
  end.

(** [produceArray], last part: what is returned for [base]. *)
Definition closeArrayDraft (base : jsval) (draft : ref) : M jsval :=
  c <~ read draft ;;
  match c with
  | ArrayProxy st =>
      finalizeArray draft
        (match ArrayState.proxies st with Some ps => ps | None => [] end) ;;;
      c' <~ read draft ;;
      match c' with
      | ArrayProxy draftState =>
          if negb (ArrayState.modified draftState) then ret_ base
          else
            p <~ new (ArrayProxy
                        (ArrayState.make (ArrayState.vec draftState) false None
                           false None)) ;;
            ret_ (VObject p)
      | _ => not_modelled
      end
  | _ => not_modelled
  end.

Definition produceArray (base : jsval) (baseCell : cell)
    (recipe : jsval -> prog) : M jsval :=
  draft <~ openArrayDraft baseCell ;;
  run draft (recipe (VObject draft)) ;;;
  closeArrayDraft base draft.

(** [produceMap], first part. *)
Definition openMapDraft (base : cell) : M ref :=
  baseParts <~
    match base with
    | MapProxy baseState =>
        ret_ (MapState.map baseState, MapState.ordered baseState)
    | NativeMap entries =>
        baseMap <~ hamtFromMap entries ;; ret_ (baseMap, None)
    | _ => not_modelled
    end ;;
  draftOwner <~ newOwner ;;
  new (MapProxy
         (MapState.make (fst baseParts) true (Some draftOwner) false (Some [])
            (snd baseParts))).

(** The loop over [draftState.valueProxies] after the recipe. *)
Fixpoint finalizeMap (draft : ref) (proxies : list (jsval * jsval)) : M unit :=
  match proxies with
  | [] => ret_ tt
  | (key, nestedProxy) :: rest =>
      finalVal <~ extract nestedProxy ;;
      st <~ readMapState draft ;;
      (if negb (strictEquals (undefined_or (hamtGet (MapState.map st) key))
                  finalVal)
       then
         map' <~ lift (returned (MapState.map st)
                         (hamtSet strictEquals (MapState.map st)
                            (MapState.owner st) key finalVal)) ;;
         setMapState draft
           (MapState.make map' (MapState.isDraft st) (MapState.owner st) true
              (MapState.valueProxies st) (MapState.ordered st))
       else ret_ tt) ;;;
      finalizeMap draft rest
  end.

(** [produceMap], last part. *)
Definition closeMapDraft (base : jsval) (draft : ref) : M jsval :=
  st <~ readMapState draft ;;
  finalizeMap draft
    (match MapState.valueProxies st with Some ps => ps | None => [] end) ;;;
  draftState <~ readMapState draft ;;
  if negb (MapState.modified draftState) then ret_ base
  else
    p <~ new (MapProxy
                (MapState.make (MapState.map draftState) false None false None
                   (MapState.ordered draftState))) ;;
    ret_ (VObject p).

Definition produceMap (base : jsval) (baseCell : cell)
    (recipe : jsval -> prog) : M jsval :=
  draft <~ openMapDraft baseCell ;;
  run draft (recipe (VObject draft)) ;;;
  closeMapDraft base draft.

(** [produceSet], first part. *)
Definition openSetDraft (base : cell) : M ref :=
  baseParts <~
    match base with
    | SetProxy baseState =>
        ret_ (SetState.map baseState, SetState.ordered baseState)
    | NativeSet elems =>
        baseMap <~ hamtFromSet elems ;; ret_ (baseMap, None)
    | _ => not_modelled
    end ;;
  draftOwner <~ newOwner ;;
  new (SetProxy
         (SetState.make (fst baseParts) true (Some draftOwner) false
            (snd baseParts))).

(** [produceSet], last part. *)
Definition closeSetDraft (base : jsval) (draft : ref) : M jsval :=
  draftState <~ readSetState draft ;;
  if negb (SetState.modified draftState) then ret_ base
  else
    p <~ new (SetProxy
                (SetState.make (SetState.map draftState) false None false
                   (SetState.ordered draftState))) ;;
    ret_ (VObject p).

Definition produceSet (base : jsval) (baseCell : cell)
    (recipe : jsval -> prog) : M jsval :=
  draft <~ openSetDraft baseCell ;;
  run draft (recipe (VObject draft)) ;;;
  closeSetDraft base draft.

(** [PROXY_CACHE.set(obj, proxy)] *)
Definition cacheProxy (obj proxy : ref) : M unit :=
  fun w =>
    Returns {| heap := heap w;
               PROXY_CACHE := jsmap_set Pos.eqb (PROXY_CACHE w) obj proxy |} tt.

Definition cachedProxy (obj : ref) : M (option ref) :=
  fun w => Returns w (jsmap_get Pos.eqb (PROXY_CACHE w) obj).

(** [pura(value)].  A nested proxy of a Map, a Set or an array is an
    instance of the kind it wraps and would be read through its traps, which
    the model does not cover. *)
Definition pura (value : jsval) : M jsval :=
  match value with
  | VObject r =>
      c <~ read r ;;
      match c with
      | ArrayProxy _ | MapProxy _ | SetProxy _ => ret_ value
      | NativeArray elems =>
          p <~ new (ArrayProxy
                      (ArrayState.make (vecFromArray elems) false None false
                         None)) ;;
          ret_ (VObject p)
      | NativeMap entries =>
          hamt <~ hamtFromMap entries ;;
          p <~ new (MapProxy (MapState.make hamt false None false None None)) ;;
          ret_ (VObject p)
      | NativeSet elems =>
          hamt <~ hamtFromSet elems ;;
          p <~ new (SetProxy (SetState.make hamt false None false None)) ;;
          ret_ (VObject p)
      | NestedMapProxy _ | NestedSetProxy _ => not_modelled
      | NestedProxy st =>
          b <~ read (NestedState.base st) ;;
          match b with
          | NativeArray _ => not_modelled
          | _ => ret_ value
          end
      | Plain _ | Opaque =>
          cached <~ cachedProxy r ;;
          match cached with
          | Some p => ret_ (VObject p)
          | None =>
              p <~ new (NestedProxy (NestedState.make r None [] NoEffect)) ;;
              cacheProxy r p ;;;
              ret_ (VObject p)
          end
      end
  | _ => ret_ value
  end.

(** [puraOrderedMap(m)] *)
Definition puraOrderedMap (m : jsval) : M jsval :=
  match m with
  | VObject r =>
      c <~ read r ;;
      match c with
      | MapProxy _ => ret_ m
      | NativeMap entries =>
          hamt <~ hamtFromMap entries ;;
          owner <~ newOwner ;;
          ordered <~ lift (orderFromBase owner entries) ;;
          p <~ new (MapProxy
                      (MapState.make hamt false None false None
                         (Some ordered))) ;;
          ret_ (VObject p)
      | _ => not_modelled
      end
  | _ => not_modelled
  end.

(** [puraOrderedSet(s)] *)
Definition puraOrderedSet (s : jsval) : M jsval :=
  match s with
  | VObject r =>
      c <~ read r ;;
      match c with
      | SetProxy _ => ret_ s
      | NativeSet elems =>
          hamt <~ hamtFromSet elems ;;
          owner <~ newOwner ;;
          ordered <~ lift (orderFromSetBase owner elems) ;;
          p <~ new (SetProxy
                      (SetState.make hamt false None false (Some ordered))) ;;
          ret_ (VObject p)
      | _ => not_modelled
      end
  | _ => not_modelled
  end.

(** [produceObject], first part: [plainBase] and its draft. *)
Definition openObjectDraft (base : ref) (baseCell : cell) : M ref :=
  let plainBase :=
    match baseCell with
    | NestedProxy maybeNested =>
        match NestedState.copy maybeNested with
        | Some cp => cp
        | None => NestedState.base maybeNested
        end
    | _ => base
    end in
  new (NestedProxy (NestedState.make plainBase None [] NoEffect)).

(** [produceObject], last part. *)
Definition closeObjectDraft (base : jsval) (draft : ref) : M jsval :=
  isModified <~ observablyModified (VObject draft) ;;
  if negb isModified then ret_ base
  else result <~ extract (VObject draft) ;; pura result.

Definition produceObject (base : ref) (baseCell : cell)
    (recipe : jsval -> prog) : M jsval :=
  draft <~ openObjectDraft base baseCell ;;
  run draft (recipe (VObject draft)) ;;;
  closeObjectDraft (VObject base) draft.

(** [produce(base, recipe)]: the engine by the kind of [base]; a base that
    is no object is handed to the recipe and returned. *)
Definition produce (base : jsval) (recipe : jsval -> prog) : M jsval :=
  match base with
  | VObject r =>
      c <~ read r ;;
      match c with
      | ArrayProxy _ | NativeArray _ => produceArray base c recipe
      | MapProxy _ | NativeMap _ => produceMap base c recipe
      | SetProxy _ | NativeSet _ => produceSet base c recipe
      | NestedMapProxy _ | NestedSetProxy _ => not_modelled
      | NestedProxy st =>
          b <~ read (NestedState.base st) ;;
          match b with
          | NativeArray _ => not_modelled
          | _ => produceObject r c recipe
          end
      | Plain _ | Opaque => produceObject r c recipe
      end
  | _ =>
      fun w => (run (next_ref w) (recipe base) ;;; ret_ base) w
  end.


(** The wrapper that [pura([1, 2])] creates, and the heap it leaves. *)
Definition wrapper_1_2 : ArrayState.t :=
  ArrayState.make [num 1; num 2] false None false None.

Definition world_1_2 : World :=
  {| heap := [NativeArray [num 1; num 2]; ArrayProxy wrapper_1_2];
     PROXY_CACHE := [] |}.

(** The value that stands for a key and for every key equal to it: the two
    zeros are one key. *)
Definition canon (k : jsval) : jsval :=
  match k with
  | VNumber (Zero _) => VNumber (Zero false)
  | _ => k
  end.

(** The nodes of a trie: the node itself and the nodes below it. *)
Fixpoint subnodes {V : Type} (node : HChild V) : list (HChild V) :=
  node ::
  match node with
  | Node _ _ cs =>
      (fix all (cs : list (HChild V)) : list (HChild V) :=
         match cs with
         | [] => []
         | c :: cs' => subnodes c ++ all cs'
         end) cs
  | _ => []
  end.

(** What the data model asks of one node: a leaf stores the hash of its
    key, a bucket holds entries with the hashes of their keys and no key
    twice, and a branch has [popcount(bitmap)] children. *)
Definition node_ok {V : Type} (node : HChild V) : Prop :=
  match node with
  | Leaf l => hash l = hashKey (key l)
  | Collision es =>
      Forall (fun e => hash e = hashKey (key e)) es /\
      distinct (List.map key es)
  | Node _ bm cs => Z.of_nat (length cs) = popcount bm
  end.

(** ** What a [produce] call may touch *)

(** A value, a callback and a cell that refer to no proxy or copy older
    than [d]: the proxies a draft hands out, the copies they make and the
    callbacks they hold are all created after the draft [d] itself. *)
Definition val_ok (d : ref) (v : jsval) : Prop :=
  match v with
  | VObject p => (d <= p)%positive
  | _ => True
  end.

Definition cb_ok (d : ref) (cb : callback) : Prop :=
  match cb with
  | MarkModified draft => (d <= draft)%positive
  | CopyParent parent => (d <= parent)%positive
  | NoEffect => True
  end.

Definition cell_ok (d : ref) (c : cell) : Prop :=
  match c with
  | NestedProxy st =>
      (forall cp, NestedState.copy st = Some cp -> (d <= cp)%positive) /\
      cb_ok d (NestedState.onMutate st) /\
      Forall (fun kc => val_ok d (snd kc)) (NestedState.childProxies st)
  | NestedMapProxy st | NestedSetProxy st =>
      (forall cp, NestedCollState.copy st = Some cp -> (d <= cp)%positive) /\
      cb_ok d (NestedCollState.onMutate st)
  | ArrayProxy st =>
      match ArrayState.proxies st with
      | Some ps => Forall (fun ip => val_ok d (snd ip)) ps
      | None => True
      end
  | MapProxy st =>
      match MapState.valueProxies st with
      | Some ps => Forall (fun kp => val_ok d (snd kp)) ps
      | None => True
      end
  | _ => True
  end.

(** Every object from [d] on refers to nothing older than [d]. *)
Definition owned (d : ref) (w : World) : Prop :=
  (d <= next_ref w)%positive /\
  forall r c, (d <= r)%positive -> lookup w r = Some c -> cell_ok d c.

(** From [w] to [w'] the heap only grew, and no object older than [d]
    changed. *)
Definition keeps (d : ref) (w w' : World) : Prop :=
  (length (heap w) <= length (heap w'))%nat /\
  forall r, (r < d)%positive -> lookup w' r = lookup w r.

(** [m] touches nothing older than [d]: from a heap whose objects from [d]
    on refer to nothing older, it returns (a value that satisfies [Q]) or
    raises in such a heap again, with every older object as it was. *)
Definition safe {A : Type} (d : ref) (m : M A) (Q : A -> Prop) : Prop :=
  forall w, owned d w ->
  match m w with
  | Returns w' a => owned d w' /\ keeps d w w' /\ Q a
  | Raises w' _ => owned d w' /\ keeps d w w'
  | NotModelled => True
  end.

(** The objects of the language that the model looks into: plain objects
    and native arrays, Maps and Sets, as opposed to the proxies of the
    library, whose tries and vectors are values here. *)
Definition is_native (c : cell) : bool :=
  match c with
  | Plain _ | NativeArray _ | NativeMap _ | NativeSet _ => true
  | _ => false
  end.

(** A native array that holds one plain object, [[{a: 1}]], on a heap; and
    the recipe [draft => { draft[0].a = 2 }], which may go on to throw. *)
Definition world_nested : World :=
  {| heap := [Plain [(str "a"%string, num 1)]; NativeArray [VObject 1]];
     PROXY_CACHE := [] |}.

Definition recipe_nested (finish : prog) (draft : jsval) : prog :=
  Do (Get draft (indexKey 0))
     (fun x =>
        match x with
        | Value element =>
            Do (Assign element (str "a"%string) (num 2)) (fun _ => finish)
        | _ => finish
        end).


(** ** [unpura], [isPura] and [repura] *)

(** [new Map(entries)] and [new Set(values)]: [set] and [add] for each
    element in turn.  The native [set] and [add] store the key [-0] as [+0];
    that step is left out here, so the two functions stand for the
    constructors on entries none of whose keys is [-0], as the entries of a
    native Map or Set are. *)
Definition native_map_of (es : list (jsval * jsval)) : list (jsval * jsval) :=
  fold_left (fun m kv => jsmap_set keyEquals m (fst kv) (snd kv)) es [].

Definition native_set_of (vs : list jsval) : list jsval :=
  fold_left jsset_add vs [].

(** [hamtToSetValues(map)] *)
Definition hamtToSetValues (map : HMap jsval) : list jsval :=
  List.map fst (hamtToEntries map).

(** [unpura(value)].  A nested proxy of an array is an array without a
    state in [ARRAY_STATE_ENV] and is returned as it is. *)
Definition unpura (value : jsval) : M jsval :=
  match value with
  | VObject r =>
      c <~ read r ;;
      match c with
      | ArrayProxy state =>
          p <~ new (NativeArray (vecToArray (ArrayState.vec state))) ;;
          ret_ (VObject p)
      | NativeArray _ => ret_ value
      | MapProxy top =>
          match MapState.ordered top with
          | Some ord =>
              match idxToVal ord with
              | Some _ =>
                  match liveEntries (orderEntryIter ord) with
                  | Some es =>
                      p <~ new (NativeMap (native_map_of es)) ;;
                      ret_ (VObject p)
                  | None => not_modelled
                  end
              | None =>
                  p <~ new (NativeMap
                              (native_map_of
                                 (List.map
                                    (fun k =>
                                       (k, undefined_or
                                             (hamtGet (MapState.map top) k)))
                                    (orderIter ord)))) ;;
                  ret_ (VObject p)
              end
          | None =>
              p <~ new (NativeMap
                          (native_map_of (hamtToEntries (MapState.map top)))) ;;
              ret_ (VObject p)
          end
      | NativeMap _ => ret_ value
      | NestedMapProxy nested | NestedSetProxy nested =>
          ret_ (VObject (match NestedCollState.copy nested with
                         | Some cp => cp
                         | None => NestedCollState.base nested
                         end))
      | SetProxy top =>
          p <~ new (NativeSet
                      (native_set_of
                         (match SetState.ordered top with
                          | Some ord => orderIter ord
                          | None => hamtToSetValues (SetState.map top)
                          end))) ;;
          ret_ (VObject p)
      | NativeSet _ => ret_ value
      | NestedProxy st =>
          b <~ read (NestedState.base st) ;;
          match b with
          | NativeArray _ => ret_ value
          | _ => extract value
          end
      | Plain _ | Opaque => ret_ value
      end
  | _ => ret_ value
  end.

(** [isPura(value)] *)
Definition isPura (value : jsval) : M bool :=
  match value with
  | VObject r =>
      c <~ read r ;;
      match c with
      | ArrayProxy _ | MapProxy _ | SetProxy _ => ret_ true
      | NestedProxy st =>
          b <~ read (NestedState.base st) ;;
          match b with
          | NativeArray _ => ret_ false
          | _ => ret_ true
          end
      | _ => ret_ false
      end
  | _ => ret_ false
  end.

(** [repura(value)] *)
Definition repura (value : jsval) : M jsval :=
  v <~ unpura value ;; pura v.

(** The native Map [new Map([["b", 1], ["a", 2]])] and the native Set
    [new Set(["b", "a"])] on a heap. *)
Definition entries_b_a : list (jsval * jsval) :=
  [(str "b"%string, num 1); (str "a"%string, num 2)].

Definition world_map_b_a : World :=
  {| heap := [NativeMap entries_b_a]; PROXY_CACHE := [] |}.

Definition world_set_b_a : World :=
  {| heap := [NativeSet [str "b"%string; str "a"%string]]; PROXY_CACHE := [] |}.

(** ** A draft that nothing was written to *)












(** ** Heaps by their new objects *)

(** The heap [h] followed by the objects [s] created since, and the
    reference of the [i]-th of them. *)
Definition ext (h : list cell) (cache : list (ref * ref)) (s : list cell)
    : World :=
  {| heap := h ++ s; PROXY_CACHE := cache |}.

Definition at_ (h : list cell) (i : nat) : ref :=
  Pos.of_succ_nat (i + length h).

Arguments ext : simpl never.
Arguments at_ : simpl never.

(** The proxy cache knows objects of the heap only. *)
Definition cache_valid (w : World) : Prop :=
  forall q, (next_ref w <= q)%positive ->
            jsmap_get Pos.eqb (PROXY_CACHE w) q = None.

(** The recipe [draft => { draft[k1][k2] = v }]. *)
Definition recipe_deep (k1 k2 v : jsval) (draft : jsval) : prog :=
  Do (Get draft k1)
     (fun x =>
        match x with
        | Value child => Do (Assign child k2 v) (fun _ => Done)
        | _ => Done
        end).

(** [{ user: { name: "a", age: 1 }, n: 0 }] on a heap. *)
Definition world_user : World :=
  {| heap := [Plain [(str "name"%string, str "a"%string);
                     (str "age"%string, num 1)];
              Plain [(str "user"%string, VObject 1); (str "n"%string, num 0)]];
     PROXY_CACHE := [] |}.

(** The trie and the order index of an ordered Map hold the same keys. *)
Definition ordered_map_ok (m : HMap jsval) (ord : OrderIndex) : Prop :=
  reachable strictEquals m /\ order_wf ord /\
  forall k, hamtHas m k = true <-> hamtGet (keyToIdx ord) k <> None.

(** What [get(k)] reads once [set(k, v)] is done on a Map whose trie was
    [m]: [hamtSet] keeps the stored value when it is [===] to [v], and puts
    [v] otherwise. *)
Definition read_back (m : HMap jsval) (k v : jsval) : jsval :=
  match hamtGet m k with
  | Some x => if strictEquals x v then x else v
  | None => v
  end.

(** What the iteration of the entries shows at [k] after the same call, on a
    Map with the order index [ord]: [orderUpdateValue] puts [v] itself in
    the value slot when the index keeps values; when it keeps none the
    iteration reads the trie. *)
Definition entry_written (m : HMap jsval) (ord : OrderIndex) (k v : jsval)
    : jsval :=
  match idxToVal ord with
  | Some _ => v
  | None => read_back m k v
  end.

(** The entries after [set(k, v)], from those before it. *)
Definition entries_after_set (m : HMap jsval) (ord : OrderIndex)
    (k v : jsval) (es : list (jsval * jsval)) : list (jsval * jsval) :=
  if hamtHas m k
  then List.map (fun e => if keyEquals k (fst e)
                          then (fst e, entry_written m ord k v) else e) es
  else es ++ [(k, v)].

(** The recipe [draft => { draft.set(k, v) }]. *)
Definition recipe_set (k v : jsval) (draft : jsval) : prog :=
  Do (Call draft m_set [k; v]) (fun _ => Done).


(** The heap after [puraOrderedMap(new Map([["b", 1], ["a", 2]]))]. *)
Definition world_ordered_b_a : World :=
  match puraOrderedMap (VObject 1) world_map_b_a with
  | Returns w _ => w
  | _ => world_map_b_a
  end.

(** The state of the wrapper that [world_ordered_b_a] holds at its last
    reference, and its order index. *)
Definition state_ordered_b_a : MapState.t :=
  match lookup world_ordered_b_a 4%positive with
  | Some (MapProxy st) => st
  | _ => MapState.make hamtEmpty false None false None None
  end.

Definition order_b_a : OrderIndex :=
  match MapState.ordered state_ordered_b_a with
  | Some ord => ord
  | None => orderEmpty
  end.

(** The heap after [puraOrderedMap(new Map([["b", 0]]))], the state of the
    wrapper it holds and its order index. *)
Definition world_ordered_zero : World :=
  match puraOrderedMap (VObject 1)
          {| heap := [NativeMap [(str "b"%string, posZero)]];
             PROXY_CACHE := [] |} with
  | Returns w _ => w
  | _ => {| heap := []; PROXY_CACHE := [] |}
  end.

Definition state_ordered_zero : MapState.t :=
  match lookup world_ordered_zero 4%positive with
  | Some (MapProxy st) => st
  | _ => MapState.make hamtEmpty false None false None None
  end.

Definition order_zero : OrderIndex :=
  match MapState.ordered state_ordered_zero with
  | Some ord => ord
  | None => orderEmpty
  end.



(** ** Edits of an ordered Map or Set through one draft *)


















(** * Properties *)

(** ** 32-bit words *)

Lemma toInt32_mod (x : Z) : toInt32 x mod 2 ^ 32 = x mod 2 ^ 32.
Proof.
  unfold toInt32.
  rewrite Zminus_mod_idemp_l.
  f_equal. lia.
Qed.

Lemma toInt32_range (x : Z) : - 2 ^ 31 <= toInt32 x < 2 ^ 31.
Proof.
  unfold toInt32.
  pose proof (Z.mod_pos_bound (x + 2 ^ 31) (2 ^ 32) ltac:(lia)). lia.
Qed.

Lemma toInt32_small (x : Z) : - 2 ^ 31 <= x < 2 ^ 31 -> toInt32 x = x.
Proof.
  intros H. unfold toInt32.
  rewrite Z.mod_small by lia. lia.
Qed.

Lemma toInt32_testbit (x j : Z) :
  0 <= j < 32 -> Z.testbit (toInt32 x) j = Z.testbit x j.
Proof.
  intros Hj.
  rewrite <- (Z.mod_pow2_bits_low (toInt32 x) 32 j) by lia.
  rewrite toInt32_mod.
  apply Z.mod_pow2_bits_low. lia.
Qed.

Lemma toInt32_zero (x : Z) : toInt32 x = 0 <-> x mod 2 ^ 32 = 0.
Proof.
  rewrite <- toInt32_mod. split; intros H.
  - rewrite H. reflexivity.
  - pose proof (toInt32_range x) as R.
    apply Z.mod_divide in H; [|lia].
    destruct H as [q Hq].
    assert (q = 0) by lia. lia.
Qed.

Lemma low_bits_zero (x : Z) :
  x mod 2 ^ 32 = 0 <-> (forall j, 0 <= j < 32 -> Z.testbit x j = false).
Proof.
  split.
  - intros H j Hj.
    rewrite <- (Z.mod_pow2_bits_low x 32 j) by lia.
    rewrite H. apply Z.bits_0.
  - intros H. apply Z.bits_inj'. intros n Hn.
    rewrite Z.bits_0.
    destruct (Z.lt_ge_cases n 32).
    + rewrite Z.mod_pow2_bits_low by lia. apply H. lia.
    + apply Z.mod_pow2_bits_high. lia.
Qed.

Lemma and_testbit (a b j : Z) :
  0 <= j < 32 ->
  Z.testbit (Int32.and a b) j = Z.testbit a j && Z.testbit b j.
Proof.
  intros Hj. unfold Int32.and.
  rewrite toInt32_testbit, Z.land_spec, !toInt32_testbit by lia.
  reflexivity.
Qed.

Lemma or_testbit (a b j : Z) :
  0 <= j < 32 ->
  Z.testbit (Int32.or a b) j = Z.testbit a j || Z.testbit b j.
Proof.
  intros Hj. unfold Int32.or.
  rewrite toInt32_testbit, Z.lor_spec, !toInt32_testbit by lia.
  reflexivity.
Qed.

Lemma xor_testbit (a b j : Z) :
  0 <= j < 32 ->
  Z.testbit (Int32.xor a b) j = xorb (Z.testbit a j) (Z.testbit b j).
Proof.
  intros Hj. unfold Int32.xor.
  rewrite toInt32_testbit, Z.lxor_spec, !toInt32_testbit by lia.
  reflexivity.
Qed.

(** [1 << idx] has exactly bit [idx] among the low 32. *)
Lemma bit_testbit (idx j : Z) :
  0 <= idx < 32 -> 0 <= j < 32 ->
  Z.testbit (shl 1 idx) j = (j =? idx).
Proof.
  intros Hi Hj. unfold shl.
  rewrite toInt32_testbit by lia.
  rewrite (toInt32_small 1) by lia.
  assert (Z.land idx 31 = idx) as ->.
  { change 31 with (Z.ones 5). rewrite Z.land_ones by lia.
    apply Z.mod_small. lia. }
  rewrite Z.shiftl_1_l.
  destruct (Z.eqb_spec j idx) as [->|Hne].
  - apply Z.pow2_bits_true. lia.
  - apply Z.pow2_bits_false. lia.
Qed.

(** [(1 << idx) - 1] masks the bits below [idx]. *)
Lemma mask_testbit (idx j : Z) :
  0 <= idx < 32 -> 0 <= j < 32 ->
  Z.testbit (shl 1 idx - 1) j = (j <? idx).
Proof.
  intros Hi Hj.
  rewrite <- (Z.mod_pow2_bits_low _ 32) by lia.
  assert ((shl 1 idx - 1) mod 2 ^ 32 = Z.ones idx) as ->.
  { rewrite <- Zminus_mod_idemp_l.
    unfold shl. rewrite toInt32_mod.
    rewrite (toInt32_small 1) by lia.
    assert (Z.land idx 31 = idx) as ->.
    { change 31 with (Z.ones 5). rewrite Z.land_ones by lia.
      apply Z.mod_small. lia. }
    rewrite Z.shiftl_1_l.
    assert (2 ^ idx < 2 ^ 32) by (apply Z.pow_lt_mono_r; lia).
    assert (0 < 2 ^ idx) by (apply Z.pow_pos_nonneg; lia).
    rewrite (Z.mod_small (2 ^ idx)) by lia.
    rewrite Z.mod_small by lia.
    rewrite Z.ones_equiv. lia. }
  destruct (Z.ltb_spec j idx).
  - apply Z.ones_spec_low. lia.
  - apply Z.ones_spec_high. lia.
Qed.

Lemma chunk_eq (h shift : Z) :
  chunk h shift = Z.shiftr (h mod 2 ^ 32) (Z.land shift 31) mod 32.
Proof.
  unfold chunk, Int32.and, ushr, toUint32, MASK.
  set (x := Z.shiftr (h mod 2 ^ 32) (Z.land shift 31)).
  rewrite (toInt32_small 31) by lia.
  change 31 with (Z.ones 5).
  rewrite Z.land_ones by lia.
  assert (toInt32 x mod 2 ^ 5 = x mod 2 ^ 5) as ->.
  { rewrite <- (Z.mod_mod_divide (toInt32 x) (2 ^ 32) (2 ^ 5))
      by (exists (2 ^ 27); reflexivity).
    rewrite toInt32_mod.
    apply Z.mod_mod_divide. exists (2 ^ 27). reflexivity. }
  apply toInt32_small.
  change (2 ^ 5) with 32.
  pose proof (Z.mod_pos_bound x 32 eq_refl). lia.
Qed.

Lemma chunk_range (h shift : Z) : 0 <= chunk h shift < 32.
Proof.
  rewrite chunk_eq. apply Z.mod_pos_bound. lia.
Qed.

Lemma int32_zero_bits (y : Z) :
  - 2 ^ 31 <= y < 2 ^ 31 ->
  (y = 0 <-> forall j, 0 <= j < 32 -> Z.testbit y j = false).
Proof.
  intros R. rewrite <- low_bits_zero. split; intros H.
  - subst. reflexivity.
  - apply Z.mod_divide in H; [|lia].
    destruct H as [q Hq]. assert (q = 0) by lia. lia.
Qed.

Lemma and_range (a b : Z) : - 2 ^ 31 <= Int32.and a b < 2 ^ 31.
Proof. apply toInt32_range. Qed.

Lemma xor_range (a b : Z) : - 2 ^ 31 <= Int32.xor a b < 2 ^ 31.
Proof. apply toInt32_range. Qed.

(** [(bitmap & bit) !== 0] reads bit [idx]. *)
Lemma hasSlot_testbit (bm idx : Z) :
  0 <= idx < 32 ->
  (Int32.and bm (shl 1 idx) =? 0) = negb (Z.testbit bm idx).
Proof.
  intros Hi.
  destruct (Z.eqb_spec (Int32.and bm (shl 1 idx)) 0) as [E|E].
  - apply (int32_zero_bits _ (and_range _ _)) with (j := idx) in E; [|lia].
    rewrite and_testbit, bit_testbit, Z.eqb_refl, andb_true_r in E by lia.
    rewrite E. reflexivity.
  - destruct (Z.testbit bm idx) eqn:T; [reflexivity|].
    exfalso. apply E.
    apply (int32_zero_bits _ (and_range _ _)). intros j Hj.
    rewrite and_testbit, bit_testbit by lia.
    destruct (Z.eqb_spec j idx) as [->|]; [rewrite T|]; auto using andb_false_r.
Qed.

(** ** Counting the bits below an index *)

Lemma count_below_S (x : Z) (n : nat) :
  count_below x (S n) =
  (count_below x n + if Z.testbit x (Z.of_nat n) then 1 else 0)%nat.
Proof.
  unfold count_below.
  rewrite seq_S, filter_app, length_app. simpl.
  destruct (Z.testbit x (Z.of_nat n)); reflexivity.
Qed.

Lemma count_below_mono (x : Z) (n m : nat) :
  (n <= m)%nat -> (count_below x n <= count_below x m)%nat.
Proof.
  induction 1; [lia|].
  rewrite count_below_S. lia.
Qed.

Lemma count_below_strict (x : Z) (n m : nat) :
  (n < m)%nat -> Z.testbit x (Z.of_nat n) = true ->
  (count_below x n < count_below x m)%nat.
Proof.
  intros H T.
  pose proof (count_below_mono x (S n) m H) as M.
  rewrite count_below_S, T in M. lia.
Qed.

Lemma count_below_le (x : Z) (n : nat) : (count_below x n <= n)%nat.
Proof.
  induction n; [reflexivity|].
  rewrite count_below_S. destruct (Z.testbit _ _); lia.
Qed.

(** Two distinct set bits have distinct packed positions. *)
Lemma count_below_inj (x : Z) (n m : nat) :
  Z.testbit x (Z.of_nat n) = true -> Z.testbit x (Z.of_nat m) = true ->
  count_below x n = count_below x m -> n = m.
Proof.
  intros Tn Tm E.
  destruct (Nat.lt_trichotomy n m) as [L|[L|L]]; [|assumption|].
  - pose proof (count_below_strict x n m L Tn). lia.
  - pose proof (count_below_strict x m n L Tm). lia.
Qed.

Lemma count_below_ext (x y : Z) (n : nat) :
  (forall i, (i < n)%nat -> Z.testbit y (Z.of_nat i) = Z.testbit x (Z.of_nat i)) ->
  count_below y n = count_below x n.
Proof.
  induction n; intros H; [reflexivity|].
  rewrite !count_below_S, IHn, H by auto with arith. reflexivity.
Qed.

(** Masking with [bit - 1] keeps the bits below [i]. *)
Lemma count_below_masked (x y : Z) (i n : nat) :
  (forall j, (j < n)%nat ->
     Z.testbit y (Z.of_nat j) = Z.testbit x (Z.of_nat j) && (j <? i)%nat) ->
  count_below y n = count_below x (Nat.min n i).
Proof.
  induction n; intros H; [reflexivity|].
  rewrite count_below_S, IHn, H by auto with arith.
  destruct (Nat.ltb_spec n i).
  - rewrite andb_true_r.
    replace (Nat.min (S n) i) with (S (Nat.min n i)) by lia.
    rewrite count_below_S.
    replace (Nat.min n i) with n by lia. reflexivity.
  - rewrite andb_false_r.
    replace (Nat.min (S n) i) with (Nat.min n i) by lia. lia.
Qed.

(** Setting a bit that was clear shifts the positions above it by one. *)
Lemma count_below_set (x y : Z) (i n : nat) :
  Z.testbit x (Z.of_nat i) = false ->
  (forall j, (j < n)%nat ->
     Z.testbit y (Z.of_nat j) = Z.testbit x (Z.of_nat j) || (j =? i)%nat) ->
  count_below y n = (count_below x n + if (i <? n)%nat then 1 else 0)%nat.
Proof.
  intros T. induction n; intros H; [reflexivity|].
  rewrite !count_below_S, IHn, H by auto with arith.
  destruct (Nat.eqb_spec n i) as [->|Hne].
  - rewrite T, Nat.ltb_irrefl. simpl.
    replace (i <? S i)%nat with true by (symmetry; apply Nat.ltb_lt; lia).
    lia.
  - rewrite orb_false_r.
    destruct (Nat.ltb_spec i n), (Nat.ltb_spec i (S n)); lia.
Qed.

(** Clearing a set bit shifts the positions above it back by one. *)
Lemma count_below_clear (x y : Z) (i n : nat) :
  Z.testbit x (Z.of_nat i) = true ->
  (forall j, (j < n)%nat ->
     Z.testbit y (Z.of_nat j) = xorb (Z.testbit x (Z.of_nat j)) (j =? i)%nat) ->
  (count_below y n + if (i <? n)%nat then 1 else 0)%nat = count_below x n.
Proof.
  intros T. induction n; intros H; [reflexivity|].
  rewrite !count_below_S, H by auto with arith.
  specialize (IHn ltac:(auto with arith)).
  destruct (Nat.eqb_spec n i) as [->|Hne].
  - rewrite T. rewrite Nat.ltb_irrefl in IHn. simpl.
    replace (i <? S i)%nat with true by (symmetry; apply Nat.ltb_lt; lia).
    lia.
  - rewrite xorb_false_r.
    destruct (Nat.ltb_spec i n), (Nat.ltb_spec i (S n)); lia.
Qed.

(** [popcount(bitmap & (bit - 1))] is the number of set bits below [idx]. *)
Lemma packedIdx_eq (bm idx : Z) :
  0 <= idx < 32 ->
  Z.to_nat (popcount (Int32.and bm (shl 1 idx - 1))) =
  count_below bm (Z.to_nat idx).
Proof.
  intros Hi. unfold popcount. rewrite Nat2Z.id.
  rewrite (count_below_masked bm _ (Z.to_nat idx) 32).
  - f_equal. lia.
  - intros j Hj.
    rewrite and_testbit, mask_testbit by lia.
    f_equal.
    destruct (Z.ltb_spec (Z.of_nat j) idx), (Nat.ltb_spec j (Z.to_nat idx));
      auto; lia.
Qed.

(** ** Key equality and hashing *)

Lemma jsnum_eqb_eq (a b : jsnum) : jsnum_eqb a b = true <-> a = b.
Proof.
  destruct a, b; simpl; split; intros H; try discriminate; try reflexivity.
  - apply Bool.eqb_prop in H. congruence.
  - inversion H. apply Bool.eqb_reflx.
  - apply Bool.eqb_prop in H. congruence.
  - inversion H. apply Bool.eqb_reflx.
  - apply andb_prop in H as [H He]. apply andb_prop in H as [Hs Hh].
    apply Bool.eqb_prop in Hs. apply N.eqb_eq in Hh. apply Z.eqb_eq in He.
    congruence.
  - inversion H. rewrite Bool.eqb_reflx, N.eqb_refl, Z.eqb_refl. reflexivity.
Qed.

Lemma codes_eqb_eq (s t : list Z) : codes_eqb s t = true <-> s = t.
Proof.
  revert t. induction s as [|a s IH]; destruct t as [|b t]; simpl;
    split; intros H; try discriminate; try reflexivity.
  - apply andb_prop in H as [Hab Hst].
    apply Z.eqb_eq in Hab. apply IH in Hst. congruence.
  - inversion H. subst. rewrite Z.eqb_refl. apply IH. reflexivity.
Qed.

(** [Object.is] holds of two values exactly when they are the same value. *)
Lemma Object_is_eq (a b : jsval) : Object_is a b = true <-> a = b.
Proof.
  destruct a, b; simpl; split; intros H;
    try discriminate; try reflexivity.
  - apply Bool.eqb_prop in H. congruence.
  - inversion H. apply Bool.eqb_reflx.
  - apply jsnum_eqb_eq in H. congruence.
  - inversion H. apply jsnum_eqb_eq. reflexivity.
  - apply codes_eqb_eq in H. congruence.
  - inversion H. apply codes_eqb_eq. reflexivity.
  - apply Z.eqb_eq in H. congruence.
  - inversion H. apply Z.eqb_refl.
  - apply Pos.eqb_eq in H. congruence.
  - inversion H. apply Pos.eqb_refl.
  - apply Pos.eqb_eq in H. congruence.
  - inversion H. apply Pos.eqb_refl.
  - apply Pos.eqb_eq in H. congruence.
  - inversion H. apply Pos.eqb_refl.
Qed.

(** [keyEquals] is identity, except that the two zeros are equal. *)
Lemma keyEquals_spec (a b : jsval) :
  keyEquals a b = true <-> a = b \/ (is_zero a /\ is_zero b).
Proof.
  assert (G : forall a b, ~ (is_zero a /\ is_zero b) ->
    (Object_is a b = true <-> a = b \/ (is_zero a /\ is_zero b))).
  { intros x y N. rewrite Object_is_eq. tauto. }
  unfold keyEquals.
  destruct a as [| |x|x|x|x|x|x|x]; destruct b as [| |y|y|y|y|y|y|y];
    try (apply G; simpl; tauto).
  destruct x, y; try (apply G; simpl; tauto).
  simpl. tauto.
Qed.

Lemma keyEquals_refl (a : jsval) : keyEquals a a = true.
Proof. apply keyEquals_spec. auto. Qed.

Lemma keyEquals_sym (a b : jsval) : keyEquals a b = keyEquals b a.
Proof.
  destruct (keyEquals a b) eqn:E, (keyEquals b a) eqn:F; auto.
  - apply keyEquals_spec in E. rewrite <- F. symmetry.
    apply keyEquals_spec. intuition.
  - apply keyEquals_spec in F. rewrite <- E.
    apply keyEquals_spec. intuition.
Qed.

Lemma keyEquals_trans (a b c : jsval) :
  keyEquals a b = true -> keyEquals b c = true -> keyEquals a c = true.
Proof.
  rewrite !keyEquals_spec.
  intros [->|[Za Zb]] [->|[Zb' Zc]]; auto.
Qed.

(** The hash cannot tell two equal keys apart. *)
Lemma keyEquals_hash (a b : jsval) :
  keyEquals a b = true -> hashKey a = hashKey b.
Proof.
  rewrite keyEquals_spec. intros [->|[Za Zb]]; [reflexivity|].
  destruct a as [| | |[| |s|]| | | | |]; try contradiction.
  destruct b as [| | |[| |t|]| | | | |]; try contradiction.
  destruct s, t; reflexivity.
Qed.

Lemma toUint32_range (x : Z) : 0 <= toUint32 x < 2 ^ 32.
Proof. apply Z.mod_pos_bound. lia. Qed.

Lemma mix32_range (z : Z) : 0 <= mix32 z < 2 ^ 32.
Proof. apply toUint32_range. Qed.

Lemma fold_left_range {A : Type} (f : Z -> A -> Z) :
  (forall h c, 0 <= f h c < 2 ^ 32) ->
  forall cs h, 0 <= h < 2 ^ 32 -> 0 <= fold_left f cs h < 2 ^ 32.
Proof.
  intros Hf. induction cs as [|c cs IH]; intros h Hh; cbn [fold_left].
  - exact Hh.
  - apply IH. apply Hf.
Qed.

Lemma bigint_hash_range (s : list Z) : 0 <= bigint_hash s < 2 ^ 32.
Proof.
  unfold bigint_hash.
  apply fold_left_range.
  - intros h c. apply mix32_range.
  - lia.
Qed.

(** Every hash is an unsigned 32-bit value. *)
Lemma hashKey_range (k : jsval) : 0 <= hashKey k < 2 ^ 32.
Proof.
  destruct k; unfold hashKey.
  - lia.
  - lia.
  - destruct b; lia.
  - apply mix32_range.
  - apply toUint32_range.
  - apply bigint_hash_range.
  - apply toUint32_range.
  - apply toUint32_range.
  - lia.
Qed.

(** ** Array primitives *)

Lemma length_set_nth {A : Type} (l : list A) (i : nat) (x : A) :
  length (set_nth l i x) = length l.
Proof.
  revert i. induction l as [|a l IH]; intros [|i]; simpl; auto.
Qed.

Lemma nth_error_set_nth_eq {A : Type} (l : list A) (i : nat) (x : A) :
  (i < length l)%nat -> nth_error (set_nth l i x) i = Some x.
Proof.
  revert i. induction l as [|a l IH]; intros [|i]; simpl; intros H;
    try lia; auto.
  apply IH. lia.
Qed.

Lemma nth_error_set_nth_ne {A : Type} (l : list A) (i j : nat) (x : A) :
  i <> j -> nth_error (set_nth l i x) j = nth_error l j.
Proof.
  revert i j. induction l as [|a l IH]; intros [|i] [|j]; simpl; intros H;
    try congruence; auto.
Qed.

Lemma length_splice_in {A : Type} (l : list A) (i : nat) (x : A) :
  length (splice_in l i x) = S (length l).
Proof.
  unfold splice_in.
  rewrite length_app. simpl.
  rewrite length_firstn, length_skipn. lia.
Qed.

Lemma nth_error_splice_in_eq {A : Type} (l : list A) (i : nat) (x : A) :
  (i <= length l)%nat -> nth_error (splice_in l i x) i = Some x.
Proof.
  intros H. unfold splice_in.
  rewrite nth_error_app2; rewrite length_firstn, Nat.min_l by lia; [|lia].
  rewrite Nat.sub_diag. reflexivity.
Qed.

Lemma nth_error_splice_in_lt {A : Type} (l : list A) (i j : nat) (x : A) :
  (j < i)%nat -> (i <= length l)%nat ->
  nth_error (splice_in l i x) j = nth_error l j.
Proof.
  intros H L. unfold splice_in.
  rewrite nth_error_app1 by (rewrite length_firstn; lia).
  rewrite nth_error_firstn.
  destruct (Nat.ltb_spec j i); [reflexivity|lia].
Qed.

Lemma nth_error_splice_in_gt {A : Type} (l : list A) (i j : nat) (x : A) :
  (i <= j)%nat -> (i <= length l)%nat ->
  nth_error (splice_in l i x) (S j) = nth_error l j.
Proof.
  intros H L. unfold splice_in.
  rewrite nth_error_app2; rewrite length_firstn, Nat.min_l by lia; [|lia].
  replace (S j - i)%nat with (S (j - i)) by lia. simpl.
  rewrite nth_error_skipn. f_equal. lia.
Qed.

Lemma length_splice_out {A : Type} (l : list A) (i : nat) :
  (i < length l)%nat -> S (length (splice_out l i)) = length l.
Proof.
  intros H. unfold splice_out.
  rewrite length_app, length_firstn, length_skipn. lia.
Qed.

Lemma nth_error_splice_out_lt {A : Type} (l : list A) (i j : nat) :
  (j < i)%nat -> nth_error (splice_out l i) j = nth_error l j.
Proof.
  intros H. unfold splice_out.
  destruct (Nat.le_gt_cases (length l) j) as [G|G].
  - rewrite (proj2 (nth_error_None l j)) by assumption.
    apply nth_error_None.
    rewrite length_app, length_firstn, length_skipn. lia.
  - rewrite nth_error_app1 by (rewrite length_firstn; lia).
    rewrite nth_error_firstn.
    destruct (Nat.ltb_spec j i); [reflexivity|lia].
Qed.

Lemma nth_error_splice_out_ge {A : Type} (l : list A) (i j : nat) :
  (i <= j)%nat -> (i <= length l)%nat ->
  nth_error (splice_out l i) j = nth_error l (S j).
Proof.
  intros H L. unfold splice_out.
  rewrite nth_error_app2; rewrite length_firstn, Nat.min_l by lia; [|lia].
  rewrite nth_error_skipn. f_equal. lia.
Qed.

Lemma Forall_firstn {A : Type} (P : A -> Prop) (l : list A) (n : nat) :
  Forall P l -> Forall P (firstn n l).
Proof.
  intros H. revert n. induction H; intros [|n]; simpl; auto.
Qed.

Lemma Forall_skipn {A : Type} (P : A -> Prop) (l : list A) (n : nat) :
  Forall P l -> Forall P (skipn n l).
Proof.
  intros H. revert n. induction H; intros [|n]; simpl; auto.
Qed.

Lemma Forall_set_nth {A : Type} (P : A -> Prop) (l : list A) (i : nat) (x : A) :
  Forall P l -> P x -> Forall P (set_nth l i x).
Proof.
  intros H Hx. revert i. induction H; intros [|i]; simpl; auto.
Qed.

Lemma Forall_splice_in {A : Type} (P : A -> Prop) (l : list A) (i : nat)
    (x : A) :
  Forall P l -> P x -> Forall P (splice_in l i x).
Proof.
  intros H Hx. unfold splice_in.
  apply Forall_app. split; [apply Forall_firstn; assumption|].
  constructor; [assumption|apply Forall_skipn; assumption].
Qed.

Lemma Forall_splice_out {A : Type} (P : A -> Prop) (l : list A) (i : nat) :
  Forall P l -> Forall P (splice_out l i).
Proof.
  intros H. unfold splice_out.
  apply Forall_app. split; [apply Forall_firstn|apply Forall_skipn];
    assumption.
Qed.

(** ** Tries *)

Section Tries.

Context {V : Type}.
Variable strictEq : V -> V -> bool.

Local Abbreviation HChild := (HChild V).
Local Abbreviation HLeaf := (HLeaf V).

(** Induction over a trie, with the hypothesis for every child. *)
Lemma HChild_rect' (P : HChild -> Prop) :
  (forall l, P (Leaf l)) ->
  (forall es, P (Collision es)) ->
  (forall o bm cs, Forall P cs -> P (Node o bm cs)) ->
  forall n, P n.
Proof.
  intros HL HC HN.
  fix IH 1. intros [l|es|o bm cs].
  - apply HL.
  - apply HC.
  - apply HN. induction cs as [|c cs IHcs]; constructor.
    + apply IH.
    + apply IHcs.
Qed.

(** The walk to child [i] of a branch is [children[i]]. *)
Lemma at_child_nth {B : Type} (F : HChild -> option B) (cs : list HChild)
    (i : nat) :
  (fix at_child (cs : list HChild) (i : nat) : option B :=
     match cs, i with
     | [], _ => None
     | child :: _, O => F child
     | _ :: cs', S i' => at_child cs' i'
     end) cs i =
  match nth_error cs i with Some c => F c | None => None end.
Proof.
  revert i. induction cs as [|c cs IH]; intros [|i]; simpl; auto.
Qed.

Lemma at_child_nth_bool (F : HChild -> bool) (cs : list HChild) (i : nat) :
  (fix at_child (cs : list HChild) (i : nat) : bool :=
     match cs, i with
     | [], _ => false
     | child :: _, O => F child
     | _ :: cs', S i' => at_child cs' i'
     end) cs i =
  match nth_error cs i with Some c => F c | None => false end.
Proof.
  revert i. induction cs as [|c cs IH]; intros [|i]; simpl; auto.
Qed.

Lemma hamtGetLoop_node o bm (cs : list HChild) h k s :
  hamtGetLoop (Node o bm cs) h k s =
  match child_at bm cs (chunk h s) with
  | Some c => hamtGetLoop c h k (s + BITS)
  | None => None
  end.
Proof.
  simpl. fold (chunk h s).
  rewrite hasSlot_testbit, packedIdx_eq by apply chunk_range.
  unfold child_at.
  destruct (Z.testbit bm (chunk h s)); simpl; [|reflexivity].
  apply (at_child_nth (fun c => hamtGetLoop c h k (s + BITS))).
Qed.

Lemma hamtHasLoop_node o bm (cs : list HChild) h k s :
  hamtHasLoop (Node o bm cs) h k s =
  match child_at bm cs (chunk h s) with
  | Some c => hamtHasLoop c h k (s + BITS)
  | None => false
  end.
Proof.
  simpl. fold (chunk h s).
  rewrite hasSlot_testbit, packedIdx_eq by apply chunk_range.
  unfold child_at.
  destruct (Z.testbit bm (chunk h s)); simpl; [|reflexivity].
  apply (at_child_nth_bool (fun c => hamtHasLoop c h k (s + BITS))).
Qed.

Lemma hamtInsertNode_node n_owner bm cs owner h k v s :
  hamtInsertNode strictEq (Node n_owner bm cs) owner h k v s =
  let idx := chunk h s in
  let p := count_below bm (Z.to_nat idx) in
  if Z.testbit bm idx then
    match nth_error cs p with
    | None => None
    | Some c =>
        match hamtInsertNode strictEq c owner h k v (s + BITS) with
        | None => None
        | Some res =>
            if negb (changed res) && negb (added res) then
              Some (mkIns (Node n_owner bm cs) false false)
            else
              Some (mkIns (Node (if owner_is n_owner owner then n_owner else owner)
                             bm (set_nth cs p (ins_node res)))
                          (added res) true)
        end
    end
  else
    Some (mkIns (Node owner (Int32.or bm (shl 1 idx))
                   (splice_in cs p (Leaf (mkLeaf k h v)))) true true).
Proof.
  simpl. fold (chunk h s).
  rewrite hasSlot_testbit, packedIdx_eq by apply chunk_range.
  rewrite negb_involutive.
  destruct (Z.testbit bm (chunk h s)); simpl; [|reflexivity].
  rewrite (at_child_nth (fun c => hamtInsertNode strictEq c owner h k v (s + BITS))).
  destruct (nth_error cs _) as [c|]; [|reflexivity].
  destruct (hamtInsertNode strictEq c owner h k v (s + BITS)) as [res|];
    [|reflexivity].
  destruct (negb (changed res) && negb (added res)); [reflexivity|].
  unfold ensureEditableHNode.
  destruct (owner_is n_owner owner); reflexivity.
Qed.

Lemma hamtRemoveNode_node n_owner bm (cs : list HChild) owner h k s :
  hamtRemoveNode (Node n_owner bm cs) owner h k s =
  let idx := chunk h s in
  let p := count_below bm (Z.to_nat idx) in
  if Z.testbit bm idx then
    match nth_error cs p with
    | None => None
    | Some c =>
        match hamtRemoveNode c owner h k (s + BITS) with
        | None => None
        | Some res =>
            if negb (removed res) then
              Some (mkRem (Some (Node n_owner bm cs)) false)
            else
              match rem_node res with
              | None =>
                  let newBitmap := Int32.xor bm (shl 1 idx) in
                  if newBitmap =? 0 then Some (mkRem None true)
                  else
                    match soleNonBranch (splice_out cs p) with
                    | Some only => Some (mkRem (Some only) true)
                    | None =>
                        Some (mkRem (Some (Node owner newBitmap
                                             (splice_out cs p))) true)
                    end
              | Some child' =>
                  Some (mkRem (Some (Node (if owner_is n_owner owner
                                           then n_owner else owner)
                                       bm (set_nth cs p child'))) true)
              end
        end
    end
  else Some (mkRem (Some (Node n_owner bm cs)) false).
Proof.
  simpl. fold (chunk h s).
  rewrite hasSlot_testbit, packedIdx_eq by apply chunk_range.
  destruct (Z.testbit bm (chunk h s)); simpl; [|reflexivity].
  rewrite (at_child_nth (fun c => hamtRemoveNode c owner h k (s + BITS))).
  destruct (nth_error cs _) as [c|]; [|reflexivity].
  destruct (hamtRemoveNode c owner h k (s + BITS)) as [res|]; [|reflexivity].
  destruct (negb (removed res)); [reflexivity|].
  destruct (rem_node res); [|reflexivity].
  unfold ensureEditableHNode.
  destruct (owner_is n_owner owner); reflexivity.
Qed.


(** *** Reading a branch after an update of its children *)

Lemma child_at_lt (bm : Z) (cs : list HChild) (idx : Z) :
  0 <= idx < 32 -> length cs = count_below bm 32 ->
  Z.testbit bm idx = true ->
  (count_below bm (Z.to_nat idx) < length cs)%nat.
Proof.
  intros Hi L T. rewrite L.
  apply count_below_strict; [lia|].
  rewrite Z2Nat.id by lia. assumption.
Qed.

Lemma child_at_set (bm : Z) (cs : list HChild) (idx j : Z) (c : HChild) :
  0 <= idx < 32 -> 0 <= j < 32 ->
  length cs = count_below bm 32 -> Z.testbit bm idx = true ->
  child_at bm (set_nth cs (count_below bm (Z.to_nat idx)) c) j =
  if j =? idx then Some c else child_at bm cs j.
Proof.
  intros Hi Hj L T. unfold child_at.
  destruct (Z.eqb_spec j idx) as [->|Hne].
  - rewrite T. apply nth_error_set_nth_eq.
    apply child_at_lt; assumption.
  - destruct (Z.testbit bm j) eqn:Tj; [|reflexivity].
    apply nth_error_set_nth_ne. intros E.
    apply count_below_inj in E; rewrite ?Z2Nat.id by lia; auto.
    apply Hne. lia.
Qed.

Lemma child_at_insert (bm bm' : Z) (cs : list HChild) (idx j : Z)
    (c : HChild) :
  0 <= idx < 32 -> 0 <= j < 32 ->
  length cs = count_below bm 32 -> Z.testbit bm idx = false ->
  (forall i, 0 <= i < 32 -> Z.testbit bm' i = Z.testbit bm i || (i =? idx)) ->
  child_at bm' (splice_in cs (count_below bm (Z.to_nat idx)) c) j =
  if j =? idx then Some c else child_at bm cs j.
Proof.
  intros Hi Hj L T B. unfold child_at.
  assert (Hcb : forall n, (n <= 32)%nat ->
            count_below bm' n =
            (count_below bm n + if (Z.to_nat idx <? n)%nat then 1 else 0)%nat).
  { intros n Hn. apply count_below_set.
    - rewrite Z2Nat.id by lia. assumption.
    - intros i Hlt. rewrite B by lia. f_equal.
      destruct (Z.eqb_spec (Z.of_nat i) idx), (Nat.eqb_spec i (Z.to_nat idx));
        auto; lia. }
  assert (P : (count_below bm (Z.to_nat idx) <= length cs)%nat).
  { rewrite L. apply count_below_mono. lia. }
  rewrite B by lia.
  destruct (Z.eqb_spec j idx) as [->|Hne].
  - rewrite orb_true_r, Hcb, Nat.ltb_irrefl, Nat.add_0_r by lia.
    apply nth_error_splice_in_eq. assumption.
  - rewrite orb_false_r.
    destruct (Z.testbit bm j) eqn:Tj; [|reflexivity].
    rewrite Hcb by lia.
    destruct (Nat.ltb_spec (Z.to_nat idx) (Z.to_nat j)).
    + rewrite Nat.add_1_r.
      apply nth_error_splice_in_gt; [|assumption].
      apply count_below_mono. lia.
    + rewrite Nat.add_0_r.
      apply nth_error_splice_in_lt; [|assumption].
      apply count_below_strict; [lia|].
      rewrite Z2Nat.id by lia. assumption.
Qed.

Lemma child_at_remove (bm bm' : Z) (cs : list HChild) (idx j : Z) :
  0 <= idx < 32 -> 0 <= j < 32 ->
  length cs = count_below bm 32 -> Z.testbit bm idx = true ->
  (forall i, 0 <= i < 32 -> Z.testbit bm' i = xorb (Z.testbit bm i) (i =? idx)) ->
  child_at bm' (splice_out cs (count_below bm (Z.to_nat idx))) j =
  if j =? idx then None else child_at bm cs j.
Proof.
  intros Hi Hj L T B. unfold child_at.
  assert (Hcb : forall n, (n <= 32)%nat ->
            (count_below bm' n + if (Z.to_nat idx <? n)%nat then 1 else 0)%nat
            = count_below bm n).
  { intros n Hn. apply count_below_clear.
    - rewrite Z2Nat.id by lia. assumption.
    - intros i Hlt. rewrite B by lia. f_equal.
      destruct (Z.eqb_spec (Z.of_nat i) idx), (Nat.eqb_spec i (Z.to_nat idx));
        auto; lia. }
  pose proof (child_at_lt bm cs idx Hi L T) as P.
  rewrite B by lia.
  destruct (Z.eqb_spec j idx) as [->|Hne].
  - rewrite T. reflexivity.
  - rewrite xorb_false_r.
    destruct (Z.testbit bm j) eqn:Tj; [|reflexivity].
    pose proof (Hcb (Z.to_nat j) ltac:(lia)) as E.
    destruct (Nat.ltb_spec (Z.to_nat idx) (Z.to_nat j)).
    + rewrite <- E, Nat.add_1_r.
      rewrite nth_error_splice_out_ge; [reflexivity| |lia].
      assert (count_below bm (Z.to_nat idx) < count_below bm (Z.to_nat j))%nat.
      { apply count_below_strict; [lia|]. rewrite Z2Nat.id by lia. assumption. }
      lia.
    + rewrite Nat.add_0_r in E. rewrite E.
      apply nth_error_splice_out_lt.
      apply count_below_strict; [lia|].
      rewrite Z2Nat.id by lia. assumption.
Qed.

Lemma count_below_0 (n : nat) : count_below 0 n = 0%nat.
Proof.
  induction n; [reflexivity|].
  rewrite count_below_S, IHn, Z.bits_0. reflexivity.
Qed.

(** Positions in a bitmap whose only set bit is [idx]. *)
Lemma count_below_single (bm idx : Z) (n : nat) :
  0 <= idx < 32 -> (n <= 32)%nat ->
  (forall i, 0 <= i < 32 -> Z.testbit bm i = (i =? idx)) ->
  count_below bm n = if (Z.to_nat idx <? n)%nat then 1%nat else 0%nat.
Proof.
  intros Hi Hn B.
  rewrite (count_below_set 0 bm (Z.to_nat idx) n).
  - rewrite count_below_0. reflexivity.
  - apply Z.bits_0.
  - intros j Hj. rewrite B, Z.bits_0 by lia. simpl.
    destruct (Z.eqb_spec (Z.of_nat j) idx), (Nat.eqb_spec j (Z.to_nat idx));
      auto; lia.
Qed.

(** The branches [mergeLeaves] builds. *)
Lemma child_at_one (bm idx j : Z) (c : HChild) :
  0 <= idx < 32 -> 0 <= j < 32 ->
  (forall i, 0 <= i < 32 -> Z.testbit bm i = (i =? idx)) ->
  child_at bm [c] j = if j =? idx then Some c else None.
Proof.
  intros Hi Hj B. unfold child_at.
  rewrite B by lia.
  destruct (Z.eqb_spec j idx) as [->|Hne]; [|reflexivity].
  rewrite (count_below_single bm idx) by (auto; lia).
  rewrite Nat.ltb_irrefl. reflexivity.
Qed.

Lemma count_below_one (bm idx : Z) :
  0 <= idx < 32 ->
  (forall i, 0 <= i < 32 -> Z.testbit bm i = (i =? idx)) ->
  count_below bm 32 = 1%nat.
Proof.
  intros Hi B.
  rewrite (count_below_single bm idx) by (auto; lia).
  destruct (Nat.ltb_spec (Z.to_nat idx) 32); [reflexivity|lia].
Qed.

(** Positions in a bitmap whose set bits are [i1] and [i2]. *)
Lemma count_below_pair (bm i1 i2 : Z) (n : nat) :
  0 <= i1 < 32 -> 0 <= i2 < 32 -> i1 <> i2 -> (n <= 32)%nat ->
  (forall i, 0 <= i < 32 -> Z.testbit bm i = (i =? i1) || (i =? i2)) ->
  count_below bm n =
  ((if (Z.to_nat i1 <? n)%nat then 1 else 0) +
   (if (Z.to_nat i2 <? n)%nat then 1 else 0))%nat.
Proof.
  intros H1 H2 Hne Hn B.
  rewrite (count_below_set (shl 1 i1) bm (Z.to_nat i2) n).
  - rewrite (count_below_single (shl 1 i1) i1) by
      (auto; intros; apply bit_testbit; lia).
    reflexivity.
  - rewrite Z2Nat.id, bit_testbit by lia.
    apply Z.eqb_neq. auto.
  - intros j Hj. rewrite B, bit_testbit by lia. f_equal.
    destruct (Z.eqb_spec (Z.of_nat j) i2), (Nat.eqb_spec j (Z.to_nat i2));
      auto; lia.
Qed.

Lemma child_at_two (bm i1 i2 j : Z) (a b : HChild) :
  0 <= i1 < 32 -> 0 <= i2 < 32 -> i1 <> i2 -> 0 <= j < 32 ->
  (forall i, 0 <= i < 32 -> Z.testbit bm i = (i =? i1) || (i =? i2)) ->
  child_at bm (if i1 <? i2 then [a; b] else [b; a]) j =
  if j =? i1 then Some a else if j =? i2 then Some b else None.
Proof.
  intros H1 H2 Hne Hj B. unfold child_at.
  rewrite B by lia.
  rewrite (count_below_pair bm i1 i2) by (auto; lia).
  destruct (Z.eqb_spec j i1) as [->|N1]; simpl.
  - rewrite Nat.ltb_irrefl.
    destruct (Z.ltb_spec i1 i2), (Nat.ltb_spec (Z.to_nat i2) (Z.to_nat i1));
      try lia; reflexivity.
  - destruct (Z.eqb_spec j i2) as [->|N2]; [|reflexivity].
    rewrite Nat.ltb_irrefl.
    destruct (Z.ltb_spec i1 i2), (Nat.ltb_spec (Z.to_nat i1) (Z.to_nat i2));
      try lia; reflexivity.
Qed.

(** *** [mergeLeaves] *)

Lemma bit_spec_one (idx : Z) :
  0 <= idx < 32 ->
  forall i, 0 <= i < 32 -> Z.testbit (shl 1 idx) i = (i =? idx).
Proof. intros Hi i Hj. apply bit_testbit; assumption. Qed.

Lemma bit_spec_two (i1 i2 : Z) :
  0 <= i1 < 32 -> 0 <= i2 < 32 ->
  forall i, 0 <= i < 32 ->
    Z.testbit (Int32.or (shl 1 i1) (shl 1 i2)) i = (i =? i1) || (i =? i2).
Proof.
  intros H1 H2 i Hi. rewrite or_testbit, !bit_testbit by lia. reflexivity.
Qed.

Lemma mergeLeaves_S fuel (l1 l2 : HLeaf) o s :
  mergeLeaves (S fuel) l1 l2 o s =
  if chunk (hash l1) s =? chunk (hash l2) s then
    match mergeLeaves fuel l1 l2 o (s + BITS) with
    | Some child => Some (Node o (shl 1 (chunk (hash l1) s)) [child])
    | None => None
    end
  else
    Some (Node o (Int32.or (shl 1 (chunk (hash l1) s)) (shl 1 (chunk (hash l2) s)))
            (if chunk (hash l1) s <? chunk (hash l2) s
             then [Leaf l1; Leaf l2] else [Leaf l2; Leaf l1])).
Proof. reflexivity. Qed.

(** Reading the branch spine that [mergeLeaves] builds. *)
Lemma mergeLeaves_get fuel (l1 l2 : HLeaf) o :
  forall s t, mergeLeaves fuel l1 l2 o s = Some t ->
  forall h k,
    hamtGetLoop t h k s =
    if (hash l1 =? h) && keyEquals (key l1) k then Some (value l1)
    else if (hash l2 =? h) && keyEquals (key l2) k then Some (value l2)
    else None.
Proof.
  induction fuel as [|fuel IH]; intros s t H h k; [discriminate|].
  rewrite mergeLeaves_S in H.
  pose proof (chunk_range (hash l1) s) as R1.
  pose proof (chunk_range (hash l2) s) as R2.
  pose proof (chunk_range h s) as R.
  destruct (Z.eqb_spec (chunk (hash l1) s) (chunk (hash l2) s)) as [E|N].
  - destruct (mergeLeaves fuel l1 l2 o (s + BITS)) as [child|] eqn:M;
      [|discriminate].
    injection H as <-.
    rewrite hamtGetLoop_node.
    rewrite (child_at_one _ (chunk (hash l1) s)) by
      (auto using bit_spec_one).
    destruct (Z.eqb_spec (chunk h s) (chunk (hash l1) s)) as [Eh|Nh].
    + apply IH. assumption.
    + destruct (Z.eqb_spec (hash l1) h) as [E1|]; [rewrite E1 in *; congruence|].
      destruct (Z.eqb_spec (hash l2) h) as [E2|]; [rewrite E2 in *; congruence|].
      reflexivity.
  - injection H as <-.
    rewrite hamtGetLoop_node.
    rewrite (child_at_two _ (chunk (hash l1) s) (chunk (hash l2) s)) by
      (auto using bit_spec_two).
    destruct (Z.eqb_spec (chunk h s) (chunk (hash l1) s)) as [Eh|Nh].
    + cbn [hamtGetLoop].
      destruct ((hash l1 =? h) && keyEquals (key l1) k); [reflexivity|].
      destruct (Z.eqb_spec (hash l2) h) as [E2|]; [rewrite E2 in *; congruence|].
      reflexivity.
    + destruct (Z.eqb_spec (hash l1) h) as [E1|]; [rewrite E1 in *; congruence|]. simpl.
      destruct (Z.eqb_spec (chunk h s) (chunk (hash l2) s)) as [Eh2|Nh2].
      * reflexivity.
      * destruct (Z.eqb_spec (hash l2) h) as [E2|]; [rewrite E2 in *; congruence|].
        reflexivity.
Qed.

Lemma mergeLeaves_leaves fuel (l1 l2 : HLeaf) o :
  forall s t, mergeLeaves fuel l1 l2 o s = Some t ->
  forall e, In e (leaves_of t) -> e = l1 \/ e = l2.
Proof.
  induction fuel as [|fuel IH]; intros s t H e He; [discriminate|].
  rewrite mergeLeaves_S in H.
  destruct (chunk (hash l1) s =? chunk (hash l2) s).
  - destruct (mergeLeaves fuel l1 l2 o (s + BITS)) as [child|] eqn:M;
      [|discriminate].
    injection H as <-. cbn [leaves_of] in He.
    rewrite app_nil_r in He. eapply IH; eauto.
  - injection H as <-.
    destruct (chunk (hash l1) s <? chunk (hash l2) s); simpl in He;
      intuition auto.
Qed.

Lemma mergeLeaves_wf fuel (l1 l2 : HLeaf) o :
  leaf_ok l1 -> leaf_ok l2 ->
  forall s t, mergeLeaves fuel l1 l2 o s = Some t -> wf s t.
Proof.
  intros O1 O2.
  induction fuel as [|fuel IH]; intros s t H; [discriminate|].
  rewrite mergeLeaves_S in H.
  pose proof (chunk_range (hash l1) s) as R1.
  pose proof (chunk_range (hash l2) s) as R2.
  destruct (Z.eqb_spec (chunk (hash l1) s) (chunk (hash l2) s)) as [E|N].
  - destruct (mergeLeaves fuel l1 l2 o (s + BITS)) as [child|] eqn:M;
      [|discriminate].
    injection H as <-.
    constructor.
    + symmetry. apply (count_below_one _ (chunk (hash l1) s));
        auto using bit_spec_one.
    + constructor; [|constructor]. apply IH. assumption.
    + intros idx c Hidx Hc.
      rewrite (child_at_one _ (chunk (hash l1) s)) in Hc by
        (auto using bit_spec_one).
      destruct (Z.eqb_spec idx (chunk (hash l1) s)) as [->|];
        [|discriminate].
      injection Hc as <-.
      apply Forall_forall. intros e He.
      destruct (mergeLeaves_leaves _ _ _ _ _ _ M e He) as [->| ->]; auto.
  - injection H as <-.
    constructor.
    + rewrite (count_below_pair _ (chunk (hash l1) s) (chunk (hash l2) s))
        by (auto using bit_spec_two).
      destruct (Nat.ltb_spec (Z.to_nat (chunk (hash l1) s)) 32),
               (Nat.ltb_spec (Z.to_nat (chunk (hash l2) s)) 32); try lia.
      destruct (chunk (hash l1) s <? chunk (hash l2) s); reflexivity.
    + destruct (chunk (hash l1) s <? chunk (hash l2) s);
        repeat constructor; assumption.
    + intros idx c Hidx Hc.
      rewrite (child_at_two _ (chunk (hash l1) s) (chunk (hash l2) s)) in Hc
        by (auto using bit_spec_two).
      destruct (Z.eqb_spec idx (chunk (hash l1) s)) as [->|].
      * injection Hc as <-. repeat constructor.
      * destruct (Z.eqb_spec idx (chunk (hash l2) s)) as [->|];
          [|discriminate].
        injection Hc as <-. repeat constructor.
Qed.

Lemma forallb_false_exists {A : Type} (f : A -> bool) (l : list A) :
  forallb f l = false -> exists x, In x l /\ f x = false.
Proof.
  induction l as [|a l IH]; simpl; [discriminate|].
  destruct (f a) eqn:Fa; simpl.
  - intros H. destruct (IH H) as (x & Hx & Hf). eauto.
  - eauto.
Qed.

(** Two distinct 32-bit hashes take different indices at one of the next
    32 levels, whatever the shift. *)
Lemma hashes_part (h1 h2 s : Z) :
  0 <= h1 < 2 ^ 32 -> 0 <= h2 < 2 ^ 32 -> h1 <> h2 ->
  exists n, 0 <= n < 32 /\ chunk h1 (s + 5 * n) <> chunk h2 (s + 5 * n).
Proof.
  intros R1 R2 Hne.
  assert (exists b, 0 <= b < 32 /\ Z.testbit h1 b <> Z.testbit h2 b)
    as (b & Hb & Hbit).
  { destruct (forallb (fun b => Bool.eqb (Z.testbit h1 (Z.of_nat b))
                                         (Z.testbit h2 (Z.of_nat b)))
                      (seq 0 32)) eqn:F.
    - exfalso. apply Hne. apply Z.bits_inj'. intros n Hn.
      destruct (Z.lt_ge_cases n 32).
      + rewrite forallb_forall in F.
        specialize (F (Z.to_nat n)).
        rewrite Z2Nat.id in F by lia.
        apply Bool.eqb_prop, F, in_seq. lia.
      + rewrite !Z.bits_above_log2; auto; try lia.
        * destruct (Z.eq_dec h2 0) as [->|]; [simpl; lia|].
          apply Z.lt_le_trans with 32; [|lia].
          apply Z.log2_lt_pow2; lia.
        * destruct (Z.eq_dec h1 0) as [->|]; [simpl; lia|].
          apply Z.lt_le_trans with 32; [|lia].
          apply Z.log2_lt_pow2; lia.
    - apply forallb_false_exists in F as (x & Hx & Hd).
      apply in_seq in Hx. exists (Z.of_nat x). split; [lia|].
      intros E. rewrite E, Bool.eqb_reflx in Hd. discriminate. }
  set (n := (13 * (b - s)) mod 32).
  assert (Hn : 0 <= n < 32) by (apply Z.mod_pos_bound; lia).
  exists n. split; [assumption|].
  assert (Hs : Z.land (s + 5 * n) 31 = b).
  { change 31 with (Z.ones 5). rewrite Z.land_ones by lia.
    change (2 ^ 5) with 32.
    pose proof (Z.div_mod (13 * (b - s)) 32 ltac:(lia)) as D.
    fold n in D.
    replace (s + 5 * n)
      with (b + (2 * (b - s) - 5 * (13 * (b - s) / 32)) * 32) by lia.
    rewrite Z_mod_plus_full. apply Z.mod_small. lia. }
  rewrite !chunk_eq, Hs, !(Z.mod_small _ (2 ^ 32)) by assumption.
  intros E. apply Hbit.
  assert (T : forall h, Z.testbit h b = Z.testbit (Z.shiftr h b mod 32) 0).
  { intros h. change 32 with (2 ^ 5).
    rewrite Z.mod_pow2_bits_low, Z.shiftr_spec by lia.
    reflexivity. }
  rewrite (T h1), (T h2), E. reflexivity.
Qed.

Lemma mergeLeaves_enough fuel (l1 l2 : HLeaf) o :
  forall n s, (Z.to_nat n < fuel)%nat -> 0 <= n ->
    chunk (hash l1) (s + 5 * n) <> chunk (hash l2) (s + 5 * n) ->
    exists t, mergeLeaves fuel l1 l2 o s = Some t.
Proof.
  induction fuel as [|fuel IH]; intros n s Hf Hn Hd; [lia|].
  rewrite mergeLeaves_S.
  destruct (Z.eqb_spec (chunk (hash l1) s) (chunk (hash l2) s)) as [E|N];
    [|eauto].
  assert (n <> 0).
  { intros ->. apply Hd. rewrite Z.mul_0_r, Z.add_0_r. assumption. }
  destruct (IH (n - 1) (s + BITS)) as [t Ht]; [lia|lia| |].
  - unfold BITS. replace (s + 5 + 5 * (n - 1)) with (s + 5 * n) by lia.
    assumption.
  - rewrite Ht. eauto.
Qed.

(** [mergeLeaves] returns on leaves with distinct hashes. *)
Lemma mergeLeaves_total (l1 l2 : HLeaf) o s :
  0 <= hash l1 < 2 ^ 32 -> 0 <= hash l2 < 2 ^ 32 -> hash l1 <> hash l2 ->
  exists t, mergeLeaves MERGE_FUEL l1 l2 o s = Some t.
Proof.
  intros R1 R2 Hne.
  destruct (hashes_part _ _ s R1 R2 Hne) as (n & Hn & Hd).
  apply (mergeLeaves_enough _ _ _ _ n); auto; unfold MERGE_FUEL; lia.
Qed.

(** *** The runs of [hamtInsert] and [hamtRemove] *)

Lemma hamtInsertNode_Ins (node : HChild) :
  forall owner h k v s res,
    hamtInsertNode strictEq node owner h k v s = Some res ->
    Ins strictEq owner h k v node s res.
Proof.
  induction node as [l|es|o bm cs IH] using HChild_rect';
    intros owner h k v s res H.
  - cbn [hamtInsertNode] in H.
    destruct (Z.eqb_spec (hash l) h) as [E|N]; cbn [andb negb] in H.
    + destruct (keyEquals (key l) k) eqn:K; cbn [andb negb] in H.
      * destruct (strictEq (value l) v) eqn:Q; injection H as <-;
          constructor; assumption.
      * injection H as <-. constructor; assumption.
    + destruct (mergeLeaves MERGE_FUEL l _ owner s) eqn:M; [|discriminate].
      injection H as <-. constructor; assumption.
  - cbn [hamtInsertNode] in H.
    destruct (findEntry es k) as [idx|] eqn:F.
    + destruct (nth_error es idx) as [existing|] eqn:Nth; [|discriminate].
      destruct (strictEq (value existing) v) eqn:Q; injection H as <-;
        econstructor; eassumption.
    + injection H as <-. constructor. assumption.
  - rewrite hamtInsertNode_node in H. cbv zeta in H.
    destruct (Z.testbit bm (chunk h s)) eqn:T.
    + destruct (nth_error cs _) as [c|] eqn:Nth; [|discriminate].
      destruct (hamtInsertNode strictEq c owner h k v (s + BITS))
        as [res'|] eqn:R; [|discriminate].
      rewrite Forall_forall in IH.
      apply IH in R; [|eapply nth_error_In; eassumption].
      destruct (negb (changed res') && negb (added res')) eqn:B;
        injection H as <-.
      * apply andb_prop in B as [B1 B2].
        apply negb_true_iff in B1, B2.
        eapply Ins_node_same; eassumption.
      * eapply Ins_node_edit; eassumption.
    + injection H as <-. constructor. assumption.
Qed.

Lemma hamtRemoveNode_Rem (node : HChild) :
  forall owner h k s res,
    hamtRemoveNode node owner h k s = Some res ->
    Rem owner h k node s res.
Proof.
  induction node as [l|es|o bm cs IH] using HChild_rect';
    intros owner h k s res H.
  - cbn [hamtRemoveNode] in H.
    destruct ((hash l =? h) && keyEquals (key l) k) eqn:B;
      injection H as <-.
    + apply andb_prop in B as [B1 B2]. apply Z.eqb_eq in B1.
      constructor; assumption.
    + constructor. assumption.
  - cbn [hamtRemoveNode] in H.
    destruct (findEntry es k) as [idx|] eqn:F.
    + destruct (Nat.eqb_spec (length es) 1) as [L|L].
      * injection H as <-. econstructor; eassumption.
      * destruct (splice_out es idx) as [|only [|e2 rest]] eqn:S;
          injection H as <-.
        -- rewrite <- S. eapply Rem_collision_more; eauto.
           rewrite S. discriminate.
        -- eapply Rem_collision_pair; eauto.
        -- rewrite <- S. eapply Rem_collision_more; eauto.
           rewrite S. discriminate.
    + injection H as <-. constructor. assumption.
  - rewrite hamtRemoveNode_node in H. cbv zeta in H.
    destruct (Z.testbit bm (chunk h s)) eqn:T.
    + destruct (nth_error cs _) as [c|] eqn:Nth; [|discriminate].
      destruct (hamtRemoveNode c owner h k (s + BITS)) as [res'|] eqn:R;
        [|discriminate].
      rewrite Forall_forall in IH.
      apply IH in R; [|eapply nth_error_In; eassumption].
      destruct (removed res') eqn:B; cbn [negb] in H.
      * destruct (rem_node res') as [child'|] eqn:C.
        -- injection H as <-. eapply Rem_node_edit; eassumption.
        -- destruct (Z.eqb_spec (Int32.xor bm (shl 1 (chunk h s))) 0)
             as [X|X].
           ++ injection H as <-. eapply Rem_node_empty; eassumption.
           ++ destruct (soleNonBranch _) as [only|] eqn:Sole;
                injection H as <-.
              ** eapply Rem_node_collapse; eassumption.
              ** eapply Rem_node_shrink; eassumption.
      * injection H as <-. eapply Rem_node_miss; eassumption.
    + injection H as <-. constructor. assumption.
Qed.

(** *** Collision buckets *)

Lemma keyEquals_congr (a k k' : jsval) :
  keyEquals k k' = true -> keyEquals a k = keyEquals a k'.
Proof.
  intros E.
  destruct (keyEquals a k) eqn:A, (keyEquals a k') eqn:B; auto.
  - rewrite (keyEquals_trans a k k') in B; auto.
  - rewrite keyEquals_sym in E.
    rewrite (keyEquals_trans a k' k) in A; auto.
Qed.

Lemma keyEquals_congr_l (a b c : jsval) :
  keyEquals a b = true -> keyEquals a c = keyEquals b c.
Proof.
  intros E.
  rewrite (keyEquals_sym a c), (keyEquals_sym b c).
  apply keyEquals_congr. assumption.
Qed.

Lemma scanEntries_congr (es : list HLeaf) (k k' : jsval) :
  keyEquals k k' = true -> scanEntries es k = scanEntries es k'.
Proof.
  intros E. induction es as [|e es IH]; simpl; [reflexivity|].
  rewrite (keyEquals_congr (key e) k k' E), IH. reflexivity.
Qed.

Lemma findEntry_Some_inv (es : list HLeaf) (k : jsval) (i : nat) :
  findEntry es k = Some i ->
  exists e, nth_error es i = Some e /\ keyEquals (key e) k = true /\
            scanEntries es k = Some (value e).
Proof.
  revert i. induction es as [|e es IH]; simpl; intros i H; [discriminate|].
  destruct (keyEquals (key e) k) eqn:K.
  - injection H as <-. exists e. auto.
  - destruct (findEntry es k) as [j|]; [|discriminate].
    injection H as <-. apply (IH j). reflexivity.
Qed.

Lemma findEntry_None_inv (es : list HLeaf) (k : jsval) :
  findEntry es k = None ->
  scanEntries es k = None /\
  Forall (fun e => keyEquals (key e) k = false) es.
Proof.
  induction es as [|e es IH]; simpl; intros H; [auto|].
  destruct (keyEquals (key e) k) eqn:K; [discriminate|].
  destruct (findEntry es k); [discriminate|].
  destruct (IH eq_refl). auto.
Qed.

Lemma scanEntries_None (es : list HLeaf) (k : jsval) :
  scanEntries es k = None <->
  Forall (fun e => keyEquals (key e) k = false) es.
Proof.
  induction es as [|e es IH]; simpl; split; intros H; auto.
  - destruct (keyEquals (key e) k) eqn:K; [discriminate|].
    constructor; [assumption|]. apply IH. assumption.
  - inversion H; subst. rewrite H2. apply IH. assumption.
Qed.

Lemma findEntry_scan (es : list HLeaf) (k : jsval) :
  findEntry es k = None <-> scanEntries es k = None.
Proof.
  split; intros H.
  - apply findEntry_None_inv in H. tauto.
  - destruct (findEntry es k) eqn:F; [|reflexivity].
    apply findEntry_Some_inv in F as (e & _ & _ & S). congruence.
Qed.

(** Replacing the entry found for [k]. *)
Lemma scanEntries_update (es : list HLeaf) (k k' : jsval) (i : nat) h v :
  findEntry es k = Some i ->
  scanEntries (set_nth es i (mkLeaf k h v)) k' =
  if keyEquals k k' then Some v else scanEntries es k'.
Proof.
  revert i. induction es as [|e es IH]; intros i H; [discriminate|].
  simpl in H.
  destruct (keyEquals (key e) k) eqn:K.
  - injection H as <-. simpl.
    destruct (keyEquals k k') eqn:KK; [reflexivity|].
    rewrite (keyEquals_congr_l (key e) k k' K), KK.
    reflexivity.
  - destruct (findEntry es k) as [j|] eqn:F; [|discriminate].
    injection H as <-. simpl. rewrite (IH j eq_refl).
    destruct (keyEquals k k') eqn:KK; [|reflexivity].
    rewrite <- (keyEquals_congr (key e) k k' KK), K. reflexivity.
Qed.

(** Appending an entry for a key the bucket does not hold. *)
Lemma scanEntries_append (es : list HLeaf) (k k' : jsval) h v :
  findEntry es k = None ->
  scanEntries (es ++ [mkLeaf k h v]) k' =
  if keyEquals k k' then Some v else scanEntries es k'.
Proof.
  induction es as [|e es IH]; intros H; simpl.
  - reflexivity.
  - simpl in H.
    destruct (keyEquals (key e) k) eqn:K; [discriminate|].
    destruct (findEntry es k) eqn:F; [discriminate|].
    rewrite (IH eq_refl).
    destruct (keyEquals k k') eqn:KK; [|reflexivity].
    rewrite <- (keyEquals_congr (key e) k k' KK), K. reflexivity.
Qed.

(** Removing the entry found for [k] from a bucket of distinct keys. *)
Lemma scanEntries_remove (es : list HLeaf) (k k' : jsval) (i : nat) :
  distinct_keys es -> findEntry es k = Some i ->
  scanEntries (splice_out es i) k' =
  if keyEquals k k' then None else scanEntries es k'.
Proof.
  revert i. induction es as [|e es IH]; intros i D H; [discriminate|].
  simpl in H. destruct D as [D1 D2].
  destruct (keyEquals (key e) k) eqn:K.
  - injection H as <-. unfold splice_out. simpl.
    rewrite (keyEquals_congr_l (key e) k k' K).
    destruct (keyEquals k k') eqn:KK; [|reflexivity].
    apply scanEntries_None.
    eapply Forall_impl; [|exact D1]. intros e' He'. simpl in He'.
    rewrite keyEquals_sym.
    rewrite <- (keyEquals_congr_l k k' (key e') KK).
    rewrite <- (keyEquals_congr_l (key e) k (key e') K).
    assumption.
  - destruct (findEntry es k) as [j|] eqn:F; [|discriminate].
    injection H as <-.
    change (splice_out (e :: es) (S j)) with (e :: splice_out es j).
    simpl. rewrite (IH j D2 eq_refl).
    destruct (keyEquals k k') eqn:KK; [|reflexivity].
    rewrite <- (keyEquals_congr (key e) k k' KK), K. reflexivity.
Qed.

Lemma distinct_keys_update (es : list HLeaf) (k : jsval) (i : nat) h v :
  distinct_keys es -> findEntry es k = Some i ->
  distinct_keys (set_nth es i (mkLeaf k h v)).
Proof.
  revert i. induction es as [|e es IH]; intros i D H; [discriminate|].
  simpl in H. destruct D as [D1 D2].
  destruct (keyEquals (key e) k) eqn:K.
  - injection H as <-. simpl. split; [|assumption].
    eapply Forall_impl; [|exact D1]. intros e' He'. simpl in He'.
    rewrite <- (keyEquals_congr_l (key e) k (key e') K). assumption.
  - destruct (findEntry es k) as [j|] eqn:F; [|discriminate].
    injection H as <-. simpl. split; [|apply IH; auto].
    clear IH D2. revert j F.
    induction D1 as [|e' es He' D1 IH]; intros j F; [discriminate|].
    simpl in F. destruct (keyEquals (key e') k) eqn:K'.
    + injection F as <-. simpl. constructor; assumption.
    + destruct (findEntry es k) as [j'|] eqn:F'; [|discriminate].
      injection F as <-. simpl. constructor; eauto.
Qed.

Lemma distinct_keys_append (es : list HLeaf) (k : jsval) h v :
  distinct_keys es -> findEntry es k = None ->
  distinct_keys (es ++ [mkLeaf k h v]).
Proof.
  induction es as [|e es IH]; intros D H; simpl.
  - auto.
  - simpl in H. destruct D as [D1 D2].
    destruct (keyEquals (key e) k) eqn:K; [discriminate|].
    destruct (findEntry es k) eqn:F; [discriminate|].
    split; [|apply IH; auto].
    apply Forall_app. split; [assumption|].
    constructor; [assumption|constructor].
Qed.

Lemma distinct_keys_remove (es : list HLeaf) (i : nat) :
  distinct_keys es -> distinct_keys (splice_out es i).
Proof.
  revert i. induction es as [|e es IH]; intros [|i] D.
  - exact I.
  - exact I.
  - destruct D as [_ D]. exact D.
  - destruct D as [D1 D2].
    change (splice_out (e :: es) (S i)) with (e :: splice_out es i).
    simpl. split; [|apply IH; assumption].
    apply Forall_splice_out. assumption.
Qed.

(** *** Entries below a node *)

Lemma leaves_of_node o bm (cs : list HChild) :
  leaves_of (Node o bm cs) = flat_map leaves_of cs.
Proof.
  cbn [leaves_of]. induction cs as [|c cs IH]; simpl; [reflexivity|].
  rewrite IH. reflexivity.
Qed.

Lemma In_flat_map_nth {A B : Type} (f : A -> list B) (l : list A) (i : nat)
    (a : A) (b : B) :
  nth_error l i = Some a -> In b (f a) -> In b (flat_map f l).
Proof.
  intros H Hb. apply in_flat_map. exists a. split; [|assumption].
  eapply nth_error_In. eassumption.
Qed.

Lemma In_flat_map_set_nth {A B : Type} (f : A -> list B) (l : list A)
    (i : nat) (x : A) (b : B) :
  In b (flat_map f (set_nth l i x)) -> In b (f x) \/ In b (flat_map f l).
Proof.
  revert i. induction l as [|a l IH]; intros [|i]; simpl; auto.
  - rewrite !in_app_iff. tauto.
  - rewrite !in_app_iff. intros [H|H]; [tauto|].
    destruct (IH i H); tauto.
Qed.

Lemma In_flat_map_splice_in {A B : Type} (f : A -> list B) (l : list A)
    (i : nat) (x : A) (b : B) :
  In b (flat_map f (splice_in l i x)) -> In b (f x) \/ In b (flat_map f l).
Proof.
  unfold splice_in. rewrite flat_map_app. simpl.
  rewrite <- (firstn_skipn i l) at 3. rewrite flat_map_app, !in_app_iff.
  tauto.
Qed.

Lemma In_flat_map_splice_out {A B : Type} (f : A -> list B) (l : list A)
    (i : nat) (b : B) :
  In b (flat_map f (splice_out l i)) -> In b (flat_map f l).
Proof.
  unfold splice_out. rewrite flat_map_app, in_app_iff.
  rewrite !in_flat_map.
  intros [(a & Ha & Hb)|(a & Ha & Hb)]; exists a; split; auto.
  - rewrite <- (firstn_skipn i l). apply in_or_app. auto.
  - rewrite <- (firstn_skipn (S i) l). apply in_or_app. auto.
Qed.

(** *** What [hamtInsert] returns *)

Lemma child_at_nth bm (cs : list HChild) idx c :
  Z.testbit bm idx = true ->
  nth_error cs (count_below bm (Z.to_nat idx)) = Some c ->
  child_at bm cs idx = Some c.
Proof. intros T N. unfold child_at. rewrite T. assumption. Qed.

Lemma child_at_vacant bm (cs : list HChild) idx :
  Z.testbit bm idx = false -> child_at bm cs idx = None.
Proof. intros T. unfold child_at. rewrite T. reflexivity. Qed.

(** [added] tells that the key was absent, [changed] that it was absent
    or held another value. *)
Lemma Ins_flags owner h k v node s res :
  Ins strictEq owner h k v node s res ->
  added res = negb (stored node h k s) /\
  changed res = negb (stored_same strictEq node h k v s).
Proof.
  unfold stored, stored_same.
  induction 1; cbn [added changed].
  - cbn [hamtGetLoop]. subst h. rewrite Z.eqb_refl, H0. simpl.
    rewrite H1. auto.
  - cbn [hamtGetLoop]. subst h. rewrite Z.eqb_refl, H0. simpl.
    rewrite H1. auto.
  - cbn [hamtGetLoop]. subst h. rewrite Z.eqb_refl, H0. auto.
  - cbn [hamtGetLoop]. apply Z.eqb_neq in H. rewrite H. auto.
  - cbn [hamtGetLoop].
    apply findEntry_Some_inv in H as (e & N & K & S).
    rewrite S. assert (e = existing) as -> by congruence.
    rewrite H1. auto.
  - cbn [hamtGetLoop].
    apply findEntry_Some_inv in H as (e & N & K & S).
    rewrite S. assert (e = existing) as -> by congruence.
    rewrite H1. auto.
  - cbn [hamtGetLoop]. apply findEntry_scan in H. rewrite H. auto.
  - rewrite hamtGetLoop_node, child_at_vacant by assumption. auto.
  - rewrite hamtGetLoop_node, (child_at_nth _ _ _ c) by assumption.
    destruct IHIns as [IH1 IH2].
    rewrite <- IH1, <- IH2, H2, H3. auto.
  - rewrite hamtGetLoop_node, (child_at_nth _ _ _ c) by assumption.
    destruct IHIns as [IH1 IH2].
    destruct (hamtGetLoop c h k (s + BITS)) as [w|];
      destruct (changed res), (added res); simpl in *;
      try discriminate; auto.
Qed.

Lemma Ins_added_changed owner h k v node s res :
  Ins strictEq owner h k v node s res ->
  added res = true -> changed res = true.
Proof.
  intros H A. apply Ins_flags in H as [F1 F2].
  rewrite F1 in A. rewrite F2.
  unfold stored, stored_same in *.
  destruct (hamtGetLoop node h k s); [discriminate|reflexivity].
Qed.

(** An insertion that changes nothing hands back the node it was given. *)
Lemma Ins_unchanged owner h k v node s res :
  Ins strictEq owner h k v node s res ->
  changed res = false -> ins_node res = node /\ added res = false.
Proof.
  induction 1; cbn [added changed ins_node]; intros C;
    try discriminate; auto.
Qed.

Lemma Ins_leaves owner h k v node s res :
  Ins strictEq owner h k v node s res ->
  forall e, In e (leaves_of (ins_node res)) ->
            In e (leaves_of node) \/ e = mkLeaf k h v.
Proof.
  induction 1; cbn [ins_node]; intros e He; auto.
  - simpl in He. intuition auto.
  - simpl in He |- *. intuition auto.
  - eapply mergeLeaves_leaves in He; [|eassumption].
    simpl. intuition auto.
  - cbn [leaves_of] in *.
    apply findEntry_Some_inv in H as (e0 & _ & _ & _).
    clear - He. revert idx He.
    induction es as [|a es IH]; intros [|i] He; simpl in *; intuition auto.
    destruct (IH _ H); auto.
  - cbn [leaves_of] in *. apply in_app_or in He. simpl in He.
    intuition auto.
  - rewrite leaves_of_node in *.
    apply In_flat_map_splice_in in He. simpl in He. intuition auto.
  - rewrite leaves_of_node in *.
    apply In_flat_map_set_nth in He as [He|He]; auto.
    apply IHIns in He as [He|He]; auto.
    left. eapply In_flat_map_nth; eassumption.
Qed.

Lemma or_bit_spec (bm idx : Z) :
  0 <= idx < 32 ->
  forall i, 0 <= i < 32 ->
    Z.testbit (Int32.or bm (shl 1 idx)) i = Z.testbit bm i || (i =? idx).
Proof.
  intros Hi i Hj. rewrite or_testbit, bit_testbit by lia. reflexivity.
Qed.

Lemma xor_bit_spec (bm idx : Z) :
  0 <= idx < 32 ->
  forall i, 0 <= i < 32 ->
    Z.testbit (Int32.xor bm (shl 1 idx)) i = xorb (Z.testbit bm i) (i =? idx).
Proof.
  intros Hi i Hj. rewrite xor_testbit, bit_testbit by lia. reflexivity.
Qed.

Lemma count_below_or (bm idx : Z) :
  0 <= idx < 32 -> Z.testbit bm idx = false ->
  count_below (Int32.or bm (shl 1 idx)) 32 = S (count_below bm 32).
Proof.
  intros Hi T.
  rewrite (count_below_set bm _ (Z.to_nat idx) 32).
  - destruct (Nat.ltb_spec (Z.to_nat idx) 32); lia.
  - rewrite Z2Nat.id by lia. assumption.
  - intros j Hj. rewrite or_bit_spec by lia. f_equal.
    destruct (Z.eqb_spec (Z.of_nat j) idx), (Nat.eqb_spec j (Z.to_nat idx));
      auto; lia.
Qed.

Lemma count_below_xor (bm idx : Z) :
  0 <= idx < 32 -> Z.testbit bm idx = true ->
  S (count_below (Int32.xor bm (shl 1 idx)) 32) = count_below bm 32.
Proof.
  intros Hi T.
  rewrite <- (count_below_clear bm (Int32.xor bm (shl 1 idx))
                (Z.to_nat idx) 32).
  - destruct (Nat.ltb_spec (Z.to_nat idx) 32); lia.
  - rewrite Z2Nat.id by lia. assumption.
  - intros j Hj. rewrite xor_bit_spec by lia. f_equal.
    destruct (Z.eqb_spec (Z.of_nat j) idx), (Nat.eqb_spec j (Z.to_nat idx));
      auto; lia.
Qed.

Lemma wf_leaf_inv s (l : HLeaf) : wf s (Leaf l) -> leaf_ok l.
Proof. inversion 1; assumption. Qed.

Lemma wf_collision_inv s (es : list HLeaf) :
  wf s (Collision es) -> Forall leaf_ok es /\ distinct_keys es.
Proof. inversion 1; auto. Qed.

Lemma wf_node_inv s o bm (cs : list HChild) :
  wf s (Node o bm cs) ->
  length cs = count_below bm 32 /\
  Forall (wf (s + BITS)) cs /\
  (forall idx c, 0 <= idx < 32 -> child_at bm cs idx = Some c ->
                 routed s idx c).
Proof. inversion 1; auto. Qed.

Lemma wf_child s o bm (cs : list HChild) p c :
  wf s (Node o bm cs) -> nth_error cs p = Some c -> wf (s + BITS) c.
Proof.
  intros W N. inversion W; subst.
  rewrite Forall_forall in H4. apply H4.
  eapply nth_error_In. eassumption.
Qed.

(** Insertion keeps the invariant. *)
Lemma Ins_wf owner k v node s res :
  Ins strictEq owner (hashKey k) k v node s res ->
  wf s node -> wf s (ins_node res).
Proof.
  induction 1; cbn [ins_node]; intros W; auto.
  - constructor. reflexivity.
  - inversion W; subst.
    constructor.
    + repeat constructor; auto.
    + simpl. repeat constructor. assumption.
  - inversion W; subst.
    eapply mergeLeaves_wf; [| |eassumption]; auto. reflexivity.
  - inversion W; subst. constructor.
    + apply Forall_set_nth; auto. reflexivity.
    + apply distinct_keys_update; assumption.
  - inversion W; subst. constructor.
    + apply Forall_app. split; auto. repeat constructor.
    + apply distinct_keys_append; assumption.
  - pose proof (chunk_range (hashKey k) s) as R.
    inversion W; subst. constructor.
    + rewrite length_splice_in, count_below_or by assumption. congruence.
    + apply Forall_splice_in; auto. constructor. reflexivity.
    + intros idx c Hidx Hc.
      rewrite (child_at_insert bm _ cs (chunk (hashKey k) s)) in Hc
        by (auto using or_bit_spec).
      destruct (Z.eqb_spec idx (chunk (hashKey k) s)) as [->|]; [|eauto].
      injection Hc as <-. repeat constructor.
  - pose proof (chunk_range (hashKey k) s) as R.
    pose proof (wf_child _ _ _ _ _ _ W H0) as Wc.
    inversion W; subst. constructor.
    + rewrite length_set_nth. assumption.
    + apply Forall_set_nth; auto.
    + intros idx c' Hidx Hc.
      rewrite child_at_set in Hc by assumption.
      destruct (Z.eqb_spec idx (chunk (hashKey k) s)) as [->|]; [|eauto].
      injection Hc as <-.
      apply Forall_forall. intros e He.
      eapply Ins_leaves in He; [|eassumption].
      destruct He as [He| ->]; [|reflexivity].
      specialize (H9 (chunk (hashKey k) s) c R
                     (child_at_nth _ _ _ _ H H0)).
      unfold routed in H9. rewrite Forall_forall in H9. auto.
Qed.

(** After an insertion that changed the trie, the walk for any key equal
    to [k] ends at the value inserted. *)
Lemma Ins_get_same owner k v node s res :
  Ins strictEq owner (hashKey k) k v node s res ->
  wf s node -> changed res = true ->
  forall k', keyEquals k k' = true ->
    hamtGetLoop (ins_node res) (hashKey k) k' s = Some v.
Proof.
  induction 1; cbn [ins_node changed]; intros W C k' E;
    try discriminate.
  - cbn [hamtGetLoop key hash value]. rewrite Z.eqb_refl, E. reflexivity.
  - cbn [hamtGetLoop scanEntries key value].
    rewrite <- (keyEquals_congr (key l) k k' E), H0, E. reflexivity.
  - erewrite mergeLeaves_get by eassumption.
    apply Z.eqb_neq in H. rewrite H. cbn [andb key hash value].
    rewrite Z.eqb_refl, E. reflexivity.
  - cbn [hamtGetLoop]. erewrite scanEntries_update by eassumption.
    rewrite E. reflexivity.
  - cbn [hamtGetLoop]. rewrite scanEntries_append by assumption.
    rewrite E. reflexivity.
  - pose proof (chunk_range (hashKey k) s) as R.
    inversion W; subst.
    rewrite hamtGetLoop_node.
    rewrite (child_at_insert bm _ cs (chunk (hashKey k) s))
      by (auto using or_bit_spec).
    rewrite Z.eqb_refl.
    cbn [hamtGetLoop key hash value]. rewrite Z.eqb_refl, E. reflexivity.
  - pose proof (chunk_range (hashKey k) s) as R.
    pose proof (wf_child _ _ _ _ _ _ W H0) as Wc.
    inversion W; subst.
    rewrite hamtGetLoop_node, child_at_set, Z.eqb_refl by assumption.
    apply IHIns; auto.
    destruct (changed res) eqn:Cr; [reflexivity|].
    destruct (added res) eqn:Ar; [|discriminate].
    apply Ins_added_changed in H1; congruence.
Qed.

(** Keys other than [k] are read as before. *)
Lemma Ins_get_other owner k v node s res :
  Ins strictEq owner (hashKey k) k v node s res ->
  wf s node ->
  forall k', keyEquals k k' = false ->
    hamtGetLoop (ins_node res) (hashKey k') k' s =
    hamtGetLoop node (hashKey k') k' s.
Proof.
  induction 1; cbn [ins_node]; intros W k' E; auto.
  - cbn [hamtGetLoop key hash value].
    rewrite (keyEquals_congr_l (key l) k k' H0), E, !andb_false_r.
    reflexivity.
  - apply wf_leaf_inv in W. unfold leaf_ok in W.
    cbn [hamtGetLoop scanEntries key value]. rewrite E.
    destruct (keyEquals (key l) k') eqn:K; [|rewrite andb_false_r; auto].
    apply keyEquals_hash in K. rewrite <- K, <- W, Z.eqb_refl. reflexivity.
  - erewrite mergeLeaves_get by eassumption.
    cbn [hamtGetLoop key hash value]. rewrite E, andb_false_r.
    destruct (_ && _); reflexivity.
  - cbn [hamtGetLoop]. erewrite scanEntries_update by eassumption.
    rewrite E. reflexivity.
  - cbn [hamtGetLoop]. rewrite scanEntries_append by assumption.
    rewrite E. reflexivity.
  - pose proof (chunk_range (hashKey k) s) as R.
    pose proof (chunk_range (hashKey k') s) as R'.
    inversion W; subst.
    rewrite !hamtGetLoop_node.
    rewrite (child_at_insert bm _ cs (chunk (hashKey k) s))
      by (auto using or_bit_spec).
    destruct (Z.eqb_spec (chunk (hashKey k') s) (chunk (hashKey k) s))
      as [Ec|Nc]; [|reflexivity].
    cbn [hamtGetLoop key hash value]. rewrite E, andb_false_r.
    rewrite Ec, child_at_vacant by assumption. reflexivity.
  - pose proof (chunk_range (hashKey k) s) as R.
    pose proof (chunk_range (hashKey k') s) as R'.
    pose proof (wf_child _ _ _ _ _ _ W H0) as Wc.
    inversion W; subst.
    rewrite !hamtGetLoop_node, child_at_set by assumption.
    destruct (Z.eqb_spec (chunk (hashKey k') s) (chunk (hashKey k) s))
      as [Ec|Nc]; [|reflexivity].
    rewrite Ec, (child_at_nth _ _ _ c) by assumption.
    apply IHIns; auto.
Qed.

(** [hamtInsert] returns on every well-formed node. *)
Lemma hamtInsertNode_total (node : HChild) :
  forall owner k v s, wf s node ->
    exists res, hamtInsertNode strictEq node owner (hashKey k) k v s = Some res.
Proof.
  induction node as [l|es|o bm cs IH] using HChild_rect';
    intros owner k v s W.
  - cbn [hamtInsertNode].
    destruct (Z.eqb_spec (hash l) (hashKey k)) as [E|N]; cbn [andb].
    + destruct (keyEquals (key l) k); cbn [negb];
        [destruct (strictEq (value l) v)|]; eauto.
    + apply wf_leaf_inv in W. unfold leaf_ok in W.
      destruct (mergeLeaves_total l (mkLeaf k (hashKey k) v) owner s)
        as [t Ht]; auto.
      * rewrite W. apply hashKey_range.
      * apply hashKey_range.
      * rewrite Ht. eauto.
  - cbn [hamtInsertNode].
    destruct (findEntry es k) as [idx|] eqn:F; [|eauto].
    apply findEntry_Some_inv in F as (e & N & _ & _).
    rewrite N. destruct (strictEq (value e) v); eauto.
  - rewrite hamtInsertNode_node. cbv zeta.
    destruct (Z.testbit bm (chunk (hashKey k) s)) eqn:T; [|eauto].
    pose proof (chunk_range (hashKey k) s) as R.
    destruct (wf_node_inv _ _ _ _ W) as (Len & _ & _).
    pose proof (child_at_lt bm cs _ R Len T) as Lt.
    destruct (nth_error cs _) as [c|] eqn:N;
      [|apply nth_error_None in N; lia].
    rewrite Forall_forall in IH.
    destruct (IH c (nth_error_In _ _ N) owner k v (s + BITS)) as [r Hr].
    { eapply wf_child; eassumption. }
    rewrite Hr. destruct (_ && _); eauto.
Qed.

(** *** What [hamtRemove] returns *)

(** [removed] tells that the key was present. *)
Lemma Rem_removed owner h k (node : HChild) s res :
  Rem owner h k node s res -> removed res = stored node h k s.
Proof.
  unfold stored.
  induction 1; cbn [removed].
  - cbn [hamtGetLoop]. subst h. rewrite Z.eqb_refl, H0. reflexivity.
  - cbn [hamtGetLoop]. rewrite H. reflexivity.
  - cbn [hamtGetLoop]. apply findEntry_scan in H. rewrite H. reflexivity.
  - cbn [hamtGetLoop].
    apply findEntry_Some_inv in H as (e & _ & _ & S). rewrite S. reflexivity.
  - cbn [hamtGetLoop].
    apply findEntry_Some_inv in H as (e & _ & _ & S). rewrite S. reflexivity.
  - cbn [hamtGetLoop].
    apply findEntry_Some_inv in H as (e & _ & _ & S). rewrite S. reflexivity.
  - rewrite hamtGetLoop_node, child_at_vacant by assumption. reflexivity.
  - rewrite hamtGetLoop_node, (child_at_nth _ _ _ c) by assumption.
    congruence.
  - rewrite hamtGetLoop_node, (child_at_nth _ _ _ c) by assumption.
    congruence.
  - rewrite hamtGetLoop_node, (child_at_nth _ _ _ c) by assumption.
    congruence.
  - rewrite hamtGetLoop_node, (child_at_nth _ _ _ c) by assumption.
    congruence.
  - rewrite hamtGetLoop_node, (child_at_nth _ _ _ c) by assumption.
    congruence.
Qed.

(** A removal that finds nothing hands back the node it was given. *)
Lemma Rem_miss owner h k (node : HChild) s res :
  Rem owner h k node s res ->
  removed res = false -> rem_node res = Some node.
Proof.
  induction 1; cbn [removed rem_node]; intros C;
    try discriminate; auto; congruence.
Qed.

Lemma soleNonBranch_inv (cs : list HChild) (only : HChild) :
  soleNonBranch cs = Some only ->
  cs = [only] /\
  ((exists l, only = Leaf l) \/ (exists es, only = Collision es)).
Proof.
  destruct cs as [|[l|es|o bm cs'] [|c2 rest]]; simpl; intros H;
    try discriminate; injection H as <-; eauto.
Qed.

Lemma In_splice_out {A : Type} (l : list A) (i : nat) (x : A) :
  In x (splice_out l i) -> In x l.
Proof.
  unfold splice_out. rewrite in_app_iff. intros [H|H].
  - rewrite <- (firstn_skipn i l). apply in_or_app. auto.
  - rewrite <- (firstn_skipn (S i) l). apply in_or_app. auto.
Qed.

Lemma Rem_leaves owner h k (node : HChild) s res :
  Rem owner h k node s res ->
  forall n', rem_node res = Some n' ->
  forall e, In e (leaves_of n') -> In e (leaves_of node).
Proof.
  induction 1; cbn [rem_node]; intros n' E e He;
    try discriminate; injection E as <-; auto.
  - cbn [leaves_of] in *. apply (In_splice_out es idx).
    rewrite H1. assumption.
  - cbn [leaves_of] in *. eapply In_splice_out. eassumption.
  - apply soleNonBranch_inv in H5 as [S _].
    rewrite leaves_of_node.
    apply (In_flat_map_splice_out leaves_of cs
             (count_below bm (Z.to_nat (chunk h s)))).
    rewrite S. simpl. rewrite app_nil_r. assumption.
  - rewrite leaves_of_node in *.
    eapply In_flat_map_splice_out. eassumption.
  - rewrite leaves_of_node in *.
    apply In_flat_map_set_nth in He as [He|He]; auto.
    eapply In_flat_map_nth; eauto.
Qed.

Lemma count_below_pos (x : Z) (n : nat) :
  (0 < count_below x n)%nat ->
  exists j, (j < n)%nat /\ Z.testbit x (Z.of_nat j) = true.
Proof.
  induction n as [|n IH]; [unfold count_below; simpl; lia|].
  rewrite count_below_S.
  destruct (Z.testbit x (Z.of_nat n)) eqn:T; [eauto|].
  intros H. destruct IH as (j & Hj & Tj); [lia|]. eauto.
Qed.

Lemma wf_nonbranch_shift s s' (c : HChild) :
  wf s c ->
  (exists l, c = Leaf l) \/ (exists es, c = Collision es) ->
  wf s' c.
Proof.
  intros W [[l ->]|[es ->]]; inversion W; subst; constructor; assumption.
Qed.

Lemma get_nonbranch_shift s s' (c : HChild) h k :
  (exists l, c = Leaf l) \/ (exists es, c = Collision es) ->
  hamtGetLoop c h k s = hamtGetLoop c h k s'.
Proof. intros [[l ->]|[es ->]]; reflexivity. Qed.

(** A branch keeps the invariant when the child at a set bit is spliced
    out and the bit cleared. *)
Lemma shrink_wf s o o' bm (cs : list HChild) idx :
  0 <= idx < 32 -> Z.testbit bm idx = true ->
  wf s (Node o bm cs) ->
  wf s (Node o' (Int32.xor bm (shl 1 idx))
          (splice_out cs (count_below bm (Z.to_nat idx)))).
Proof.
  intros Hi T W.
  destruct (wf_node_inv _ _ _ _ W) as (Len & All & Routes).
  constructor.
  - pose proof (child_at_lt bm cs idx Hi Len T) as Lt.
    pose proof (length_splice_out cs _ Lt).
    pose proof (count_below_xor bm idx Hi T). lia.
  - apply Forall_splice_out. assumption.
  - intros j c Hj Hc.
    rewrite (child_at_remove bm _ cs idx) in Hc by (auto using xor_bit_spec).
    destruct (j =? idx); [discriminate|eauto].
Qed.

Lemma shrink_read s o o' bm (cs : list HChild) idx h k :
  0 <= idx < 32 -> Z.testbit bm idx = true ->
  wf s (Node o bm cs) ->
  hamtGetLoop (Node o' (Int32.xor bm (shl 1 idx))
                 (splice_out cs (count_below bm (Z.to_nat idx)))) h k s =
  if chunk h s =? idx then None else hamtGetLoop (Node o bm cs) h k s.
Proof.
  intros Hi T W.
  destruct (wf_node_inv _ _ _ _ W) as (Len & _ & _).
  rewrite !hamtGetLoop_node.
  rewrite (child_at_remove bm _ cs idx)
    by (auto using xor_bit_spec, chunk_range).
  destruct (chunk h s =? idx); reflexivity.
Qed.

(** An entry routed to another index is not on the way of the key. *)
Lemma routed_miss s s' j (c : HChild) k :
  (exists l, c = Leaf l) \/ (exists es, c = Collision es) ->
  wf s' c -> routed s j c -> j <> chunk (hashKey k) s ->
  hamtGetLoop c (hashKey k) k s' = None.
Proof.
  intros [[l ->]|[es ->]] W Rt Hj.
  - apply wf_leaf_inv in W. unfold routed in Rt. simpl in Rt.
    inversion Rt; subst.
    cbn [hamtGetLoop].
    destruct (Z.eqb_spec (hash l) (hashKey k)) as [E|]; [|reflexivity].
    rewrite E in Hj. congruence.
  - apply wf_collision_inv in W as [Ok _].
    unfold routed in Rt. cbn [leaves_of] in Rt.
    cbn [hamtGetLoop]. apply scanEntries_None.
    rewrite Forall_forall in *. intros e He.
    destruct (keyEquals (key e) k) eqn:K; [|reflexivity].
    apply keyEquals_hash in K.
    specialize (Ok e He). specialize (Rt e He). unfold leaf_ok in Ok.
    rewrite Ok, K in Rt. congruence.
Qed.

(** A branch with a single leaf or bucket reads as that child does. *)
Lemma collapse_read s o bm (only : HChild) k :
  (exists l, only = Leaf l) \/ (exists es, only = Collision es) ->
  wf s (Node o bm [only]) ->
  hamtGetLoop only (hashKey k) k s =
  hamtGetLoop (Node o bm [only]) (hashKey k) k s.
Proof.
  intros NB W.
  destruct (wf_node_inv _ _ _ _ W) as (Len & All & Routes).
  pose proof (chunk_range (hashKey k) s) as R.
  inversion All as [|? ? Wo _]; subst.
  rewrite hamtGetLoop_node. unfold child_at.
  destruct (Z.testbit bm (chunk (hashKey k) s)) eqn:T.
  - pose proof (child_at_lt bm [only] _ R Len T) as Lt. simpl in Lt.
    replace (count_below bm (Z.to_nat (chunk (hashKey k) s))) with 0%nat
      by lia.
    simpl. apply get_nonbranch_shift. assumption.
  - destruct (count_below_pos bm 32) as (j & Hj & Tj);
      [simpl in Len; lia|].
    assert (Hc : child_at bm [only] (Z.of_nat j) = Some only).
    { unfold child_at. rewrite Tj, Nat2Z.id.
      pose proof (count_below_strict bm j 32 Hj Tj) as Lt.
      simpl in Len.
      replace (count_below bm j) with 0%nat by lia. reflexivity. }
    apply (routed_miss s _ (Z.of_nat j)); auto.
    + eapply wf_nonbranch_shift; eassumption.
    + apply Routes; [lia|assumption].
    + intros E. rewrite <- E in T. congruence.
Qed.

(** Removal keeps the invariant. *)
Lemma Rem_wf owner h k (node : HChild) s res :
  Rem owner h k node s res ->
  wf s node -> forall n', rem_node res = Some n' -> wf s n'.
Proof.
  induction 1; cbn [rem_node]; intros W n' E;
    try discriminate; injection E as <-; auto.
  - apply wf_collision_inv in W as [Ok _].
    constructor. rewrite Forall_forall in Ok. apply Ok.
    apply (In_splice_out es idx). rewrite H1. left. reflexivity.
  - apply wf_collision_inv in W as [Ok D].
    constructor.
    + apply Forall_splice_out. assumption.
    + apply distinct_keys_remove. assumption.
  - pose proof (chunk_range h s) as R.
    apply soleNonBranch_inv in H5 as [S NB].
    pose proof (shrink_wf s o owner bm cs _ R H W) as W'.
    rewrite S in W'.
    destruct (wf_node_inv _ _ _ _ W') as (_ & All & _).
    inversion All; subst.
    eapply wf_nonbranch_shift; eassumption.
  - apply (shrink_wf s o); auto using chunk_range.
  - pose proof (chunk_range h s) as R.
    pose proof (wf_child _ _ _ _ _ _ W H0) as Wc.
    destruct (wf_node_inv _ _ _ _ W) as (Len & All & Routes).
    constructor.
    + rewrite length_set_nth. assumption.
    + apply Forall_set_nth; auto.
    + intros idx c' Hidx Hc.
      rewrite child_at_set in Hc by assumption.
      destruct (Z.eqb_spec idx (chunk h s)) as [->|]; [|eauto].
      injection Hc as <-.
      apply Forall_forall. intros e He.
      eapply Rem_leaves in He; [|eassumption|eassumption].
      specialize (Routes (chunk h s) c R (child_at_nth _ _ _ _ H H0)).
      unfold routed in Routes. rewrite Forall_forall in Routes. auto.
Qed.

Lemma xor_zero_single (bm idx : Z) :
  0 <= idx < 32 -> Int32.xor bm (shl 1 idx) = 0 ->
  forall j, 0 <= j < 32 -> Z.testbit bm j = (j =? idx).
Proof.
  intros Hi X j Hj.
  apply (int32_zero_bits _ (xor_range _ _)) with (j := j) in X; [|lia].
  rewrite xor_bit_spec in X by lia.
  destruct (Z.testbit bm j), (j =? idx); simpl in X; congruence.
Qed.

(** After a removal, the walk for any key equal to [k] finds nothing. *)
Lemma Rem_get_same owner k (node : HChild) s res :
  Rem owner (hashKey k) k node s res ->
  wf s node -> removed res = true ->
  forall k', keyEquals k k' = true ->
    getOpt (rem_node res) (hashKey k') k' s = None.
Proof.
  induction 1; cbn [rem_node removed getOpt]; intros W C k' E;
    try discriminate; auto.
  - (* a bucket of two *)
    apply wf_collision_inv in W as [Ok D].
    pose proof (scanEntries_remove es k k' idx D H) as S.
    rewrite H1, E in S. simpl in S.
    cbn [hamtGetLoop].
    destruct (keyEquals (key only) k'); [discriminate|].
    rewrite andb_false_r. reflexivity.
  - apply wf_collision_inv in W as [Ok D].
    cbn [hamtGetLoop].
    rewrite (scanEntries_remove es k k' idx), E by assumption. reflexivity.
  - pose proof (chunk_range (hashKey k) s) as R.
    apply soleNonBranch_inv in H5 as [S NB].
    pose proof (shrink_wf s o owner bm cs _ R H W) as W'.
    pose proof (shrink_read s o owner bm cs _ (hashKey k') k' R H W) as Rd.
    rewrite S in W', Rd.
    rewrite (collapse_read s owner _ only k' NB W'), Rd.
    rewrite <- (keyEquals_hash k k' E), Z.eqb_refl. reflexivity.
  - rewrite (shrink_read s o) by (auto using chunk_range).
    rewrite <- (keyEquals_hash k k' E), Z.eqb_refl. reflexivity.
  - pose proof (chunk_range (hashKey k) s) as R.
    pose proof (wf_child _ _ _ _ _ _ W H0) as Wc.
    destruct (wf_node_inv _ _ _ _ W) as (Len & _ & _).
    rewrite hamtGetLoop_node.
    rewrite <- (keyEquals_hash k k' E).
    rewrite child_at_set, Z.eqb_refl by assumption.
    specialize (IHRem Wc H2 k' E).
    rewrite H3, <- (keyEquals_hash k k' E) in IHRem. exact IHRem.
Qed.

(** Keys other than [k] are read as before. *)
Lemma Rem_get_other owner k (node : HChild) s res :
  Rem owner (hashKey k) k node s res ->
  wf s node ->
  forall k', keyEquals k k' = false ->
    getOpt (rem_node res) (hashKey k') k' s =
    hamtGetLoop node (hashKey k') k' s.
Proof.
  induction 1; cbn [rem_node getOpt]; intros W k' E; auto.
  - cbn [hamtGetLoop].
    rewrite (keyEquals_congr_l (key l) k k' H0), E, andb_false_r.
    reflexivity.
  - (* the last entry of a bucket *)
    destruct es as [|e [|e2 rest]]; try discriminate.
    simpl in H. cbn [hamtGetLoop scanEntries].
    destruct (keyEquals (key e) k) eqn:K; [|discriminate].
    rewrite (keyEquals_congr_l (key e) k k' K), E. reflexivity.
  - apply wf_collision_inv in W as [Ok D].
    pose proof (scanEntries_remove es k k' idx D H) as S.
    rewrite H1, E in S. simpl in S.
    cbn [hamtGetLoop]. rewrite <- S.
    destruct (keyEquals (key only) k') eqn:K;
      [|rewrite andb_false_r; reflexivity].
    rewrite Forall_forall in Ok.
    assert (Ho : leaf_ok only).
    { apply Ok. apply (In_splice_out es idx). rewrite H1. left. reflexivity. }
    unfold leaf_ok in Ho.
    rewrite Ho, (keyEquals_hash _ _ K), Z.eqb_refl. reflexivity.
  - apply wf_collision_inv in W as [Ok D].
    cbn [hamtGetLoop].
    rewrite (scanEntries_remove es k k' idx), E by assumption. reflexivity.
  - (* the branch becomes empty *)
    pose proof (chunk_range (hashKey k) s) as R.
    pose proof (chunk_range (hashKey k') s) as R'.
    pose proof (wf_child _ _ _ _ _ _ W H0) as Wc.
    rewrite hamtGetLoop_node.
    destruct (Z.eqb_spec (chunk (hashKey k') s) (chunk (hashKey k) s))
      as [Ec|Nc].
    + rewrite Ec, (child_at_nth _ _ _ c) by assumption.
      specialize (IHRem Wc k' E). rewrite H3 in IHRem. exact IHRem.
    + rewrite child_at_vacant; [reflexivity|].
      rewrite (xor_zero_single bm _ R H4) by assumption.
      apply Z.eqb_neq. assumption.
  - (* the branch collapses into its only child *)
    pose proof (chunk_range (hashKey k) s) as R.
    pose proof (wf_child _ _ _ _ _ _ W H0) as Wc.
    apply soleNonBranch_inv in H5 as [S NB].
    pose proof (shrink_wf s o owner bm cs _ R H W) as W'.
    pose proof (shrink_read s o owner bm cs _ (hashKey k') k' R H W) as Rd.
    rewrite S in W', Rd.
    rewrite (collapse_read s owner _ only k' NB W'), Rd.
    destruct (Z.eqb_spec (chunk (hashKey k') s) (chunk (hashKey k) s))
      as [Ec|Nc]; [|reflexivity].
    rewrite hamtGetLoop_node, Ec, (child_at_nth _ _ _ c) by assumption.
    specialize (IHRem Wc k' E). rewrite H3 in IHRem. exact IHRem.
  - pose proof (chunk_range (hashKey k) s) as R.
    pose proof (wf_child _ _ _ _ _ _ W H0) as Wc.
    rewrite (shrink_read s o) by assumption.
    destruct (Z.eqb_spec (chunk (hashKey k') s) (chunk (hashKey k) s))
      as [Ec|Nc]; [|reflexivity].
    rewrite hamtGetLoop_node, Ec, (child_at_nth _ _ _ c) by assumption.
    specialize (IHRem Wc k' E). rewrite H3 in IHRem. exact IHRem.
  - pose proof (chunk_range (hashKey k) s) as R.
    pose proof (chunk_range (hashKey k') s) as R'.
    pose proof (wf_child _ _ _ _ _ _ W H0) as Wc.
    destruct (wf_node_inv _ _ _ _ W) as (Len & _ & _).
    rewrite !hamtGetLoop_node, child_at_set by assumption.
    destruct (Z.eqb_spec (chunk (hashKey k') s) (chunk (hashKey k) s))
      as [Ec|Nc]; [|reflexivity].
    rewrite Ec, (child_at_nth _ _ _ c) by assumption.
    specialize (IHRem Wc k' E). rewrite H3 in IHRem. exact IHRem.
Qed.

(** [hamtRemove] returns on every well-formed node. *)
Lemma hamtRemoveNode_total (node : HChild) :
  forall owner h k s, wf s node ->
    exists res, hamtRemoveNode node owner h k s = Some res.
Proof.
  induction node as [l|es|o bm cs IH] using HChild_rect';
    intros owner h k s W.
  - cbn [hamtRemoveNode]. destruct (_ && _); eauto.
  - cbn [hamtRemoveNode].
    destruct (findEntry es k); [|eauto].
    destruct (Nat.eqb (length es) 1); [eauto|].
    destruct (splice_out es n) as [|? [|? ?]]; eauto.
  - rewrite hamtRemoveNode_node. cbv zeta.
    destruct (Z.testbit bm (chunk h s)) eqn:T; [|eauto].
    pose proof (chunk_range h s) as R.
    destruct (wf_node_inv _ _ _ _ W) as (Len & _ & _).
    pose proof (child_at_lt bm cs _ R Len T) as Lt.
    destruct (nth_error cs _) as [c|] eqn:N;
      [|apply nth_error_None in N; lia].
    rewrite Forall_forall in IH.
    destruct (IH c (nth_error_In _ _ N) owner h k (s + BITS)) as [r Hr].
    { eapply wf_child; eassumption. }
    rewrite Hr. destruct (negb (removed r)); [eauto|].
    destruct (rem_node r); [eauto|].
    destruct (_ =? 0); [eauto|].
    destruct (soleNonBranch _); eauto.
Qed.

(** *** Maps *)

Lemma hamtHasLoop_stored (node : HChild) :
  forall h k s, hamtHasLoop node h k s = stored node h k s.
Proof.
  unfold stored.
  induction node as [l|es|o bm cs IH] using HChild_rect'; intros h k s.
  - cbn [hamtHasLoop hamtGetLoop]. destruct (_ && _); reflexivity.
  - cbn [hamtHasLoop hamtGetLoop].
    induction es as [|e es IHes]; simpl; [reflexivity|].
    destruct (keyEquals (key e) k); simpl; auto.
  - rewrite hamtHasLoop_node, hamtGetLoop_node.
    destruct (child_at bm cs (chunk h s)) as [c|] eqn:C; [|reflexivity].
    rewrite Forall_forall in IH. apply IH.
    unfold child_at in C. destruct (Z.testbit bm (chunk h s)); [|discriminate].
    eapply nth_error_In. eassumption.
Qed.

(** [hamtGet] is the walk from the root; its shortcut for a root leaf
    agrees with the walk because the leaf stores the hash of its key. *)
Lemma hamtGet_walk (m : HMap V) (k : jsval) :
  wf_map m -> hamtGet m k = getOpt (root m) (hashKey k) k 0.
Proof.
  unfold wf_map, hamtGet, getOpt. intros W.
  destruct (root m) as [[l|es|o bm cs]|]; try reflexivity.
  apply wf_leaf_inv in W. unfold leaf_ok in W.
  cbn [hamtGetLoop].
  destruct (keyEquals (key l) k) eqn:K; [|rewrite andb_false_r; reflexivity].
  rewrite W, (keyEquals_hash _ _ K), Z.eqb_refl. reflexivity.
Qed.

Lemma hamtHas_get (m : HMap V) (k : jsval) :
  wf_map m ->
  hamtHas m k = match hamtGet m k with Some _ => true | None => false end.
Proof.
  intros W. rewrite hamtGet_walk by assumption.
  unfold wf_map, hamtHas, getOpt in *.
  destruct (root m) as [[l|es|o bm cs]|]; try reflexivity;
    try (rewrite hamtHasLoop_stored; reflexivity).
  apply wf_leaf_inv in W. unfold leaf_ok in W.
  cbn [hamtGetLoop].
  destruct (keyEquals (key l) k) eqn:K; [|rewrite andb_false_r; reflexivity].
  rewrite W, (keyEquals_hash _ _ K), Z.eqb_refl. reflexivity.
Qed.

Lemma hamtInsert_Some owner k v (m : HMap V) :
  wf_map m ->
  exists res,
    hamtInsert strictEq (root m) owner (hashKey k) k v 0 = Some res /\
    wf 0 (ins_node res) /\
    added res = negb (hamtHas m k) /\
    changed res =
      negb (match hamtGet m k with Some w => strictEq w v | None => false end) /\
    (changed res = false -> root m = Some (ins_node res)) /\
    (changed res = true -> forall k', keyEquals k k' = true ->
       hamtGetLoop (ins_node res) (hashKey k') k' 0 = Some v) /\
    (forall k', keyEquals k k' = false ->
       hamtGetLoop (ins_node res) (hashKey k') k' 0 = hamtGet m k').
Proof.
  intros W.
  rewrite hamtHas_get by assumption.
  assert (G : forall k', hamtGet m k' = getOpt (root m) (hashKey k') k' 0)
    by (intros; apply hamtGet_walk; assumption).
  rewrite G. unfold wf_map in W.
  destruct (root m) as [n|] eqn:Rt; cbn [hamtInsert getOpt].
  - destruct (hamtInsertNode_total n owner k v 0 W) as [res Hres].
    exists res. split; [assumption|].
    apply hamtInsertNode_Ins in Hres.
    destruct (Ins_flags _ _ _ _ _ _ _ Hres) as [F1 F2].
    unfold stored, stored_same in F1, F2.
    repeat split.
    + eapply Ins_wf; eassumption.
    + rewrite F1. reflexivity.
    + rewrite F2. reflexivity.
    + intros C. apply (Ins_unchanged _ _ _ _ _ _ _ Hres) in C as [-> _].
      reflexivity.
    + intros C k' E. rewrite <- (keyEquals_hash _ _ E).
      eapply Ins_get_same; eassumption.
    + intros k' E. rewrite G. cbn [getOpt].
      eapply Ins_get_other; eassumption.
  - eexists. split; [reflexivity|]. cbn [ins_node added changed].
    repeat split; try discriminate.
    + constructor. reflexivity.
    + intros _ k' E. cbn [hamtGetLoop key hash value].
      rewrite (keyEquals_hash _ _ E), Z.eqb_refl, E. reflexivity.
    + intros k' E. rewrite G. cbn [getOpt hamtGetLoop key hash value].
      rewrite E, andb_false_r. reflexivity.
Qed.

Lemma wf_map_fresh (n : HChild) (sz : Z) :
  wf 0 n -> wf_map {| root := Some n; size := sz |}.
Proof. intros W. exact W. Qed.

(** [hamtSet] on a well-formed map: it returns, the result is well formed,
    reads back the value (or keeps a stored value [=== v]), leaves the
    other keys alone, and counts the key if it is new. *)
Lemma hamtSet_spec owner k v (m : HMap V) :
  wf_map m ->
  exists r,
    hamtSet strictEq m owner k v = Some r /\
    wf_map (ret_val m r) /\
    (is_itself r = true <->
       exists w, hamtGet m k = Some w /\ strictEq w v = true) /\
    (is_itself r = false -> forall k', keyEquals k k' = true ->
       hamtGet (ret_val m r) k' = Some v) /\
    (forall k', keyEquals k k' = false ->
       hamtGet (ret_val m r) k' = hamtGet m k') /\
    size (ret_val m r) = size m + (if hamtHas m k then 0 else 1).
Proof.
  intros W.
  destruct (hamtInsert_Some owner k v m W)
    as (res & Hres & Wres & Fa & Fc & Same & Gs & Go).
  unfold hamtSet. rewrite Hres.
  destruct (changed res) eqn:C; cbn [negb].
  - eexists. split; [reflexivity|]. cbn [ret_val is_itself].
    pose proof (wf_map_fresh _ (size m + (if added res then 1 else 0)) Wres)
      as W'.
    repeat split.
    + exact W'.
    + discriminate.
    + intros (w & Hw & Q). rewrite Hw, Q in Fc. discriminate.
    + intros _ k' E. rewrite hamtGet_walk by exact W'. apply Gs; auto.
    + intros k' E. rewrite hamtGet_walk by exact W'. apply Go; auto.
    + cbn [size]. rewrite Fa. destruct (hamtHas m k); reflexivity.
  - exists Itself. split; [reflexivity|]. cbn [ret_val is_itself].
    repeat split; auto; try discriminate.
    + intros _. destruct (hamtGet m k) as [w|]; [|discriminate].
      exists w. split; [reflexivity|].
      destruct (strictEq w v); [reflexivity|discriminate].
    + rewrite hamtHas_get by assumption.
      destruct (hamtGet m k); [lia|discriminate].
Qed.

Lemma hamtRemove_Some owner k (m : HMap V) :
  wf_map m ->
  exists res,
    hamtRemove (root m) owner (hashKey k) k 0 = Some res /\
    wf_map {| root := rem_node res; size := size m - 1 |} /\
    removed res = hamtHas m k /\
    (removed res = true -> forall k', keyEquals k k' = true ->
       getOpt (rem_node res) (hashKey k') k' 0 = None) /\
    (forall k', keyEquals k k' = false ->
       getOpt (rem_node res) (hashKey k') k' 0 = hamtGet m k').
Proof.
  intros W.
  rewrite hamtHas_get by assumption.
  assert (G : forall k', hamtGet m k' = getOpt (root m) (hashKey k') k' 0)
    by (intros; apply hamtGet_walk; assumption).
  rewrite G. unfold wf_map in *.
  destruct (root m) as [n|] eqn:Rt; cbn [hamtRemove getOpt root].
  - destruct (hamtRemoveNode_total n owner (hashKey k) k 0 W) as [res Hres].
    exists res. split; [assumption|].
    apply hamtRemoveNode_Rem in Hres.
    repeat split.
    + destruct (rem_node res) as [n'|] eqn:Rn; [|exact I].
      eapply Rem_wf; eassumption.
    + rewrite (Rem_removed _ _ _ _ _ _ Hres). reflexivity.
    + intros C k' E. eapply Rem_get_same; eassumption.
    + intros k' E. rewrite G. cbn [getOpt].
      eapply Rem_get_other; eassumption.
  - eexists. split; [reflexivity|]. cbn [rem_node removed getOpt].
    repeat split; try discriminate.
    intros k' E. rewrite G. reflexivity.
Qed.

(** [hamtDelete] on a well-formed map. *)
Lemma hamtDelete_spec owner k (m : HMap V) :
  wf_map m ->
  exists r,
    hamtDelete m owner k = Some r /\
    wf_map (ret_val m r) /\
    (is_itself r = negb (hamtHas m k)) /\
    (forall k', keyEquals k k' = true -> hamtGet (ret_val m r) k' = None) /\
    (forall k', keyEquals k k' = false ->
       hamtGet (ret_val m r) k' = hamtGet m k') /\
    size (ret_val m r) = size m - (if hamtHas m k then 1 else 0).
Proof.
  intros W.
  destruct (hamtRemove_Some owner k m W) as (res & Hres & Wres & Fr & Gs & Go).
  unfold hamtDelete.
  assert (Absent : hamtHas m k = false ->
            forall k', keyEquals k k' = true -> hamtGet m k' = None).
  { intros A k' E. rewrite hamtHas_get in A by assumption.
    rewrite !hamtGet_walk in * by assumption.
    destruct (root m) as [n|]; [|reflexivity]. cbn [getOpt] in *.
    rewrite <- (keyEquals_hash _ _ E).
    destruct (hamtGetLoop n (hashKey k) k 0) eqn:Gk; [discriminate|].
    clear - Gk E W.
    revert Gk. generalize (hashKey k). generalize 0.
    induction n as [l|es|o bm cs IH] using HChild_rect'; intros s h.
    - cbn [hamtGetLoop].
      rewrite (keyEquals_congr (key l) k k' E). auto.
    - cbn [hamtGetLoop]. rewrite (scanEntries_congr es k k' E). auto.
    - rewrite !hamtGetLoop_node.
      destruct (child_at bm cs (chunk h s)) as [c|] eqn:C; [|auto].
      rewrite Forall_forall in IH. apply IH.
      unfold child_at in C.
      destruct (Z.testbit bm (chunk h s)); [|discriminate].
      eapply nth_error_In. eassumption. }
  destruct (root m) as [n|] eqn:Rt.
  - rewrite Hres.
    destruct (removed res) eqn:C; cbn [negb].
    + eexists. split; [reflexivity|]. cbn [ret_val is_itself].
      repeat split.
      * exact Wres.
      * rewrite <- Fr. reflexivity.
      * intros k' E. rewrite hamtGet_walk by exact Wres. apply Gs; auto.
      * intros k' E. rewrite hamtGet_walk by exact Wres. apply Go; auto.
      * cbn [size]. rewrite <- Fr. reflexivity.
    + exists Itself. split; [reflexivity|]. cbn [ret_val is_itself].
      repeat split; auto.
      * rewrite <- Fr. reflexivity.
      * rewrite <- Fr. lia.
  - exists Itself. split; [reflexivity|]. cbn [ret_val is_itself].
    assert (hamtHas m k = false) as Hh.
    { unfold hamtHas. rewrite Rt. reflexivity. }
    rewrite Hh. repeat split; auto. lia.
Qed.

(** Every map built from [hamtEmpty] by [hamtSet] and [hamtDelete] is well
    formed. *)
Lemma reachable_wf (m : HMap V) : reachable strictEq m -> wf_map m.
Proof.
  induction 1 as [|m owner k v r Hm IH Hs|m owner k r Hm IH Hd].
  - exact I.
  - destruct (hamtSet_spec owner k v m IH) as (r' & Hr & W & _).
    assert (r' = r) as -> by congruence. assumption.
  - destruct (hamtDelete_spec owner k m IH) as (r' & Hr & W & _).
    assert (r' = r) as -> by congruence. assumption.
Qed.

(** Equal keys are read alike. *)
Lemma hamtGetLoop_congr (node : HChild) (k k' : jsval) :
  keyEquals k k' = true ->
  forall h s, hamtGetLoop node h k s = hamtGetLoop node h k' s.
Proof.
  intros E.
  induction node as [l|es|o bm cs IH] using HChild_rect'; intros h s.
  - cbn [hamtGetLoop]. rewrite (keyEquals_congr (key l) k k' E). reflexivity.
  - cbn [hamtGetLoop]. apply scanEntries_congr. assumption.
  - rewrite !hamtGetLoop_node.
    destruct (child_at bm cs (chunk h s)) as [c|] eqn:C; [|reflexivity].
    rewrite Forall_forall in IH. apply IH.
    unfold child_at in C.
    destruct (Z.testbit bm (chunk h s)); [|discriminate].
    eapply nth_error_In. eassumption.
Qed.

Lemma hamtGet_congr (m : HMap V) (k k' : jsval) :
  wf_map m -> keyEquals k k' = true -> hamtGet m k = hamtGet m k'.
Proof.
  intros W E. rewrite !hamtGet_walk by assumption.
  rewrite (keyEquals_hash _ _ E).
  destruct (root m); [|reflexivity].
  apply hamtGetLoop_congr. assumption.
Qed.

End Tries.

(** ** The map laws of section 8 *)

Lemma strictEquals_spec (w v : jsval) :
  strictEquals w v = true -> w = v \/ (is_zero w /\ is_zero v).
Proof.
  intros H.
  destruct (Object_is w v) eqn:O; [left; apply Object_is_eq; exact O|].
  right.
  destruct w as [| |x|[|s|s|s h e]|x|x|x|x|x];
    destruct v as [| |y|[|t|t|t g f]|y|y|y|y|y];
    simpl in H, O; try congruence; simpl; auto.
Qed.

Lemma reachable_map_a_zero : reachable strictEquals map_a_zero.
Proof.
  apply (reach_set strictEquals hamtEmpty None (str "a"%string) posZero
           (Fresh map_a_zero)).
  - constructor.
  - reflexivity.
Qed.

Lemma reachable_map_zero_zero : reachable strictEquals map_zero_zero.
Proof.
  apply (reach_set strictEquals hamtEmpty None posZero posZero
           (Fresh map_zero_zero)).
  - constructor.
  - vm_compute. reflexivity.
Qed.

Lemma reachable_map_a_nan : reachable strictEquals map_a_nan.
Proof.
  apply (reach_set strictEquals hamtEmpty None (str "a"%string) (VNumber NaN)
           (Fresh map_a_nan)).
  - constructor.
  - vm_compute. reflexivity.
Qed.

Lemma reachable_map_0_6 : reachable strictEquals map_0_6.
Proof.
  apply (reach_set strictEquals
           {| root := Some (Leaf {| key := num 0; hash := hashKey (num 0);
                                    value := str "x"%string |});
              size := 1 |}
           None (num 6) (str "y"%string) (Fresh map_0_6)).
  - apply (reach_set strictEquals hamtEmpty None (num 0) (str "x"%string)
             (Fresh _)).
    + constructor.
    + vm_compute. reflexivity.
  - vm_compute. reflexivity.
Qed.

(** C1, as the code has it: on every map built from [hamtEmpty] by
    [hamtSet] and [hamtDelete], [hamtSet] returns; reading [k] back gives
    [v] -- or, when [v] is a zero and [k] already holds the zero of the
    other sign, that stored zero, which [===] takes for [v] -- and every key
    [k'] that [keyEquals] tells from [k] reads as before. *)
Theorem hamtGet_hamtSet (m : JMap) (owner : Owner) (k k' v : jsval) :
  reachable strictEquals m ->
  exists r,
    hamtSet strictEquals m owner k v = Some r /\
    (exists w, hamtGet (ret_val m r) k = Some w /\
               (w = v \/ (is_zero w /\ is_zero v /\ hamtGet m k = Some w))) /\
    (keyEquals k k' = false -> hamtGet (ret_val m r) k' = hamtGet m k').
Proof.
  intros Hm. apply reachable_wf in Hm.
  destruct (hamtSet_spec strictEquals owner k v m Hm)
    as (r & Hr & W & It & Gs & Go & _).
  exists r. split; [assumption|]. split; [|auto].
  destruct (is_itself r) eqn:I.
  - destruct (proj1 It eq_refl) as (w & Hw & Q).
    exists w. destruct r; [|discriminate]. cbn [ret_val].
    split; [assumption|].
    apply strictEquals_spec in Q as [->|[Zw Zv]]; auto.
  - exists v. split; [|auto]. apply Gs; auto using keyEquals_refl.
Qed.

Lemma hamtGet_hamtSet_witness :
  reachable strictEquals map_a_zero /\
  exists r,
    hamtSet strictEquals map_a_zero None (str "b"%string) (num 1) = Some r /\
    (exists w, hamtGet (ret_val map_a_zero r) (str "b"%string) = Some w /\
               (w = num 1 \/
                (is_zero w /\ is_zero (num 1) /\
                 hamtGet map_a_zero (str "b"%string) = Some w))) /\
    (keyEquals (str "b"%string) (str "a"%string) = false ->
     hamtGet (ret_val map_a_zero r) (str "a"%string) =
     hamtGet map_a_zero (str "a"%string)).
Proof.
  split.
  - exact reachable_map_a_zero.
  - apply (hamtGet_hamtSet map_a_zero None (str "b"%string) (str "a"%string)
             (num 1)).
    exact reachable_map_a_zero.
Defined.

(** C1 as stated fails: on [{ "a" -> +0 }], setting ["a"] to [-0] returns
    the map itself and ["a"] still reads [+0], which is not [-0]. *)
Lemma hamtGet_hamtSet_negative_zero :
  reachable strictEquals map_a_zero /\
  hamtSet strictEquals map_a_zero None (str "a"%string) negZero = Some Itself /\
  hamtGet (ret_val map_a_zero Itself) (str "a"%string) = Some posZero /\
  posZero <> negZero.
Proof.
  split; [exact reachable_map_a_zero|].
  split; [vm_compute; reflexivity|].
  split; [vm_compute; reflexivity|].
  discriminate.
Qed.

(** C7, as the code has it: when [k] holds a value [w] with [w === v],
    [hamtSet] hands back the map itself, and when [k] is absent so does
    [hamtDelete]. *)
Theorem hamtSet_same_hamtDelete_absent (m : JMap) (owner : Owner)
    (k v : jsval) :
  reachable strictEquals m ->
  (forall w, hamtGet m k = Some w -> strictEquals w v = true ->
             hamtSet strictEquals m owner k v = Some Itself) /\
  (hamtHas m k = false -> hamtDelete m owner k = Some Itself).
Proof.
  intros Hm. apply reachable_wf in Hm. split.
  - intros w Hw Q.
    destruct (hamtSet_spec strictEquals owner k v m Hm) as (r & Hr & _ & It & _).
    destruct r as [|m']; [assumption|].
    assert (C : is_itself (Fresh m') = true) by (apply It; eauto).
    discriminate.
  - intros A.
    destruct (hamtDelete_spec owner k m Hm) as (r & Hr & _ & It & _).
    rewrite A in It. destruct r; [assumption|discriminate].
Qed.

Lemma hamtSet_same_hamtDelete_absent_witness :
  reachable strictEquals map_a_zero /\
  (forall w, hamtGet map_a_zero (str "a"%string) = Some w ->
             strictEquals w negZero = true ->
             hamtSet strictEquals map_a_zero None (str "a"%string) negZero
             = Some Itself) /\
  (hamtHas map_a_zero (str "a"%string) = false ->
   hamtDelete map_a_zero None (str "a"%string) = Some Itself).
Proof.
  split.
  - exact reachable_map_a_zero.
  - apply (hamtSet_same_hamtDelete_absent map_a_zero None (str "a"%string)
             negZero).
    exact reachable_map_a_zero.
Defined.

(** C7 as stated fails for a stored NaN: on [{ "a" -> NaN }], setting ["a"]
    to NaN, the very value it holds, returns a new map object. *)
Lemma hamtSet_NaN_not_itself :
  reachable strictEquals map_a_nan /\
  hamtGet map_a_nan (str "a"%string) = Some (VNumber NaN) /\
  hamtSet strictEquals map_a_nan None (str "a"%string) (VNumber NaN)
  = Some (Fresh map_a_nan).
Proof.
  split; [exact reachable_map_a_nan|].
  split; vm_compute; reflexivity.
Qed.

(** C9, as the code has it: [keyEquals] takes the two zeros for one key,
    they hash alike, on every other pair of keys [keyEquals] is
    [Object.is], and after [hamtSet] of [-0] to [v] the key [+0] reads [v]
    -- or, when [v] is a zero and the key already held a zero, the zero
    that it held before the call. *)
Theorem zero_keys (m : JMap) (owner : Owner) (v : jsval) :
  reachable strictEquals m ->
  keyEquals posZero negZero = true /\
  hashKey posZero = hashKey negZero /\
  (forall a b, ~ (a = posZero /\ b = negZero) ->
               ~ (a = negZero /\ b = posZero) ->
               keyEquals a b = Object_is a b) /\
  exists r,
    hamtSet strictEquals m owner negZero v = Some r /\
    exists w, hamtGet (ret_val m r) posZero = Some w /\
              (w = v \/
               (is_zero w /\ is_zero v /\ hamtGet m posZero = Some w)).
Proof.
  intros Hm. apply reachable_wf in Hm.
  split; [reflexivity|]. split; [vm_compute; reflexivity|]. split.
  - intros a b N1 N2.
    destruct a as [| |x|[|s|s|s h e]|x|x|x|x|x];
      destruct b as [| |y|[|t|t|t g f]|y|y|y|y|y]; try reflexivity.
    destruct s, t; try reflexivity.
    + exfalso. apply N2. auto.
    + exfalso. apply N1. auto.
  - destruct (hamtSet_spec strictEquals owner negZero v m Hm)
      as (r & Hr & W & It & Gs & _).
    exists r. split; [assumption|].
    destruct (is_itself r) eqn:I.
    + destruct (proj1 It eq_refl) as (w & Hw & Q).
      exists w. destruct r; [|discriminate]. cbn [ret_val].
      rewrite <- (hamtGet_congr m negZero posZero Hm eq_refl).
      split; [assumption|].
      apply strictEquals_spec in Q as [->|[Zw Zv]]; auto.
    + exists v. split; [|auto]. apply Gs; auto.
Qed.

Lemma zero_keys_witness :
  reachable strictEquals map_a_zero /\
  keyEquals posZero negZero = true /\
  hashKey posZero = hashKey negZero /\
  (forall a b, ~ (a = posZero /\ b = negZero) ->
               ~ (a = negZero /\ b = posZero) ->
               keyEquals a b = Object_is a b) /\
  exists r,
    hamtSet strictEquals map_a_zero None negZero (str "v"%string) = Some r /\
    exists w, hamtGet (ret_val map_a_zero r) posZero = Some w /\
              (w = str "v"%string \/
               (is_zero w /\ is_zero (str "v"%string) /\
                hamtGet map_a_zero posZero = Some w)).
Proof.
  split.
  - exact reachable_map_a_zero.
  - apply (zero_keys map_a_zero None (str "v"%string)).
    exact reachable_map_a_zero.
Defined.

(** C9 as stated fails in its last clause: on [{ +0 -> +0 }], setting [-0]
    to [-0] changes nothing and [+0] still reads [+0], which is not [-0]. *)
Lemma zero_key_keeps_stored_zero :
  reachable strictEquals map_zero_zero /\
  hamtSet strictEquals map_zero_zero None negZero negZero = Some Itself /\
  hamtGet (ret_val map_zero_zero Itself) posZero = Some posZero /\
  posZero <> negZero.
Proof.
  split; [exact reachable_map_zero_zero|].
  split; [vm_compute; reflexivity|].
  split; [vm_compute; reflexivity|].
  discriminate.
Qed.

(** C4 at its failing input: [{ 0 -> "x", 6 -> "y" }] has no branch with a
    lone leaf; deleting 0 collapses the inner branch into the leaf for 6
    and leaves the root branch with that leaf as its only child. *)
Theorem hamtDelete_leaves_lone_leaf :
  reachable strictEquals map_0_6 /\
  option_map no_lone_entry (root map_0_6) = Some true /\
  hamtDelete map_0_6 None (num 0) =
  Some (Fresh {| root := Some (Node None 16384
                                 [Leaf {| key := num 6; hash := hashKey (num 6);
                                          value := str "y"%string |}]);
                 size := 1 |}) /\
  no_lone_entry
    (Node None 16384
       [Leaf {| key := num 6; hash := hashKey (num 6);
                value := str "y"%string |}]) = false.
Proof.
  split; [exact reachable_map_0_6|].
  split; [vm_compute; reflexivity|].
  split; vm_compute; reflexivity.
Qed.

(** ** The order index *)

Lemma Qgt_half (a n : nat) :
  Qgt_bool (Q_of_nat a) (Q_of_nat n * ORDER_COMPACT_RATIO) = (n <? 2 * a)%nat.
Proof.
  unfold Qgt_bool, Q_of_nat, ORDER_COMPACT_RATIO.
  destruct (Nat.ltb_spec n (2 * a)) as [H|H].
  - apply negb_true_iff. apply not_true_iff_false. rewrite Qle_bool_iff.
    unfold Qle. simpl. lia.
  - apply negb_false_iff. apply Qle_bool_iff. unfold Qle. simpl. lia.
Qed.

Lemma setIdx_spec (m : HMap nat) (owner : Owner) (k : jsval) (i : nat) :
  wf_map m ->
  exists m', setIdx m owner k i = Ok m' /\ wf_map m' /\
    (forall k', keyEquals k k' = true -> hamtGet m' k' = Some i) /\
    (forall k', keyEquals k k' = false -> hamtGet m' k' = hamtGet m k').
Proof.
  intros W.
  destruct (hamtSet_spec Nat.eqb owner k i m W)
    as (r & Hr & W' & Hi & Hn & Ho & _).
  exists (ret_val m r). unfold setIdx. rewrite Hr. simpl.
  repeat split; auto.
  intros k' E. destruct (is_itself r) eqn:I.
  - destruct (proj1 Hi eq_refl) as (w & Hw & Hwv).
    apply Nat.eqb_eq in Hwv. subst w.
    destruct r; simpl in *; [|discriminate].
    rewrite <- (hamtGet_congr m k k' W E). exact Hw.
  - apply Hn; auto.
Qed.

Lemma nth_error_lt {A : Type} (l : list A) (i : nat) (x : A) :
  nth_error l i = Some x -> (i < length l)%nat.
Proof. intros H. apply nth_error_Some. congruence. Qed.


Lemma nth_error_snoc {A : Type} (l : list A) (j : nat) (x : A) :
  nth_error (l ++ [x]) j =
    if (j =? length l)%nat then Some x else nth_error l j.
Proof.
  destruct (Nat.eqb_spec j (length l)) as [->|N].
  - rewrite nth_error_app2 by lia. rewrite Nat.sub_diag. reflexivity.
  - destruct (Nat.lt_ge_cases j (length l)).
    + apply nth_error_app1. assumption.
    + rewrite nth_error_app2 by lia.
      destruct (j - length l)%nat as [|k] eqn:E; [lia|].
      simpl. destruct k; simpl; symmetry; apply nth_error_None; lia.
Qed.

Lemma In_orderIter_slots (ks : list (slot jsval)) (k : jsval) :
  In k (orderIter_slots ks) <-> In (Live k) ks.
Proof.
  induction ks as [|[a|] ks IH]; simpl.
  - tauto.
  - rewrite IH. split; intros [H|H]; auto; left; congruence.
  - rewrite IH. split; [auto|]. intros [H|H]; [discriminate|auto].
Qed.

Lemma orderIter_slots_Live (d : list jsval) :
  orderIter_slots (List.map Live d) = d.
Proof. induction d as [|k d IH]; simpl; congruence. Qed.

Lemma distinct_app (a b : list jsval) :
  distinct (a ++ b) <->
  distinct a /\ distinct b /\
  (forall x y, In x a -> In y b -> keyEquals x y = false).
Proof.
  induction a as [|k a IH]; simpl.
  - intuition.
  - rewrite IH. split.
    + intros (H1 & H2 & H3 & H4). repeat split; auto.
      * intros k' I. apply H1. apply in_or_app. auto.
      * intros x y [->|I] J; auto. apply H1. apply in_or_app. auto.
    + intros ((H1 & H2) & H3 & H4). repeat split; auto.
      intros k' I. apply in_app_or in I. destruct I as [I|I]; auto.
Qed.

(** Live slots with pairwise different numbers hold different keys. *)
Lemma slots_distinct (ks : list (slot jsval)) :
  (forall i j a b, nth_error ks i = Some (Live a) ->
     nth_error ks j = Some (Live b) -> keyEquals a b = true -> i = j) ->
  distinct (orderIter_slots ks).
Proof.
  induction ks as [|[a|] ks IH]; intros H; simpl; auto.
  - split.
    + intros k' I. apply In_orderIter_slots in I.
      apply In_nth_error in I. destruct I as [j Hj].
      destruct (keyEquals a k') eqn:E; [|reflexivity].
      specialize (H 0%nat (S j) a k' eq_refl Hj E). discriminate.
    + apply IH. intros i j x y Hi Hj E.
      specialize (H (S i) (S j) x y Hi Hj E). congruence.
  - apply IH. intros i j x y Hi Hj E.
    specialize (H (S i) (S j) x y Hi Hj E). congruence.
Qed.

Lemma order_wf_distinct (ord : OrderIndex) :
  order_wf ord -> distinct (orderIter ord).
Proof.
  intros (W & _ & Hk & _). apply slots_distinct.
  intros i j a b Hi Hj E.
  assert (A : hamtGet (keyToIdx ord) b = Some i)
    by (apply Hk; exists a; auto).
  assert (B : hamtGet (keyToIdx ord) b = Some j).
  { apply Hk. exists b. split; [exact Hj|apply keyEquals_refl]. }
  congruence.
Qed.

Lemma indexes_empty : indexes hamtEmpty [].
Proof.
  split; [exact I|]. intros k j. split.
  - discriminate.
  - intros (k0 & H & _). destruct j; discriminate.
Qed.

Lemma indexes_snoc (m m' : HMap nat) (d : list jsval) (k : jsval) :
  indexes m d -> distinct (d ++ [k]) -> wf_map m' ->
  (forall k', keyEquals k k' = true -> hamtGet m' k' = Some (length d)) ->
  (forall k', keyEquals k k' = false -> hamtGet m' k' = hamtGet m k') ->
  indexes m' (d ++ [k]).
Proof.
  intros (W & Hm) D W' Hs Ho. split; [assumption|].
  apply distinct_app in D. destruct D as (_ & _ & D).
  intros k' j. destruct (keyEquals k k') eqn:E.
  - rewrite (Hs k' E). split.
    + intros [= <-]. exists k. split; [|assumption].
      rewrite nth_error_app2 by lia. rewrite Nat.sub_diag. reflexivity.
    + intros (k0 & Hj & E0).
      destruct (Nat.lt_ge_cases j (length d)) as [L|L].
      * rewrite nth_error_app1 in Hj by assumption.
        apply nth_error_In in Hj.
        specialize (D k0 k Hj (or_introl eq_refl)).
        rewrite (keyEquals_congr k0 k k' E) in D. congruence.
      * assert (j = length d); [|congruence].
        apply nth_error_lt in Hj. rewrite length_app in Hj.
        simpl in Hj. lia.
  - rewrite (Ho k' E), Hm. split; intros (k0 & Hj & E0); exists k0;
      (split; [|assumption]).
    + rewrite nth_error_app1; [assumption|].
      apply nth_error_lt in Hj. assumption.
    + destruct (Nat.lt_ge_cases j (length d)) as [L|L].
      * rewrite nth_error_app1 in Hj; assumption.
      * rewrite nth_error_app2 in Hj by assumption.
        destruct (j - length d)%nat as [|n]; simpl in Hj.
        -- injection Hj as <-. congruence.
        -- destruct n; discriminate.
Qed.

Lemma orderCompact_loop_spec (owner : Owner) (vals : option (Vec (slot jsval)))
    (keys : list (slot jsval)) :
  forall (i : nat) (d : list jsval) (m : HMap nat)
         (nv : option (list (slot jsval))),
  indexes m d -> distinct (d ++ orderIter_slots keys) ->
  exists m',
    orderCompact_loop owner vals keys i (m, List.map Live d, nv, length d) =
      Ok (m', List.map Live (d ++ orderIter_slots keys),
          match nv, vals with
          | Some a, Some vs => Some (a ++ liveValues vs keys i)
          | _, _ => nv
          end,
          length (d ++ orderIter_slots keys)) /\
    indexes m' (d ++ orderIter_slots keys).
Proof.
  induction keys as [|[k|] keys IH]; intros i d m nv Hm D; simpl.
  - exists m. rewrite app_nil_r. split; [|assumption].
    destruct nv as [a|], vals as [vs|]; try reflexivity.
    rewrite app_nil_r. reflexivity.
  - simpl in D.
    destruct (setIdx_spec m owner k (length d) (proj1 Hm))
      as (m1 & Hs & W1 & G1 & G2).
    rewrite Hs. cbn [bind].
    assert (D' : distinct ((d ++ [k]) ++ orderIter_slots keys))
      by (rewrite <- app_assoc; exact D).
    assert (I1 : indexes m1 (d ++ [k])).
    { apply (indexes_snoc m m1); auto.
      apply distinct_app in D'. tauto. }
    destruct (IH (S i) (d ++ [k]) m1
                (match nv, vals with
                 | Some a, Some vs => Some (a ++ [valueAt vs i])
                 | _, _ => nv
                 end) I1 D') as (m' & Hl & I').
    exists m'.
    replace (List.map Live d ++ [Live k]) with (List.map Live (d ++ [k]))
      by (rewrite map_app; reflexivity).
    replace (S (length d)) with (length (d ++ [k]))
      by (rewrite length_app; simpl; lia).
    rewrite Hl. rewrite <- !app_assoc in *. simpl in *. split; [|assumption].
    destruct nv as [a|], vals as [vs|]; try reflexivity.
    rewrite <- app_assoc. reflexivity.
  - apply IH; assumption.
Qed.

Lemma skipn_nth_error {A : Type} (l : list A) (i : nat) (x : A) :
  nth_error l i = Some x -> skipn i l = x :: skipn (S i) l.
Proof.
  revert i. induction l as [|a l IH]; intros [|i] H; simpl in *;
    try discriminate.
  - congruence.
  - apply IH. assumption.
Qed.

Lemma orderEntryIter_liveValues (vals : Vec (slot jsval))
    (keys : list (slot jsval)) :
  forall i, (i + length keys <= length vals)%nat ->
  orderEntryIter_slots (List.map Live (orderIter_slots keys))
    (liveValues vals keys i) =
  orderEntryIter_slots keys (skipn i vals).
Proof.
  induction keys as [|[k|] keys IH]; intros i L; simpl in *.
  - reflexivity.
  - destruct (nth_error vals i) as [v|] eqn:E.
    + rewrite (skipn_nth_error _ _ _ E). unfold valueAt, vecGet. rewrite E.
      f_equal. apply IH. lia.
    + apply nth_error_None in E. lia.
  - destruct (nth_error vals i) as [v|] eqn:E.
    + rewrite (skipn_nth_error _ _ _ E). apply IH. lia.
    + apply nth_error_None in E. lia.
Qed.

Lemma length_orderIter_liveValues (vals : Vec (slot jsval))
    (keys : list (slot jsval)) (i : nat) :
  length (liveValues vals keys i) = length (orderIter_slots keys).
Proof.
  revert i. induction keys as [|[k|] keys IH]; intros i; simpl; auto.
Qed.

Lemma indexes_order_wf (m : HMap nat) (d : list jsval)
    (vals : option (Vec (slot jsval))) (h : nat) :
  indexes m d ->
  match vals with Some vs => length vs = length d | None => True end ->
  order_wf {| next := length d; keyToIdx := m;
              idxToKey := vecFromArray (List.map Live d);
              idxToVal := vals; holes := h |}.
Proof.
  intros (W & Hm) L. unfold order_wf, count, vecGet, vecFromArray. simpl.
  rewrite length_map. repeat split; auto.
  - intros H. apply Hm in H. destruct H as (k0 & H & E). exists k0.
    rewrite nth_error_map, H. auto.
  - intros (k0 & H & E). apply Hm. exists k0. split; [|assumption].
    rewrite nth_error_map in H. destruct (nth_error d i); simpl in H; congruence.
Qed.

(** [orderCompact] of an index with holes: the live keys and values in
    their order, numbered from 0. *)
Lemma orderCompact_spec (ord : OrderIndex) (owner : Owner) :
  order_wf ord -> holes ord <> 0%nat ->
  exists r,
    orderCompact ord owner = Ok r /\ order_wf r /\
    holes r = 0%nat /\
    next r = length (orderIter ord) /\
    idxToKey r = List.map Live (orderIter ord) /\
    (forall i k, nth_error (orderIter ord) i = Some k ->
                 hamtGet (keyToIdx r) k = Some i) /\
    orderIter r = orderIter ord /\
    orderEntryIter r = orderEntryIter ord /\
    (idxToVal r = None <-> idxToVal ord = None).
Proof.
  intros Hw Hh. pose proof (order_wf_distinct ord Hw) as D.
  destruct Hw as (W & Hn & Hk & Hv).
  unfold orderCompact. apply Nat.eqb_neq in Hh. rewrite Hh.
  destruct (orderCompact_loop_spec owner (idxToVal ord)
              (vecIter (idxToKey ord)) 0 [] hamtEmpty
              (match idxToVal ord with Some _ => Some [] | None => None end)
              indexes_empty D) as (m' & Hl & I').
  simpl in Hl, I'. fold (orderIter ord) in Hl, I'.
  rewrite Hl. cbn [bind].
  eexists. split; [reflexivity|].
  assert (Hwf : order_wf
    {| next := length (orderIter ord); keyToIdx := m';
       idxToKey := vecFromArray (List.map Live (orderIter ord));
       idxToVal := match
                     match idxToVal ord with Some _ => Some [] | None => None end,
                     idxToVal ord
                   with
                   | Some a, Some vs =>
                       Some (vecFromArray (a ++ liveValues vs (vecIter (idxToKey ord)) 0))
                   | _, _ => None
                   end;
       holes := 0 |}).
  { apply indexes_order_wf; [assumption|].
    destruct (idxToVal ord); [|exact I].
    unfold vecFromArray. simpl. apply length_orderIter_liveValues. }
  assert (Hix : forall i k, nth_error (orderIter ord) i = Some k ->
                           hamtGet m' k = Some i).
  { intros i k Hi. apply (proj2 I'). exists k.
    split; [assumption|apply keyEquals_refl]. }
  destruct (idxToVal ord) as [vs|] eqn:Ev; simpl in *.
  - split; [exact Hwf|]. do 3 (split; [reflexivity|]).
    split; [exact Hix|]. split; [|split].
    + unfold orderIter. simpl. apply orderIter_slots_Live.
    + unfold orderEntryIter. simpl. rewrite Ev.
      unfold vecFromArray, vecIter, orderIter.
      apply (orderEntryIter_liveValues vs (idxToKey ord) 0).
      unfold count in Hv. simpl. lia.
    + split; discriminate.
  - split; [exact Hwf|]. do 3 (split; [reflexivity|]).
    split; [exact Hix|]. split; [|split].
    + unfold orderIter. simpl. apply orderIter_slots_Live.
    + unfold orderEntryIter. simpl. rewrite Ev. reflexivity.
    + tauto.
Qed.

(** The first half of [orderDelete] on a present key, and what the second
    half does with the index it built. *)
Lemma orderDelete_marks (ord : OrderIndex) (owner : Owner) (key : jsval)
    (idx : nat) :
  order_wf ord -> hamtGet (keyToIdx ord) key = Some idx ->
  exists r0,
    marked ord idx r0 /\ order_wf r0 /\
    (forall k', hamtGet (keyToIdx r0) k' =
                if keyEquals key k' then None
                else hamtGet (keyToIdx ord) k') /\
    orderDelete ord owner key =
      if (next ord <? 2 * (holes ord + 1))%nat && (32 <? next ord)%nat
      then orderCompact r0 owner else Ok r0.
Proof.
  intros Hw Hg. pose proof Hw as (W & Hn & Hk & Hv).
  destruct (proj1 (Hk key idx) Hg) as (k0 & Hs & E0).
  pose proof (nth_error_lt _ _ _ Hs) as L.
  destruct (hamtDelete_spec owner key (keyToIdx ord) W)
    as (rd & Hd & Wd & _ & Gd & God & _).
  assert (Reads : forall k', hamtGet (ret_val (keyToIdx ord) rd) k' =
                    if keyEquals key k' then None
                    else hamtGet (keyToIdx ord) k').
  { intros k'. destruct (keyEquals key k') eqn:E; auto. }
  exists {| next := next ord; keyToIdx := ret_val (keyToIdx ord) rd;
            idxToKey := set_nth (idxToKey ord) idx DELETED;
            idxToVal := match idxToVal ord with
                        | Some vals => Some (set_nth vals idx DELETED)
                        | None => None
                        end;
            holes := holes ord + 1 |}.
  split; [repeat split|]. split; [|split; [exact Reads|]].
  - unfold order_wf, count, vecGet in *. simpl.
    rewrite length_set_nth. split; [assumption|]. split; [assumption|].
    split.
    + intros k i. rewrite Reads. destruct (keyEquals key k) eqn:E.
      * split; [discriminate|]. intros (k1 & H1 & E1). exfalso.
        destruct (Nat.eq_dec idx i) as [->|Ne].
        -- rewrite nth_error_set_nth_eq in H1 by assumption. discriminate.
        -- rewrite nth_error_set_nth_ne in H1 by assumption.
           assert (A : hamtGet (keyToIdx ord) key = Some i).
           { apply Hk. exists k1. split; [assumption|].
             rewrite (keyEquals_congr k1 key k E). assumption. }
           congruence.
      * rewrite Hk. destruct (Nat.eq_dec idx i) as [->|Ne].
        -- split.
           ++ intros (k1 & H1 & E1). exfalso.
              assert (k1 = k0) by congruence. subst k1.
              rewrite (keyEquals_congr_l k0 key k E0) in E1. congruence.
           ++ intros (k1 & H1 & E1).
              rewrite nth_error_set_nth_eq in H1 by assumption. discriminate.
        -- rewrite nth_error_set_nth_ne by assumption. tauto.
    + destruct (idxToVal ord); [|exact I]. rewrite length_set_nth. assumption.
  - unfold orderDelete. rewrite Hg, Hd. cbn [returned bind].
    unfold vecAssoc, count in *.
    destruct (Nat.ltb_spec idx (length (idxToKey ord))) as [_|]; [|lia].
    cbn [bind]. rewrite Qgt_half.
    destruct (idxToVal ord) as [vals|].
    + rewrite Hv.
      destruct (Nat.ltb_spec idx (length (idxToKey ord))) as [_|]; [|lia].
      reflexivity.
    + reflexivity.
Qed.

Lemma orderIter_marked (ord r0 : OrderIndex) (idx : nat) :
  marked ord idx r0 ->
  orderIter r0 = orderIter_slots (set_nth (idxToKey ord) idx DELETED).
Proof. intros (_ & _ & H & _). unfold orderIter. rewrite H. reflexivity. Qed.

Lemma orderFromBase_loop_spec (owner : Owner) (base : list (jsval * jsval)) :
  forall (d : list jsval) (m : HMap nat) (vals : list (slot jsval)),
  indexes m d -> distinct (d ++ List.map fst base) ->
  exists m',
    orderFromBase_loop owner base (m, List.map Live d, vals, length d) =
      Ok (m', List.map Live (d ++ List.map fst base),
          vals ++ List.map (fun e => Live (snd e)) base,
          length (d ++ List.map fst base)) /\
    indexes m' (d ++ List.map fst base).
Proof.
  induction base as [|[k v] base IH]; intros d m vals Hm D; simpl.
  - exists m. rewrite !app_nil_r. auto.
  - simpl in D.
    destruct (setIdx_spec m owner k (length d) (proj1 Hm))
      as (m1 & Hs & W1 & G1 & G2).
    rewrite Hs. cbn [bind].
    assert (D' : distinct ((d ++ [k]) ++ List.map fst base))
      by (rewrite <- app_assoc; exact D).
    assert (I1 : indexes m1 (d ++ [k])).
    { apply (indexes_snoc m m1); auto. apply distinct_app in D'. tauto. }
    destruct (IH (d ++ [k]) m1 (vals ++ [Live v]) I1 D') as (m' & Hl & I').
    exists m'.
    replace (List.map Live d ++ [Live k]) with (List.map Live (d ++ [k]))
      by (rewrite map_app; reflexivity).
    replace (S (length d)) with (length (d ++ [k]))
      by (rewrite length_app; simpl; lia).
    rewrite Hl. rewrite <- !app_assoc in *. simpl in *. auto.
Qed.

Lemma orderFromSetBase_loop_spec (owner : Owner) (base : list jsval) :
  forall (d : list jsval) (m : HMap nat),
  indexes m d -> distinct (d ++ base) ->
  exists m',
    orderFromSetBase_loop owner base (m, List.map Live d, length d) =
      Ok (m', List.map Live (d ++ base), length (d ++ base)) /\
    indexes m' (d ++ base).
Proof.
  induction base as [|k base IH]; intros d m Hm D; simpl.
  - exists m. rewrite !app_nil_r. auto.
  - destruct (setIdx_spec m owner k (length d) (proj1 Hm))
      as (m1 & Hs & W1 & G1 & G2).
    rewrite Hs. cbn [bind].
    assert (D' : distinct ((d ++ [k]) ++ base))
      by (rewrite <- app_assoc; exact D).
    assert (I1 : indexes m1 (d ++ [k])).
    { apply (indexes_snoc m m1); auto. apply distinct_app in D'. tauto. }
    destruct (IH (d ++ [k]) m1 I1 D') as (m' & Hl & I').
    exists m'.
    replace (List.map Live d ++ [Live k]) with (List.map Live (d ++ [k]))
      by (rewrite map_app; reflexivity).
    replace (S (length d)) with (length (d ++ [k]))
      by (rewrite length_app; simpl; lia).
    rewrite Hl. rewrite <- !app_assoc in *. simpl in *. auto.
Qed.

Lemma orderEntryIter_slots_Live (base : list (jsval * jsval)) :
  orderEntryIter_slots (List.map Live (List.map fst base))
    (List.map (fun e => Live (snd e)) base) =
  List.map (fun e => (fst e, Live (snd e))) base.
Proof. induction base as [|[k v] base IH]; simpl; congruence. Qed.

(** [orderFromBase] of the entries of a native Map, whose keys are pairwise
    distinct: the keys and values in the Map's order. *)
Lemma orderFromBase_spec (owner : positive) (base : list (jsval * jsval)) :
  distinct (List.map fst base) ->
  exists ord,
    orderFromBase owner base = Ok ord /\ order_wf ord /\
    orderIter ord = List.map fst base /\
    orderEntryIter ord = List.map (fun e => (fst e, Live (snd e))) base /\
    idxToVal ord = Some (List.map (fun e => Live (snd e)) base) /\
    idxToKey ord = List.map Live (List.map fst base) /\
    next ord = length base /\ holes ord = 0%nat.
Proof.
  intros D.
  destruct (orderFromBase_loop_spec (Some owner) base [] hamtEmpty []
              indexes_empty D) as (m' & Hl & I').
  simpl in Hl, I'. unfold orderFromBase. rewrite Hl. cbn [bind].
  eexists. split; [reflexivity|]. split.
  - apply indexes_order_wf; [assumption|].
    unfold vecFromArray. rewrite !length_map. reflexivity.
  - split; [|split; [|split; [|split; [|split]]]]; try reflexivity.
    + unfold orderIter. simpl. apply orderIter_slots_Live.
    + unfold orderEntryIter. simpl. apply orderEntryIter_slots_Live.
    + simpl. rewrite length_map. reflexivity.
Qed.

Lemma orderFromSetBase_spec (owner : positive) (base : list jsval) :
  distinct base ->
  exists ord,
    orderFromSetBase owner base = Ok ord /\ order_wf ord /\
    orderIter ord = base /\ idxToVal ord = None.
Proof.
  intros D.
  destruct (orderFromSetBase_loop_spec (Some owner) base [] hamtEmpty
              indexes_empty D) as (m' & Hl & I').
  simpl in Hl, I'. unfold orderFromSetBase. rewrite Hl. cbn [bind].
  eexists. split; [reflexivity|]. split.
  - apply indexes_order_wf; [assumption|exact I].
  - split; [|reflexivity].
    unfold orderIter. simpl. apply orderIter_slots_Live.
Qed.

Lemma Qlt_half (a n : nat) :
  (Q_of_nat n * ORDER_COMPACT_RATIO < Q_of_nat a)%Q <-> (n < 2 * a)%nat.
Proof.
  unfold Q_of_nat, ORDER_COMPACT_RATIO, Qlt. simpl. lia.
Qed.

Lemma order_wf_order_a_b : order_wf order_a_b.
Proof.
  assert (D : distinct (List.map fst
                [(str "a"%string, num 1); (str "b"%string, num 2)])).
  { simpl. repeat split; try tauto.
    intros k' [<-|[]]. reflexivity. }
  destruct (orderFromBase_spec 1 _ D) as (ord & H & W & _).
  unfold order_a_b. rewrite H. exact W.
Qed.

(** X7: [orderDelete] of a key that the index holds in slot [idx] builds the
    index with that slot marked [DELETED] and one more hole.  When that
    holes count exceeds [0.5 * next] and [next > 32] it returns the
    compacted index -- no hole, no [DELETED] slot, the live keys numbered
    from 0 in their order, the same keys and the same entries in iteration
    -- and otherwise it returns the marked index as it is. *)
Theorem orderDelete_compacts (ord : OrderIndex) (owner : Owner) (key : jsval)
    (idx : nat) :
  order_wf ord -> hamtGet (keyToIdx ord) key = Some idx ->
  exists r0 r,
    (exists k0, vecGet (idxToKey ord) idx = Some (Live k0) /\
                keyEquals k0 key = true) /\
    marked ord idx r0 /\
    hamtGet (keyToIdx r0) key = None /\
    orderDelete ord owner key = Ok r /\
    ((Q_of_nat (next ord) * ORDER_COMPACT_RATIO < Q_of_nat (holes r0))%Q /\
     (32 < next ord)%nat ->
       holes r = 0%nat /\
       next r = length (orderIter r0) /\
       idxToKey r = List.map Live (orderIter r0) /\
       (forall i k, nth_error (orderIter r0) i = Some k ->
                    hamtGet (keyToIdx r) k = Some i) /\
       orderIter r = orderIter r0 /\
       orderEntryIter r = orderEntryIter r0) /\
    (~ ((Q_of_nat (next ord) * ORDER_COMPACT_RATIO < Q_of_nat (holes r0))%Q /\
        (32 < next ord)%nat) ->
       r = r0).
Proof.
  intros Hw Hg.
  destruct (orderDelete_marks ord owner key idx Hw Hg)
    as (r0 & Hm & Hw0 & Reads & Hd).
  pose proof Hm as (_ & Hh & _).
  assert (Cond : (Q_of_nat (next ord) * ORDER_COMPACT_RATIO
                    < Q_of_nat (holes r0))%Q /\ (32 < next ord)%nat <->
                 (next ord <? 2 * (holes ord + 1))%nat
                   && (32 <? next ord)%nat = true).
  { rewrite Hh, Qlt_half, andb_true_iff, !Nat.ltb_lt. tauto. }
  destruct (orderCompact_spec r0 owner Hw0 ltac:(lia))
    as (rc & Hc & _ & C1 & C2 & C3 & C4 & C5 & C6 & _).
  exists r0.
  destruct ((next ord <? 2 * (holes ord + 1))%nat && (32 <? next ord)%nat)
    eqn:B.
  - exists rc. split; [apply (proj1 (proj2 (proj2 Hw))), Hg|]. split; [assumption|].
    split; [rewrite Reads, keyEquals_refl; reflexivity|].
    split; [congruence|]. split.
    + intros _. repeat split; assumption.
    + intros N. exfalso. apply N, Cond. reflexivity.
  - exists r0. split; [apply (proj1 (proj2 (proj2 Hw))), Hg|]. split; [assumption|].
    split; [rewrite Reads, keyEquals_refl; reflexivity|].
    split; [assumption|]. split.
    + intros C. apply Cond in C. discriminate.
    + reflexivity.
Qed.

Lemma orderDelete_compacts_witness :
  order_wf order_a_b /\
  hamtGet (keyToIdx order_a_b) (str "a"%string) = Some 0%nat /\
  exists r0 r,
    (exists k0, vecGet (idxToKey order_a_b) 0 = Some (Live k0) /\
                keyEquals k0 (str "a"%string) = true) /\
    marked order_a_b 0 r0 /\
    hamtGet (keyToIdx r0) (str "a"%string) = None /\
    orderDelete order_a_b None (str "a"%string) = Ok r /\
    ((Q_of_nat (next order_a_b) * ORDER_COMPACT_RATIO < Q_of_nat (holes r0))%Q /\
     (32 < next order_a_b)%nat ->
       holes r = 0%nat /\
       next r = length (orderIter r0) /\
       idxToKey r = List.map Live (orderIter r0) /\
       (forall i k, nth_error (orderIter r0) i = Some k ->
                    hamtGet (keyToIdx r) k = Some i) /\
       orderIter r = orderIter r0 /\
       orderEntryIter r = orderEntryIter r0) /\
    (~ ((Q_of_nat (next order_a_b) * ORDER_COMPACT_RATIO
           < Q_of_nat (holes r0))%Q /\
        (32 < next order_a_b)%nat) ->
       r = r0).
Proof.
  split; [exact order_wf_order_a_b|].
  split; [vm_compute; reflexivity|].
  apply (orderDelete_compacts order_a_b None (str "a"%string) 0).
  - exact order_wf_order_a_b.
  - vm_compute. reflexivity.
Defined.

Lemma orderDelete_wf (ord : OrderIndex) (owner : Owner) (key : jsval) :
  order_wf ord ->
  exists r, orderDelete ord owner key = Ok r /\ order_wf r.
Proof.
  intros Hw. destruct (hamtGet (keyToIdx ord) key) as [idx|] eqn:Hg.
  - destruct (orderDelete_marks ord owner key idx Hw Hg)
      as (r0 & (_ & Hh & _) & Hw0 & _ & Hd).
    rewrite Hd.
    destruct ((next ord <? 2 * (holes ord + 1))%nat && (32 <? next ord)%nat).
    + destruct (orderCompact_spec r0 owner Hw0 ltac:(lia)) as (rc & Hc & Wc & _).
      exists rc. auto.
    + exists r0. auto.
  - exists ord. unfold orderDelete. rewrite Hg. auto.
Qed.

Lemma orderDeleteAll_wf (keys : list jsval) (owner : Owner) :
  forall ord, order_wf ord ->
  exists r, orderDeleteAll ord owner keys = Ok r /\ order_wf r.
Proof.
  induction keys as [|k keys IH]; intros ord Hw; simpl.
  - exists ord. auto.
  - destruct (orderDelete_wf ord owner k Hw) as (r1 & H1 & W1).
    rewrite H1. cbn [bind]. apply IH. assumption.
Qed.

Lemma distinctb_distinct (ks : list jsval) :
  distinctb ks = true -> distinct ks.
Proof.
  induction ks as [|k ks IH]; simpl; [auto|].
  rewrite andb_true_iff, forallb_forall. intros [H1 H2]. split; [|auto].
  intros k' I. apply negb_true_iff. apply H1. assumption.
Qed.

Lemma order_wf_order_33_16 : order_wf order_33_16.
Proof.
  assert (D : distinct (List.map fst
                (List.map (fun k => (k, k)) (numbers 0 33)))).
  { apply distinctb_distinct. vm_compute. reflexivity. }
  destruct (orderFromBase_spec 1 _ D) as (ord & H & W & _).
  destruct (orderDeleteAll_wf (numbers 0 16) None ord W) as (r & Hr & Wr).
  unfold order_33_16. rewrite H. cbn [bind]. rewrite Hr. exact Wr.
Qed.

(** An index of 33 slots with 16 holes: deleting one more key compacts it
    to the 16 keys that are left, numbered from 0. *)
Example orderDelete_33_16 :
  next order_33_16 = 33%nat /\ holes order_33_16 = 16%nat /\
  exists r,
    orderDelete order_33_16 None (num 16) = Ok r /\
    next r = 16%nat /\ holes r = 0%nat /\
    idxToKey r = List.map Live (numbers 17 16) /\
    hamtGet (keyToIdx r) (num 17) = Some 0%nat /\
    hamtGet (keyToIdx r) (num 32) = Some 15%nat.
Proof.
  split; [vm_compute; reflexivity|]. split; [vm_compute; reflexivity|].
  eexists. split; [vm_compute; reflexivity|].
  repeat split; vm_compute; reflexivity.
Qed.

(** With 15 holes the next deletion only marks the slot. *)
Example orderDelete_33_15 :
  exists ord r,
    orderDeleteAll
      (order_of (orderFromBase 1 (List.map (fun k => (k, k)) (numbers 0 33))))
      None (numbers 0 15) = Ok ord /\
    orderDelete ord None (num 15) = Ok r /\
    next r = 33%nat /\ holes r = 16%nat /\
    vecGet (idxToKey r) 15 = Some DELETED.
Proof.
  eexists. eexists. split; [vm_compute; reflexivity|].
  split; [vm_compute; reflexivity|].
  repeat split; vm_compute; reflexivity.
Qed.

(** ** Iteration of the order index *)

Lemma filter_none (key : jsval) (l : list jsval) :
  (forall k, In k l -> keyEquals key k = false) ->
  filter (fun k => negb (keyEquals key k)) l = l.
Proof.
  induction l as [|a l IH]; intros H; simpl; [reflexivity|].
  rewrite (H a (or_introl eq_refl)). simpl. f_equal.
  apply IH. intros k I. apply H. right. assumption.
Qed.

Lemma orderIter_slots_app (a b : list (slot jsval)) :
  orderIter_slots (a ++ b) = orderIter_slots a ++ orderIter_slots b.
Proof.
  induction a as [|[k|] a IH]; simpl; congruence.
Qed.

Lemma orderEntryIter_slots_app (a b va vb : list (slot jsval)) :
  length a = length va ->
  orderEntryIter_slots (a ++ b) (va ++ vb) =
  orderEntryIter_slots a va ++ orderEntryIter_slots b vb.
Proof.
  revert va. induction a as [|[k|] a IH]; intros [|v va] L; simpl in *;
    try discriminate; try reflexivity.
  - f_equal. apply IH. lia.
  - apply IH. lia.
Qed.

(** Marking the slot of a key removes that key from the iteration. *)
Lemma orderIter_slots_mark (keys : list (slot jsval)) :
  forall idx k0 key,
  nth_error keys idx = Some (Live k0) -> keyEquals k0 key = true ->
  distinct (orderIter_slots keys) ->
  orderIter_slots (set_nth keys idx DELETED) =
  filter (fun k => negb (keyEquals key k)) (orderIter_slots keys).
Proof.
  induction keys as [|s keys IH]; intros [|idx] k0 key H E D; simpl in *;
    try discriminate.
  - injection H as ->. simpl in *. destruct D as [D1 D2].
    rewrite keyEquals_sym in E. rewrite E. simpl.
    symmetry. apply filter_none. intros k I.
    rewrite (keyEquals_congr_l key k0 k E). apply D1. assumption.
  - destruct s as [a|]; simpl in *.
    + destruct D as [D1 D2].
      assert (A : keyEquals key a = false).
      { rewrite keyEquals_sym. rewrite <- (keyEquals_congr a k0 key E).
        apply D1. apply In_orderIter_slots.
        apply nth_error_In with idx. assumption. }
      rewrite A. simpl. f_equal. apply (IH idx k0 key); assumption.
    + apply (IH idx k0 key); assumption.
Qed.

Lemma orderEntryIter_slots_mark (keys : list (slot jsval)) :
  forall vals idx k0 key,
  nth_error keys idx = Some (Live k0) -> keyEquals k0 key = true ->
  distinct (orderIter_slots keys) -> length vals = length keys ->
  orderEntryIter_slots (set_nth keys idx DELETED) (set_nth vals idx DELETED) =
  filter (fun e => negb (keyEquals key (fst e)))
    (orderEntryIter_slots keys vals).
Proof.
  induction keys as [|s keys IH]; intros [|v vals] [|idx] k0 key H E D L;
    simpl in *; try discriminate.
  - injection H as ->. simpl in *. destruct D as [D1 D2].
    rewrite keyEquals_sym in E. rewrite E. simpl.
    clear L IH. revert vals.
    induction keys as [|[a|] keys IHk]; intros [|u vals]; simpl in *;
      try reflexivity.
    + assert (A : keyEquals key a = false).
      { rewrite (keyEquals_congr_l key k0 a E). apply D1. left. reflexivity. }
      rewrite A. simpl. f_equal. apply IHk.
      * intros k' I. apply D1. right. assumption.
      * apply D2.
    + apply IHk; assumption.
  - destruct s as [a|]; simpl in *.
    + destruct D as [D1 D2].
      assert (A : keyEquals key a = false).
      { rewrite keyEquals_sym. rewrite <- (keyEquals_congr a k0 key E).
        apply D1. apply In_orderIter_slots.
        apply nth_error_In with idx. assumption. }
      rewrite A. simpl. f_equal. apply (IH vals idx k0 key); auto.
    + apply (IH vals idx k0 key); auto.
Qed.

(** A key that the index does not hold is none of the keys it iterates. *)
Lemma order_absent (ord : OrderIndex) (key : jsval) :
  order_wf ord -> hamtGet (keyToIdx ord) key = None ->
  forall k, In k (orderIter ord) -> keyEquals key k = false.
Proof.
  intros (W & _ & Hk & _) N k I.
  apply In_orderIter_slots in I. apply In_nth_error in I.
  destruct I as [i Hi].
  destruct (keyEquals key k) eqn:E; [|reflexivity].
  assert (A : hamtGet (keyToIdx ord) key = Some i).
  { apply Hk. exists k. split; [exact Hi|].
    rewrite keyEquals_sym. assumption. }
  congruence.
Qed.

Lemma order_get_None (ord : OrderIndex) (key : jsval) :
  order_wf ord ->
  (forall k, In k (orderIter ord) -> keyEquals key k = false) ->
  hamtGet (keyToIdx ord) key = None.
Proof.
  intros (W & _ & Hk & _) N.
  destruct (hamtGet (keyToIdx ord) key) as [i|] eqn:G; [|reflexivity].
  apply Hk in G. destruct G as (k0 & Hi & E).
  apply nth_error_In in Hi. apply In_orderIter_slots in Hi.
  specialize (N k0 Hi). rewrite keyEquals_sym in N. congruence.
Qed.

(** [orderDelete]: the keys and the entries that the index iterates lose
    the key, and nothing else. *)
Lemma orderDelete_spec (ord : OrderIndex) (owner : Owner) (key : jsval) :
  order_wf ord ->
  exists r,
    orderDelete ord owner key = Ok r /\ order_wf r /\
    orderIter r = filter (fun k => negb (keyEquals key k)) (orderIter ord) /\
    orderEntryIter r =
      filter (fun e => negb (keyEquals key (fst e))) (orderEntryIter ord) /\
    (idxToVal r = None <-> idxToVal ord = None).
Proof.
  intros Hw. destruct (hamtGet (keyToIdx ord) key) as [idx|] eqn:Hg.
  - destruct (orderDelete_marks ord owner key idx Hw Hg)
      as (r0 & Hm & Hw0 & _ & Hd).
    pose proof (order_wf_distinct ord Hw) as D.
    pose proof Hw as (_ & _ & Hk & Hv).
    destruct (proj1 (Hk key idx) Hg) as (k0 & Hs & E0).
    pose proof Hm as (_ & Hh & Mk & Mv).
    assert (I0 : orderIter r0 =
                 filter (fun k => negb (keyEquals key k)) (orderIter ord)).
    { unfold orderIter. rewrite Mk.
      apply (orderIter_slots_mark _ idx k0 key); assumption. }
    assert (E0' : orderEntryIter r0 =
                  filter (fun e => negb (keyEquals key (fst e)))
                    (orderEntryIter ord)).
    { unfold orderEntryIter. rewrite Mk, Mv.
      destruct (idxToVal ord) as [vals|]; [|reflexivity].
      apply (orderEntryIter_slots_mark _ vals idx k0 key); auto. }
    assert (V0 : idxToVal r0 = None <-> idxToVal ord = None).
    { rewrite Mv. destruct (idxToVal ord); split; congruence. }
    rewrite Hd.
    destruct ((next ord <? 2 * (holes ord + 1))%nat && (32 <? next ord)%nat).
    + destruct (orderCompact_spec r0 owner Hw0 ltac:(lia))
        as (rc & Hc & Wc & _ & _ & _ & _ & C5 & C6 & C7).
      exists rc. split; [assumption|]. split; [assumption|].
      split; [congruence|]. split; [congruence|].
      rewrite C7. assumption.
    + exists r0. auto.
  - exists ord. unfold orderDelete. rewrite Hg.
    pose proof (order_absent ord key Hw Hg) as A.
    split; [reflexivity|]. split; [assumption|]. split.
    + symmetry. apply filter_none. assumption.
    + split; [|tauto]. symmetry.
      assert (G : forall (es : list (jsval * slot jsval)),
                (forall e, In e es -> keyEquals key (fst e) = false) ->
                filter (fun e => negb (keyEquals key (fst e))) es = es).
      { induction es as [|e es IH]; intros H; simpl; [reflexivity|].
        rewrite (H e (or_introl eq_refl)). simpl. f_equal.
        apply IH. intros x I. apply H. right. assumption. }
      apply G. intros [k v] I. simpl. apply A.
      unfold orderEntryIter in I. destruct (idxToVal ord) as [vals|]; [|destruct I].
      unfold orderIter.
      clear - I. revert vals I. generalize (vecIter (idxToKey ord)).
      induction l as [|[a|] l IH]; intros [|u vals] I; simpl in *;
        try contradiction.
      * destruct I as [I|I]; [left; congruence|right; eauto].
      * eauto.
Qed.

(** The key slots after an append, and the index that points at them. *)
Lemma append_wf (ord : OrderIndex) (m' : HMap nat) (key : jsval)
    (vals' : option (Vec (slot jsval))) (h : nat) :
  order_wf ord -> hamtGet (keyToIdx ord) key = None ->
  wf_map m' ->
  (forall k', keyEquals key k' = true -> hamtGet m' k' = Some (next ord)) ->
  (forall k', keyEquals key k' = false ->
     hamtGet m' k' = hamtGet (keyToIdx ord) k') ->
  match vals' with
  | Some vs => count vs = S (count (idxToKey ord))
  | None => True
  end ->
  order_wf {| next := next ord + 1; keyToIdx := m';
              idxToKey := vecPush (idxToKey ord) None (Live key);
              idxToVal := vals'; holes := h |}.
Proof.
  intros (W & Hn & Hk & Hv) Abs W' G1 G2 L.
  unfold order_wf, count, vecGet, vecPush in *. simpl.
  rewrite length_app. simpl.
  split; [assumption|]. split; [lia|]. split.
  - intros k i. destruct (keyEquals key k) eqn:E.
    + rewrite (G1 k E). rewrite nth_error_snoc. split.
      * intros [= <-]. exists key. rewrite Hn, Nat.eqb_refl. auto.
      * intros (k0 & Hi & E0).
        destruct (Nat.eqb_spec i (length (idxToKey ord))) as [->|N];
          [congruence|].
        exfalso.
        assert (A : hamtGet (keyToIdx ord) key = Some i).
        { apply Hk. exists k0. split; [assumption|].
          rewrite (keyEquals_congr k0 key k E). assumption. }
        congruence.
    + rewrite (G2 k E), Hk, nth_error_snoc.
      destruct (Nat.eqb_spec i (length (idxToKey ord))) as [->|N].
      * split.
        -- intros (k0 & Hi & _). apply nth_error_lt in Hi. lia.
        -- intros (k0 & [= <-] & E0). congruence.
      * tauto.
  - destruct vals'; [lia|exact I].
Qed.

Lemma orderAppendWithValue_spec (ord : OrderIndex) (owner : Owner)
    (key value : jsval) :
  order_wf ord -> hamtGet (keyToIdx ord) key = None ->
  exists r,
    orderAppendWithValue ord owner key value = Ok r /\ order_wf r /\
    orderIter r = orderIter ord ++ [key] /\
    orderEntryIter r =
      match idxToVal ord with
      | Some _ => orderEntryIter ord ++ [(key, Live value)]
      | None => []
      end /\
    (idxToVal r = None <-> idxToVal ord = None).
Proof.
  intros Hw Abs. pose proof Hw as (W & Hn & Hk & Hv).
  destruct (setIdx_spec (keyToIdx ord) owner key (next ord) W)
    as (m' & Hs & W' & G1 & G2).
  unfold orderAppendWithValue. rewrite Hs. cbn [bind].
  eexists. split; [reflexivity|]. split; [|split; [|split]].
  - apply (append_wf ord m' key _ (holes ord) Hw Abs W' G1 G2).
    destruct (idxToVal ord) as [vals|]; [|exact I].
    unfold count, vecPush in *. rewrite length_app. simpl. lia.
  - unfold orderIter, vecPush, vecIter. simpl.
    rewrite orderIter_slots_app. reflexivity.
  - unfold orderEntryIter, vecPush, vecIter. simpl.
    destruct (idxToVal ord) as [vals|]; [|reflexivity].
    rewrite orderEntryIter_slots_app by (unfold count in Hv; lia).
    reflexivity.
  - simpl. destruct (idxToVal ord); split; congruence.
Qed.


(** Writing the value slot of a key changes the entry of that key only. *)
Lemma orderEntryIter_slots_update (keys : list (slot jsval)) :
  forall vals idx k0 key value,
  nth_error keys idx = Some (Live k0) -> keyEquals k0 key = true ->
  distinct (orderIter_slots keys) -> length vals = length keys ->
  orderEntryIter_slots keys (set_nth vals idx (Live value)) =
  List.map (fun e => if keyEquals key (fst e) then (fst e, Live value) else e)
    (orderEntryIter_slots keys vals).
Proof.
  induction keys as [|s keys IH]; intros [|v vals] [|idx] k0 key value H E D L;
    simpl in *; try discriminate.
  - injection H as ->. simpl in *. destruct D as [D1 D2].
    rewrite keyEquals_sym in E. rewrite E. f_equal.
    clear L IH. revert vals.
    induction keys as [|[a|] keys IHk]; intros [|u vals]; simpl in *;
      try reflexivity.
    + assert (A : keyEquals key a = false).
      { rewrite (keyEquals_congr_l key k0 a E). apply D1. left. reflexivity. }
      rewrite A. f_equal. apply IHk.
      * intros k' I. apply D1. right. assumption.
      * apply D2.
    + apply IHk; assumption.
  - destruct s as [a|]; simpl in *.
    + destruct D as [D1 D2].
      assert (A : keyEquals key a = false).
      { rewrite keyEquals_sym. rewrite <- (keyEquals_congr a k0 key E).
        apply D1. apply In_orderIter_slots.
        apply nth_error_In with idx. assumption. }
      rewrite A. f_equal. apply (IH vals idx k0 key); auto.
    + apply (IH vals idx k0 key); auto.
Qed.

Lemma orderUpdateValue_spec (ord : OrderIndex) (owner : Owner)
    (key value : jsval) (idx : nat) :
  order_wf ord -> hamtGet (keyToIdx ord) key = Some idx ->
  exists r,
    orderUpdateValue ord owner key value = Ok r /\ order_wf r /\
    orderIter r = orderIter ord /\
    orderEntryIter r =
      List.map (fun e => if keyEquals key (fst e) then (fst e, Live value)
                         else e) (orderEntryIter ord) /\
    (idxToVal r = None <-> idxToVal ord = None).
Proof.
  intros Hw Hg. pose proof Hw as (W & Hn & Hk & Hv).
  pose proof (order_wf_distinct ord Hw) as D.
  destruct (proj1 (Hk key idx) Hg) as (k0 & Hs & E0).
  pose proof (nth_error_lt _ _ _ Hs) as L.
  unfold orderUpdateValue.
  destruct (idxToVal ord) as [vals|] eqn:Ev.
  - rewrite Hg. unfold vecAssoc, count in *.
    destruct (Nat.ltb_spec idx (length vals)) as [_|]; [|lia].
    cbn [bind]. eexists. split; [reflexivity|]. split; [|split; [|split]].
    + unfold order_wf, count. simpl. rewrite length_set_nth. auto.
    + reflexivity.
    + unfold orderEntryIter. simpl. rewrite Ev.
      apply (orderEntryIter_slots_update _ vals idx k0 key value); auto.
    + simpl. split; discriminate.
  - exists ord. split; [reflexivity|]. split; [assumption|].
    split; [reflexivity|]. split; [|tauto].
    unfold orderEntryIter. rewrite Ev. reflexivity.
Qed.

(** X6: [orderFromBase] of the entries of a native Map (keys pairwise
    distinct) numbers the keys in the Map's order: the index has one slot
    per entry and no hole, it iterates the keys and the entries in that
    order, and [keyToIdx] sends the [i]-th key to [i]. *)
Theorem orderFromBase_order (owner : positive) (base : list (jsval * jsval)) :
  distinct (List.map fst base) ->
  exists ord,
    orderFromBase owner base = Ok ord /\
    next ord = length base /\ holes ord = 0%nat /\
    orderIter ord = List.map fst base /\
    orderEntryIter ord = List.map (fun e => (fst e, Live (snd e))) base /\
    forall i k, nth_error (List.map fst base) i = Some k ->
                hamtGet (keyToIdx ord) k = Some i.
Proof.
  intros D.
  destruct (orderFromBase_spec owner base D)
    as (ord & H & W & I & E & _ & K & N & Ho).
  exists ord. repeat (split; [assumption|]).
  intros i k Hi. apply (proj1 (proj2 (proj2 W))). exists k.
  split; [|apply keyEquals_refl].
  unfold vecGet. rewrite K, nth_error_map, Hi. reflexivity.
Qed.

Lemma orderFromBase_order_witness :
  distinct (List.map fst [(str "a"%string, num 1); (str "b"%string, num 2)]) /\
  exists ord,
    orderFromBase 1 [(str "a"%string, num 1); (str "b"%string, num 2)] = Ok ord /\
    next ord = 2%nat /\ holes ord = 0%nat /\
    orderIter ord = [str "a"%string; str "b"%string] /\
    orderEntryIter ord =
      [(str "a"%string, Live (num 1)); (str "b"%string, Live (num 2))] /\
    forall i k,
      nth_error [str "a"%string; str "b"%string] i = Some k ->
      hamtGet (keyToIdx ord) k = Some i.
Proof.
  assert (D : distinct (List.map fst
                [(str "a"%string, num 1); (str "b"%string, num 2)])).
  { apply distinctb_distinct. reflexivity. }
  split; [exact D|].
  exact (orderFromBase_order 1
           [(str "a"%string, num 1); (str "b"%string, num 2)] D).
Defined.

(** X8: [orderDelete] on a well-formed index returns a well-formed index
    whose iteration, of keys and of entries, is the one before without the
    key -- whether the slot was only marked or the index compacted, and
    unchanged when the key is not there. *)
Theorem orderDelete_iteration (ord : OrderIndex) (owner : Owner) (key : jsval) :
  order_wf ord ->
  exists r,
    orderDelete ord owner key = Ok r /\ order_wf r /\
    orderIter r = filter (fun k => negb (keyEquals key k)) (orderIter ord) /\
    orderEntryIter r =
      filter (fun e => negb (keyEquals key (fst e))) (orderEntryIter ord) /\
    hamtGet (keyToIdx r) key = None.
Proof.
  intros Hw.
  destruct (orderDelete_spec ord owner key Hw) as (r & H & W & I & E & _).
  exists r. repeat (split; [assumption|]).
  apply (order_get_None r key W). intros k Hk. rewrite I in Hk.
  apply filter_In in Hk. destruct Hk as [_ Hk].
  apply negb_true_iff in Hk. assumption.
Qed.

Lemma orderDelete_iteration_witness :
  order_wf order_a_b /\
  exists r,
    orderDelete order_a_b None (str "a"%string) = Ok r /\ order_wf r /\
    orderIter r =
      filter (fun k => negb (keyEquals (str "a"%string) k))
        (orderIter order_a_b) /\
    orderEntryIter r =
      filter (fun e => negb (keyEquals (str "a"%string) (fst e)))
        (orderEntryIter order_a_b) /\
    hamtGet (keyToIdx r) (str "a"%string) = None.
Proof.
  split; [exact order_wf_order_a_b|].
  exact (orderDelete_iteration order_a_b None (str "a"%string)
           order_wf_order_a_b).
Defined.

(** X9: [orderAppendWithValue] of a key that the index does not hold puts
    the key, with its value when the index keeps values, at the end of the
    iteration and keeps the index well formed. *)
Theorem orderAppendWithValue_last (ord : OrderIndex) (owner : Owner)
    (key value : jsval) :
  order_wf ord -> hamtGet (keyToIdx ord) key = None ->
  exists r,
    orderAppendWithValue ord owner key value = Ok r /\ order_wf r /\
    next r = (next ord + 1)%nat /\ holes r = holes ord /\
    hamtGet (keyToIdx r) key = Some (next ord) /\
    orderIter r = orderIter ord ++ [key] /\
    orderEntryIter r =
      match idxToVal ord with
      | Some _ => orderEntryIter ord ++ [(key, Live value)]
      | None => []
      end.
Proof.
  intros Hw Abs.
  destruct (orderAppendWithValue_spec ord owner key value Hw Abs)
    as (r & H & W & I & E & _).
  exists r. split; [assumption|]. split; [assumption|].
  pose proof H as H'. unfold orderAppendWithValue in H'.
  destruct (setIdx_spec (keyToIdx ord) owner key (next ord) (proj1 Hw))
    as (m' & Hs & _ & G1 & _).
  rewrite Hs in H'. cbn [bind] in H'. injection H' as <-. simpl.
  split; [reflexivity|]. split; [reflexivity|].
  split; [apply G1, keyEquals_refl|]. auto.
Qed.

Lemma orderAppendWithValue_last_witness :
  order_wf order_a_b /\
  hamtGet (keyToIdx order_a_b) (str "c"%string) = None /\
  exists r,
    orderAppendWithValue order_a_b None (str "c"%string) (num 3) = Ok r /\
    order_wf r /\
    next r = (next order_a_b + 1)%nat /\ holes r = holes order_a_b /\
    hamtGet (keyToIdx r) (str "c"%string) = Some (next order_a_b) /\
    orderIter r = orderIter order_a_b ++ [str "c"%string] /\
    orderEntryIter r =
      match idxToVal order_a_b with
      | Some _ => orderEntryIter order_a_b ++ [(str "c"%string, Live (num 3))]
      | None => []
      end.
Proof.
  split; [exact order_wf_order_a_b|].
  split; [vm_compute; reflexivity|].
  apply (orderAppendWithValue_last order_a_b None (str "c"%string) (num 3)).
  - exact order_wf_order_a_b.
  - vm_compute. reflexivity.
Defined.

(** X10: [orderUpdateValue] of a key that the index holds leaves the keys
    and their order alone and replaces the value in the entry of that key,
    and of no other. *)
Theorem orderUpdateValue_entry (ord : OrderIndex) (owner : Owner)
    (key value : jsval) (idx : nat) :
  order_wf ord -> hamtGet (keyToIdx ord) key = Some idx ->
  exists r,
    orderUpdateValue ord owner key value = Ok r /\ order_wf r /\
    keyToIdx r = keyToIdx ord /\
    orderIter r = orderIter ord /\
    orderEntryIter r =
      List.map (fun e => if keyEquals key (fst e) then (fst e, Live value)
                         else e) (orderEntryIter ord).
Proof.
  intros Hw Hg.
  destruct (orderUpdateValue_spec ord owner key value idx Hw Hg)
    as (r & H & W & I & E & _).
  exists r. split; [assumption|]. split; [assumption|].
  split; [|auto].
  unfold orderUpdateValue in H. rewrite Hg in H.
  destruct (idxToVal ord) as [vals|]; [|congruence].
  destruct (vecAssoc vals owner idx (Live value)); try discriminate.
  cbn [bind] in H. injection H as <-. reflexivity.
Qed.

Lemma orderUpdateValue_entry_witness :
  order_wf order_a_b /\
  hamtGet (keyToIdx order_a_b) (str "a"%string) = Some 0%nat /\
  exists r,
    orderUpdateValue order_a_b None (str "a"%string) (num 7) = Ok r /\
    order_wf r /\
    keyToIdx r = keyToIdx order_a_b /\
    orderIter r = orderIter order_a_b /\
    orderEntryIter r =
      List.map (fun e => if keyEquals (str "a"%string) (fst e)
                         then (fst e, Live (num 7)) else e)
        (orderEntryIter order_a_b).
Proof.
  split; [exact order_wf_order_a_b|].
  split; [vm_compute; reflexivity|].
  apply (orderUpdateValue_entry order_a_b None (str "a"%string) (num 7) 0).
  - exact order_wf_order_a_b.
  - vm_compute. reflexivity.
Defined.

(** ** Index keys *)

Lemma parseDigits_uint (d : Decimal.uint) :
  forall acc : nat,
  parseDigits (uint_codes d) (Z.of_nat acc) = Z.of_nat (Nat.of_uint_acc d acc).
Proof.
  induction d; intros acc; simpl; try reflexivity;
    rewrite <- IHd; f_equal; rewrite Nat.tail_mul_spec; lia.
Qed.

Lemma unorm_digits (d : Decimal.uint) :
  exists c rest, uint_codes (Decimal.unorm d) = c :: rest /\ 48 <= c <= 57.
Proof.
  unfold Decimal.unorm.
  destruct (Decimal.nzhead d); simpl; eexists; eexists; (split; [reflexivity|lia]).
Qed.

Lemma indexKey_digits (i : nat) :
  exists c rest, indexKey i = VString (c :: rest) /\ 48 <= c <= 57 /\
                 parseDigits rest (c - 48) = Z.of_nat i.
Proof.
  unfold indexKey.
  pose proof (Unsigned.to_of (Nat.to_uint i)) as N.
  rewrite Unsigned.of_to in N.
  destruct (unorm_digits (Nat.to_uint i)) as (c & rest & E & R).
  rewrite <- N in E. exists c, rest. split; [rewrite E; reflexivity|].
  split; [assumption|].
  pose proof (parseDigits_uint (Nat.to_uint i) 0) as P.
  fold (Nat.of_uint (Nat.to_uint i)) in P. rewrite Unsigned.of_to in P.
  rewrite E in P. simpl in P.
  destruct ((c <? 48) || (57 <? c)) eqn:B.
  - apply orb_true_iff in B. destruct B as [B|B]; apply Z.ltb_lt in B; lia.
  - exact P.
Qed.

Lemma parseIndex_indexKey (i : nat) :
  parseIndex (indexKey i) = Some (Z.of_nat i).
Proof.
  destruct (indexKey_digits i) as (c & rest & -> & R & P). simpl.
  destruct (Z.leb_spec 48 c); [|lia]. destruct (Z.leb_spec c 57); [|lia].
  simpl. congruence.
Qed.


(** ** The array wrapper *)



Lemma lookup_update_eq (w : World) (r : ref) (c c' : cell) :
  lookup w r = Some c -> lookup (update w r c') r = Some c'.
Proof.
  unfold lookup, update. simpl. intros H.
  apply nth_error_set_nth_eq. apply nth_error_lt in H. assumption.
Qed.

Lemma slot_of_inj (r r' : ref) : slot_of r = slot_of r' -> r = r'.
Proof. unfold slot_of. lia. Qed.

Lemma lookup_update_ne (w : World) (r r' : ref) (c' : cell) :
  r' <> r -> lookup (update w r c') r' = lookup w r'.
Proof.
  unfold lookup, update. simpl. intros H.
  apply nth_error_set_nth_ne. intros E. apply slot_of_inj in E. congruence.
Qed.






(** [pura([1, 2])] on a heap that holds the array. *)
Example pura_1_2 :
  pura (VObject 1)
    {| heap := [NativeArray [num 1; num 2]]; PROXY_CACHE := [] |} =
  Returns world_1_2 (VObject 2).
Proof. reflexivity. Qed.

(** ** Numbers that are integers *)



(** ** [length], [push] and [pop] of the array wrapper *)














Lemma parseDigits_stray (cs : list Z) :
  forall idx, (exists c, In c cs /\ (c < 48 \/ 57 < c)) ->
  parseDigits cs idx = -1.
Proof.
  induction cs as [|c cs IH]; intros idx (x & I & N); simpl in *.
  - contradiction.
  - destruct ((c <? 48) || (57 <? c)) eqn:B; [reflexivity|].
    apply orb_false_iff in B. destruct B as [B1 B2].
    apply Z.ltb_ge in B1, B2.
    destruct I as [->|I]; [lia|]. apply IH. exists x. auto.
Qed.

(** X5: the digit loop of the array traps.  It reads the decimal key of
    every index back as that index; a key that starts with a digit and has
    a code unit that is no digit gives [-1], which neither trap takes for an
    index; and a key that does not start with a digit is not parsed at
    all. *)
Theorem parseIndex_keys :
  (forall i : nat, parseIndex (indexKey i) = Some (Z.of_nat i)) /\
  (forall c0 rest, 48 <= c0 <= 57 ->
     (exists c, In c rest /\ (c < 48 \/ 57 < c)) ->
     parseIndex (VString (c0 :: rest)) = Some (-1)) /\
  (forall c0 rest, c0 < 48 \/ 57 < c0 ->
     parseIndex (VString (c0 :: rest)) = None).
Proof.
  split; [exact parseIndex_indexKey|]. split.
  - intros c0 rest R S. simpl.
    destruct (Z.leb_spec 48 c0); [|lia]. destruct (Z.leb_spec c0 57); [|lia].
    simpl. f_equal. apply parseDigits_stray. assumption.
  - intros c0 rest R. simpl.
    destruct (Z.leb_spec 48 c0); destruct (Z.leb_spec c0 57); simpl;
      try reflexivity; lia.
Qed.

(** ** What a trie iterates *)

Section Entries.

Context {V : Type}.
Variable strictEq : V -> V -> bool.

Lemma hamtIterNode_node o bm (cs : list (HChild V)) :
  hamtIterNode (Node o bm cs) = flat_map hamtIterNode cs.
Proof.
  cbn [hamtIterNode]. induction cs as [|c cs IH]; simpl; [reflexivity|].
  rewrite IH. reflexivity.
Qed.

(** [hamtIter] yields the entries below the node, left to right. *)
Lemma hamtIterNode_leaves (node : HChild V) :
  hamtIterNode node = List.map (fun e => (key e, value e)) (leaves_of node).
Proof.
  induction node as [l|es|o bm cs IH] using HChild_rect'; try reflexivity.
  rewrite hamtIterNode_node, leaves_of_node.
  induction IH as [|c cs Hc _ IHcs]; simpl; [reflexivity|].
  rewrite map_app, Hc, IHcs. reflexivity.
Qed.

(** Every position of [children] is the packed index of a set bit. *)
Lemma count_below_onto (bm : Z) (n p : nat) :
  (p < count_below bm n)%nat ->
  exists i, (i < n)%nat /\ Z.testbit bm (Z.of_nat i) = true /\
            count_below bm i = p.
Proof.
  induction n as [|n IH]; intros H.
  - unfold count_below in H. simpl in H. lia.
  - rewrite count_below_S in H.
    destruct (Nat.lt_ge_cases p (count_below bm n)) as [L|L].
    + destruct (IH L) as (i & Hi & T & C). exists i. auto.
    + destruct (Z.testbit bm (Z.of_nat n)) eqn:T; [|lia].
      exists n. split; [lia|]. split; [assumption|lia].
Qed.

Lemma child_of_position s o bm (cs : list (HChild V)) p c :
  wf s (Node o bm cs) -> nth_error cs p = Some c ->
  exists idx, 0 <= idx < 32 /\ child_at bm cs idx = Some c /\
              count_below bm (Z.to_nat idx) = p /\ routed s idx c.
Proof.
  intros W N. destruct (wf_node_inv _ _ _ _ W) as (L & _ & R).
  pose proof (nth_error_lt _ _ _ N) as P. rewrite L in P.
  destruct (count_below_onto bm 32 p P) as (i & Hi & T & C).
  exists (Z.of_nat i).
  assert (A : child_at bm cs (Z.of_nat i) = Some c).
  { unfold child_at. rewrite T, Nat2Z.id, C. assumption. }
  split; [lia|]. split; [assumption|]. split; [rewrite Nat2Z.id; assumption|].
  apply R; [lia|assumption].
Qed.

Lemma scanEntries_In (es : list (HLeaf V)) (e : HLeaf V) :
  distinct_keys es -> In e es -> scanEntries es (key e) = Some (value e).
Proof.
  induction es as [|e0 es IH]; intros D I; simpl in *; [contradiction|].
  destruct D as [D1 D2]. destruct I as [->|I].
  - rewrite keyEquals_refl. reflexivity.
  - rewrite Forall_forall in D1. rewrite (D1 e I). apply IH; assumption.
Qed.

(** An entry below a well-formed node is what the walk for its key finds. *)
Lemma leaf_found (node : HChild V) :
  forall s e, wf s node -> In e (leaves_of node) ->
  hamtGetLoop node (hash e) (key e) s = Some (value e).
Proof.
  induction node as [l|es|o bm cs IH] using HChild_rect'; intros s e W I.
  - simpl in I. destruct I as [->|[]]. cbn [hamtGetLoop].
    rewrite Z.eqb_refl, keyEquals_refl. reflexivity.
  - simpl in I. cbn [hamtGetLoop]. apply scanEntries_In; [|assumption].
    apply wf_collision_inv in W. tauto.
  - rewrite leaves_of_node in I. apply in_flat_map in I.
    destruct I as (c & Ic & Ie).
    destruct (In_nth_error _ _ Ic) as (p & Hp).
    destruct (child_of_position s o bm cs p c W Hp) as (idx & Ri & A & _ & R).
    unfold routed in R. rewrite Forall_forall in R.
    rewrite hamtGetLoop_node, (R e Ie), A.
    rewrite Forall_forall in IH. apply IH; [assumption| |assumption].
    apply (wf_child s o bm cs p c W Hp).
Qed.

(** What the walk finds is an entry below the node. *)
Lemma found_leaf (node : HChild V) :
  forall s h k v, hamtGetLoop node h k s = Some v ->
  exists e, In e (leaves_of node) /\ keyEquals (key e) k = true /\
            value e = v.
Proof.
  induction node as [l|es|o bm cs IH] using HChild_rect'; intros s h k v G.
  - cbn [hamtGetLoop] in G.
    destruct ((hash l =? h) && keyEquals (key l) k) eqn:B; [|discriminate].
    apply andb_prop in B. exists l. simpl. injection G as <-. tauto.
  - cbn [hamtGetLoop] in G. clear s h. simpl.
    induction es as [|e0 es IHes]; simpl in G; [discriminate|].
    destruct (keyEquals (key e0) k) eqn:K.
    + injection G as <-. exists e0. simpl. auto.
    + destruct (IHes G) as (e & Ie & E & Ev). exists e. simpl. auto.
  - rewrite hamtGetLoop_node in G.
    destruct (child_at bm cs (chunk h s)) as [c|] eqn:A; [|discriminate].
    unfold child_at in A. destruct (Z.testbit bm (chunk h s)); [|discriminate].
    rewrite Forall_forall in IH.
    destruct (IH c (nth_error_In _ _ A) _ _ _ _ G) as (e & Ie & E & Ev).
    exists e. split; [|auto]. rewrite leaves_of_node.
    apply in_flat_map. exists c. split; [eapply nth_error_In; eassumption|assumption].
Qed.

Lemma wf_leaf_ok (node : HChild V) :
  forall s, wf s node -> Forall leaf_ok (leaves_of node).
Proof.
  induction node as [l|es|o bm cs IH] using HChild_rect'; intros s W.
  - apply wf_leaf_inv in W. simpl. auto.
  - apply wf_collision_inv in W. simpl. tauto.
  - rewrite leaves_of_node. apply Forall_forall. intros e I.
    apply in_flat_map in I. destruct I as (c & Ic & Ie).
    rewrite Forall_forall in IH.
    destruct (In_nth_error _ _ Ic) as (p & Hp).
    pose proof (IH c Ic _ (wf_child s o bm cs p c W Hp)) as F.
    rewrite Forall_forall in F. auto.
Qed.

Lemma distinct_keys_distinct (es : list (HLeaf V)) :
  distinct_keys es -> distinct (List.map key es).
Proof.
  induction es as [|e es IH]; simpl; [auto|]. intros [D1 D2]. split; [|auto].
  intros k' I. apply in_map_iff in I. destruct I as (e' & <- & I).
  rewrite Forall_forall in D1. auto.
Qed.

(** Entries with different hashes hold different keys. *)
Lemma hash_apart (e e' : HLeaf V) :
  leaf_ok e -> leaf_ok e' -> hash e <> hash e' ->
  keyEquals (key e) (key e') = false.
Proof.
  unfold leaf_ok. intros A B N.
  destruct (keyEquals (key e) (key e')) eqn:E; [|reflexivity].
  apply keyEquals_hash in E. congruence.
Qed.

Lemma distinct_flat_map (cs : list (HChild V)) :
  Forall (fun c => distinct (List.map key (leaves_of c))) cs ->
  (forall p q c c' e e', p <> q ->
     nth_error cs p = Some c -> nth_error cs q = Some c' ->
     In e (leaves_of c) -> In e' (leaves_of c') ->
     keyEquals (key e) (key e') = false) ->
  distinct (List.map key (flat_map leaves_of cs)).
Proof.
  induction cs as [|c cs IH]; intros F X; simpl; [exact I|].
  rewrite map_app. apply distinct_app. inversion F as [|? ? Fc Fcs]; subst.
  split; [assumption|]. split.
  - apply IH; [assumption|]. intros p q c1 c2 e e' N Hp Hq.
    apply (X (S p) (S q)); simpl; auto.
  - intros x y Ix Iy. apply in_map_iff in Ix, Iy.
    destruct Ix as (e & <- & Ie). destruct Iy as (e' & <- & Ie').
    apply in_flat_map in Ie'. destruct Ie' as (c' & Ic' & Ie').
    destruct (In_nth_error _ _ Ic') as (q & Hq).
    apply (X 0%nat (S q) c c'); simpl; auto.
Qed.

(** No key occurs twice below a well-formed node. *)
Lemma wf_distinct (node : HChild V) :
  forall s, wf s node -> distinct (List.map key (leaves_of node)).
Proof.
  induction node as [l|es|o bm cs IH] using HChild_rect'; intros s W.
  - simpl. split; [intros k' []|exact I].
  - simpl. apply distinct_keys_distinct. apply wf_collision_inv in W. tauto.
  - rewrite leaves_of_node. apply distinct_flat_map.
    + rewrite Forall_forall in *. intros c Ic.
      destruct (In_nth_error _ _ Ic) as (p & Hp).
      apply (IH c Ic (s + BITS)). apply (wf_child s o bm cs p c W Hp).
    + intros p q c c' e e' N Hp Hq Ie Ie'.
      destruct (child_of_position s o bm cs p c W Hp)
        as (i & Ri & _ & Ci & R).
      destruct (child_of_position s o bm cs q c' W Hq)
        as (j & Rj & _ & Cj & R').
      unfold routed in R, R'. rewrite Forall_forall in R, R'.
      pose proof (wf_leaf_ok c _ (wf_child s o bm cs p c W Hp)) as O.
      pose proof (wf_leaf_ok c' _ (wf_child s o bm cs q c' W Hq)) as O'.
      rewrite Forall_forall in O, O'.
      apply hash_apart; auto.
      intros E. apply N. rewrite <- Ci, <- Cj.
      rewrite <- (R e Ie), <- (R' e' Ie'), E. reflexivity.
Qed.

(** What [hamtToEntries] lists is what [hamtGet] reads. *)
Lemma entries_spec (m : HMap V) :
  wf_map m ->
  (forall k v, In (k, v) (hamtToEntries m) -> hamtGet m k = Some v) /\
  (forall k v, hamtGet m k = Some v ->
     exists k0, In (k0, v) (hamtToEntries m) /\ keyEquals k0 k = true) /\
  distinct (List.map fst (hamtToEntries m)).
Proof.
  intros W. unfold hamtToEntries.
  split; [|split].
  - intros k v I. rewrite hamtGet_walk by assumption.
    unfold wf_map, getOpt in *. destruct (root m) as [n|]; [|destruct I].
    rewrite hamtIterNode_leaves in I. apply in_map_iff in I.
    destruct I as (e & [= <- <-] & I).
    pose proof (wf_leaf_ok n 0 W) as O. rewrite Forall_forall in O.
    rewrite <- (O e I). apply leaf_found; assumption.
  - intros k v G. rewrite hamtGet_walk in G by assumption.
    unfold wf_map, getOpt in *. destruct (root m) as [n|]; [|discriminate].
    destruct (found_leaf n _ _ _ _ G) as (e & I & E & <-).
    exists (key e). split; [|assumption].
    rewrite hamtIterNode_leaves. apply in_map_iff. exists e. auto.
  - unfold wf_map in W. destruct (root m) as [n|]; [|exact I].
    rewrite hamtIterNode_leaves, map_map. simpl.
    apply (wf_distinct n 0 W).
Qed.

End Entries.

(** ** Counting the keys *)

Lemma canon_eq (a b : jsval) : keyEquals a b = true <-> canon a = canon b.
Proof.
  rewrite keyEquals_spec. split.
  - intros [->|[Za Zb]]; [reflexivity|].
    destruct a as [| | |[| |s|]| | | | |]; try contradiction.
    destruct b as [| | |[| |t|]| | | | |]; try contradiction.
    reflexivity.
  - intros E.
    destruct a as [| | |[| |s|]| | | | |];
      destruct b as [| | |[| |t|]| | | | |];
      simpl in E; try discriminate; try (left; exact E);
      try (right; simpl; tauto).
Qed.

Lemma distinct_NoDup (l : list jsval) :
  distinct l -> NoDup (List.map canon l).
Proof.
  induction l as [|k l IH]; simpl; intros D; constructor.
  - destruct D as [D1 _]. intros I. apply in_map_iff in I.
    destruct I as (k' & E & I). symmetry in E. apply canon_eq in E.
    rewrite (D1 k' I) in E. discriminate.
  - apply IH. tauto.
Qed.

Lemma count_same (L L' : list jsval) :
  NoDup L -> NoDup L' -> (forall x, In x L' <-> In x L) ->
  length L' = length L.
Proof.
  intros N N' H. apply Nat.le_antisymm; apply NoDup_incl_length; auto;
    intros x I; apply H; assumption.
Qed.

Lemma count_add (L L' : list jsval) (a : jsval) :
  NoDup L -> NoDup L' -> (forall x, In x L' <-> In x L \/ x = a) ->
  ~ In a L -> length L' = S (length L).
Proof.
  intros N N' H A.
  change (S (length L)) with (length (a :: L)).
  apply Nat.le_antisymm; apply NoDup_incl_length; auto.
  - intros x I. apply H in I. simpl. destruct I; auto.
  - constructor; assumption.
  - intros x [<-|I]; apply H; auto.
Qed.

Section Size.

Context {V : Type}.
Variable strictEq : V -> V -> bool.

(** The keys of a map, each by the value that stands for it. *)
Let keys (m : HMap V) : list jsval :=
  List.map canon (List.map fst (hamtToEntries m)).

Lemma keys_NoDup (m : HMap V) : wf_map m -> NoDup (keys m).
Proof.
  intros W. apply distinct_NoDup. apply (entries_spec m W).
Qed.

Lemma keys_In (m : HMap V) (x : jsval) :
  wf_map m ->
  (In x (keys m) <-> exists k, canon k = x /\ hamtGet m k <> None).
Proof.
  intros W. destruct (entries_spec m W) as (A & B & _). unfold keys. split.
  - intros I. apply in_map_iff in I. destruct I as (k & <- & I).
    apply in_map_iff in I. destruct I as ([k0 v] & <- & I). simpl.
    exists k0. split; [reflexivity|]. rewrite (A _ _ I). discriminate.
  - intros (k & <- & G). destruct (hamtGet m k) as [v|] eqn:E; [|congruence].
    destruct (B _ _ E) as (k0 & I & Q). apply canon_eq in Q. rewrite <- Q.
    apply in_map. apply (in_map fst) in I. exact I.
Qed.

Lemma keys_has (m : HMap V) (k : jsval) :
  wf_map m -> (In (canon k) (keys m) <-> hamtHas m k = true).
Proof.
  intros W. rewrite keys_In, hamtHas_get by assumption. split.
  - intros (k' & E & G). symmetry in E. apply canon_eq in E.
    rewrite (hamtGet_congr m k k' W E).
    destruct (hamtGet m k'); [reflexivity|congruence].
  - intros H. exists k. split; [reflexivity|].
    destruct (hamtGet m k); [discriminate|discriminate].
Qed.

(** The size field counts the entries. *)
Lemma size_counts (m : HMap V) :
  reachable strictEq m -> Z.of_nat (length (hamtToEntries m)) = size m.
Proof.
  assert (Len : forall m, length (keys m) = length (hamtToEntries m)).
  { intros m0. unfold keys. rewrite !length_map. reflexivity. }
  induction 1 as [|m owner k v r Hm IH Hs|m owner k r Hm IH Hd].
  - reflexivity.
  - pose proof (reachable_wf strictEq m Hm) as W.
    destruct (hamtSet_spec strictEq owner k v m W)
      as (r' & Hr & W' & It & Gs & Go & Sz).
    assert (r' = r) as -> by congruence. clear Hr.
    assert (Hit : forall k', keyEquals k k' = true ->
                             hamtGet (ret_val m r) k' <> None).
    { intros k' E. destruct (is_itself r) eqn:I.
      - destruct (proj1 It eq_refl) as (w & Gw & _).
        destruct r; [|discriminate]. simpl.
        rewrite <- (hamtGet_congr m k k' W E), Gw. discriminate.
      - rewrite (Gs eq_refl k' E). discriminate. }
    assert (Mem : forall x, In x (keys (ret_val m r)) <->
                            In x (keys m) \/ x = canon k).
    { intros x. rewrite !keys_In by assumption. split.
      - intros (k1 & <- & G). destruct (keyEquals k k1) eqn:E.
        + right. symmetry. apply canon_eq. assumption.
        + left. exists k1. rewrite <- (Go k1 E). auto.
      - intros [(k1 & <- & G)| ->].
        + exists k1. split; [reflexivity|].
          destruct (keyEquals k k1) eqn:E; [auto|]. rewrite (Go k1 E). auto.
        + exists k. split; [reflexivity|]. apply Hit, keyEquals_refl. }
    rewrite Sz, <- IH, <- !Len.
    destruct (hamtHas m k) eqn:H.
    + rewrite (count_same (keys m) (keys (ret_val m r)));
        [lia|apply keys_NoDup|apply keys_NoDup|]; auto.
      intros x. rewrite Mem. split; [|auto].
      intros [I| ->]; [assumption|]. apply keys_has; assumption.
    + rewrite (count_add (keys m) (keys (ret_val m r)) (canon k));
        [lia|apply keys_NoDup|apply keys_NoDup| |]; auto.
      intros I. apply keys_has in I; [congruence|assumption].
  - pose proof (reachable_wf strictEq m Hm) as W.
    destruct (hamtDelete_spec owner k m W)
      as (r' & Hr & W' & It & Gs & Go & Sz).
    assert (r' = r) as -> by congruence. clear Hr.
    assert (Mem : forall x, In x (keys (ret_val m r)) <->
                            In x (keys m) /\ x <> canon k).
    { intros x. rewrite !keys_In by assumption. split.
      - intros (k1 & <- & G). destruct (keyEquals k k1) eqn:E.
        + rewrite (Gs k1 E) in G. congruence.
        + split; [exists k1; rewrite <- (Go k1 E); auto|].
          intros Q. symmetry in Q. apply canon_eq in Q. congruence.
      - intros ((k1 & <- & G) & N). exists k1. split; [reflexivity|].
        destruct (keyEquals k k1) eqn:E.
        + exfalso. apply N. symmetry. apply canon_eq. assumption.
        + rewrite (Go k1 E). assumption. }
    rewrite Sz, <- IH, <- !Len.
    destruct (hamtHas m k) eqn:H.
    + rewrite (count_add (keys (ret_val m r)) (keys m) (canon k));
        [lia|apply keys_NoDup|apply keys_NoDup| |]; auto.
      * intros x. rewrite Mem. split.
        -- intros I. destruct (Object_is x (canon k)) eqn:O.
           ++ right. apply Object_is_eq. assumption.
           ++ left. split; [assumption|]. intros Q.
              apply Object_is_eq in Q. congruence.
        -- intros [[I _]| ->]; [assumption|]. apply keys_has; assumption.
      * rewrite Mem. tauto.
    + rewrite (count_same (keys m) (keys (ret_val m r)));
        [lia|apply keys_NoDup|apply keys_NoDup|]; auto.
      intros x. rewrite Mem. split; [tauto|]. intros I. split; [assumption|].
      intros ->. apply keys_has in I; [congruence|assumption].
Qed.

End Size.

(** ** Laws of the map *)

Lemma subnodes_wf {V : Type} (node : HChild V) :
  forall s, wf s node -> Forall node_ok (subnodes node).
Proof.
  induction node as [l|es|o bm cs IH] using HChild_rect'; intros s W.
  - apply wf_leaf_inv in W. repeat constructor. exact W.
  - apply wf_collision_inv in W. repeat constructor.
    + simpl. tauto.
    + apply distinct_keys_distinct. tauto.
  - cbn [subnodes]. constructor.
    + apply wf_node_inv in W. simpl. unfold popcount. f_equal. tauto.
    + assert (Wc : Forall (wf (s + BITS)) cs)
        by (apply wf_node_inv in W; tauto).
      clear W. induction IH as [|c cs Hc _ IHcs]; [constructor|].
      inversion Wc; subst. apply Forall_app. split; [eapply Hc; eassumption|].
      apply IHcs. assumption.
Qed.

(** X11: every node of a map built from [hamtEmpty] by [hamtSet] and
    [hamtDelete] is as the data model asks: a branch has
    [popcount(bitmap)] children, every entry stores the hash of its key,
    and a collision bucket holds no key twice. *)
Theorem reachable_nodes_ok (m : JMap) (n : HChild jsval) :
  reachable strictEquals m -> root m = Some n ->
  Forall node_ok (subnodes n).
Proof.
  intros R E. pose proof (reachable_wf strictEquals m R) as W.
  unfold wf_map in W. rewrite E in W. apply (subnodes_wf n 0 W).
Qed.

Lemma reachable_nodes_ok_witness :
  reachable strictEquals map_0_6 /\
  root map_0_6 =
    Some (Node None 16384
            [Node None 20971520
               [Leaf {| key := num 6; hash := hashKey (num 6);
                        value := str "y"%string |};
                Leaf {| key := num 0; hash := hashKey (num 0);
                        value := str "x"%string |}]]) /\
  Forall node_ok
    (subnodes
       (Node None 16384
          [Node None 20971520
             [Leaf {| key := num 6; hash := hashKey (num 6);
                      value := str "y"%string |};
              Leaf {| key := num 0; hash := hashKey (num 0);
                      value := str "x"%string |}]])).
Proof.
  split; [exact reachable_map_0_6|]. split; [reflexivity|].
  apply (reachable_nodes_ok map_0_6); [exact reachable_map_0_6|reflexivity].
Defined.

Lemma persistent_reachable (m : JMap) :
  persistent strictEquals m -> reachable strictEquals m.
Proof.
  induction 1 as [|m k v r _ IH E|m k r _ IH E].
  - apply reach_empty.
  - exact (reach_set strictEquals m None k v r IH E).
  - exact (reach_delete strictEquals m None k r IH E).
Qed.

Lemma persistent_map_0_6 : persistent strictEquals map_0_6.
Proof.
  apply (persist_set strictEquals
           {| root := Some (Leaf {| key := num 0; hash := hashKey (num 0);
                                    value := str "x"%string |});
              size := 1 |}
           (num 6) (str "y"%string) (Fresh map_0_6)).
  - apply (persist_set strictEquals hamtEmpty (num 0) (str "x"%string)
             (Fresh _)).
    + constructor.
    + vm_compute. reflexivity.
  - vm_compute. reflexivity.
Qed.

(** X12: on a map built from [hamtEmpty] by [hamtSet] and [hamtDelete],
    [hamtToEntries] lists exactly what [hamtGet] reads, each key once; when
    every one of these calls was made without an owner, [size] is the number
    of entries. *)
Theorem hamtToEntries_lists_the_map (m : JMap) :
  reachable strictEquals m ->
  (forall k v, In (k, v) (hamtToEntries m) -> hamtGet m k = Some v) /\
  (forall k v, hamtGet m k = Some v ->
     exists k0, In (k0, v) (hamtToEntries m) /\ keyEquals k0 k = true) /\
  distinct (List.map fst (hamtToEntries m)) /\
  (persistent strictEquals m -> Z.of_nat (length (hamtToEntries m)) = size m).
Proof.
  intros R. pose proof (reachable_wf strictEquals m R) as W.
  destruct (entries_spec m W) as (A & B & C).
  repeat (split; [assumption|]).
  intros P. apply (size_counts strictEquals m (persistent_reachable m P)).
Qed.

Lemma hamtToEntries_lists_the_map_witness :
  reachable strictEquals map_0_6 /\
  persistent strictEquals map_0_6 /\
  (forall k v, In (k, v) (hamtToEntries map_0_6) -> hamtGet map_0_6 k = Some v) /\
  (forall k v, hamtGet map_0_6 k = Some v ->
     exists k0, In (k0, v) (hamtToEntries map_0_6) /\ keyEquals k0 k = true) /\
  distinct (List.map fst (hamtToEntries map_0_6)) /\
  Z.of_nat (length (hamtToEntries map_0_6)) = size map_0_6.
Proof.
  split; [exact reachable_map_0_6|]. split; [exact persistent_map_0_6|].
  destruct (hamtToEntries_lists_the_map map_0_6 reachable_map_0_6)
    as (A & B & C & D).
  repeat (split; [assumption|]). exact (D persistent_map_0_6).
Defined.

(** X13: [hamtDelete] on a map built from [hamtEmpty] by [hamtSet] and
    [hamtDelete] returns a map that no longer holds the key, reads every
    other key as before, and counts one entry less exactly when the key was
    there. *)
Theorem hamtDelete_law (m : JMap) (owner : Owner) (k : jsval) :
  reachable strictEquals m ->
  exists r,
    hamtDelete m owner k = Some r /\
    reachable strictEquals (ret_val m r) /\
    hamtHas (ret_val m r) k = false /\
    (forall k', hamtGet (ret_val m r) k' =
                if keyEquals k k' then None else hamtGet m k') /\
    size (ret_val m r) = size m - (if hamtHas m k then 1 else 0).
Proof.
  intros R. pose proof (reachable_wf strictEquals m R) as W.
  destruct (hamtDelete_spec owner k m W) as (r & Hr & W' & _ & Gs & Go & Sz).
  exists r. split; [assumption|].
  split; [apply (reach_delete strictEquals m owner k r R Hr)|].
  split; [|split; [|assumption]].
  - rewrite hamtHas_get by assumption. unfold JMap in *.
    rewrite (Gs k (keyEquals_refl k)). reflexivity.
  - intros k'. destruct (keyEquals k k') eqn:E; auto.
Qed.

Lemma hamtDelete_law_witness :
  reachable strictEquals map_0_6 /\
  exists r,
    hamtDelete map_0_6 None (num 6) = Some r /\
    reachable strictEquals (ret_val map_0_6 r) /\
    hamtHas (ret_val map_0_6 r) (num 6) = false /\
    (forall k', hamtGet (ret_val map_0_6 r) k' =
                if keyEquals (num 6) k' then None else hamtGet map_0_6 k') /\
    size (ret_val map_0_6 r) =
      size map_0_6 - (if hamtHas map_0_6 (num 6) then 1 else 0).
Proof.
  split; [exact reachable_map_0_6|].
  exact (hamtDelete_law map_0_6 None (num 6) reachable_map_0_6).
Defined.

(** X14: [hamtHas] and [hamtGet] agree, and both take equal keys for one
    key: on a map built from [hamtEmpty] by [hamtSet] and [hamtDelete],
    [hamtHas] answers true exactly for the keys that [hamtGet] finds, and
    two keys that [keyEquals] takes for equal read the same. *)
Theorem hamtHas_agrees_with_hamtGet (m : JMap) (k k' : jsval) :
  reachable strictEquals m ->
  (hamtHas m k = true <-> exists v, hamtGet m k = Some v) /\
  (keyEquals k k' = true ->
     hamtGet m k = hamtGet m k' /\ hamtHas m k = hamtHas m k').
Proof.
  intros R. pose proof (reachable_wf strictEquals m R) as W. split.
  - rewrite hamtHas_get by assumption.
    destruct (hamtGet m k) as [v|]; split; try discriminate; eauto.
    intros (v & H). discriminate.
  - intros E. rewrite !hamtHas_get by assumption.
    rewrite (hamtGet_congr m k k' W E). auto.
Qed.

Lemma hamtHas_agrees_with_hamtGet_witness :
  reachable strictEquals map_zero_zero /\
  (hamtHas map_zero_zero negZero = true <->
     exists v, hamtGet map_zero_zero negZero = Some v) /\
  (keyEquals negZero posZero = true ->
     hamtGet map_zero_zero negZero = hamtGet map_zero_zero posZero /\
     hamtHas map_zero_zero negZero = hamtHas map_zero_zero posZero).
Proof.
  split; [exact reachable_map_zero_zero|].
  exact (hamtHas_agrees_with_hamtGet map_zero_zero negZero posZero
           reachable_map_zero_zero).
Defined.

Lemma hamtSet_holds (m : HMap jsval) (owner : Owner) (k v : jsval)
    (r : ret (HMap jsval)) :
  wf_map m -> hamtSet strictEquals m owner k v = Some r ->
  hamtHas (ret_val m r) k = true.
Proof.
  intros W Hr.
  destruct (hamtSet_spec strictEquals owner k v m W)
    as (r' & Hr' & W' & It & Gs & _).
  assert (r' = r) as -> by congruence.
  rewrite hamtHas_get by assumption. destruct (is_itself r) eqn:I.
  - destruct (proj1 It eq_refl) as (w & Gw & _).
    destruct r; [|discriminate]. simpl. rewrite Gw. reflexivity.
  - rewrite (Gs eq_refl k (keyEquals_refl k)). reflexivity.
Qed.

(** X15: [hamtSet] counts the key when it is new: the map it returns holds
    the key, and its size is the size before plus one exactly when the key
    was not there. *)
Theorem hamtSet_size (m : JMap) (owner : Owner) (k v : jsval) :
  reachable strictEquals m ->
  exists r,
    hamtSet strictEquals m owner k v = Some r /\
    reachable strictEquals (ret_val m r) /\
    hamtHas (ret_val m r) k = true /\
    size (ret_val m r) = size m + (if hamtHas m k then 0 else 1).
Proof.
  intros R. pose proof (reachable_wf strictEquals m R) as W.
  destruct (hamtSet_spec strictEquals owner k v m W)
    as (r & Hr & W' & It & Gs & _ & Sz).
  exists r. split; [assumption|].
  split; [apply (reach_set strictEquals m owner k v r R Hr)|].
  split; [|assumption].
  apply (hamtSet_holds m owner k v r W Hr).
Qed.

Lemma hamtSet_size_witness :
  reachable strictEquals map_a_zero /\
  exists r,
    hamtSet strictEquals map_a_zero None (str "b"%string) (num 1) = Some r /\
    reachable strictEquals (ret_val map_a_zero r) /\
    hamtHas (ret_val map_a_zero r) (str "b"%string) = true /\
    size (ret_val map_a_zero r) =
      size map_a_zero + (if hamtHas map_a_zero (str "b"%string) then 0 else 1).
Proof.
  split; [exact reachable_map_a_zero|].
  exact (hamtSet_size map_a_zero None (str "b"%string) (num 1)
           reachable_map_a_zero).
Defined.

(** X16: [keyEquals] is an equivalence on keys, and it takes NaN for equal
    to itself. *)
Theorem keyEquals_equivalence :
  (forall a, keyEquals a a = true) /\
  (forall a b, keyEquals a b = keyEquals b a) /\
  (forall a b c, keyEquals a b = true -> keyEquals b c = true ->
                 keyEquals a c = true) /\
  keyEquals (VNumber NaN) (VNumber NaN) = true.
Proof.
  split; [exact keyEquals_refl|]. split; [exact keyEquals_sym|].
  split; [exact keyEquals_trans|reflexivity].
Qed.

(** X17: [hashKey] gives an unsigned 32-bit integer for every key, and the
    same one for two keys that [keyEquals] takes for equal. *)
Theorem hashKey_uint32 (a b : jsval) :
  0 <= hashKey a < 2 ^ 32 /\
  (keyEquals a b = true -> hashKey a = hashKey b).
Proof.
  split; [apply hashKey_range|apply keyEquals_hash].
Qed.

(** X18: setting a key to the value it was just set to changes nothing:
    when [v === v] (any value but NaN), [hamtSet] on the map that
    [hamtSet(m, owner, k, v)] returned hands back that map itself. *)
Theorem hamtSet_again (m : JMap) (owner owner' : Owner) (k v : jsval) :
  reachable strictEquals m -> strictEquals v v = true ->
  exists r,
    hamtSet strictEquals m owner k v = Some r /\
    hamtSet strictEquals (ret_val m r) owner' k v = Some Itself.
Proof.
  intros R Q. pose proof (reachable_wf strictEquals m R) as W.
  destruct (hamtSet_spec strictEquals owner k v m W)
    as (r & Hr & W' & It & Gs & _).
  exists r. split; [assumption|].
  destruct (hamtSet_spec strictEquals owner' k v (ret_val m r) W')
    as (r2 & Hr2 & _ & It2 & _).
  assert (I2 : is_itself r2 = true).
  { apply It2. destruct (is_itself r) eqn:I.
    - destruct (proj1 It eq_refl) as (w & Gw & Ew).
      destruct r; [|discriminate]. exists w. auto.
    - exists v. split; [|assumption]. apply (Gs eq_refl), keyEquals_refl. }
  destruct r2; [assumption|discriminate].
Qed.

Lemma hamtSet_again_witness :
  reachable strictEquals map_a_zero /\
  strictEquals (num 1) (num 1) = true /\
  exists r,
    hamtSet strictEquals map_a_zero None (str "b"%string) (num 1) = Some r /\
    hamtSet strictEquals (ret_val map_a_zero r) None (str "b"%string) (num 1)
      = Some Itself.
Proof.
  split; [exact reachable_map_a_zero|]. split; [reflexivity|].
  apply (hamtSet_again map_a_zero None None (str "b"%string) (num 1)).
  - exact reachable_map_a_zero.
  - reflexivity.
Defined.

(** X19: deleting a key right after setting it undoes the set: for a key
    that the map did not hold, the map that [hamtDelete] returns reads
    every key as the map before [hamtSet] did, and has its size. *)
Theorem hamtDelete_after_hamtSet (m : JMap) (owner owner' : Owner)
    (k v : jsval) :
  reachable strictEquals m -> hamtHas m k = false ->
  exists r r',
    hamtSet strictEquals m owner k v = Some r /\
    hamtDelete (ret_val m r) owner' k = Some r' /\
    (forall k', hamtGet (ret_val (ret_val m r) r') k' = hamtGet m k') /\
    size (ret_val (ret_val m r) r') = size m.
Proof.
  intros R A. pose proof (reachable_wf strictEquals m R) as W.
  destruct (hamtSet_spec strictEquals owner k v m W)
    as (r & Hr & W' & _ & _ & Go & Sz).
  destruct (hamtDelete_spec owner' k (ret_val m r) W')
    as (r' & Hr' & _ & _ & Gs' & Go' & Sz').
  exists r, r'. split; [assumption|]. split; [assumption|].
  pose proof (hamtSet_holds m owner k v r W Hr) as H1.
  unfold JMap in *. split.
  - intros k'. destruct (keyEquals k k') eqn:E.
    + rewrite (Gs' k' E). symmetry.
      rewrite hamtHas_get in A by assumption.
      rewrite <- (hamtGet_congr m k k' W E).
      destruct (hamtGet m k); [discriminate|reflexivity].
    + rewrite (Go' k' E). apply Go. assumption.
  - rewrite Sz', Sz, H1, A. lia.
Qed.

Lemma hamtDelete_after_hamtSet_witness :
  reachable strictEquals map_a_zero /\
  hamtHas map_a_zero (str "b"%string) = false /\
  exists r r',
    hamtSet strictEquals map_a_zero None (str "b"%string) (num 1) = Some r /\
    hamtDelete (ret_val map_a_zero r) None (str "b"%string) = Some r' /\
    (forall k', hamtGet (ret_val (ret_val map_a_zero r) r') k' =
                hamtGet map_a_zero k') /\
    size (ret_val (ret_val map_a_zero r) r') = size map_a_zero.
Proof.
  split; [exact reachable_map_a_zero|]. split; [vm_compute; reflexivity|].
  apply (hamtDelete_after_hamtSet map_a_zero None None (str "b"%string) (num 1)).
  - exact reachable_map_a_zero.
  - vm_compute. reflexivity.
Defined.

(** ** Objects that a call leaves alone *)

Lemma keeps_refl (d : ref) (w : World) : keeps d w w.
Proof. split; auto. Qed.

Lemma keeps_trans (d : ref) (w1 w2 w3 : World) :
  keeps d w1 w2 -> keeps d w2 w3 -> keeps d w1 w3.
Proof.
  intros [L1 F1] [L2 F2]. split; [lia|].
  intros r H. rewrite F2, F1; auto.
Qed.

Lemma lookup_valid (w : World) (r : ref) (c : cell) :
  lookup w r = Some c -> (r < next_ref w)%positive.
Proof.
  unfold lookup, next_ref, slot_of. intros H. apply nth_error_lt in H. lia.
Qed.

Lemma lookup_alloc_old (w : World) (c : cell) (r : ref) :
  (r < next_ref w)%positive -> lookup (fst (alloc w c)) r = lookup w r.
Proof.
  unfold lookup, alloc, next_ref, slot_of. simpl. intros H.
  apply nth_error_app1. lia.
Qed.

Lemma lookup_alloc_new (w : World) (c : cell) :
  lookup (fst (alloc w c)) (next_ref w) = Some c.
Proof.
  unfold lookup, alloc, next_ref, slot_of. simpl.
  rewrite nth_error_app2 by lia.
  replace (Pos.to_nat (Pos.of_succ_nat (length (heap w))) - 1 - length (heap w))%nat
    with 0%nat by lia.
  reflexivity.
Qed.

Lemma lookup_alloc (w : World) (c : cell) (r : ref) (c' : cell) :
  lookup (fst (alloc w c)) r = Some c' ->
  (r = next_ref w /\ c' = c) \/
  ((r < next_ref w)%positive /\ lookup w r = Some c').
Proof.
  intros H. destruct (Pos.ltb_spec r (next_ref w)) as [L|L].
  - right. rewrite lookup_alloc_old in H by assumption. auto.
  - left. pose proof (lookup_valid _ _ _ H) as V.
    assert (r = next_ref w) as ->.
    { unfold next_ref, alloc in *. simpl in V. rewrite length_app in V.
      simpl in V. lia. }
    split; [reflexivity|].
    rewrite lookup_alloc_new in H. congruence.
Qed.

Lemma lookup_update (w : World) (r r' : ref) (c c' : cell) :
  lookup (update w r c) r' = Some c' ->
  (r' = r /\ c' = c) \/ (r' <> r /\ lookup w r' = Some c').
Proof.
  intros H. destruct (Pos.eq_dec r' r) as [->|N].
  - left. split; [reflexivity|].
    destruct (lookup w r) as [c0|] eqn:E.
    + rewrite (lookup_update_eq w r c0 c E) in H. congruence.
    + exfalso. unfold lookup, update in *. simpl in *.
      apply nth_error_None in E. apply nth_error_lt in H.
      rewrite length_set_nth in H. lia.
  - right. rewrite lookup_update_ne in H by assumption. auto.
Qed.

Section Safe.

Variable d : ref.

Lemma safe_ret {A : Type} (a : A) (Q : A -> Prop) : Q a -> safe d (ret_ a) Q.
Proof. intros H w O. simpl. auto using keeps_refl. Qed.

Lemma safe_not_modelled {A : Type} (Q : A -> Prop) : safe d not_modelled Q.
Proof. intros w O. exact I. Qed.

Lemma safe_bind {A B : Type} (m : M A) (f : A -> M B) (Q : A -> Prop)
    (R : B -> Prop) :
  safe d m Q -> (forall a, Q a -> safe d (f a) R) -> safe d (bindM m f) R.
Proof.
  intros Hm Hf w O. unfold bindM. specialize (Hm w O).
  destruct (m w) as [w1 a|w1 e|]; auto.
  destruct Hm as (O1 & K1 & Qa). specialize (Hf a Qa w1 O1).
  destruct (f a w1) as [w2 b|w2 e|]; auto.
  - destruct Hf as (O2 & K2 & Rb). eauto using keeps_trans.
  - destruct Hf as (O2 & K2). eauto using keeps_trans.
Qed.

Lemma safe_weaken {A : Type} (m : M A) (Q Q' : A -> Prop) :
  safe d m Q -> (forall a, Q a -> Q' a) -> safe d m Q'.
Proof.
  intros Hm H w O. specialize (Hm w O).
  destruct (m w) as [w1 a|w1 e|]; auto. destruct Hm as (O1 & K1 & Qa). auto.
Qed.

Lemma safe_read (r : ref) :
  safe d (read r) (fun c => (d <= r)%positive -> cell_ok d c).
Proof.
  intros w O. unfold read. destruct (lookup w r) as [c|] eqn:E; [|exact I].
  split; [assumption|]. split; [apply keeps_refl|].
  intros L. apply (proj2 O r c L E).
Qed.

Lemma safe_write (r : ref) (c : cell) :
  (d <= r)%positive -> cell_ok d c -> safe d (write r c) (fun _ => True).
Proof.
  intros L C w [N O]. unfold write. split; [|split; [|exact I]].
  - split.
    + unfold next_ref, update in *. simpl. rewrite length_set_nth. assumption.
    + intros r' c' L' H. apply lookup_update in H.
      destruct H as [[-> ->]|[_ H]]; eauto.
  - split.
    + unfold update. simpl. rewrite length_set_nth. lia.
    + intros r' L'. apply lookup_update_ne. lia.
Qed.

Lemma safe_new (c : cell) :
  cell_ok d c -> safe d (new c) (fun r => (d <= r)%positive).
Proof.
  intros C w [N O]. unfold new.
  change (let (w', r) := alloc w c in Returns w' r)
    with (Returns (fst (alloc w c)) (next_ref w)).
  split; [|split; [|assumption]].
  - split.
    + unfold next_ref, alloc in *. simpl. rewrite length_app. simpl. lia.
    + intros r c' L H. apply lookup_alloc in H.
      destruct H as [[-> ->]|[_ H]]; eauto.
  - split.
    + unfold alloc. simpl. rewrite length_app. lia.
    + intros r L. apply lookup_alloc_old. lia.
Qed.

Lemma safe_lift {A : Type} (x : result A) : safe d (lift x) (fun _ => True).
Proof.
  intros w O. unfold lift. destruct x; auto using keeps_refl.
Qed.

(** A step whose result needs no property. *)
Lemma safe_then {A B : Type} (m : M A) (f : A -> M B) (Q : A -> Prop)
    (R : B -> Prop) :
  safe d m Q -> (forall a, safe d (f a) R) -> safe d (bindM m f) R.
Proof. intros Hm Hf. apply (safe_bind m f Q R Hm). auto. Qed.

End Safe.

Ltac safe_step :=
  lazymatch goal with
  | |- safe _ (ret_ _) _ => apply safe_ret; auto
  | |- safe _ not_modelled _ => apply safe_not_modelled
  | |- safe _ (bindM (read _) _) _ =>
      eapply safe_bind; [apply safe_read|intros ? ?]
  | |- safe _ (bindM (lift _) _) _ =>
      eapply safe_then; [apply safe_lift|intros ?]
  | |- safe _ (bindM (write _ _) _) _ =>
      eapply safe_then; [apply safe_write|intros _]
  | |- safe _ (bindM (new _) _) _ =>
      eapply safe_bind; [apply safe_new|intros ? ?]
  | |- safe _ (write _ _) _ => eapply safe_weaken; [apply safe_write|auto]
  | |- safe _ (match ?x with _ => _ end) _ => destruct x eqn:?
  end.

Lemma Forall_jsmap_set {K V : Type} (eq : K -> K -> bool) (P : K * V -> Prop)
    (es : list (K * V)) (k : K) (v : V) :
  Forall P es -> (forall k', P (k', v)) -> Forall P (jsmap_set eq es k v).
Proof.
  intros F H. induction F as [|[k' v'] es Hx F IH]; simpl.
  - constructor; [apply H|constructor].
  - destruct (eq k' k); constructor; auto.
Qed.

Lemma Forall_jsmap_delete {K V : Type} (eq : K -> K -> bool)
    (P : K * V -> Prop) (es : list (K * V)) (k : K) :
  Forall P es -> Forall P (jsmap_delete eq es k).
Proof.
  intros F. induction F as [|[k' v'] es Hx F IH]; simpl; [constructor|].
  destruct (eq k' k); [assumption|constructor; auto].
Qed.

Section SafeNested.

Variable d : ref.

Lemma shallow_copy_ok (b cc : cell) :
  shallow_copy b = Some cc -> cell_ok d cc.
Proof. destruct b; simpl; intros [= <-]; exact I. Qed.

Lemma collection_copy_ok (b cc : cell) :
  collection_copy b = Some cc -> cell_ok d cc.
Proof. destruct b; simpl; intros [= <-]; exact I. Qed.

Lemma safe_markModified (t : ref) :
  (d <= t)%positive -> safe d (markModified t) (fun _ => True).
Proof.
  intros L. unfold markModified. safe_step. specialize (H L).
  repeat safe_step; auto.
Qed.

Lemma safe_getCopy_fuel (fuel : nat) :
  forall r, (d <= r)%positive ->
  safe d (getCopy_fuel fuel r) (fun cp => (d <= cp)%positive).
Proof.
  induction fuel as [|fuel IH]; intros r L; [apply safe_not_modelled|].
  assert (CB : forall cb, cb_ok d cb ->
            safe d (match cb with
                    | MarkModified draft => markModified draft
                    | CopyParent parent => getCopy_fuel fuel parent ;;; ret_ tt
                    | NoEffect => ret_ tt
                    end) (fun _ => True)).
  { intros [t|p|] C; simpl in C.
    - apply safe_markModified. assumption.
    - eapply safe_then; [apply IH; assumption|]. intros _.
      apply safe_ret. exact I.
    - apply safe_ret. exact I. }
  cbn [getCopy_fuel]. safe_step. specialize (H L).
  destruct a as [| | | | | | | |st|st|st]; try apply safe_not_modelled.
  - destruct H as (Hc & Hcb & Hch).
    destruct (NestedState.copy st) as [cp|] eqn:E; [safe_step|].
    safe_step. destruct (shallow_copy a) as [cc|] eqn:S; [|safe_step].
    eapply safe_bind; [apply safe_new, (shallow_copy_ok _ _ S)|].
    intros cp Lcp. safe_step.
    + assumption.
    + simpl. split; [intros ? [= <-]; assumption|]. auto.
    + eapply safe_then; [apply CB; assumption|]. intros _. safe_step.
  - destruct H as (Hc & Hcb).
    destruct (NestedCollState.copy st) as [cp|] eqn:E; [safe_step|].
    safe_step. destruct (collection_copy a) as [cc|] eqn:S; [|safe_step].
    eapply safe_bind; [apply safe_new, (collection_copy_ok _ _ S)|].
    intros cp Lcp. safe_step.
    + assumption.
    + simpl. split; [intros ? [= <-]; assumption|]. auto.
    + eapply safe_then; [apply CB; assumption|]. intros _. safe_step.
  - destruct H as (Hc & Hcb).
    destruct (NestedCollState.copy st) as [cp|] eqn:E; [safe_step|].
    safe_step. destruct (collection_copy a) as [cc|] eqn:S; [|safe_step].
    eapply safe_bind; [apply safe_new, (collection_copy_ok _ _ S)|].
    intros cp Lcp. safe_step.
    + assumption.
    + simpl. split; [intros ? [= <-]; assumption|]. auto.
    + eapply safe_then; [apply CB; assumption|]. intros _. safe_step.
Qed.

Lemma safe_getCopy (r : ref) :
  (d <= r)%positive -> safe d (getCopy r) (fun cp => (d <= cp)%positive).
Proof. apply safe_getCopy_fuel. Qed.

Lemma safe_createNested (v : ref) (cb : callback) :
  cb_ok d cb -> safe d (createNested v cb) (val_ok d).
Proof.
  intros C. unfold createNested. safe_step.
  eapply safe_bind; [apply safe_new|intros p Lp; safe_step].
  destruct a; simpl; repeat split; try discriminate; auto.
Qed.

Lemma safe_nestedGet (r : ref) (prop : jsval) :
  (d <= r)%positive -> safe d (nestedGet r prop) (fun _ => True).
Proof.
  intros L. unfold nestedGet. safe_step. specialize (H L).
  destruct a as [| | | | | | | |st| |]; try apply safe_not_modelled.
  destruct H as (Hc & Hcb & Hch).
  safe_step. destruct (get_prop a prop) as [value|]; [|safe_step].
  destruct value as [| | | | | | |v|];
    try (apply safe_ret; exact I); try apply safe_not_modelled.
  safe_step.
  assert (G : safe d
    match jsmap_get keyEquals (NestedState.childProxies st) prop with
    | Some child => ret_ child
    | None =>
        child <~ createNested v (CopyParent r);;
        write r
          (NestedProxy
             (NestedState.make (NestedState.base st) (NestedState.copy st)
                (jsmap_set keyEquals (NestedState.childProxies st) prop child)
                (NestedState.onMutate st)));;; ret_ child
    end (fun _ => True)).
  { destruct (jsmap_get _ _ _); [safe_step|].
    eapply safe_bind; [apply safe_createNested; simpl; assumption|].
    intros child Vc. safe_step; [assumption| |safe_step].
    simpl. split; [assumption|]. split; [assumption|].
    apply Forall_jsmap_set; auto. }
  destruct a0; try exact G. safe_step.
Qed.

Lemma safe_dropChild (r : ref) (prop : jsval) :
  (d <= r)%positive -> safe d (dropChild r prop) (fun _ => True).
Proof.
  intros L. unfold dropChild. safe_step. specialize (H L).
  destruct a as [| | | | | | | |st| |]; try apply safe_not_modelled.
  destruct H as (Hc & Hcb & Hch). safe_step; [assumption|].
  simpl. split; [assumption|]. split; [assumption|].
  apply Forall_jsmap_delete. assumption.
Qed.

Lemma safe_nestedSet (r : ref) (prop value : jsval) :
  (d <= r)%positive -> safe d (nestedSet r prop value) (fun _ => True).
Proof.
  intros L. unfold nestedSet.
  eapply safe_bind; [apply safe_getCopy; assumption|]. intros c Lc.
  eapply safe_then; [apply safe_dropChild; assumption|]. intros _.
  safe_step. destruct (set_prop a prop value) as [cc'|] eqn:S; [|safe_step].
  safe_step; [assumption| |safe_step].
  destruct a; simpl in S; try discriminate.
  - destruct (jsmap_get keyEquals props prop); [injection S as <-; exact I|].
    destruct (Object_is prop _); [discriminate|injection S as <-; exact I].
  - destruct (arrayIndex prop); [|discriminate].
    destruct (n <? length elems)%nat; [injection S as <-; exact I|].
    destruct (n =? length elems)%nat; [injection S as <-; exact I|discriminate].
Qed.

Lemma safe_nestedDelete (r : ref) (prop : jsval) :
  (d <= r)%positive -> safe d (nestedDelete r prop) (fun _ => True).
Proof.
  intros L. unfold nestedDelete.
  eapply safe_bind; [apply safe_getCopy; assumption|]. intros c Lc.
  eapply safe_then; [apply safe_dropChild; assumption|]. intros _.
  safe_step. destruct (delete_prop a prop) as [cc'|] eqn:S; [|safe_step].
  safe_step; [assumption| |safe_step].
  destruct a; simpl in S; try discriminate. injection S as <-. exact I.
Qed.

End SafeNested.

Ltac safe_go := repeat (safe_step; try assumption; try exact I).

Section SafeCollections.

Variable d : ref.

Lemma safe_collSource (st : NestedCollState.t) :
  safe d (collSource st) (fun _ => True).
Proof.
  unfold collSource. eapply safe_weaken; [apply safe_read|auto].
Qed.

Lemma safe_collMark (r : ref) :
  (d <= r)%positive -> safe d (collMark r) (fun _ => True).
Proof.
  intros L. unfold collMark. safe_step. specialize (H L).
  destruct a; try apply safe_not_modelled; safe_step; assumption.
Qed.

Lemma safe_collSize (st : NestedCollState.t) :
  safe d (collSize st) (fun _ => True).
Proof.
  unfold collSize. eapply safe_then; [apply safe_collSource|].
  intros s. safe_go.
Qed.

Ltac safe_coll L :=
  lazymatch goal with
  | |- safe _ (bindM (collSource _) _) _ =>
      eapply safe_then; [apply safe_collSource|intros ?]
  | |- safe _ (bindM (getCopy _) _) _ =>
      eapply safe_bind; [apply safe_getCopy; exact L|intros ? ?]
  | |- safe _ (bindM (collMark _) _) _ =>
      eapply safe_then; [apply safe_collMark; exact L|intros ?]
  | |- safe _ (bindM (if ?b then _ else _) _) _ => destruct b
  | |- safe _ (bindM (ret_ _) _) _ =>
      eapply (safe_then _ _ _ (fun _ => True));
      [apply safe_ret; exact I|intros ?]
  | _ => safe_step; try assumption; try exact I
  end.

Lemma safe_nestedMapCall (r : ref) (st : NestedCollState.t) (m : method)
    (args : list jsval) :
  (d <= r)%positive -> safe d (nestedMapCall r st m args) (fun _ => True).
Proof.
  intros L. unfold nestedMapCall.
  destruct m; destruct args as [|a1 [|a2 [|a3 args]]];
    try apply safe_not_modelled; repeat safe_coll L.
Qed.

Lemma safe_nestedSetCall (r : ref) (st : NestedCollState.t) (m : method)
    (args : list jsval) :
  (d <= r)%positive -> safe d (nestedSetCall r st m args) (fun _ => True).
Proof.
  intros L. unfold nestedSetCall.
  destruct m; destruct args as [|a1 [|a2 [|a3 args]]];
    try apply safe_not_modelled; repeat safe_coll L.
Qed.

End SafeCollections.

Lemma safe_assoc {A B C : Type} (d : ref) (m : M A) (f : A -> M B)
    (g : B -> M C) (R : C -> Prop) :
  safe d (bindM m (fun a => bindM (f a) g)) R ->
  safe d (bindM (bindM m f) g) R.
Proof.
  intros H w O. specialize (H w O). unfold bindM in *.
  destruct (m w); auto.
Qed.

Create HintDb safedb.

#[global] Hint Resolve safe_markModified safe_getCopy safe_createNested
  safe_nestedGet safe_dropChild safe_nestedSet safe_nestedDelete
  safe_collSource safe_collMark safe_collSize safe_nestedMapCall
  safe_nestedSetCall safe_ret safe_not_modelled safe_lift safe_read : safedb.

(** The next step of a [safe] goal: a primitive, a branch, or a call that a
    lemma of [safedb] covers. *)
Ltac safe_call :=
  lazymatch goal with
  | |- safe _ (bindM (read _) _) _ => safe_step
  | |- safe _ (bindM (lift _) _) _ => safe_step
  | |- safe _ (bindM (write _ _) _) _ => safe_step
  | |- safe _ (bindM (new _) _) _ => safe_step
  | |- safe _ (bindM (bindM _ _) _) _ => apply safe_assoc
  | |- safe _ (bindM not_modelled _) _ =>
      apply (safe_then _ _ _ (fun _ => True));
      [apply safe_not_modelled|intros ?]
  | |- safe _ (bindM (match ?x with _ => _ end) _) _ => destruct x eqn:?
  | |- safe _ (bindM _ _) _ =>
      eapply safe_bind; [solve [simpl; eauto with safedb]|intros ? ?]
  | |- safe _ (let (_, _) := ?x in _) _ => destruct x eqn:?
  | |- safe _ (match ?x with _ => _ end) _ => destruct x eqn:?
  | |- safe _ _ _ => first [safe_step | solve [simpl; eauto with safedb]]
  end.

Section SafeArray.

Variable d : ref.

Lemma safe_arrayGet (r : ref) (st : ArrayState.t) (prop : jsval) :
  (d <= r)%positive -> cell_ok d (ArrayProxy st) ->
  safe d (arrayGet r st prop) (fun _ => True).
Proof.
  intros L C. unfold arrayGet. simpl in C.
  repeat (safe_call; try assumption; try exact I).
  simpl. apply Forall_jsmap_set; auto.
Qed.

Lemma safe_lift_eq {A : Type} (x : result A) :
  safe d (lift x) (fun a => x = Ok a).
Proof.
  intros w O. unfold lift. destruct x; auto using keeps_refl.
Qed.

Lemma arraySet_ok (st st' : ArrayState.t) (prop value : jsval) (b : bool) :
  cell_ok d (ArrayProxy st) -> arraySet st prop value = Ok (st', b) ->
  cell_ok d (ArrayProxy st').
Proof.
  unfold arraySet. simpl. intros C H.
  repeat match type of H with
         | (match ?x with _ => _ end) = _ => destruct x eqn:?
         | bind ?x _ = _ => destruct x eqn:?; simpl in H
         | Ok _ = Ok _ => injection H as <- <-; simpl
         end; try discriminate; try assumption;
  try (destruct (ArrayState.proxies st); [|exact I]);
  try apply Forall_jsmap_delete; auto.
Qed.

Lemma safe_arrayCall (r : ref) (st : ArrayState.t) (m : method)
    (args : list jsval) :
  (d <= r)%positive -> cell_ok d (ArrayProxy st) ->
  safe d (arrayCall r st m args) (fun _ => True).
Proof.
  intros L C. unfold arrayCall.
  destruct m; try apply safe_not_modelled.
  - unfold arrayPush. safe_go.
  - destruct args; [|apply safe_not_modelled]. unfold arrayPop. safe_go.
  - destruct args; [|apply safe_not_modelled]. safe_step.
Qed.

End SafeArray.

Section SafeMap.

Variable d : ref.

Lemma safe_readMapState (r : ref) :
  safe d (readMapState r)
    (fun st => (d <= r)%positive -> cell_ok d (MapProxy st)).
Proof.
  unfold readMapState. safe_step. destruct a; try apply safe_not_modelled.
  apply safe_ret. assumption.
Qed.

Lemma safe_setMapState (r : ref) (st : MapState.t) :
  (d <= r)%positive -> cell_ok d (MapProxy st) ->
  safe d (setMapState r st) (fun _ => True).
Proof. intros L C. apply safe_write; assumption. Qed.

Lemma dropProxy_ok (vp : option (list (jsval * jsval))) (key : jsval) :
  match vp with
  | Some ps => Forall (fun kp => val_ok d (snd kp)) ps
  | None => True
  end ->
  match dropProxy vp key with
  | Some ps => Forall (fun kp => val_ok d (snd kp)) ps
  | None => True
  end.
Proof.
  destruct vp; simpl; [|auto]. apply Forall_jsmap_delete.
Qed.

Ltac safe_map L :=
  lazymatch goal with
  | |- safe _ (bindM (readMapState _) _) _ =>
      eapply safe_bind; [apply safe_readMapState|];
      let st := fresh "st" in let C := fresh "C" in
      intros st C; specialize (C L); simpl in C
  | |- safe _ (bindM (setMapState _ _) _) _ =>
      eapply safe_then; [apply safe_setMapState; [exact L|simpl]|intros _]
  | |- safe _ (setMapState _ _) _ =>
      apply safe_setMapState; [exact L|simpl]
  | |- safe _ (bindM (if ?b then _ else _) _) _ => destruct b eqn:?
  | |- safe _ (bindM (ret_ _) _) _ =>
      eapply (safe_then _ _ _ (fun _ => True));
      [apply safe_ret; exact I|intros ?]
  | _ => safe_call
  end.

Lemma safe_wrapValue (r : ref) (key raw : jsval) :
  (d <= r)%positive -> safe d (wrapValue r key raw) (fun _ => True).
Proof.
  intros L. unfold wrapValue.
  repeat (safe_map L; try assumption; try exact I).
  apply Forall_jsmap_set; auto.
Qed.

Lemma safe_mapGet (r : ref) (key : jsval) :
  (d <= r)%positive -> safe d (mapGet r key) (fun _ => True).
Proof.
  intros L. unfold mapGet.
  repeat (safe_map L; try assumption; try exact I).
  apply Forall_jsmap_set; auto.
Qed.

Lemma safe_mapSet (r : ref) (key value : jsval) :
  (d <= r)%positive -> safe d (mapSet r key value) (fun _ => True).
Proof.
  intros L. unfold mapSet.
  repeat (safe_map L; try assumption; try exact I;
          try (apply dropProxy_ok; assumption)).
Qed.

Lemma safe_mapDelete (r : ref) (key : jsval) :
  (d <= r)%positive -> safe d (mapDelete r key) (fun _ => True).
Proof.
  intros L. unfold mapDelete.
  repeat (safe_map L; try assumption; try exact I;
          try (apply dropProxy_ok; assumption)).
Qed.

Lemma safe_mapClear (r : ref) :
  (d <= r)%positive -> safe d (mapClear r) (fun _ => True).
Proof.
  intros L. unfold mapClear.
  repeat (safe_map L; try assumption; try exact I).
  destruct (MapState.valueProxies st); [constructor|exact I].
Qed.

Lemma safe_wrapEntries (r : ref) (es : list (jsval * jsval)) :
  (d <= r)%positive -> safe d (wrapEntries r es) (fun _ => True).
Proof.
  intros L. induction es as [|[k rawV] es IH]; simpl; [safe_step|].
  eapply safe_then; [apply safe_wrapValue; assumption|]. intros v.
  eapply safe_then; [apply IH|]. intros more. safe_step.
Qed.

Lemma safe_mapEntries (r : ref) :
  (d <= r)%positive -> safe d (mapEntries r) (fun _ => True).
Proof.
  intros L. unfold mapEntries. safe_map L.
  destruct (rawEntries st); [|apply safe_not_modelled].
  apply safe_wrapEntries. assumption.
Qed.

Lemma safe_mapCall (r : ref) (m : method) (args : list jsval) :
  (d <= r)%positive -> safe d (mapCall r m args) (fun _ => True).
Proof.
  intros L. unfold mapCall.
  destruct m; destruct args as [|a1 [|a2 [|a3 args]]];
    try apply safe_not_modelled;
    try (eapply safe_then;
         [first [apply safe_mapGet | apply safe_mapSet | apply safe_mapDelete
                | apply safe_mapClear | apply safe_mapEntries
                | apply safe_readMapState]; assumption
         |intros ?; safe_step]).
  all: eapply safe_then; [apply safe_readMapState|intros ?; safe_step].
Qed.

End SafeMap.

Section SafeSet.

Variable d : ref.

Lemma safe_readSetState (r : ref) :
  safe d (readSetState r) (fun _ => True).
Proof.
  unfold readSetState. safe_step. destruct a; try apply safe_not_modelled.
  apply safe_ret. exact I.
Qed.

Lemma safe_setSetState (r : ref) (st : SetState.t) :
  (d <= r)%positive -> safe d (setSetState r st) (fun _ => True).
Proof. intros L. apply safe_write; [assumption|exact I]. Qed.

Ltac safe_set L :=
  lazymatch goal with
  | |- safe _ (bindM (readSetState _) _) _ =>
      eapply safe_then; [apply safe_readSetState|intros ?]
  | |- safe _ (bindM (setSetState _ _) _) _ =>
      eapply safe_then; [apply safe_setSetState; exact L|intros _]
  | |- safe _ (setSetState _ _) _ => apply safe_setSetState; exact L
  | |- safe _ (bindM (if ?b then _ else _) _) _ => destruct b eqn:?
  | |- safe _ (bindM (ret_ _) _) _ =>
      eapply (safe_then _ _ _ (fun _ => True));
      [apply safe_ret; exact I|intros ?]
  | _ => safe_call
  end.

Lemma safe_setCall (r : ref) (m : method) (args : list jsval) :
  (d <= r)%positive -> safe d (setCall r m args) (fun _ => True).
Proof.
  intros L. unfold setCall, setAdd, setDelete, setClear.
  destruct m; destruct args as [|a1 [|a2 [|a3 args]]];
    try apply safe_not_modelled;
    repeat (safe_set L; try assumption; try exact I).
Qed.

End SafeSet.

#[global] Hint Resolve safe_arrayGet safe_arrayCall
  safe_mapCall safe_setCall : safedb.

Section SafeRecipe.

Variable d : ref.

Lemma in_reach_target (draft : ref) (o : op) :
  (d <= draft)%positive -> in_reach draft o = true ->
  exists t, target_of o = VObject t /\ (d <= t)%positive.
Proof.
  unfold in_reach. intros L H. destruct (target_of o); try discriminate.
  exists id. split; [reflexivity|]. apply Pos.leb_le in H. lia.
Qed.

(** No operation on a proxy of the draft reaches an older object. *)
Lemma safe_perform (draft : ref) (o : op) :
  (d <= draft)%positive -> in_reach draft o = true ->
  safe d (perform o) (fun _ => True).
Proof.
  intros L H. destruct (in_reach_target draft o L H) as (t & E & Lt).
  destruct o; simpl in E; subst target; unfold perform.
  - safe_step. specialize (H0 Lt).
    destruct a; try apply safe_not_modelled;
      repeat (safe_call; try assumption; try exact I).
  - safe_step. specialize (H0 Lt).
    destruct a; try apply safe_not_modelled.
    + eapply safe_bind; [apply safe_lift_eq|]. intros [st' b] E.
      safe_step; [assumption| |safe_step].
      apply (arraySet_ok d _ _ _ _ _ H0 E).
    + repeat (safe_call; try assumption; try exact I).
  - safe_step. specialize (H0 Lt).
    destruct a; try apply safe_not_modelled;
      repeat (safe_call; try assumption; try exact I).
  - safe_step. specialize (H0 Lt).
    destruct a; try apply safe_not_modelled; auto with safedb.
Qed.

Lemma safe_run (draft : ref) (p : prog) :
  (d <= draft)%positive -> safe d (run draft p) (fun _ => True).
Proof.
  intros L. induction p as [|e|o k IH]; simpl.
  - apply safe_ret. exact I.
  - intros w O. split; [assumption|apply keeps_refl].
  - destruct (in_reach draft o) eqn:E; [|apply safe_not_modelled].
    eapply safe_then; [apply (safe_perform draft); assumption|]. exact IH.
Qed.

End SafeRecipe.

Section SafeFinal.

Variable d : ref.

Lemma set_prop_ok (c c' : cell) (prop value : jsval) :
  set_prop c prop value = Some c' -> cell_ok d c'.
Proof.
  destruct c; simpl; try discriminate.
  - destruct (jsmap_get keyEquals props prop); [intros [= <-]; exact I|].
    destruct (Object_is prop _); [discriminate|intros [= <-]; exact I].
  - destruct (arrayIndex prop); [|discriminate].
    destruct (_ <? _)%nat; [intros [= <-]; exact I|].
    destruct (_ =? _)%nat; [intros [= <-]; exact I|discriminate].
Qed.

Lemma safe_assign (result : ref) (key finalChild : jsval) :
  (d <= result)%positive ->
  safe d (assign result key finalChild) (fun _ => True).
Proof.
  intros L. unfold assign. safe_step.
  destruct (set_prop a key finalChild) eqn:E; [|apply safe_not_modelled].
  apply safe_write; [assumption|]. apply (set_prop_ok _ _ _ _ E).
Qed.

Lemma safe_extractNestedValue (fuel : nat) :
  forall proxy, val_ok d proxy ->
  safe d (extractNestedValue fuel proxy) (fun _ => True).
Proof.
  induction fuel as [|fuel IH]; intros proxy V; [apply safe_not_modelled|].
  cbn [extractNestedValue].
  destruct proxy; try (apply safe_ret; exact I).
  simpl in V. safe_step. specialize (H V).
  destruct a; try (apply safe_ret; exact I).
  destruct H as (Hc & Hcb & Hch).
  eapply (safe_then _ _ _ (fun _ => True)).
  - induction Hch as [|[key child] rest Vc _ IHc]; [apply safe_ret; exact I|].
    intros w O.
    destruct (isProxyModified fuel w child) as [[|]|];
      [|apply IHc; assumption|exact I].
    match goal with
    | |- match ?m w with _ => _ end =>
        cut (safe d m (fun _ => True)); [intros S0; exact (S0 w O)|]
    end.
    eapply safe_then; [apply IH; exact Vc|]. intros v.
    eapply safe_then; [apply IHc|]. intros more. apply safe_ret. exact I.
  - intros modifiedChildren.
    assert (S : forall result, (d <= result)%positive ->
              safe d
                ((fix splice (cs : list (jsval * jsval)) : M unit :=
                    match cs with
                    | [] => ret_ tt
                    | (key, finalChild) :: rest =>
                        assign result key finalChild ;;; splice rest
                    end) modifiedChildren ;;; ret_ (VObject result))
                (fun _ => True)).
    { intros result L. eapply (safe_then _ _ _ (fun _ => True));
        [|intros _; apply safe_ret; exact I].
      induction modifiedChildren as [|[key finalChild] rest IHs];
        [apply safe_ret; exact I|].
      eapply safe_then; [apply safe_assign; assumption|]. intros _.
      exact IHs. }
    destruct (NestedState.copy st) as [cp|] eqn:E.
    + eapply (safe_bind _ _ _ (fun r => (d <= r)%positive));
        [apply safe_ret; auto|exact S].
    + assert (N : safe d
                (result <~
                   (b <~ read (NestedState.base st) ;;
                    match shallow_copy b with
                    | Some cc => new cc
                    | None => not_modelled
                    end) ;;
                 (fix splice (cs : list (jsval * jsval)) : M unit :=
                    match cs with
                    | [] => ret_ tt
                    | (key, finalChild) :: rest =>
                        assign result key finalChild ;;; splice rest
                    end) modifiedChildren ;;; ret_ (VObject result))
                (fun _ => True)).
      { eapply (safe_bind _ _ _ (fun r => (d <= r)%positive)); [|exact S].
        safe_step. destruct (shallow_copy a) eqn:Sc;
          [|apply safe_not_modelled].
        apply safe_new. apply (shallow_copy_ok _ _ _ Sc). }
      destruct modifiedChildren; [apply safe_ret; exact I|exact N].
Qed.

Lemma safe_extract (proxy : jsval) :
  val_ok d proxy -> safe d (extract proxy) (fun _ => True).
Proof.
  intros V w O. apply (safe_extractNestedValue _ proxy V w O).
Qed.

Lemma safe_observablyModified (proxy : jsval) :
  safe d (observablyModified proxy) (fun _ => True).
Proof.
  intros w O. unfold observablyModified.
  destruct (isProxyModified _ w proxy); [|exact I].
  split; [assumption|]. split; [apply keeps_refl|exact I].
Qed.

End SafeFinal.

#[global] Hint Resolve safe_assign safe_extract safe_observablyModified
  safe_run safe_readMapState safe_readSetState safe_lift_eq : safedb.

Section SafeProduce.

Variable d : ref.

Lemma safe_newOwner : safe d newOwner (fun r => (d <= r)%positive).
Proof. apply safe_new. exact I. Qed.

Lemma safe_hamtFromMap (entries : list (jsval * jsval)) :
  safe d (hamtFromMap entries) (fun _ => True).
Proof.
  unfold hamtFromMap. eapply safe_then; [apply safe_newOwner|].
  intros owner. apply safe_lift.
Qed.

Lemma safe_hamtFromSet (elems : list jsval) :
  safe d (hamtFromSet elems) (fun _ => True).
Proof.
  unfold hamtFromSet. eapply safe_then; [apply safe_newOwner|].
  intros owner. apply safe_lift.
Qed.

Lemma safe_cacheProxy (obj proxy : ref) :
  safe d (cacheProxy obj proxy) (fun _ => True).
Proof.
  intros w O. unfold cacheProxy. split; [exact O|].
  split; [|exact I]. split; [simpl; lia|reflexivity].
Qed.

Lemma safe_cachedProxy (obj : ref) :
  safe d (cachedProxy obj) (fun _ => True).
Proof.
  intros w O. unfold cachedProxy. split; [exact O|].
  split; [apply keeps_refl|exact I].
Qed.

Hint Resolve safe_newOwner safe_hamtFromMap safe_hamtFromSet safe_cacheProxy
  safe_cachedProxy : safedb.

Ltac safe_produce :=
  repeat (safe_call; try assumption; try exact I;
          try (simpl; repeat split; auto; discriminate)).

Lemma safe_pura (value : jsval) : safe d (pura value) (fun _ => True).
Proof. unfold pura. safe_produce. Qed.

Lemma safe_openArrayDraft (base : cell) :
  safe d (openArrayDraft base) (fun r => (d <= r)%positive).
Proof.
  unfold openArrayDraft.
  destruct (match base with
            | ArrayProxy baseState => Some (ArrayState.vec baseState)
            | NativeArray elems => Some (vecFromArray elems)
            | _ => None
            end); [|apply safe_not_modelled].
  eapply safe_then; [apply safe_newOwner|]. intros draftOwner.
  apply safe_new. simpl. constructor.
Qed.

Lemma safe_finalizeArray (draft : ref) (proxies : list (nat * jsval)) :
  (d <= draft)%positive ->
  Forall (fun ip => val_ok d (snd ip)) proxies ->
  safe d (finalizeArray draft proxies) (fun _ => True).
Proof.
  intros L F. induction F as [|[idx nestedProxy] rest V _ IH]; simpl.
  - apply safe_ret. exact I.
  - eapply safe_then; [apply safe_extract; exact V|]. intros finalValue.
    safe_step. specialize (H L).
    destruct a; try apply safe_not_modelled.
    eapply (safe_then _ _ _ (fun _ => True)); [|intros _; exact IH].
    destruct (negb _); [|apply safe_ret; exact I].
    safe_step. apply safe_write; assumption.
Qed.

Lemma safe_closeArrayDraft (base : jsval) (draft : ref) :
  (d <= draft)%positive ->
  safe d (closeArrayDraft base draft) (fun _ => True).
Proof.
  intros L. unfold closeArrayDraft. safe_step. specialize (H L).
  destruct a; try apply safe_not_modelled.
  eapply safe_then.
  - apply safe_finalizeArray; [assumption|]. simpl in H.
    destruct (ArrayState.proxies st); [assumption|constructor].
  - intros _. safe_produce.
Qed.

Lemma safe_produceArray (base : jsval) (baseCell : cell)
    (recipe : jsval -> prog) :
  safe d (produceArray base baseCell recipe) (fun _ => True).
Proof.
  unfold produceArray.
  eapply safe_bind; [apply safe_openArrayDraft|]. intros draft L.
  eapply safe_then; [apply safe_run; assumption|]. intros _.
  apply safe_closeArrayDraft. assumption.
Qed.

Lemma safe_openMapDraft (base : cell) :
  safe d (openMapDraft base) (fun r => (d <= r)%positive).
Proof.
  unfold openMapDraft. eapply (safe_then _ _ _ (fun _ => True)).
  - destruct base; try apply safe_not_modelled.
    + eapply safe_then; [apply safe_hamtFromMap|]. intros baseMap.
      apply safe_ret. exact I.
    + apply safe_ret. exact I.
  - intros baseParts. eapply safe_then; [apply safe_newOwner|].
    intros draftOwner. apply safe_new. simpl. constructor.
Qed.

Lemma safe_finalizeMap (draft : ref) (proxies : list (jsval * jsval)) :
  (d <= draft)%positive ->
  Forall (fun kp => val_ok d (snd kp)) proxies ->
  safe d (finalizeMap draft proxies) (fun _ => True).
Proof.
  intros L F. induction F as [|[key nestedProxy] rest V _ IH]; simpl.
  - apply safe_ret. exact I.
  - eapply safe_then; [apply safe_extract; exact V|]. intros finalVal.
    eapply safe_bind; [apply safe_readMapState|]. intros st C.
    specialize (C L).
    eapply (safe_then _ _ _ (fun _ => True)); [|intros _; exact IH].
    destruct (negb _); [|apply safe_ret; exact I].
    safe_step. apply safe_setMapState; assumption.
Qed.

Lemma safe_closeMapDraft (base : jsval) (draft : ref) :
  (d <= draft)%positive ->
  safe d (closeMapDraft base draft) (fun _ => True).
Proof.
  intros L. unfold closeMapDraft.
  eapply safe_bind; [apply safe_readMapState|]. intros st C.
  specialize (C L). eapply safe_then.
  - apply safe_finalizeMap; [assumption|]. simpl in C.
    destruct (MapState.valueProxies st); [assumption|constructor].
  - intros _. eapply safe_then; [apply safe_readMapState|].
    intros draftState. safe_produce.
Qed.

Lemma safe_produceMap (base : jsval) (baseCell : cell)
    (recipe : jsval -> prog) :
  safe d (produceMap base baseCell recipe) (fun _ => True).
Proof.
  unfold produceMap.
  eapply safe_bind; [apply safe_openMapDraft|]. intros draft L.
  eapply safe_then; [apply safe_run; assumption|]. intros _.
  apply safe_closeMapDraft. assumption.
Qed.

Lemma safe_openSetDraft (base : cell) :
  safe d (openSetDraft base) (fun r => (d <= r)%positive).
Proof.
  unfold openSetDraft. eapply (safe_then _ _ _ (fun _ => True)).
  - destruct base; try apply safe_not_modelled.
    + eapply safe_then; [apply safe_hamtFromSet|]. intros baseMap.
      apply safe_ret. exact I.
    + apply safe_ret. exact I.
  - intros baseParts. eapply safe_then; [apply safe_newOwner|].
    intros draftOwner. apply safe_new. exact I.
Qed.

Lemma safe_closeSetDraft (base : jsval) (draft : ref) :
  safe d (closeSetDraft base draft) (fun _ => True).
Proof.
  unfold closeSetDraft. eapply safe_then; [apply safe_readSetState|].
  intros draftState. safe_produce.
Qed.

Lemma safe_produceSet (base : jsval) (baseCell : cell)
    (recipe : jsval -> prog) :
  safe d (produceSet base baseCell recipe) (fun _ => True).
Proof.
  unfold produceSet.
  eapply safe_bind; [apply safe_openSetDraft|]. intros draft L.
  eapply safe_then; [apply safe_run; assumption|]. intros _.
  apply safe_closeSetDraft.
Qed.

Lemma safe_openObjectDraft (base : ref) (baseCell : cell) :
  safe d (openObjectDraft base baseCell) (fun r => (d <= r)%positive).
Proof.
  unfold openObjectDraft. apply safe_new. simpl.
  repeat split; [discriminate|constructor].
Qed.

Lemma safe_closeObjectDraft (base : jsval) (draft : ref) :
  (d <= draft)%positive ->
  safe d (closeObjectDraft base draft) (fun _ => True).
Proof.
  intros L. unfold closeObjectDraft.
  eapply safe_then; [apply safe_observablyModified|]. intros isModified.
  destruct (negb isModified); [apply safe_ret; exact I|].
  eapply safe_then; [apply safe_extract; exact L|]. intros result.
  apply safe_pura.
Qed.

Lemma safe_produceObject (base : ref) (baseCell : cell)
    (recipe : jsval -> prog) :
  safe d (produceObject base baseCell recipe) (fun _ => True).
Proof.
  unfold produceObject.
  eapply safe_bind; [apply safe_openObjectDraft|]. intros draft L.
  eapply safe_then; [apply safe_run; assumption|]. intros _.
  apply safe_closeObjectDraft. assumption.
Qed.

Lemma safe_produce (base : jsval) (recipe : jsval -> prog) :
  safe d (produce base recipe) (fun _ => True).
Proof.
  assert (N : forall v, safe d (fun w => (run (next_ref w) (recipe v) ;;;
                                           ret_ v) w) (fun _ => True)).
  { intros v w O.
    assert (S0 : safe d (run (next_ref w) (recipe v) ;;; ret_ v)
                   (fun _ => True)).
    { eapply safe_then; [apply safe_run; apply O|]. intros _.
      apply safe_ret. exact I. }
    exact (S0 w O). }
  unfold produce. destruct base; try apply N.
  safe_step.
  destruct a; try apply safe_not_modelled;
    try apply safe_produceArray; try apply safe_produceMap;
    try apply safe_produceSet; try apply safe_produceObject.
  safe_step. destruct a; try apply safe_not_modelled;
    apply safe_produceObject.
Qed.

End SafeProduce.

(** Nothing of a heap is at or after its next reference. *)
Lemma owned_next_ref (w : World) : owned (next_ref w) w.
Proof.
  split; [lia|]. intros r c L H. apply lookup_valid in H. lia.
Qed.

(** X20: A recipe is run as the reads, assignments, deletions and method
    calls it makes on the draft and on the proxies created since the draft
    was opened; an operation on an object that was there before the call
    (an element that [draft.values()] hands out as it is stored, say), the
    call of a function read from a nested proxy, and an operation without a
    model end the run without a result.  When [produce] returns for such a
    run, every plain object and every native array, Map and Set that existed
    before the call is what it was: the proxies write to copies, and so does
    the finalisation. *)
Theorem produce_keeps_native_objects (base : jsval) (recipe : jsval -> prog)
    (w w' : World) (v : jsval) :
  produce base recipe w = Returns w' v ->
  forall r c, lookup w r = Some c -> is_native c = true ->
    lookup w' r = Some c.
Proof.
  intros H r c Hr _.
  pose proof (safe_produce (next_ref w) base recipe w (owned_next_ref w)) as S.
  rewrite H in S. destruct S as (_ & (_ & K) & _).
  rewrite K; [assumption|]. apply lookup_valid in Hr. assumption.
Qed.

Lemma produce_keeps_native_objects_witness :
  exists w',
    produce (VObject 2) (recipe_nested Done) world_nested
      = Returns w' (VObject 7) /\
    lookup w' 7%positive
      = Some (ArrayProxy (ArrayState.make [VObject 6] false None false None)) /\
    lookup w' 6%positive = Some (Plain [(str "a"%string, num 2)]) /\
    lookup w' 1%positive = Some (Plain [(str "a"%string, num 1)]) /\
    lookup w' 2%positive = Some (NativeArray [VObject 1]).
Proof.
  eexists. split; [vm_compute; reflexivity|].
  split; [vm_compute; reflexivity|]. split; [vm_compute; reflexivity|].
  split;
    eapply (produce_keeps_native_objects (VObject 2) (recipe_nested Done)
              world_nested); vm_compute; reflexivity.
Defined.

(** X21: When [produce] throws in such a run, be it the recipe's own error or
    one of an operation on the draft, every plain object and every native
    array, Map and Set that existed before the call is what it was: the
    changes made up to the error went to the draft and to copies only. *)
Theorem produce_throws_keeps_native_objects (base : jsval)
    (recipe : jsval -> prog) (w w' : World) (e : exn) :
  produce base recipe w = Raises w' e ->
  forall r c, lookup w r = Some c -> is_native c = true ->
    lookup w' r = Some c.
Proof.
  intros H r c Hr _.
  pose proof (safe_produce (next_ref w) base recipe w (owned_next_ref w)) as S.
  rewrite H in S. destruct S as (_ & _ & K).
  rewrite K; [assumption|]. apply lookup_valid in Hr. assumption.
Qed.

Lemma produce_throws_keeps_native_objects_witness :
  exists w',
    produce (VObject 2) (recipe_nested (Raise (str "stop"%string)))
      world_nested = Raises w' (Thrown (str "stop"%string)) /\
    lookup w' 1%positive = Some (Plain [(str "a"%string, num 1)]) /\
    lookup w' 2%positive = Some (NativeArray [VObject 1]).
Proof.
  eexists. split; [vm_compute; reflexivity|].
  split;
    eapply (produce_throws_keeps_native_objects (VObject 2)
              (recipe_nested (Raise (str "stop"%string))) world_nested);
    vm_compute; reflexivity.
Defined.

(** ** [pura] and [unpura] of Maps and Sets *)

Lemma jsmap_get_absent {V : Type} (es : list (jsval * V)) (k : jsval) :
  (forall k', In k' (List.map fst es) -> keyEquals k' k = false) ->
  jsmap_get keyEquals es k = None.
Proof.
  induction es as [|[k' v] es IH]; intros H; simpl; [reflexivity|].
  rewrite (H k' (or_introl eq_refl)). apply IH.
  intros k'' I. apply H. right. assumption.
Qed.

Lemma jsmap_set_absent {V : Type} (es : list (jsval * V)) (k : jsval) (v : V) :
  (forall k', In k' (List.map fst es) -> keyEquals k' k = false) ->
  jsmap_set keyEquals es k v = es ++ [(k, v)].
Proof.
  induction es as [|[k' v'] es IH]; intros H; simpl; [reflexivity|].
  rewrite (H k' (or_introl eq_refl)). f_equal. apply IH.
  intros k'' I. apply H. right. assumption.
Qed.

(** A list of entries with distinct keys is the Map that [new Map] makes
    of it. *)
Lemma native_map_of_distinct (es : list (jsval * jsval)) :
  distinct (List.map fst es) -> native_map_of es = es.
Proof.
  unfold native_map_of.
  assert (G : forall acc,
            distinct (List.map fst (acc ++ es)) ->
            fold_left (fun m kv => jsmap_set keyEquals m (fst kv) (snd kv))
              es acc = acc ++ es).
  { induction es as [|[k v] es IH]; intros acc D; simpl.
    - rewrite app_nil_r. reflexivity.
    - rewrite jsmap_set_absent.
      + rewrite IH; rewrite <- app_assoc; [reflexivity|exact D].
      + rewrite map_app in D. apply distinct_app in D.
        destruct D as (_ & _ & D). intros k' I. apply D; simpl; auto. }
  intros D. apply (G [] D).
Qed.

Lemma jsset_has_absent (vs : list jsval) (v : jsval) :
  (forall v', In v' vs -> keyEquals v' v = false) -> jsset_has vs v = false.
Proof.
  induction vs as [|x vs IH]; intros H; simpl; [reflexivity|].
  rewrite (H x (or_introl eq_refl)). apply IH.
  intros v' I. apply H. right. assumption.
Qed.

Lemma native_set_of_distinct (vs : list jsval) :
  distinct vs -> native_set_of vs = vs.
Proof.
  unfold native_set_of.
  assert (G : forall acc, distinct (acc ++ vs) ->
                          fold_left jsset_add vs acc = acc ++ vs).
  { induction vs as [|v vs IH]; intros acc D; simpl.
    - rewrite app_nil_r. reflexivity.
    - unfold jsset_add at 2. rewrite jsset_has_absent.
      + rewrite IH; rewrite <- app_assoc; [reflexivity|exact D].
      + apply distinct_app in D. destruct D as (_ & _ & D).
        intros v' I. apply D; simpl; auto. }
  intros D. apply (G [] D).
Qed.

(** The loop of [hamtFromMap] over entries with distinct keys, none of them
    in the map it starts from. *)
Lemma hamtFromMap_loop_spec (owner : Owner) (es : list (jsval * jsval)) :
  forall m,
  reachable strictEquals m ->
  distinct (List.map fst es) ->
  (forall k, In k (List.map fst es) -> hamtHas m k = false) ->
  exists m',
    hamtFromMap_loop owner es m = Ok m' /\
    reachable strictEquals m' /\
    (forall k, hamtGet m' k =
               match jsmap_get keyEquals es k with
               | Some v => Some v
               | None => hamtGet m k
               end) /\
    size m' = size m + Z.of_nat (length es).
Proof.
  induction es as [|[k v] es IH]; intros m R D A.
  - exists m. simpl. repeat split; auto. lia.
  - pose proof (reachable_wf strictEquals m R) as W.
    destruct (hamtSet_spec strictEquals owner k v m W)
      as (r & Hr & W1 & It & Gs & Go & Sz).
    assert (Ak : hamtHas m k = false) by (apply A; simpl; auto).
    assert (Fr : is_itself r = false).
    { destruct (is_itself r) eqn:E; [|reflexivity].
      destruct (proj1 It eq_refl) as (w0 & G0 & _).
      rewrite hamtHas_get, G0 in Ak by assumption. discriminate. }
    destruct D as [Dk D].
    destruct (IH (ret_val m r)) as (m' & Hl & R' & G' & S').
    + apply (reach_set strictEquals m owner k v r R Hr).
    + exact D.
    + intros k' I. rewrite hamtHas_get by assumption.
      rewrite (Go k' (Dk k' I)). rewrite <- hamtHas_get by assumption.
      apply A. simpl. auto.
    + exists m'. cbn [hamtFromMap_loop]. rewrite Hr. cbn [returned bind].
      split; [exact Hl|]. split; [exact R'|]. split.
      * intros k0. rewrite G'. cbn [jsmap_get].
        destruct (keyEquals k k0) eqn:E.
        -- rewrite jsmap_get_absent; [apply Gs; auto|].
           intros k' I. rewrite <- (keyEquals_congr k' k k0 E).
           rewrite keyEquals_sym. apply Dk. assumption.
        -- rewrite (Go k0 E). reflexivity.
      * rewrite S', Sz, Ak. cbn [length]. lia.
Qed.

Lemma hamtHas_hamtEmpty (k : jsval) : hamtHas (@hamtEmpty jsval) k = false.
Proof. reflexivity. Qed.

(** [hamtFromMap] of a native Map: every key reads as in the Map, and the
    size is the number of entries. *)
Lemma hamtFromMap_spec (es : list (jsval * jsval)) (w : World) :
  distinct (List.map fst es) ->
  exists m,
    hamtFromMap es w = Returns (fst (alloc w (Plain []))) m /\
    reachable strictEquals m /\
    (forall k, hamtGet m k = jsmap_get keyEquals es k) /\
    size m = Z.of_nat (length es).
Proof.
  intros D.
  destruct (hamtFromMap_loop_spec (Some (next_ref w)) es hamtEmpty
              (reach_empty _) D (fun k _ => hamtHas_hamtEmpty k))
    as (m & Hl & R & G & S).
  exists m. split; [|split; [exact R|split]].
  - unfold hamtFromMap, newOwner, bindM, new, lift. simpl. rewrite Hl.
    reflexivity.
  - intros k. rewrite G. destruct (jsmap_get keyEquals es k); reflexivity.
  - rewrite S. reflexivity.
Qed.

Lemma readMapState_at (w : World) (p : ref) (st : MapState.t) :
  lookup w p = Some (MapProxy st) -> readMapState p w = Returns w st.
Proof. intros H. unfold readMapState, bindM, read. rewrite H. reflexivity. Qed.

Lemma readSetState_at (w : World) (p : ref) (st : SetState.t) :
  lookup w p = Some (SetProxy st) -> readSetState p w = Returns w st.
Proof. intros H. unfold readSetState, bindM, read. rewrite H. reflexivity. Qed.

Lemma wrapEntries_wrapper (w : World) (p : ref) (st : MapState.t)
    (es : list (jsval * jsval)) :
  lookup w p = Some (MapProxy st) -> MapState.isDraft st = false ->
  wrapEntries p es w = Returns w es.
Proof.
  intros H D. induction es as [|[k v] es IH]; [reflexivity|].
  cbn [wrapEntries]. unfold bindM at 1. unfold wrapValue, bindM at 1.
  rewrite (readMapState_at w p st H), D. cbn [negb ret_].
  unfold bindM. rewrite IH. reflexivity.
Qed.

(** What a Map wrapper (no draft) reads: the trie, and the order index if
    it has one. *)
Lemma map_wrapper_reads (w : World) (p : ref) (st : MapState.t) :
  lookup w p = Some (MapProxy st) -> MapState.isDraft st = false ->
  (forall k, perform (Call (VObject p) m_get [k]) w =
             Returns w (Value (undefined_or (hamtGet (MapState.map st) k)))) /\
  (forall k, perform (Call (VObject p) m_has [k]) w =
             Returns w (Value (VBool (hamtHas (MapState.map st) k)))) /\
  perform (Get (VObject p) (str "size"%string)) w =
    Returns w (Value (num (size (MapState.map st)))) /\
  perform (Call (VObject p) m_keys []) w = Returns w (Values (iterKeys st)) /\
  (forall es, rawEntries st = Some es ->
     perform (Call (VObject p) m_entries []) w = Returns w (Entries es) /\
     perform (Call (VObject p) m_values []) w =
       Returns w (Values (List.map snd es))).
Proof.
  intros H D.
  assert (P : forall m args,
            perform (Call (VObject p) m args) w = mapCall p m args w).
  { intros m args. unfold perform, bindM, read. rewrite H. reflexivity. }
  split; [|split; [|split; [|split]]].
  - intros k. rewrite P. unfold mapCall, bindM, mapGet, bindM.
    rewrite (readMapState_at w p st H), D. reflexivity.
  - intros k. rewrite P. unfold mapCall, bindM.
    rewrite (readMapState_at w p st H). reflexivity.
  - unfold perform, bindM, read. rewrite H. reflexivity.
  - rewrite P. unfold mapCall, bindM.
    rewrite (readMapState_at w p st H). reflexivity.
  - intros es E. rewrite !P. unfold mapCall, bindM, mapEntries, bindM.
    rewrite (readMapState_at w p st H), E.
    rewrite (wrapEntries_wrapper w p st es H D). auto.
Qed.

Lemma set_wrapper_reads (w : World) (p : ref) (st : SetState.t) :
  lookup w p = Some (SetProxy st) ->
  (forall v, perform (Call (VObject p) m_has [v]) w =
             Returns w (Value (VBool (hamtHas (SetState.map st) v)))) /\
  perform (Get (VObject p) (str "size"%string)) w =
    Returns w (Value (num (size (SetState.map st)))) /\
  perform (Call (VObject p) m_values []) w = Returns w (Values (iterValues st)).
Proof.
  intros H.
  assert (P : forall m args,
            perform (Call (VObject p) m args) w = setCall p m args w).
  { intros m args. unfold perform, bindM, read. rewrite H. reflexivity. }
  split; [|split].
  - intros v. rewrite P. unfold setCall, bindM.
    rewrite (readSetState_at w p st H). reflexivity.
  - unfold perform, bindM, read. rewrite H. reflexivity.
  - rewrite P. unfold setCall, bindM.
    rewrite (readSetState_at w p st H). reflexivity.
Qed.

Lemma liveEntries_Live (es : list (jsval * jsval)) :
  liveEntries (List.map (fun e => (fst e, Live (snd e))) es) = Some es.
Proof.
  induction es as [|[k v] es IH]; simpl; [reflexivity|].
  simpl in IH. rewrite IH. reflexivity.
Qed.

Lemma lookup_alloc2_old (w : World) (c1 c2 : cell) (r : ref) (c : cell) :
  lookup w r = Some c ->
  lookup (fst (alloc (fst (alloc w c1)) c2)) r = Some c.
Proof.
  intros H. rewrite lookup_alloc_old; [rewrite lookup_alloc_old|]; auto.
  - apply lookup_valid in H. assumption.
  - apply lookup_valid in H. unfold next_ref, alloc in *. simpl.
    rewrite length_app. simpl. lia.
Qed.

Lemma distinct_entries_b_a : distinct (List.map fst entries_b_a).
Proof. apply distinctb_distinct. reflexivity. Qed.

Lemma distinct_b_a : distinct [str "b"%string; str "a"%string].
Proof. apply distinctb_distinct. reflexivity. Qed.

(** X22: [pura] of a native Map makes a new wrapper that reads as the Map
    does: [get] gives the Map's value for every key ([undefined] for a key
    the Map does not hold), [has] tells the Map's keys, and [size] is the
    number of the Map's entries.  The Map itself is left as it was. *)
Theorem pura_map_reads (w : World) (r : ref) (es : list (jsval * jsval)) :
  lookup w r = Some (NativeMap es) -> distinct (List.map fst es) ->
  exists w' p,
    pura (VObject r) w = Returns w' (VObject p) /\
    lookup w p = None /\
    lookup w' r = Some (NativeMap es) /\
    (forall k, perform (Call (VObject p) m_get [k]) w' =
               Returns w' (Value (undefined_or (jsmap_get keyEquals es k)))) /\
    (forall k, perform (Call (VObject p) m_has [k]) w' =
               Returns w' (Value (VBool (jsmap_has keyEquals es k)))) /\
    perform (Get (VObject p) (str "size"%string)) w' =
      Returns w' (Value (num (Z.of_nat (length es)))).
Proof.
  intros H D.
  destruct (hamtFromMap_spec es w D) as (m & Hm & R & G & S).
  set (w1 := fst (alloc w (Plain []))) in *.
  set (st := MapState.make m false None false None None).
  exists (fst (alloc w1 (MapProxy st))), (next_ref w1).
  assert (L : lookup (fst (alloc w1 (MapProxy st))) (next_ref w1)
              = Some (MapProxy st)) by apply lookup_alloc_new.
  destruct (map_wrapper_reads _ _ st L eq_refl) as (Rg & Rh & Rs & _).
  split; [|split; [|split; [|split; [|split]]]].
  - unfold pura, bindM, read. rewrite H, Hm. reflexivity.
  - destruct (lookup w (next_ref w1)) eqn:E; [|reflexivity].
    apply lookup_valid in E. unfold w1, next_ref, alloc in E. simpl in E.
    rewrite length_app in E. simpl in E. lia.
  - apply lookup_alloc2_old. assumption.
  - intros k. rewrite Rg. simpl. rewrite G. reflexivity.
  - intros k. rewrite Rh. simpl.
    rewrite hamtHas_get by (apply (reachable_wf strictEquals), R).
    rewrite G. reflexivity.
  - rewrite Rs. simpl. rewrite S. reflexivity.
Qed.

Lemma pura_map_reads_witness :
  lookup world_map_b_a 1%positive = Some (NativeMap entries_b_a) /\
  distinct (List.map fst entries_b_a) /\
  exists w' p,
    pura (VObject 1) world_map_b_a = Returns w' (VObject p) /\
    lookup world_map_b_a p = None /\
    lookup w' 1%positive = Some (NativeMap entries_b_a) /\
    (forall k, perform (Call (VObject p) m_get [k]) w' =
               Returns w'
                 (Value (undefined_or (jsmap_get keyEquals entries_b_a k)))) /\
    (forall k, perform (Call (VObject p) m_has [k]) w' =
               Returns w' (Value (VBool (jsmap_has keyEquals entries_b_a k)))) /\
    perform (Get (VObject p) (str "size"%string)) w' =
      Returns w' (Value (num (Z.of_nat (length entries_b_a)))).
Proof.
  split; [reflexivity|]. split; [exact distinct_entries_b_a|].
  apply (pura_map_reads world_map_b_a 1%positive entries_b_a);
    [reflexivity|exact distinct_entries_b_a].
Defined.

Lemma jsmap_get_Some {V : Type} (es : list (jsval * V)) (k : jsval) (v : V) :
  jsmap_get keyEquals es k = Some v ->
  exists k', In (k', v) es /\ keyEquals k' k = true.
Proof.
  induction es as [|[k' v'] es IH]; simpl; [discriminate|].
  destruct (keyEquals k' k) eqn:E.
  - intros [= <-]. exists k'. auto.
  - intros H. destruct (IH H) as (k0 & I & Q). exists k0. auto.
Qed.

Lemma jsmap_get_None {V : Type} (es : list (jsval * V)) (k : jsval) :
  jsmap_get keyEquals es k = None ->
  forall k' v, In (k', v) es -> keyEquals k' k = false.
Proof.
  induction es as [|[k0 v0] es IH]; simpl; [contradiction|].
  destruct (keyEquals k0 k) eqn:E; [discriminate|].
  intros H k' v [[= <- <-]|I]; [assumption|]. apply (IH H k' v I).
Qed.

(** The entries of a trie read, as a native Map, what the trie reads. *)
Lemma jsmap_get_hamtToEntries (m : HMap jsval) (k : jsval) :
  wf_map m -> jsmap_get keyEquals (hamtToEntries m) k = hamtGet m k.
Proof.
  intros W. destruct (entries_spec m W) as (A & B & _).
  destruct (jsmap_get keyEquals (hamtToEntries m) k) as [v|] eqn:E.
  - destruct (jsmap_get_Some _ _ _ E) as (k' & I & Q).
    rewrite <- (hamtGet_congr m k' k W Q). symmetry. apply A. assumption.
  - destruct (hamtGet m k) as [v|] eqn:G; [|reflexivity].
    destruct (B _ _ G) as (k0 & I & Q).
    rewrite (jsmap_get_None _ _ E k0 v I) in Q. discriminate.
Qed.

Lemma lookup_fresh (w : World) : lookup w (next_ref w) = None.
Proof.
  destruct (lookup w (next_ref w)) eqn:E; [|reflexivity].
  apply lookup_valid in E. lia.
Qed.

(** X23: [unpura(pura(m))] of a native Map [m] is a new native Map with as
    many entries as [m], no key twice, in which every key reads as in [m]
    (the order of its entries is that of the trie and need not be the order
    of [m]). *)
Theorem unpura_pura_map (w : World) (r : ref) (es : list (jsval * jsval)) :
  lookup w r = Some (NativeMap es) -> distinct (List.map fst es) ->
  exists w1 p w2 q es',
    pura (VObject r) w = Returns w1 (VObject p) /\
    unpura (VObject p) w1 = Returns w2 (VObject q) /\
    lookup w1 q = None /\
    lookup w2 q = Some (NativeMap es') /\
    distinct (List.map fst es') /\
    length es' = length es /\
    forall k, jsmap_get keyEquals es' k = jsmap_get keyEquals es k.
Proof.
  intros H D.
  destruct (hamtFromMap_spec es w D) as (m & Hm & R & G & S).
  pose proof (reachable_wf strictEquals m R) as W.
  destruct (entries_spec m W) as (_ & _ & De).
  set (w0 := fst (alloc w (Plain []))) in *.
  set (st := MapState.make m false None false None None).
  set (w1 := fst (alloc w0 (MapProxy st))).
  exists w1, (next_ref w0), (fst (alloc w1 (NativeMap (hamtToEntries m)))),
         (next_ref w1), (hamtToEntries m).
  split; [|split; [|split; [|split; [|split; [|split]]]]].
  - unfold pura, bindM, read. rewrite H, Hm. reflexivity.
  - unfold unpura, bindM, read. unfold w1 at 1. rewrite lookup_alloc_new.
    cbn [MapState.ordered st MapState.map]. unfold new.
    rewrite (native_map_of_distinct _ De). reflexivity.
  - apply lookup_fresh.
  - apply lookup_alloc_new.
  - exact De.
  - apply Nat2Z.inj. rewrite (size_counts strictEquals m R). assumption.
  - intros k. rewrite jsmap_get_hamtToEntries by assumption. apply G.
Qed.

Lemma unpura_pura_map_witness :
  lookup world_map_b_a 1%positive = Some (NativeMap entries_b_a) /\
  distinct (List.map fst entries_b_a) /\
  exists w1 p w2 q es',
    pura (VObject 1) world_map_b_a = Returns w1 (VObject p) /\
    unpura (VObject p) w1 = Returns w2 (VObject q) /\
    lookup w1 q = None /\
    lookup w2 q = Some (NativeMap es') /\
    distinct (List.map fst es') /\
    length es' = length entries_b_a /\
    forall k, jsmap_get keyEquals es' k = jsmap_get keyEquals entries_b_a k.
Proof.
  split; [reflexivity|]. split; [exact distinct_entries_b_a|].
  apply (unpura_pura_map world_map_b_a 1%positive entries_b_a);
    [reflexivity|exact distinct_entries_b_a].
Defined.

Lemma jsmap_get_members (vs : list jsval) (x k : jsval) :
  jsmap_get keyEquals (List.map (fun v => (v, x)) vs) k =
  if jsset_has vs k then Some x else None.
Proof.
  induction vs as [|v vs IH]; simpl; [reflexivity|].
  destruct (keyEquals v k); [reflexivity|exact IH].
Qed.

Lemma map_fst_members (vs : list jsval) (x : jsval) :
  List.map fst (List.map (fun v => (v, x)) vs) = vs.
Proof. induction vs as [|v vs IH]; simpl; congruence. Qed.

(** [hamtFromSet] of a native Set: the trie holds exactly its values. *)
Lemma hamtFromSet_spec (vs : list jsval) (w : World) :
  distinct vs ->
  exists m,
    hamtFromSet vs w = Returns (fst (alloc w (Plain []))) m /\
    reachable strictEquals m /\
    (forall v, hamtHas m v = jsset_has vs v) /\
    size m = Z.of_nat (length vs).
Proof.
  intros D.
  assert (D' : distinct (List.map fst
                           (List.map (fun v => (v, VBool true)) vs)))
    by (rewrite map_fst_members; exact D).
  destruct (hamtFromMap_loop_spec (Some (next_ref w))
              (List.map (fun v => (v, VBool true)) vs) hamtEmpty
              (reach_empty _) D' (fun k _ => hamtHas_hamtEmpty k))
    as (m & Hl & R & G & S).
  exists m. split; [|split; [exact R|split]].
  - unfold hamtFromSet, newOwner, bindM, new, lift. simpl. rewrite Hl.
    reflexivity.
  - intros v. rewrite hamtHas_get by (apply (reachable_wf strictEquals), R).
    rewrite G, jsmap_get_members. destruct (jsset_has vs v); reflexivity.
  - rewrite S, length_map. reflexivity.
Qed.

Lemma jsset_has_In (vs : list jsval) (v : jsval) :
  jsset_has vs v = true <-> exists x, In x vs /\ keyEquals x v = true.
Proof.
  unfold jsset_has. rewrite existsb_exists. reflexivity.
Qed.

(** The keys of a trie are, as a Set, what the trie holds. *)
Lemma jsset_has_hamtToSetValues (m : HMap jsval) (v : jsval) :
  wf_map m -> jsset_has (hamtToSetValues m) v = hamtHas m v.
Proof.
  intros W. rewrite hamtHas_get by assumption.
  rewrite <- jsmap_get_hamtToEntries by assumption.
  unfold hamtToSetValues.
  induction (hamtToEntries m) as [|[k x] es IH]; simpl; [reflexivity|].
  destruct (keyEquals k v); [reflexivity|exact IH].
Qed.

(** X24: [pura] of a native Set makes a new wrapper whose [has] tells the
    values of the Set and whose [size] is their number; [unpura] of that
    wrapper is a new native Set with as many values, none twice, that holds
    the same values. *)
Theorem pura_set_round_trip (w : World) (r : ref) (vs : list jsval) :
  lookup w r = Some (NativeSet vs) -> distinct vs ->
  exists w1 p w2 q vs',
    pura (VObject r) w = Returns w1 (VObject p) /\
    lookup w p = None /\
    (forall v, perform (Call (VObject p) m_has [v]) w1 =
               Returns w1 (Value (VBool (jsset_has vs v)))) /\
    perform (Get (VObject p) (str "size"%string)) w1 =
      Returns w1 (Value (num (Z.of_nat (length vs)))) /\
    unpura (VObject p) w1 = Returns w2 (VObject q) /\
    lookup w1 q = None /\
    lookup w2 q = Some (NativeSet vs') /\
    distinct vs' /\ length vs' = length vs /\
    forall v, jsset_has vs' v = jsset_has vs v.
Proof.
  intros H D.
  destruct (hamtFromSet_spec vs w D) as (m & Hm & R & G & S).
  pose proof (reachable_wf strictEquals m R) as W.
  destruct (entries_spec m W) as (_ & _ & De).
  set (w0 := fst (alloc w (Plain []))) in *.
  set (st := SetState.make m false None false None).
  set (w1 := fst (alloc w0 (SetProxy st))).
  assert (L : lookup w1 (next_ref w0) = Some (SetProxy st))
    by apply lookup_alloc_new.
  destruct (set_wrapper_reads _ _ st L) as (Rh & Rs & _).
  exists w1, (next_ref w0), (fst (alloc w1 (NativeSet (hamtToSetValues m)))),
         (next_ref w1), (hamtToSetValues m).
  split; [|split; [|split; [|split; [|split; [|split; [|split;
    [|split; [|split]]]]]]]].
  - unfold pura, bindM, read. rewrite H, Hm. reflexivity.
  - destruct (lookup w (next_ref w0)) eqn:E; [|reflexivity].
    apply lookup_valid in E. unfold w0, next_ref, alloc in E. simpl in E.
    rewrite length_app in E. simpl in E. lia.
  - intros v. rewrite Rh. simpl. rewrite G. reflexivity.
  - rewrite Rs. simpl. rewrite S. reflexivity.
  - unfold unpura, bindM, read. rewrite L.
    unfold st. cbn [SetState.ordered SetState.map]. unfold new.
    rewrite (native_set_of_distinct (hamtToSetValues m) De). reflexivity.
  - apply lookup_fresh.
  - apply lookup_alloc_new.
  - exact De.
  - unfold hamtToSetValues. rewrite length_map. apply Nat2Z.inj.
    rewrite (size_counts strictEquals m R). assumption.
  - intros v. rewrite jsset_has_hamtToSetValues by assumption. apply G.
Qed.

Lemma pura_set_round_trip_witness :
  lookup world_set_b_a 1%positive
    = Some (NativeSet [str "b"%string; str "a"%string]) /\
  distinct [str "b"%string; str "a"%string] /\
  exists w1 p w2 q vs',
    pura (VObject 1) world_set_b_a = Returns w1 (VObject p) /\
    lookup world_set_b_a p = None /\
    (forall v, perform (Call (VObject p) m_has [v]) w1 =
               Returns w1
                 (Value (VBool (jsset_has [str "b"%string; str "a"%string] v)))) /\
    perform (Get (VObject p) (str "size"%string)) w1 =
      Returns w1
        (Value (num (Z.of_nat (length [str "b"%string; str "a"%string])))) /\
    unpura (VObject p) w1 = Returns w2 (VObject q) /\
    lookup w1 q = None /\
    lookup w2 q = Some (NativeSet vs') /\
    distinct vs' /\
    length vs' = length [str "b"%string; str "a"%string] /\
    forall v, jsset_has vs' v = jsset_has [str "b"%string; str "a"%string] v.
Proof.
  split; [reflexivity|]. split; [exact distinct_b_a|].
  apply (pura_set_round_trip world_set_b_a 1%positive
           [str "b"%string; str "a"%string]);
    [reflexivity|exact distinct_b_a].
Defined.

(** X25: [puraOrderedMap] of a native Map makes a new wrapper whose [keys],
    [values] and [entries] run in the Map's own order and whose [get] reads
    as the Map; [unpura] of that wrapper is a new native Map with the
    entries of the Map, in the same order. *)
Theorem puraOrderedMap_round_trip (w : World) (r : ref)
    (es : list (jsval * jsval)) :
  lookup w r = Some (NativeMap es) -> distinct (List.map fst es) ->
  exists w1 p w2 q,
    puraOrderedMap (VObject r) w = Returns w1 (VObject p) /\
    lookup w p = None /\
    perform (Call (VObject p) m_keys []) w1 =
      Returns w1 (Values (List.map fst es)) /\
    perform (Call (VObject p) m_values []) w1 =
      Returns w1 (Values (List.map snd es)) /\
    perform (Call (VObject p) m_entries []) w1 = Returns w1 (Entries es) /\
    (forall k, perform (Call (VObject p) m_get [k]) w1 =
               Returns w1 (Value (undefined_or (jsmap_get keyEquals es k)))) /\
    unpura (VObject p) w1 = Returns w2 (VObject q) /\
    lookup w1 q = None /\
    lookup w2 q = Some (NativeMap es).
Proof.
  intros H D.
  destruct (hamtFromMap_spec es w D) as (m & Hm & R & G & S).
  set (w0 := fst (alloc w (Plain []))) in *.
  set (w0' := fst (alloc w0 (Plain []))).
  destruct (orderFromBase_spec (next_ref w0) es D)
    as (ord & Ho & Wo & Ik & Ie & Iv & _).
  set (st := MapState.make m false None false None (Some ord)).
  set (w1 := fst (alloc w0' (MapProxy st))).
  assert (L : lookup w1 (next_ref w0') = Some (MapProxy st))
    by apply lookup_alloc_new.
  assert (Raw : rawEntries st = Some es).
  { unfold rawEntries. cbn [MapState.ordered st]. rewrite Iv, Ie.
    apply liveEntries_Live. }
  destruct (map_wrapper_reads _ _ st L eq_refl) as (Rg & _ & _ & Rk & Re).
  destruct (Re es Raw) as (Ren & Rv).
  exists w1, (next_ref w0'), (fst (alloc w1 (NativeMap es))), (next_ref w1).
  split; [|split; [|split; [|split; [|split; [|split; [|split; [|split]]]]]]].
  - unfold puraOrderedMap, bindM, read. rewrite H, Hm.
    unfold newOwner, new, lift. simpl. fold w0. rewrite Ho. reflexivity.
  - destruct (lookup w (next_ref w0')) eqn:E; [|reflexivity].
    apply lookup_valid in E. unfold w0', w0, next_ref, alloc in E.
    simpl in E. rewrite !length_app in E. simpl in E. lia.
  - rewrite Rk. unfold iterKeys. cbn [MapState.ordered st]. rewrite Ik.
    reflexivity.
  - exact Rv.
  - exact Ren.
  - intros k. rewrite Rg. simpl. rewrite G. reflexivity.
  - unfold unpura, bindM, read. rewrite L.
    cbn [MapState.ordered st]. rewrite Iv, Ie, liveEntries_Live.
    unfold new. rewrite (native_map_of_distinct _ D). reflexivity.
  - apply lookup_fresh.
  - apply lookup_alloc_new.
Qed.

Lemma puraOrderedMap_round_trip_witness :
  lookup world_map_b_a 1%positive = Some (NativeMap entries_b_a) /\
  distinct (List.map fst entries_b_a) /\
  exists w1 p w2 q,
    puraOrderedMap (VObject 1) world_map_b_a = Returns w1 (VObject p) /\
    lookup world_map_b_a p = None /\
    perform (Call (VObject p) m_keys []) w1 =
      Returns w1 (Values (List.map fst entries_b_a)) /\
    perform (Call (VObject p) m_values []) w1 =
      Returns w1 (Values (List.map snd entries_b_a)) /\
    perform (Call (VObject p) m_entries []) w1 =
      Returns w1 (Entries entries_b_a) /\
    (forall k, perform (Call (VObject p) m_get [k]) w1 =
               Returns w1
                 (Value (undefined_or (jsmap_get keyEquals entries_b_a k)))) /\
    unpura (VObject p) w1 = Returns w2 (VObject q) /\
    lookup w1 q = None /\
    lookup w2 q = Some (NativeMap entries_b_a).
Proof.
  split; [reflexivity|]. split; [exact distinct_entries_b_a|].
  apply (puraOrderedMap_round_trip world_map_b_a 1%positive entries_b_a);
    [reflexivity|exact distinct_entries_b_a].
Defined.

(** X26: [puraOrderedSet] of a native Set makes a new wrapper whose
    [values] run in the Set's own order and whose [has] tells the values of
    the Set; [unpura] of that wrapper is a new native Set with the values of
    the Set, in the same order. *)
Theorem puraOrderedSet_round_trip (w : World) (r : ref) (vs : list jsval) :
  lookup w r = Some (NativeSet vs) -> distinct vs ->
  exists w1 p w2 q,
    puraOrderedSet (VObject r) w = Returns w1 (VObject p) /\
    lookup w p = None /\
    perform (Call (VObject p) m_values []) w1 = Returns w1 (Values vs) /\
    (forall v, perform (Call (VObject p) m_has [v]) w1 =
               Returns w1 (Value (VBool (jsset_has vs v)))) /\
    perform (Get (VObject p) (str "size"%string)) w1 =
      Returns w1 (Value (num (Z.of_nat (length vs)))) /\
    unpura (VObject p) w1 = Returns w2 (VObject q) /\
    lookup w1 q = None /\
    lookup w2 q = Some (NativeSet vs).
Proof.
  intros H D.
  destruct (hamtFromSet_spec vs w D) as (m & Hm & R & G & S).
  set (w0 := fst (alloc w (Plain []))) in *.
  set (w0' := fst (alloc w0 (Plain []))).
  destruct (orderFromSetBase_spec (next_ref w0) vs D)
    as (ord & Ho & Wo & Ik & Iv).
  set (st := SetState.make m false None false (Some ord)).
  set (w1 := fst (alloc w0' (SetProxy st))).
  assert (L : lookup w1 (next_ref w0') = Some (SetProxy st))
    by apply lookup_alloc_new.
  destruct (set_wrapper_reads _ _ st L) as (Rh & Rs & Rv).
  exists w1, (next_ref w0'), (fst (alloc w1 (NativeSet vs))), (next_ref w1).
  split; [|split; [|split; [|split; [|split; [|split; [|split]]]]]].
  - unfold puraOrderedSet, bindM, read. rewrite H, Hm.
    unfold newOwner, new, lift. simpl. fold w0. rewrite Ho. reflexivity.
  - destruct (lookup w (next_ref w0')) eqn:E; [|reflexivity].
    apply lookup_valid in E. unfold w0', w0, next_ref, alloc in E.
    simpl in E. rewrite !length_app in E. simpl in E. lia.
  - rewrite Rv. unfold iterValues. cbn [SetState.ordered st]. rewrite Ik.
    reflexivity.
  - intros v. rewrite Rh. simpl. rewrite G. reflexivity.
  - rewrite Rs. simpl. rewrite S. reflexivity.
  - unfold unpura, bindM, read. rewrite L.
    cbn [SetState.ordered st]. rewrite Ik. unfold new.
    rewrite (native_set_of_distinct _ D). reflexivity.
  - apply lookup_fresh.
  - apply lookup_alloc_new.
Qed.

Lemma puraOrderedSet_round_trip_witness :
  lookup world_set_b_a 1%positive
    = Some (NativeSet [str "b"%string; str "a"%string]) /\
  distinct [str "b"%string; str "a"%string] /\
  exists w1 p w2 q,
    puraOrderedSet (VObject 1) world_set_b_a = Returns w1 (VObject p) /\
    lookup world_set_b_a p = None /\
    perform (Call (VObject p) m_values []) w1 =
      Returns w1 (Values [str "b"%string; str "a"%string]) /\
    (forall v, perform (Call (VObject p) m_has [v]) w1 =
               Returns w1
                 (Value (VBool (jsset_has [str "b"%string; str "a"%string] v)))) /\
    perform (Get (VObject p) (str "size"%string)) w1 =
      Returns w1
        (Value (num (Z.of_nat (length [str "b"%string; str "a"%string])))) /\
    unpura (VObject p) w1 = Returns w2 (VObject q) /\
    lookup w1 q = None /\
    lookup w2 q = Some (NativeSet [str "b"%string; str "a"%string]).
Proof.
  split; [reflexivity|]. split; [exact distinct_b_a|].
  apply (puraOrderedSet_round_trip world_set_b_a 1%positive
           [str "b"%string; str "a"%string]);
    [reflexivity|exact distinct_b_a].
Defined.

(** ** A recipe that only reads *)














Lemma createNested_raises (w w1 : World) (v : ref) (cb : callback) (e : exn) :
  createNested v cb w <> Raises w1 e.
Proof.
  unfold createNested, bindM, read, new.
  destruct (lookup w v) as [vc|]; discriminate.
Qed.


Section Reads.

Variable d : ref.

































End Reads.

Section Untouched.

Variable d : ref.










End Untouched.

Section ReadsProduce.

Variable d : ref.









End ReadsProduce.










(** ** Running a recipe on a heap given by its new objects *)

Lemma ext_nil (w : World) : w = ext (heap w) (PROXY_CACHE w) [].
Proof. unfold ext. rewrite app_nil_r. destruct w; reflexivity. Qed.

Lemma next_ref_ext (h : list cell) (c : list (ref * ref)) (s : list cell) :
  next_ref (ext h c s) = at_ h (length s).
Proof.
  unfold next_ref, ext, at_. simpl. rewrite length_app. f_equal. lia.
Qed.

Lemma slot_of_at (h : list cell) (i : nat) :
  slot_of (at_ h i) = (length h + i)%nat.
Proof. unfold slot_of, at_. lia. Qed.

Lemma lookup_ext_new (h : list cell) (c : list (ref * ref)) (s : list cell)
    (i : nat) :
  lookup (ext h c s) (at_ h i) = nth_error s i.
Proof.
  unfold lookup, ext. simpl. rewrite slot_of_at.
  rewrite nth_error_app2 by lia. f_equal. lia.
Qed.

Lemma lookup_ext_old (h : list cell) (c : list (ref * ref)) (s : list cell)
    (r : ref) (x : cell) :
  nth_error h (slot_of r) = Some x -> lookup (ext h c s) r = Some x.
Proof.
  intros H. unfold lookup, ext. simpl. rewrite nth_error_app1; [assumption|].
  apply nth_error_lt in H. assumption.
Qed.

Lemma update_ext (h : list cell) (c : list (ref * ref)) (s : list cell)
    (i : nat) (x : cell) :
  update (ext h c s) (at_ h i) x = ext h c (set_nth s i x).
Proof.
  unfold update, ext. simpl. rewrite slot_of_at. f_equal.
  revert i. induction h as [|y h IH]; intros i; simpl.
  - reflexivity.
  - rewrite IH. reflexivity.
Qed.

Lemma bind_read_new {B : Type} (h : list cell) (c : list (ref * ref))
    (s : list cell) (i : nat) (x : cell) (f : cell -> M B) :
  nth_error s i = Some x ->
  bindM (read (at_ h i)) f (ext h c s) = f x (ext h c s).
Proof.
  intros H. unfold bindM, read. rewrite lookup_ext_new, H. reflexivity.
Qed.

Lemma bind_read_old {B : Type} (h : list cell) (c : list (ref * ref))
    (s : list cell) (r : ref) (x : cell) (f : cell -> M B) :
  nth_error h (slot_of r) = Some x ->
  bindM (read r) f (ext h c s) = f x (ext h c s).
Proof.
  intros H. unfold bindM, read. rewrite (lookup_ext_old h c s r x H).
  reflexivity.
Qed.

Lemma bind_new {B : Type} (h : list cell) (c : list (ref * ref))
    (s : list cell) (x : cell) (f : ref -> M B) :
  bindM (new x) f (ext h c s) = f (at_ h (length s)) (ext h c (s ++ [x])).
Proof.
  unfold bindM, new, alloc. rewrite next_ref_ext. unfold ext. simpl.
  rewrite <- app_assoc. reflexivity.
Qed.

Lemma bind_write {B : Type} (h : list cell) (c : list (ref * ref))
    (s : list cell) (i : nat) (x : cell) (f : unit -> M B) :
  bindM (write (at_ h i) x) f (ext h c s) = f tt (ext h c (set_nth s i x)).
Proof. unfold bindM, write. rewrite update_ext. reflexivity. Qed.

Lemma bind_assoc {A B C : Type} (m : M A) (f : A -> M B) (g : B -> M C)
    (w : World) :
  bindM (bindM m f) g w = bindM m (fun a => bindM (f a) g) w.
Proof. unfold bindM. destruct (m w); reflexivity. Qed.

Lemma bind_ret {A B : Type} (a : A) (f : A -> M B) (w : World) :
  bindM (ret_ a) f w = f a w.
Proof. reflexivity. Qed.

Lemma at_leb (h : list cell) (i j : nat) :
  (i <=? j)%nat = true -> (at_ h i <=? at_ h j)%positive = true.
Proof.
  intros H. apply Nat.leb_le in H. apply Pos.leb_le. unfold at_. lia.
Qed.

Lemma to_nat_at (h : list cell) (i : nat) :
  Pos.to_nat (at_ h i) = S (i + length h).
Proof. unfold at_. lia. Qed.

Lemma length_heap_ext (h : list cell) (c : list (ref * ref)) (s : list cell) :
  length (heap (ext h c s)) = (length s + length h)%nat.
Proof. unfold ext. simpl. rewrite length_app. lia. Qed.

Lemma bind_cachedProxy {B : Type} (h : list cell) (c : list (ref * ref))
    (s : list cell) (q : ref) (f : option ref -> M B) :
  bindM (cachedProxy q) f (ext h c s) = f (jsmap_get Pos.eqb c q) (ext h c s).
Proof. reflexivity. Qed.

Lemma bind_cacheProxy {B : Type} (h : list cell) (c : list (ref * ref))
    (s : list cell) (a b : ref) (f : unit -> M B) :
  bindM (cacheProxy a b) f (ext h c s) =
  f tt (ext h (jsmap_set Pos.eqb c a b) s).
Proof. reflexivity. Qed.

Ltac mred :=
  cbn [length app nth_error set_nth Nat.add
       NestedState.base NestedState.copy NestedState.childProxies
       NestedState.onMutate get_prop undefined_or jsmap_get jsmap_set
       jsmap_delete shallow_copy object_ref negb is_some].

Ltac mstep :=
  first
    [ rewrite bind_assoc
    | erewrite bind_read_new by reflexivity
    | erewrite bind_read_old by eassumption
    | rewrite bind_new
    | rewrite bind_write
    | rewrite bind_cacheProxy
    | rewrite bind_ret ];
  mred.

Lemma set_prop_plain (props : list (jsval * jsval)) (prop value : jsval) :
  jsmap_get keyEquals props prop <> None \/
  Object_is prop (str "__proto__"%string) = false ->
  set_prop (Plain props) prop value
    = Some (Plain (jsmap_set keyEquals props prop value)).
Proof.
  intros H. unfold set_prop.
  destruct (jsmap_get keyEquals props prop); [reflexivity|].
  destruct H as [H|H]; [congruence|]. rewrite H. reflexivity.
Qed.

Section DeepAssignment.

Variables (h : list cell) (ch : list (ref * ref)) (r o : ref).
Variables (props props2 : list (jsval * jsval)) (k1 k2 v : jsval).

Hypothesis Hr : nth_error h (slot_of r) = Some (Plain props).
Hypothesis Hk : jsmap_get keyEquals props k1 = Some (VObject o).
Hypothesis Ho : nth_error h (slot_of o) = Some (Plain props2).
Hypothesis Hk2 : Object_is k2 (str "__proto__"%string) = false.

(** [draft[k1]]: the draft hands out, and keeps, a nested proxy of the
    object at [k1]. *)
Lemma deep_get :
  perform (Get (VObject (at_ h 0)) k1)
    (ext h ch [NestedProxy (NestedState.make r None [] NoEffect)]) =
  Returns
    (ext h ch
       [NestedProxy
          (NestedState.make r None [(k1, VObject (at_ h 1))] NoEffect);
        NestedProxy (NestedState.make o None [] (CopyParent (at_ h 0)))])
    (Value (VObject (at_ h 1))).
Proof.
  unfold perform. mstep. unfold nestedGet. repeat mstep. rewrite Hk. mred.
  repeat mstep. unfold createNested. repeat mstep. reflexivity.
Qed.

(** [child[k2] = v]: the nested proxy copies its object, its parent copies
    the base, and the value goes to the copy. *)
Lemma deep_set :
  perform (Assign (VObject (at_ h 1)) k2 v)
    (ext h ch
       [NestedProxy
          (NestedState.make r None [(k1, VObject (at_ h 1))] NoEffect);
        NestedProxy (NestedState.make o None [] (CopyParent (at_ h 0)))]) =
  Returns
    (ext h ch
       [NestedProxy
          (NestedState.make r (Some (at_ h 3)) [(k1, VObject (at_ h 1))]
             NoEffect);
        NestedProxy
          (NestedState.make o (Some (at_ h 2)) [] (CopyParent (at_ h 0)));
        Plain (jsmap_set keyEquals props2 k2 v);
        Plain props])
    (Value (VBool true)).
Proof.
  unfold perform. mstep. unfold nestedSet, getCopy. rewrite to_nat_at.
  cbn [Nat.add getCopy_fuel]. repeat mstep.
  unfold dropChild. repeat mstep.
  rewrite (set_prop_plain props2 k2 v (or_intror Hk2)). repeat mstep.
  reflexivity.
Qed.

(** Closing the draft: the copies are put together, and the result is
    wrapped. *)
Lemma deep_close (base : jsval) :
  cache_valid (ext h ch []) ->
  closeObjectDraft base (at_ h 0)
    (ext h ch
       [NestedProxy
          (NestedState.make r (Some (at_ h 3)) [(k1, VObject (at_ h 1))]
             NoEffect);
        NestedProxy
          (NestedState.make o (Some (at_ h 2)) [] (CopyParent (at_ h 0)));
        Plain (jsmap_set keyEquals props2 k2 v);
        Plain props]) =
  Returns
    (ext h (jsmap_set Pos.eqb ch (at_ h 3) (at_ h 4))
       [NestedProxy
          (NestedState.make r (Some (at_ h 3)) [(k1, VObject (at_ h 1))]
             NoEffect);
        NestedProxy
          (NestedState.make o (Some (at_ h 2)) [] (CopyParent (at_ h 0)));
        Plain (jsmap_set keyEquals props2 k2 v);
        Plain (jsmap_set keyEquals props k1 (VObject (at_ h 2)));
        NestedProxy (NestedState.make (at_ h 3) None [] NoEffect)])
    (VObject (at_ h 4)).
Proof.
  intros Cv. unfold closeObjectDraft.
  unfold bindM at 1, observablyModified.
  cbn [isProxyModified]. rewrite lookup_ext_new. mred.
  unfold bindM at 1, extract. rewrite length_heap_ext. mred.
  cbn [extractNestedValue]. repeat mstep.
  unfold bindM at 1. cbn [isProxyModified]. rewrite lookup_ext_new. mred.
  repeat mstep.
  unfold ret_ at 1. cbn beta iota. repeat mstep.
  unfold assign. repeat mstep.
  rewrite set_prop_plain by (left; rewrite Hk; discriminate). repeat mstep.
  unfold ret_ at 1. cbn beta iota.
  unfold pura. repeat mstep.
  rewrite bind_cachedProxy.
  assert (C3 : jsmap_get Pos.eqb ch (at_ h 3) = None).
  { apply (Cv (at_ h 3)). rewrite next_ref_ext. unfold at_. simpl. lia. }
  rewrite C3.
  repeat mstep. reflexivity.
Qed.

End DeepAssignment.

Lemma lookup_nth (w : World) (r : ref) (c : cell) :
  lookup w r = Some c -> nth_error (heap w) (slot_of r) = Some c.
Proof. auto. Qed.

Lemma lookup_at_None (w : World) (i : nat) :
  lookup w (at_ (heap w) i) = None.
Proof.
  unfold lookup. rewrite slot_of_at. apply nth_error_None. lia.
Qed.

(** X28: The recipe [draft => { draft[k1][k2] = v }] on a plain object whose
    own property [k1] is a plain object, for a name [k2] other than
    [__proto__]: [produce] returns a new proxy of a new object that holds
    the properties of the base with a new object at [k1], which in turn
    holds the properties of the old one with [v] at [k2].  Every other
    property value is the one of the base (shared, not copied), and the base
    and the object at [k1] are left as they were. *)
Theorem produce_deep_assignment (w : World) (r o : ref)
    (props props2 : list (jsval * jsval)) (s1 s2 : list Z) (v : jsval) :
  lookup w r = Some (Plain props) ->
  jsmap_get keyEquals props (VString s1) = Some (VObject o) ->
  lookup w o = Some (Plain props2) ->
  VString s2 <> str "__proto__"%string ->
  cache_valid w ->
  exists w' p c1 c2,
    produce (VObject r) (recipe_deep (VString s1) (VString s2) v) w
      = Returns w' (VObject p) /\
    lookup w p = None /\ lookup w c1 = None /\ lookup w c2 = None /\
    lookup w' p = Some (NestedProxy (NestedState.make c1 None [] NoEffect)) /\
    lookup w' c1
      = Some (Plain (jsmap_set keyEquals props (VString s1) (VObject c2))) /\
    lookup w' c2 = Some (Plain (jsmap_set keyEquals props2 (VString s2) v)) /\
    lookup w' r = Some (Plain props) /\ lookup w' o = Some (Plain props2).
Proof.
  intros Hr Hk Ho Np Cv.
  assert (Hk2 : Object_is (VString s2) (str "__proto__"%string) = false).
  { destruct (Object_is (VString s2) (str "__proto__"%string)) eqn:E;
      [|reflexivity].
    apply Object_is_eq in E. contradiction. }
  pose proof (lookup_nth _ _ _ Hr) as Hr'.
  pose proof (lookup_nth _ _ _ Ho) as Ho'.
  set (h := heap w) in *. set (ch := PROXY_CACHE w) in *.
  assert (E : w = ext h ch []) by apply ext_nil.
  eexists. exists (at_ h 4), (at_ h 3), (at_ h 2).
  split; [|split; [|split; [|split; [|split; [|split; [|split; [|split]]]]]]].
  - rewrite E at 1. unfold produce.
    rewrite (bind_read_old h ch [] r _ _ Hr').
    unfold produceObject, openObjectDraft. rewrite bind_new. cbn [length app].
    unfold recipe_deep. cbn [run]. unfold in_reach. cbn [target_of].
    rewrite at_leb by reflexivity. rewrite bind_assoc.
    unfold bindM at 1. rewrite app_nil_l.
    rewrite (deep_get h ch r o props props2 (VString s1) Hr' Hk Ho').
    cbn [run]. unfold in_reach. cbn [target_of].
    rewrite at_leb by reflexivity. rewrite bind_assoc.
    unfold bindM at 1.
    rewrite (deep_set h ch r o props props2 (VString s1) (VString s2) v
               Hr' Ho' Hk2).
    cbn [run]. rewrite bind_ret.
    apply deep_close; [exact Hk|]. rewrite <- E. exact Cv.
  - apply lookup_at_None.
  - apply lookup_at_None.
  - apply lookup_at_None.
  - apply lookup_ext_new.
  - apply lookup_ext_new.
  - apply lookup_ext_new.
  - apply lookup_ext_old. exact Hr'.
  - apply lookup_ext_old. exact Ho'.
Qed.

Lemma produce_deep_assignment_witness :
  lookup world_user 2%positive
    = Some (Plain [(str "user"%string, VObject 1); (str "n"%string, num 0)]) /\
  jsmap_get keyEquals [(str "user"%string, VObject 1); (str "n"%string, num 0)]
    (str "user"%string) = Some (VObject 1) /\
  lookup world_user 1%positive
    = Some (Plain [(str "name"%string, str "a"%string);
                   (str "age"%string, num 1)]) /\
  str "age"%string <> str "__proto__"%string /\
  cache_valid world_user /\
  exists w' p c1 c2,
    produce (VObject 2)
      (recipe_deep (str "user"%string) (str "age"%string) (num 2)) world_user
      = Returns w' (VObject p) /\
    lookup world_user p = None /\ lookup world_user c1 = None /\
    lookup world_user c2 = None /\
    lookup w' p = Some (NestedProxy (NestedState.make c1 None [] NoEffect)) /\
    lookup w' c1
      = Some (Plain (jsmap_set keyEquals
                       [(str "user"%string, VObject 1); (str "n"%string, num 0)]
                       (str "user"%string) (VObject c2))) /\
    lookup w' c2
      = Some (Plain (jsmap_set keyEquals
                       [(str "name"%string, str "a"%string);
                        (str "age"%string, num 1)]
                       (str "age"%string) (num 2))) /\
    lookup w' 2%positive
      = Some (Plain [(str "user"%string, VObject 1); (str "n"%string, num 0)]) /\
    lookup w' 1%positive
      = Some (Plain [(str "name"%string, str "a"%string);
                     (str "age"%string, num 1)]).
Proof.
  split; [reflexivity|]. split; [reflexivity|]. split; [reflexivity|].
  split; [discriminate|]. split; [intros q L; reflexivity|].
  apply (produce_deep_assignment world_user 2%positive 1%positive
           [(str "user"%string, VObject 1); (str "n"%string, num 0)]
           [(str "name"%string, str "a"%string); (str "age"%string, num 1)]
           [117; 115; 101; 114] [97; 103; 101] (num 2));
    try reflexivity; [discriminate|].
  intros q L. reflexivity.
Defined.

(** ** A Map draft with an order index, and an array draft *)

Lemma bind_lift_ok {A B : Type} (x : result A) (a : A) (f : A -> M B)
    (w : World) :
  x = Ok a -> bindM (lift x) f w = f a w.
Proof. intros ->. reflexivity. Qed.

(** The keys that a well-formed index knows are those it iterates. *)
Lemma order_has (ord : OrderIndex) (k : jsval) :
  order_wf ord ->
  (hamtGet (keyToIdx ord) k <> None <->
   exists k0, In k0 (orderIter ord) /\ keyEquals k0 k = true).
Proof.
  intros (W & _ & Hk & _). split.
  - intros N. destruct (hamtGet (keyToIdx ord) k) as [i|] eqn:G;
      [|congruence].
    apply Hk in G. destruct G as (k0 & Hi & E). exists k0.
    split; [|assumption]. apply In_orderIter_slots.
    apply (nth_error_In _ _ Hi).
  - intros (k0 & I & E). apply In_orderIter_slots in I.
    apply In_nth_error in I. destruct I as [i Hi].
    rewrite (proj2 (Hk k i)); [discriminate|]. exists k0. auto.
Qed.

Lemma jsmap_has_In (es : list (jsval * jsval)) (k : jsval) :
  jsmap_get keyEquals es k <> None <->
  exists k0, In k0 (List.map fst es) /\ keyEquals k0 k = true.
Proof.
  induction es as [|[k' v'] es IH]; simpl.
  - split; [congruence|]. intros (k0 & [] & _).
  - destruct (keyEquals k' k) eqn:E.
    + split; [|discriminate]. intros _. exists k'. auto.
    + rewrite IH. split.
      * intros (k0 & I & Q). exists k0. auto.
      * intros (k0 & [<-|I] & Q); [congruence|]. exists k0. auto.
Qed.

(** [puraOrderedMap] of a native Map: the wrapper it creates, whose trie
    and index hold the keys of the Map. *)
Lemma puraOrderedMap_ok (w : World) (r : ref) (es : list (jsval * jsval)) :
  lookup w r = Some (NativeMap es) -> distinct (List.map fst es) ->
  exists w1 p st ord,
    puraOrderedMap (VObject r) w = Returns w1 (VObject p) /\
    lookup w1 p = Some (MapProxy st) /\
    MapState.ordered st = Some ord /\
    ordered_map_ok (MapState.map st) ord /\
    orderIter ord = List.map fst es.
Proof.
  intros H D.
  destruct (hamtFromMap_spec es w D) as (m & Hm & R & G & S).
  set (w0 := fst (alloc w (Plain []))) in *.
  set (w0' := fst (alloc w0 (Plain []))).
  destruct (orderFromBase_spec (next_ref w0) es D)
    as (ord & Ho & Wo & Ik & _).
  set (st := MapState.make m false None false None (Some ord)).
  exists (fst (alloc w0' (MapProxy st))), (next_ref w0'), st, ord.
  split; [|split; [|split; [|split]]].
  - unfold puraOrderedMap, bindM, read. rewrite H, Hm.
    unfold newOwner, new, lift. simpl. fold w0. rewrite Ho. reflexivity.
  - apply lookup_alloc_new.
  - reflexivity.
  - split; [exact R|]. split; [exact Wo|]. intros k. simpl.
    rewrite hamtHas_get by (apply (reachable_wf strictEquals), R).
    rewrite G, (order_has ord k Wo), Ik, <- jsmap_has_In.
    destruct (jsmap_get keyEquals es k); split; congruence.
  - exact Ik.
Qed.

Ltac mred2 :=
  cbn [length app nth_error set_nth Nat.add fst snd
       MapState.map MapState.isDraft MapState.owner MapState.modified
       MapState.valueProxies MapState.ordered dropProxy
       ArrayState.vec ArrayState.isDraft ArrayState.owner ArrayState.modified
       ArrayState.proxies
       jsmap_get jsmap_set jsmap_delete negb finalizeMap finalizeArray].

Ltac mstep2 :=
  first
    [ rewrite bind_assoc
    | erewrite bind_read_new by reflexivity
    | erewrite bind_read_old by eassumption
    | rewrite bind_new
    | rewrite bind_write
    | rewrite bind_ret ];
  rewrite ?app_nil_l; mred2.

(** [produce] with [draft.set(k, v)] on a Map wrapper with an order index,
    step by step. *)
Lemma produce_set_steps (h : list cell) (ch : list (ref * ref)) (r : ref)
    (st : MapState.t) (ord ord' : OrderIndex) (k v : jsval)
    (r0 : ret (HMap jsval)) :
  nth_error h (slot_of r) = Some (MapProxy st) ->
  MapState.ordered st = Some ord ->
  hamtSet strictEquals (MapState.map st) (Some (at_ h 0)) k v = Some r0 ->
  (if hamtHas (MapState.map st) k
   then orderUpdateValue ord (Some (at_ h 0)) k v
   else orderAppendWithValue ord (Some (at_ h 0)) k v) = Ok ord' ->
  produce (VObject r) (recipe_set k v) (ext h ch []) =
  Returns
    (ext h ch
       [Plain [];
        MapProxy
          (MapState.make (ret_val (MapState.map st) r0) true
             (Some (at_ h 0)) true (Some []) (Some ord'));
        MapProxy
          (MapState.make (ret_val (MapState.map st) r0) false None false None
             (Some ord'))])
    (VObject (at_ h 2)).
Proof.
  intros Hr Ho Hs Hu.
  unfold produce. rewrite (bind_read_old h ch [] r _ _ Hr).
  unfold produceMap, openMapDraft. repeat mstep2.
  unfold newOwner. repeat mstep2.
  unfold recipe_set. cbn [run]. unfold in_reach. cbn [target_of].
  rewrite at_leb by reflexivity. repeat mstep2. unfold perform.
  repeat mstep2. unfold mapCall, mapSet, readMapState, setMapState.
  repeat mstep2.
  rewrite Hs. cbn [returned]. rewrite (bind_lift_ok _ _ _ _ eq_refl).
  repeat mstep2.
  rewrite Ho. repeat mstep2. rewrite (bind_lift_ok _ _ _ _ Hu).
  repeat mstep2.
  cbn [run]. repeat mstep2.
  unfold closeMapDraft, readMapState. repeat mstep2. reflexivity.
Qed.

Lemma liveEntries_update (k v : jsval) (es0 : list (jsval * slot jsval)) :
  forall es, liveEntries es0 = Some es ->
    liveEntries
      (List.map (fun e => if keyEquals k (fst e) then (fst e, Live v) else e)
         es0) =
    Some (List.map (fun e => if keyEquals k (fst e) then (fst e, v) else e) es).
Proof.
  induction es0 as [|[k0 [x|]] es0 IH]; intros es H; simpl in H.
  - injection H as <-. reflexivity.
  - destruct (liveEntries es0) as [more|]; [|discriminate].
    injection H as <-. cbn [List.map fst].
    destruct (keyEquals k k0); cbn [liveEntries];
      rewrite (IH more eq_refl); reflexivity.
  - discriminate.
Qed.

Lemma liveEntries_snoc (k v : jsval) (es0 : list (jsval * slot jsval)) :
  forall es, liveEntries es0 = Some es ->
    liveEntries (es0 ++ [(k, Live v)]) = Some (es ++ [(k, v)]).
Proof.
  induction es0 as [|[k0 [x|]] es0 IH]; intros es H; simpl in H.
  - injection H as <-. reflexivity.
  - destruct (liveEntries es0) as [more|]; [|discriminate].
    injection H as <-. simpl.
    rewrite (IH more eq_refl). reflexivity.
  - discriminate.
Qed.

(** What [get] reads at the key after [hamtSet]. *)
Lemma hamtSet_read_back (m : HMap jsval) (owner : Owner) (k v : jsval)
    (r0 : ret (HMap jsval)) :
  wf_map m -> hamtSet strictEquals m owner k v = Some r0 ->
  forall k', keyEquals k k' = true ->
    hamtGet (ret_val m r0) k' = Some (read_back m k v).
Proof.
  intros W Hs k' Q.
  destruct (hamtSet_spec strictEquals owner k v m W)
    as (r1 & Hs1 & _ & It & Gs & _).
  assert (r1 = r0) as -> by congruence.
  unfold read_back. destruct (hamtGet m k) as [x0|] eqn:G0.
  - destruct (strictEquals x0 v) eqn:Q0.
    + assert (I0 : is_itself r0 = true) by (apply It; exists x0; auto).
      destruct r0; [|discriminate]. simpl.
      rewrite <- (hamtGet_congr _ k k' W Q). exact G0.
    + apply Gs; [|exact Q]. destruct (is_itself r0) eqn:I0; [|reflexivity].
      destruct (proj1 It eq_refl) as (x & Gx & Qx). congruence.
  - apply Gs; [|exact Q]. destruct (is_itself r0) eqn:I0; [|reflexivity].
    destruct (proj1 It eq_refl) as (x & Gx & Qx). congruence.
Qed.

(** X29: [produce] with the recipe [draft => { draft.set(k, v) }] on a Map
    wrapper that keeps insertion order returns a new wrapper.  Its keys are
    those of the base in their order, followed by [k] when [k] is new, and
    its size is one more exactly when [k] is new.  [get] reads every other
    key as the base does, and reads at [k] the value [v], or the value the
    base holds there when that one is [===] to [v].  [entries()] and
    [values()] show the entries of the base in their order with the value at
    [k] replaced, or followed by [(k, v)] when [k] is new; the value shown at
    [k] is [v] itself when the order index keeps values, also where [get]
    reads the value of the base.  The trie and the index hold the same keys
    again, and the base wrapper is left as it was. *)
Theorem produce_ordered_set (w : World) (r : ref) (st : MapState.t)
    (ord : OrderIndex) (k v : jsval) :
  lookup w r = Some (MapProxy st) ->
  MapState.ordered st = Some ord ->
  ordered_map_ok (MapState.map st) ord ->
  exists w' p st' ord',
    produce (VObject r) (recipe_set k v) w = Returns w' (VObject p) /\
    lookup w p = None /\
    lookup w' p = Some (MapProxy st') /\
    lookup w' r = Some (MapProxy st) /\
    MapState.ordered st' = Some ord' /\
    ordered_map_ok (MapState.map st') ord' /\
    perform (Call (VObject p) m_keys []) w' =
      Returns w'
        (Values (if hamtHas (MapState.map st) k then orderIter ord
                 else orderIter ord ++ [k])) /\
    perform (Get (VObject p) (str "size"%string)) w' =
      Returns w'
        (Value (num (size (MapState.map st)
                     + (if hamtHas (MapState.map st) k then 0 else 1)))) /\
    (forall k', keyEquals k k' = false ->
       perform (Call (VObject p) m_get [k']) w' =
         Returns w' (Value (undefined_or (hamtGet (MapState.map st) k')))) /\
    (forall k', keyEquals k k' = true ->
       perform (Call (VObject p) m_get [k']) w' =
         Returns w' (Value (read_back (MapState.map st) k v))) /\
    (forall es, rawEntries st = Some es ->
       perform (Call (VObject p) m_entries []) w' =
         Returns w' (Entries (entries_after_set (MapState.map st) ord k v es)) /\
       perform (Call (VObject p) m_values []) w' =
         Returns w'
           (Values (List.map snd
                      (entries_after_set (MapState.map st) ord k v es)))).
Proof.
  intros Hr Ho (R & Wo & Sy).
  pose proof (reachable_wf strictEquals _ R) as W.
  pose proof (lookup_nth _ _ _ Hr) as Hr'.
  set (h := heap w) in *. set (ch := PROXY_CACHE w) in *.
  assert (E : w = ext h ch []) by apply ext_nil.
  destruct (hamtSet_spec strictEquals (Some (at_ h 0)) k v _ W)
    as (r0 & Hs & W' & It & Gs & Go & Sz).
  pose proof (hamtSet_read_back _ _ k v r0 W Hs) as Rb.
  set (m' := ret_val (MapState.map st) r0) in *.
  assert (R' : reachable strictEquals m')
    by apply (reach_set strictEquals _ _ k v r0 R Hs).
  assert (Hu : exists ord',
            (if hamtHas (MapState.map st) k
             then orderUpdateValue ord (Some (at_ h 0)) k v
             else orderAppendWithValue ord (Some (at_ h 0)) k v) = Ok ord' /\
            order_wf ord' /\
            orderIter ord' = (if hamtHas (MapState.map st) k then orderIter ord
                              else orderIter ord ++ [k]) /\
            orderEntryIter ord' =
              (if hamtHas (MapState.map st) k
               then List.map (fun e => if keyEquals k (fst e)
                                       then (fst e, Live v) else e)
                      (orderEntryIter ord)
               else match idxToVal ord with
                    | Some _ => orderEntryIter ord ++ [(k, Live v)]
                    | None => []
                    end) /\
            (idxToVal ord' = None <-> idxToVal ord = None)).
  { destruct (hamtHas (MapState.map st) k) eqn:Hh.
    - destruct (hamtGet (keyToIdx ord) k) as [idx|] eqn:Gi.
      + destruct (orderUpdateValue_spec ord (Some (at_ h 0)) k v idx Wo Gi)
          as (o' & Q1 & Q2 & Q3 & Q4 & Q5).
        exists o'. auto.
      + exfalso. apply (proj1 (Sy k) Hh). assumption.
    - assert (Gi : hamtGet (keyToIdx ord) k = None).
      { destruct (hamtGet (keyToIdx ord) k) eqn:Gi; [|reflexivity].
        assert (T : hamtHas (MapState.map st) k = true)
          by (apply Sy; congruence).
        congruence. }
      destruct (orderAppendWithValue_spec ord (Some (at_ h 0)) k v Wo Gi)
        as (o' & Q1 & Q2 & Q3 & Q4 & Q5).
      exists o'. auto. }
  destruct Hu as (ord' & Hu & Wo' & Io' & Eo' & Vo').
  set (st' := MapState.make m' false None false None (Some ord')).
  set (w' := ext h ch
               [Plain [];
                MapProxy (MapState.make m' true (Some (at_ h 0)) true
                            (Some []) (Some ord'));
                MapProxy st']).
  assert (Lp : lookup w' (at_ h 2) = Some (MapProxy st'))
    by apply lookup_ext_new.
  destruct (map_wrapper_reads w' (at_ h 2) st' Lp eq_refl)
    as (Rg & _ & Rs & Rk & Re).
  assert (Hk' : forall k', hamtHas m' k' = true <->
                           hamtHas (MapState.map st) k' = true \/
                           keyEquals k k' = true).
  { intros k'. rewrite !hamtHas_get by assumption.
    destruct (keyEquals k k') eqn:Q.
    - split; [auto|]. intros _. rewrite (Rb k' Q). reflexivity.
    - rewrite (Go k' Q). split; [auto|]. intros [T|T]; [exact T|discriminate]. }
  assert (New : hamtHas (MapState.map st) k = false ->
                forall k0, In k0 (orderIter ord) -> keyEquals k k0 = false).
  { intros Hh k0 I0. destruct (keyEquals k k0) eqn:Q; [|reflexivity].
    assert (T : hamtHas (MapState.map st) k0 = true).
    { apply Sy. apply (order_has ord k0 Wo). exists k0.
      split; [assumption|apply keyEquals_refl]. }
    rewrite hamtHas_get in Hh, T by assumption.
    rewrite (hamtGet_congr _ k k0 W Q) in Hh. congruence. }
  exists w', (at_ h 2), st', ord'.
  split; [|split; [|split; [|split; [|split; [|split; [|split; [|split;
    [|split; [|split]]]]]]]]].
  - rewrite E at 1.
    apply (produce_set_steps h ch r st ord ord' k v r0 Hr' Ho Hs Hu).
  - apply lookup_at_None.
  - exact Lp.
  - apply lookup_ext_old. exact Hr'.
  - reflexivity.
  - split; [exact R'|]. split; [exact Wo'|]. intros k'.
    cbn [st' MapState.map]. rewrite Hk', (order_has ord' k' Wo'), Io'.
    rewrite (Sy k'), (order_has ord k' Wo).
    destruct (hamtHas (MapState.map st) k) eqn:Hh.
    + split; [|intros Q; left; exact Q].
      intros [Q|Q]; [exact Q|].
      apply (order_has ord k' Wo). apply Sy.
      rewrite hamtHas_get in * by assumption.
      rewrite <- (hamtGet_congr _ k k' W Q). exact Hh.
    + split.
      * intros [(k0 & I & Q)|Q].
        -- exists k0. split; [apply in_or_app; auto|assumption].
        -- exists k. split; [apply in_or_app; simpl; auto|assumption].
      * intros (k0 & I & Q). apply in_app_or in I.
        destruct I as [I|[<-|[]]]; [left; exists k0; auto|right; exact Q].
  - rewrite Rk. unfold iterKeys. cbn [st' MapState.ordered]. rewrite Io'.
    reflexivity.
  - rewrite Rs. cbn [st' MapState.map]. fold m'. rewrite Sz. reflexivity.
  - intros k' Q. rewrite Rg. cbn [st' MapState.map]. fold m'.
    rewrite (Go k' Q). reflexivity.
  - intros k' Q. rewrite Rg. cbn [st' MapState.map]. fold m'.
    rewrite (Rb k' Q). reflexivity.
  - intros es Hes. apply Re. unfold rawEntries in *.
    cbn [st' MapState.ordered MapState.map]. rewrite Ho in Hes.
    unfold entries_after_set, entry_written.
    destruct (idxToVal ord) as [vals|] eqn:Ev.
    + destruct (idxToVal ord') as [vals'|] eqn:Ev';
        [|exfalso; assert (N : @None (Vec (slot jsval)) = None)
                     by reflexivity;
          apply Vo' in N; discriminate].
      rewrite Eo'. destruct (hamtHas (MapState.map st) k).
      * apply liveEntries_update. exact Hes.
      * apply liveEntries_snoc. exact Hes.
    + assert (Ev' : idxToVal ord' = None) by (apply Vo'; reflexivity).
      rewrite Ev'. unfold iterKeys in *. unfold st'.
      cbn [MapState.ordered MapState.map]. rewrite Ho in Hes.
      rewrite Io'. injection Hes as <-. f_equal.
      destruct (hamtHas (MapState.map st) k) eqn:Hh.
      * rewrite map_map. apply map_ext. intros k0. cbn [fst].
        destruct (keyEquals k k0) eqn:Q.
        -- rewrite (Rb k0 Q). reflexivity.
        -- rewrite (Go k0 Q). reflexivity.
      * rewrite map_app. cbn [List.map].
        rewrite (Rb k (keyEquals_refl k)). cbn [undefined_or].
        assert (V0 : read_back (MapState.map st) k v = v).
        { unfold read_back. rewrite hamtHas_get in Hh by assumption.
          destruct (hamtGet (MapState.map st) k); [discriminate|reflexivity]. }
        rewrite V0. f_equal. apply map_ext_in. intros k0 I0.
        rewrite (Go k0 (New eq_refl k0 I0)). reflexivity.
Qed.

Lemma ordered_map_ok_b_a :
  ordered_map_ok (MapState.map state_ordered_b_a) order_b_a.
Proof.
  destruct (puraOrderedMap_ok world_map_b_a 1%positive entries_b_a eq_refl
              distinct_entries_b_a)
    as (w1 & p & st & ord & E & L & O & K & _).
  assert (Ew : world_ordered_b_a = w1)
    by (unfold world_ordered_b_a; rewrite E; reflexivity).
  assert (Ep : p = 4%positive).
  { vm_compute in E. injection E as _ E. symmetry. exact E. }
  assert (Es : state_ordered_b_a = st)
    by (unfold state_ordered_b_a; rewrite Ew, <- Ep, L; reflexivity).
  assert (Eo : order_b_a = ord)
    by (unfold order_b_a; rewrite Es, O; reflexivity).
  rewrite Es, Eo. exact K.
Qed.

Lemma ordered_map_ok_zero :
  ordered_map_ok (MapState.map state_ordered_zero) order_zero.
Proof.
  assert (D : distinct (List.map fst [(str "b"%string, posZero)])).
  { split; [intros k' []|exact I]. }
  destruct (puraOrderedMap_ok
              {| heap := [NativeMap [(str "b"%string, posZero)]];
                 PROXY_CACHE := [] |}
              1%positive [(str "b"%string, posZero)] eq_refl D)
    as (w1 & p & st & ord & E & L & O & K & _).
  assert (Ew : world_ordered_zero = w1)
    by (unfold world_ordered_zero; rewrite E; reflexivity).
  assert (Ep : p = 4%positive).
  { vm_compute in E. injection E as _ E. symmetry. exact E. }
  assert (Es : state_ordered_zero = st)
    by (unfold state_ordered_zero; rewrite Ew, <- Ep, L; reflexivity).
  assert (Eo : order_zero = ord)
    by (unfold order_zero; rewrite Es, O; reflexivity).
  rewrite Es, Eo. exact K.
Qed.

Lemma produce_ordered_set_witness :
  lookup world_ordered_zero 4%positive = Some (MapProxy state_ordered_zero) /\
  MapState.ordered state_ordered_zero = Some order_zero /\
  ordered_map_ok (MapState.map state_ordered_zero) order_zero /\
  rawEntries state_ordered_zero = Some [(str "b"%string, posZero)] /\
  exists w' p,
    produce (VObject 4) (recipe_set (str "b"%string) negZero)
      world_ordered_zero = Returns w' (VObject p) /\
    lookup world_ordered_zero p = None /\
    lookup w' 4%positive = Some (MapProxy state_ordered_zero) /\
    perform (Call (VObject p) m_keys []) w' =
      Returns w' (Values [str "b"%string]) /\
    perform (Get (VObject p) (str "size"%string)) w' =
      Returns w' (Value (num 1)) /\
    perform (Call (VObject p) m_get [str "b"%string]) w' =
      Returns w' (Value posZero) /\
    perform (Call (VObject p) m_entries []) w' =
      Returns w' (Entries [(str "b"%string, negZero)]) /\
    perform (Call (VObject p) m_values []) w' =
      Returns w' (Values [negZero]).
Proof.
  split; [reflexivity|]. split; [reflexivity|].
  split; [exact ordered_map_ok_zero|]. split; [reflexivity|].
  destruct (produce_ordered_set world_ordered_zero 4%positive
              state_ordered_zero order_zero (str "b"%string) negZero
              eq_refl eq_refl ordered_map_ok_zero)
    as (w' & p & st' & ord' & P & N & _ & B & _ & _ & K & S & _ & G & En).
  exists w', p. split; [exact P|]. split; [exact N|]. split; [exact B|].
  split; [exact K|]. split; [exact S|].
  split; [exact (G (str "b"%string) eq_refl)|].
  exact (En [(str "b"%string, posZero)] eq_refl).
Defined.

(** The same recipe with a key that the Map does not hold: the entry goes to
    the end. *)
Example produce_ordered_set_new_key :
  exists w' p,
    produce (VObject 4) (recipe_set (str "c"%string) (num 3))
      world_ordered_b_a = Returns w' (VObject p) /\
    perform (Call (VObject p) m_entries []) w' =
      Returns w'
        (Entries [(str "b"%string, num 1); (str "a"%string, num 2);
                  (str "c"%string, num 3)]) /\
    perform (Call (VObject p) m_get [str "c"%string]) w' =
      Returns w' (Value (num 3)) /\
    perform (Get (VObject p) (str "size"%string)) w' =
      Returns w' (Value (num 3)).
Proof.
  eexists. eexists. split; [vm_compute; reflexivity|].
  split; [vm_compute; reflexivity|]. split; vm_compute; reflexivity.
Qed.




(** ** Wrappers that were returned, recipes that do not write *)



(** ** Deleting from the order index *)

(** C6: [orderDelete] of a key that the index holds in slot [idx] marks that
    slot [DELETED] and counts one more hole.  Exactly when the new number of
    holes exceeds [0.5 * next] and [next > 32], what it returns is the
    compacted index: no hole, the live keys in slots numbered from 0 in the
    order they had, [keyToIdx] sending each key to its new slot, and the
    same keys and entries in iteration.  Otherwise it returns the marked
    index as it is, holes included. *)
Theorem orderDelete_marks_and_compacts (ord : OrderIndex) (owner : Owner)
    (key : jsval) (idx : nat) :
  order_wf ord -> hamtGet (keyToIdx ord) key = Some idx ->
  let compacts :=
    (Q_of_nat (next ord) * ORDER_COMPACT_RATIO < Q_of_nat (holes ord + 1))%Q /\
    (32 < next ord)%nat in
  exists r0 r,
    marked ord idx r0 /\
    vecGet (idxToKey r0) idx = Some DELETED /\
    holes r0 = (holes ord + 1)%nat /\
    orderDelete ord owner key = Ok r /\
    (holes r = 0%nat <-> compacts) /\
    (compacts ->
       next r = length (orderIter r0) /\
       idxToKey r = List.map Live (orderIter r0) /\
       (forall i k, nth_error (orderIter r0) i = Some k ->
                    hamtGet (keyToIdx r) k = Some i) /\
       orderIter r = orderIter r0 /\
       orderEntryIter r = orderEntryIter r0) /\
    (~ compacts -> r = r0).
Proof.
  intros Hw Hg compacts.
  destruct (orderDelete_marks ord owner key idx Hw Hg)
    as (r0 & Hm & Hw0 & Reads & Hd).
  pose proof Hm as (_ & Hh & Hk0 & _).
  assert (Cond : compacts <->
                 (next ord <? 2 * (holes ord + 1))%nat
                   && (32 <? next ord)%nat = true).
  { unfold compacts. rewrite Qlt_half, andb_true_iff, !Nat.ltb_lt. tauto. }
  assert (Sl : vecGet (idxToKey r0) idx = Some DELETED).
  { rewrite Hk0. unfold vecGet. apply nth_error_set_nth_eq.
    destruct Hw as (_ & _ & Hk & _).
    destruct (proj1 (Hk key idx) Hg) as (k0 & Hs & _).
    apply (nth_error_lt _ _ _ Hs). }
  destruct (orderCompact_spec r0 owner Hw0 ltac:(lia))
    as (rc & Hc & _ & C1 & C2 & C3 & C4 & C5 & C6 & _).
  exists r0.
  destruct ((next ord <? 2 * (holes ord + 1))%nat && (32 <? next ord)%nat)
    eqn:B.
  - exists rc. split; [assumption|]. split; [assumption|].
    split; [assumption|]. split; [congruence|].
    assert (T : compacts) by (apply Cond; reflexivity).
    split; [tauto|]. split; [|tauto]. intros _. repeat split; assumption.
  - exists r0. split; [assumption|]. split; [assumption|].
    split; [assumption|]. split; [assumption|].
    assert (F : ~ compacts) by (intros T; apply Cond in T; discriminate).
    split; [|split; [tauto|reflexivity]].
    split; [intros Z0; rewrite Hh in Z0; lia|tauto].
Qed.

Lemma orderDelete_marks_and_compacts_witness :
  order_wf order_33_16 /\
  hamtGet (keyToIdx order_33_16) (num 16) = Some 16%nat /\
  ((Q_of_nat (next order_33_16) * ORDER_COMPACT_RATIO
      < Q_of_nat (holes order_33_16 + 1))%Q /\
   (32 < next order_33_16)%nat) /\
  exists r0 r,
    marked order_33_16 16 r0 /\
    vecGet (idxToKey r0) 16 = Some DELETED /\
    holes r0 = 17%nat /\
    orderDelete order_33_16 None (num 16) = Ok r /\
    holes r = 0%nat /\
    next r = length (orderIter r0) /\
    idxToKey r = List.map Live (orderIter r0) /\
    orderIter r = orderIter r0 /\
    orderEntryIter r = orderEntryIter r0.
Proof.
  assert (G : hamtGet (keyToIdx order_33_16) (num 16) = Some 16%nat)
    by (vm_compute; reflexivity).
  assert (C : (Q_of_nat (next order_33_16) * ORDER_COMPACT_RATIO
                 < Q_of_nat (holes order_33_16 + 1))%Q /\
              (32 < next order_33_16)%nat).
  { split; [vm_compute; reflexivity|vm_compute; lia]. }
  split; [exact order_wf_order_33_16|]. split; [exact G|]. split; [exact C|].
  destruct (orderDelete_marks_and_compacts order_33_16 None (num 16) 16
              order_wf_order_33_16 G)
    as (r0 & r & M & S & Hh & D & Z0 & Y & _).
  destruct (Y C) as (Y1 & Y2 & _ & Y4 & Y5).
  exists r0, r. split; [exact M|]. split; [exact S|].
  split; [rewrite Hh; vm_compute; reflexivity|]. split; [exact D|].
  split; [apply Z0, C|]. repeat split; assumption.
Defined.

(** ** A recipe that writes nothing *)



(** ** Calling a method on a wrapper that was returned *)






(** ** A recipe that throws *)




(** ** Ordered Maps and Sets under a list of edits *)




























